(** * Single-precision vector 10^x (pl/math/v_exp10f_2u4.c)

    A shallow embedding of the AdvSIMD routine [_ZGVnN4v_exp10f] and of its
    two special-case handlers, one per value of [WANT_SIMD_EXCEPT].

    Lanes are kept as the 32-bit patterns the registers hold; the
    floating-point instructions decode a pattern to a [spec_float]
    (binary32: 24 bits of precision, infinities at exponent 128), compute
    with round-to-nearest-even and encode the result again.  NaN operands
    are propagated the way AArch64 does under the default FPCR (no
    default-NaN mode, no flush-to-zero). *)

From Stdlib Require Import ZArith Lia Bool List.
From Stdlib Require Import Floats.SpecFloat.
From Stdlib Require Import QArith Qabs Qpower Qround.
From Stdlib Require Import Reals Lra Qreals.
From Stdlib Require Lqa.

Local Open Scope Z_scope.

(** ** 32-bit unsigned lanes *)

Module U32.

Definition modulus : Z := 2 ^ 32.
Definition ones : Z := 0xffffffff.

Definition wf (a : Z) : Prop := 0 <= a < modulus.

Definition wrap (a : Z) : Z := a mod modulus.

Definition add (a b : Z) : Z := wrap (a + b).
Definition sub (a b : Z) : Z := wrap (a - b).
Definition and (a b : Z) : Z := Z.land a b.
Definition shl (a : Z) (n : Z) : Z := wrap (Z.shiftl a n).
Definition not (a : Z) : Z := Z.lxor a ones.

(** Comparison results are lane masks: all ones or all zeros. *)
Definition mask (b : bool) : Z := if b then ones else 0.

Definition cge (a b : Z) : Z := mask (b <=? a).

(** Bitwise select: bits of [a] where [m] is set, bits of [b] elsewhere. *)
Definition bsl (m a b : Z) : Z := Z.lor (Z.land m a) (Z.land (not m) b).

End U32.

(** ** binary32 *)

Module F32.

Definition prec : Z := 24.
Definition emax : Z := 128.

Definition sign_bit (b : Z) : bool := Z.testbit b 31.
Definition biased_exp (b : Z) : Z := Z.land (Z.shiftr b 23) 0xff.
Definition fraction (b : Z) : Z := Z.land b 0x7fffff.

Definition decode (b : Z) : spec_float :=
  let s := sign_bit b in
  let E := biased_exp b in
  let M := fraction b in
  if E =? 255 then (if M =? 0 then S754_infinity s else S754_nan)
  else if E =? 0 then
    match M with
    | Zpos m => S754_finite s m (-149)
    | _ => S754_zero s
    end
  else
    match M + 2 ^ 23 with
    | Zpos m => S754_finite s m (E - 150)
    | _ => S754_nan
    end.

Definition sign_word (s : bool) : Z := if s then 0x80000000 else 0.

Definition default_nan : Z := 0x7fc00000.

Definition encode (f : spec_float) : Z :=
  match f with
  | S754_zero s => sign_word s
  | S754_infinity s => sign_word s + 0x7f800000
  | S754_nan => default_nan
  | S754_finite s m e =>
      if Zpos m <? 2 ^ 23 then sign_word s + Zpos m
      else sign_word s + (e + 150) * 2 ^ 23 + (Zpos m - 2 ^ 23)
  end.

(** The value [m * 2^e] rounded to binary32: how a literal such as
    [0x1.8p23f] is read. *)
Definition of_scaled (m e : Z) : Z :=
  encode (binary_normalize prec emax m e false).

Definition of_Z (k : Z) : Z := of_scaled k 0.

Definition is_nan (b : Z) : bool :=
  (biased_exp b =? 255) && negb (fraction b =? 0).
Definition is_inf (b : Z) : bool :=
  (biased_exp b =? 255) && (fraction b =? 0).
Definition is_zero (b : Z) : bool :=
  (biased_exp b =? 0) && (fraction b =? 0).
Definition is_finite (b : Z) : bool := negb (biased_exp b =? 255).
Definition is_normal (b : Z) : bool :=
  negb (biased_exp b =? 0) && negb (biased_exp b =? 255).
Definition is_snan (b : Z) : bool := is_nan b && negb (Z.testbit b 22).
Definition is_qnan (b : Z) : bool := is_nan b && Z.testbit b 22.

Definition quiet (b : Z) : Z := Z.lor b 0x00400000.
Definition neg (b : Z) : Z := Z.lxor b 0x80000000.

Definition pinf : Z := 0x7f800000.
Definition ninf : Z := 0xff800000.
Definition pzero : Z := 0.

(** NaN operands: a signalling NaN wins over a quiet one, the first
    operand over the second; the NaN returned is quieted. *)
Definition process_nans2 (a b : Z) : option Z :=
  if is_snan a then Some (quiet a)
  else if is_snan b then Some (quiet b)
  else if is_nan a then Some a
  else if is_nan b then Some b
  else None.

Definition process_nans3 (a b c : Z) : option Z :=
  if is_snan a then Some (quiet a)
  else if is_snan b then Some (quiet b)
  else if is_snan c then Some (quiet c)
  else if is_nan a then Some a
  else if is_nan b then Some b
  else if is_nan c then Some c
  else None.

Definition lift2 (op : spec_float -> spec_float -> spec_float) (a b : Z) : Z :=
  match process_nans2 a b with
  | Some r => r
  | None => encode (op (decode a) (decode b))
  end.

Definition sub : Z -> Z -> Z := lift2 (SFsub prec emax).
Definition mul : Z -> Z -> Z := lift2 (SFmul prec emax).

(** [x * y + a] with a single rounding. *)
Definition SFfma (x y a : spec_float) : spec_float :=
  match x, y with
  | S754_finite sx mx ex, S754_finite sy my ey =>
      match a with
      | S754_finite sa ma ea =>
          let ep := ex + ey in
          let ez := Z.min ep ea in
          binary_normalize prec emax
            (cond_Zopp (xorb sx sy) (Zpos (fst (shl_align (mx * my) ep ez)))
             + cond_Zopp sa (Zpos (fst (shl_align ma ea ez))))
            ez false
      | S754_zero _ => SFmul prec emax x y
      | _ => a
      end
  | _, _ => SFadd prec emax (SFmul prec emax x y) a
  end.

(** FMLA: [a + x * y].  A quiet-NaN addend with an [inf * 0] product
    gives the default NaN. *)
Definition fma (a x y : Z) : Z :=
  match process_nans3 a x y with
  | Some r =>
      if is_qnan a && ((is_inf x && is_zero y) || (is_zero x && is_inf y))
      then default_nan else r
  | None => encode (SFfma (decode x) (decode y) (decode a))
  end.

(** FMLS: [a - x * y], computed as [a + (-x) * y]. *)
Definition fms (a x y : Z) : Z := fma a (neg x) y.

(** FACGT: [|a| > |b|], false when either is a NaN. *)
Definition abs_gt (a b : Z) : bool :=
  SFltb (SFabs (decode b)) (SFabs (decode a)).

(** FCMLE against zero: [a <= 0], false on a NaN. *)
Definition le_zero (a : Z) : bool := SFleb (decode a) (S754_zero false).

(** The exact value of a finite lane. *)
Definition SF2Q (f : spec_float) : Q :=
  match f with
  | S754_finite s m e => inject_Z (cond_Zopp s (Zpos m)) * Qpower 2 e
  | _ => 0
  end.

Definition to_Q (b : Z) : Q := SF2Q (decode b).

(** The magnitude of a finite lane in units of [2^-149], the smallest
    subnormal: an integer read off the exponent and fraction fields. *)
Definition mag (b : Z) : Z :=
  let E := biased_exp b in
  let M := fraction b in
  if E =? 0 then M else (M + 2 ^ 23) * 2 ^ (E - 1).

End F32.

(** ** Four-lane vectors and the intrinsics the routine uses *)

Module Neon.

Record vec : Type := Vec4 { l0 : Z; l1 : Z; l2 : Z; l3 : Z }.

Inductive lane_ix : Type := L0 | L1 | L2 | L3.

Definition lane (v : vec) (i : lane_ix) : Z :=
  match i with
  | L0 => l0 v
  | L1 => l1 v
  | L2 => l2 v
  | L3 => l3 v
  end.

Definition wf (v : vec) : Prop := forall i, U32.wf (lane v i).

(** The [V4] initialiser, [v_f32] and [v_u32]: one value in every lane. *)
Definition V4 (x : Z) : vec := Vec4 x x x x.
Definition v_f32 (x : Z) : vec := V4 x.
Definition v_u32 (x : Z) : vec := V4 x.

Definition map1 (f : Z -> Z) (a : vec) : vec :=
  Vec4 (f (l0 a)) (f (l1 a)) (f (l2 a)) (f (l3 a)).
Definition map2 (f : Z -> Z -> Z) (a b : vec) : vec :=
  Vec4 (f (l0 a) (l0 b)) (f (l1 a) (l1 b)) (f (l2 a) (l2 b)) (f (l3 a) (l3 b)).
Definition map3 (f : Z -> Z -> Z -> Z) (a b c : vec) : vec :=
  Vec4 (f (l0 a) (l0 b) (l0 c)) (f (l1 a) (l1 b) (l1 c))
       (f (l2 a) (l2 b) (l2 c)) (f (l3 a) (l3 b) (l3 c)).

Definition vreinterpretq_u32_f32 (a : vec) : vec := a.
Definition vreinterpretq_f32_u32 (a : vec) : vec := a.

Definition vandq_u32 : vec -> vec -> vec := map2 U32.and.
Definition vaddq_u32 : vec -> vec -> vec := map2 U32.add.
Definition vsubq_u32 : vec -> vec -> vec := map2 U32.sub.
Definition vcgeq_u32 : vec -> vec -> vec := map2 U32.cge.
Definition vshlq_n_u32 (a : vec) (n : Z) : vec := map1 (fun x => U32.shl x n) a.

Definition vmulq_f32 : vec -> vec -> vec := map2 F32.mul.
Definition vsubq_f32 : vec -> vec -> vec := map2 F32.sub.
(** [vfmaq_f32 (a, b, c)] is [a + b * c], [vfmsq_f32 (a, b, c)] is
    [a - b * c]. *)
Definition vfmaq_f32 : vec -> vec -> vec -> vec := map3 F32.fma.
Definition vfmsq_f32 : vec -> vec -> vec -> vec := map3 F32.fms.

Definition vcagtq_f32 : vec -> vec -> vec :=
  map2 (fun a b => U32.mask (F32.abs_gt a b)).
Definition vclezq_f32 : vec -> vec :=
  map1 (fun a => U32.mask (F32.le_zero a)).

Definition vbslq_f32 : vec -> vec -> vec -> vec := map3 U32.bsl.

(** Modelled from the spec: [v_any_u32] of v_math.h, which is not among
    the sources; the dispatch takes the special path "if any lane is
    flagged". *)
Definition v_any_u32 (p : vec) : bool :=
  negb (l0 p =? 0) || negb (l1 p =? 0) || negb (l2 p =? 0) || negb (l3 p =? 0).

(** Modelled from the spec: [v_call_f32] of v_math.h, which is not among
    the sources; flagged lanes are "recomputed by invoking the scalar
    reference routine per flagged lane and substituting its result". *)
Definition v_call_f32 (f : Z -> Z) (x y p : vec) : vec :=
  map3 (fun xi yi pi => if pi =? 0 then yi else f xi) x y p.

End Neon.

Import Neon.

(** ** The polynomial, over any carrier with a product and a fused
    multiply-add ([fma a b c] is [a + b * c]) *)

Section Estrin.

Context {T : Type}.
Variable mul : T -> T -> T.
Variable fma : T -> T -> T -> T.
Variable C : nat -> T.

Definition estrin (r : T) : T :=
  let r2 := mul r r in
  let p := fma (C 3) (C 4) r in
  let q := fma (C 1) (C 2) r in
  let q := fma q p r2 in
  let p := mul (C 0) r in
  fma p q r2.

End Estrin.

(** ** The constant table *)

Definition ScaleBound : Z := F32.of_Z 192.

Record data_t : Type := {
  poly : list vec;
  shift : vec;
  log10_2 : vec;
  log2_10_hi : vec;
  log2_10_lo : vec;
  (* Present only when WANT_SIMD_EXCEPT is off. *)
  scale_thresh : vec
}.

Definition data : data_t := {|
  poly := V4 (F32.of_scaled 0x126bb16 (-23))    (* 0x1.26bb16p+1f *)
       :: V4 (F32.of_scaled 0x15350d2 (-23))    (* 0x1.5350d2p+1f *)
       :: V4 (F32.of_scaled 0x104744a (-23))    (* 0x1.04744ap+1f *)
       :: V4 (F32.of_scaled 0x12d8176 (-24))    (* 0x1.2d8176p+0f *)
       :: V4 (F32.of_scaled 0x112b41a (-25))    (* 0x1.12b41ap-1f *)
       :: nil;
  shift := V4 (F32.of_scaled 0x18 19);          (* 0x1.8p23f *)
  log10_2 := V4 (F32.of_scaled 0x1a934f (-19)); (* 0x1.a934fp+1 *)
  log2_10_hi := V4 (F32.of_scaled 0x1344136 (-26));   (* 0x1.344136p-2 *)
  log2_10_lo := V4 (F32.of_scaled (-0x1ec10c) (-47)); (* -0x1.ec10cp-27 *)
  scale_thresh := V4 ScaleBound
|}.

Definition C (i : nat) : vec := nth i (poly data) (V4 0).
Definition ExponentBias : vec := v_u32 0x3f800000.

(** The part of the routine both builds share, from the reduction to the
    polynomial (lines 105-122). *)
Record core_t : Type := {
  core_z : vec;
  core_n : vec;
  core_r : vec;
  core_e : vec;
  core_scale : vec;
  core_poly : vec
}.

Definition core (x : vec) : core_t :=
  let z := vfmaq_f32 (shift data) x (log10_2 data) in
  let n := vsubq_f32 z (shift data) in
  let r := vfmsq_f32 x n (log2_10_hi data) in
  let r := vfmsq_f32 r n (log2_10_lo data) in
  let e := vshlq_n_u32 (vreinterpretq_u32_f32 z) 23 in
  let scale := vreinterpretq_f32_u32 (vaddq_u32 e ExponentBias) in
  let poly := estrin vmulq_f32 vfmaq_f32 C r in
  {| core_z := z; core_n := n; core_r := r; core_e := e; core_scale := scale;
     core_poly := poly |}.

(** ** WANT_SIMD_EXCEPT = 1 *)

Module Strict.

Definition SpecialBound : Z := F32.of_Z 38.
Definition TinyBound : vec := v_u32 0x20000000.
Definition BigBound : vec := v_u32 0x42180000.
Definition Thres : vec := v_u32 0x22180000.

Section WithScalar.

(** The scalar routine of the library, on bit patterns. *)
Variable exp10f : Z -> Z.

Definition special_case (x y cmp : vec) : vec :=
  v_call_f32 exp10f x y cmp.

Definition classify (x : vec) : vec :=
  vcgeq_u32
    (vsubq_u32 (vandq_u32 (vreinterpretq_u32_f32 x) (v_u32 0x7fffffff))
               TinyBound)
    Thres.

(** The input the shared arithmetic sees. *)
Definition masked (x : vec) : vec :=
  let cmp := classify x in
  if v_any_u32 cmp then vbslq_f32 cmp (v_f32 (F32.of_Z 1)) x else x.

(** The locals of [exp10] with what it returns: the mask [cmp], the copy
    [xm] of the input, the input [x] after the masking, the shared
    arithmetic on it, the ordinary value [y] and the return value. *)
Record locals_t : Type := {
  st_cmp : vec;
  st_xm : vec;
  st_x : vec;
  st_core : core_t;
  st_y : vec;
  st_ret : vec
}.

Definition locals (x : vec) : locals_t :=
  let cmp := classify x in
  let xm := x in
  let x := masked x in
  let k := core x in
  let y := vfmaq_f32 (core_scale k) (core_poly k) (core_scale k) in
  {| st_cmp := cmp; st_xm := xm; st_x := x; st_core := k; st_y := y;
     st_ret := if v_any_u32 cmp then special_case xm y cmp else y |}.

Definition exp10 (x : vec) : vec := st_ret (locals x).

End WithScalar.

End Strict.

(** ** WANT_SIMD_EXCEPT = 0 *)

Module Fast.

Definition SpecialBound : Z := F32.of_Z 126.
Definition SpecialOffset : vec := v_u32 0x82000000.
Definition SpecialBias : vec := v_u32 0x7f000000.

Record special_t : Type := {
  sp_s1 : vec;
  sp_s2 : vec;
  sp_cmp2 : vec;
  sp_r2 : vec;
  sp_r1 : vec;
  sp_r0 : vec
}.

(** The locals of [special_case]. *)
Definition special_locals (poly n e scale : vec) : special_t :=
  let b := vandq_u32 (vclezq_f32 n) SpecialOffset in
  let s1 := vreinterpretq_f32_u32 (vaddq_u32 b SpecialBias) in
  let s2 := vreinterpretq_f32_u32 (vsubq_u32 e b) in
  let cmp2 := vcagtq_f32 n (scale_thresh data) in
  let r2 := vmulq_f32 s1 s1 in
  let r1 := vmulq_f32 (vfmaq_f32 s2 poly s2) s1 in
  let r0 := vfmaq_f32 scale poly scale in
  {| sp_s1 := s1; sp_s2 := s2; sp_cmp2 := cmp2;
     sp_r2 := r2; sp_r1 := r1; sp_r0 := r0 |}.

Definition special_case (poly n e cmp1 scale : vec) : vec :=
  let l := special_locals poly n e scale in
  let r := vbslq_f32 cmp1 (sp_r1 l) (sp_r0 l) in
  vbslq_f32 (sp_cmp2 l) (sp_r2 l) r.

Definition classify (n : vec) : vec := vcagtq_f32 n (v_f32 SpecialBound).

Definition exp10 (x : vec) : vec :=
  let k := core x in
  let cmp := classify (core_n k) in
  if v_any_u32 cmp
  then special_case (core_poly k) (core_n k) (core_e k) cmp (core_scale k)
  else vfmaq_f32 (core_scale k) (core_poly k) (core_scale k).

End Fast.

(** ** One lane at a time

    Every intrinsic of the routine works lane by lane, so each local of the
    vector code has a scalar counterpart; [core_lanes] and the lemmas after
    it show that the vector code computes exactly these on each lane. *)

Module Lane.

Definition c (i : nat) : Z := lane (C i) L0.
Definition shift : Z := lane (shift data) L0.
Definition log10_2 : Z := lane (log10_2 data) L0.
Definition log2_10_hi : Z := lane (log2_10_hi data) L0.
Definition log2_10_lo : Z := lane (log2_10_lo data) L0.

Definition z (x : Z) : Z := F32.fma shift x log10_2.
Definition n (x : Z) : Z := F32.sub (z x) shift.
Definition r (x : Z) : Z :=
  F32.fms (F32.fms x (n x) log2_10_hi) (n x) log2_10_lo.
Definition e (x : Z) : Z := U32.shl (z x) 23.
Definition scale (x : Z) : Z := U32.add (e x) 0x3f800000.
Definition poly (x : Z) : Z := estrin F32.mul F32.fma c (r x).

(** The ordinary return value, [vfmaq_f32 (scale, poly, scale)]. *)
Definition r0 (x : Z) : Z := F32.fma (scale x) (poly x) (scale x).

(** Locals of the fast build's [special_case]. *)
Definition b (x : Z) : Z := U32.and (U32.mask (F32.le_zero (n x))) 0x82000000.
Definition s1 (x : Z) : Z := U32.add (b x) 0x7f000000.
Definition s2 (x : Z) : Z := U32.sub (e x) (b x).
Definition r2 (x : Z) : Z := F32.mul (s1 x) (s1 x).
Definition r1 (x : Z) : Z := F32.mul (F32.fma (s2 x) (poly x) (s2 x)) (s1 x).

Definition cmp1 (x : Z) : bool := F32.abs_gt (n x) Fast.SpecialBound.
Definition cmp2 (x : Z) : bool := F32.abs_gt (n x) ScaleBound.

Definition fast (x : Z) : Z :=
  if cmp2 x then r2 x else if cmp1 x then r1 x else r0 x.

(** The strict build's classification of an input lane. *)
Definition special (x : Z) : bool :=
  0x22180000 <=? U32.sub (U32.and x 0x7fffffff) 0x20000000.

Definition strict (exp10f : Z -> Z) (x : Z) : Z :=
  if special x then exp10f x else r0 x.

End Lane.

(** ** Exact reading of the polynomial and of the constants *)

Definition direct_poly (c : nat -> R) (r : R) : R :=
  (c 0%nat * r + c 1%nat * r ^ 2 + c 2%nat * r ^ 3 + c 3%nat * r ^ 4
   + c 4%nat * r ^ 5)%R.

Definition Rfma (a b c : R) : R := (a + b * c)%R.

Definition log2_of_10 : R := (ln 10 / ln 2)%R.
Definition log10_of_2 : R := (ln 2 / ln 10)%R.

Definition to_R (b : Z) : R := Q2R (F32.to_Q b).

(** ** Checks over a range of integers *)

Definition Zrange (lo : Z) (len : nat) : list Z :=
  map (fun j => lo + Z.of_nat j) (seq 0 len).

(** What [special_case] builds for a lane whose [n] is the integer [k],
    with [e] that integer shifted into the exponent field, and whether it
    is as intended: [b] follows the sign of [k], both factors are normal
    numbers, their exact product is [2^k], and the lane is flagged by the
    first comparison only. *)
Definition factors_ok (k : Z) : bool :=
  let n := F32.of_Z k in
  let e := U32.wrap (k * 2 ^ 23) in
  let b := U32.and (U32.mask (F32.le_zero n)) 0x82000000 in
  let s1 := U32.add b 0x7f000000 in
  let s2 := U32.sub e b in
  (b =? (if k <=? 0 then 0x82000000 else 0))
  && F32.is_normal s1 && F32.is_normal s2
  && Qeq_bool (F32.to_Q s1 * F32.to_Q s2) (Qpower 2 k)
  && F32.abs_gt n Fast.SpecialBound && negb (F32.abs_gt n ScaleBound).

(** What the reduction leaves in [n] and [e] when [z] is [shift + k]. *)
Definition reduction_ok (k : Z) : bool :=
  let z := 0x4b400000 + k in
  (F32.sub z Lane.shift =? F32.of_Z k)
  && (U32.shl z 23 =? U32.wrap (k * 2 ^ 23)).

(** Whether the single-word construction of the ordinary path,
    [asfloat (e + ExponentBias)], is the normal number [2^k]. *)
Definition direct_scale_ok (k : Z) : bool :=
  let sc := U32.add (U32.wrap (k * 2 ^ 23)) 0x3f800000 in
  F32.is_normal sc && Qeq_bool (F32.to_Q sc) (Qpower 2 k).

(** ** Powers of ten between dyadic bounds

    [10^p] for a large [p] is enclosed between two numbers [m * 2^e] whose
    mantissa is kept to about [pow_bits] bits: squaring and multiplying by
    the base as in the binary method, truncating downwards for the lower
    bound and upwards for the upper one. *)

Definition pow_bits : Z := 128.

Definition trunc_lo (me : Z * Z) : Z * Z :=
  let k := Z.max 0 (Z.log2 (fst me) - pow_bits) in
  (fst me / 2 ^ k, snd me + k).

Definition trunc_hi (me : Z * Z) : Z * Z :=
  let k := Z.max 0 (Z.log2 (fst me) - pow_bits) in
  if k =? 0 then me else (fst me / 2 ^ k + 1, snd me + k).

Definition dyadic (me : Z * Z) : Z := fst me * 2 ^ snd me.

Fixpoint pow_lo (b : Z) (p : positive) : Z * Z :=
  match p with
  | xH => (b, 0)
  | xO p' => let x := pow_lo b p' in trunc_lo (fst x * fst x, snd x + snd x)
  | xI p' => let x := pow_lo b p' in trunc_lo (b * (fst x * fst x), snd x + snd x)
  end.

Fixpoint pow_hi (b : Z) (p : positive) : Z * Z :=
  match p with
  | xH => (b, 0)
  | xO p' => let x := pow_hi b p' in trunc_hi (fst x * fst x, snd x + snd x)
  | xI p' => let x := pow_hi b p' in trunc_hi (b * (fst x * fst x), snd x + snd x)
  end.

(** [2^q < b^p], decided on the lower bound of [b^p]. *)
Definition two_pow_below (q : positive) (b : Z) (p : positive) : bool :=
  let x := pow_lo b p in
  (snd x <=? Zpos q) && (2 ^ (Zpos q - snd x) <? fst x).

(** [b^p < 2^q], decided on the upper bound of [b^p]. *)
Definition two_pow_above (q : positive) (b : Z) (p : positive) : bool :=
  let x := pow_hi b p in
  (snd x <=? Zpos q) && (fst x <? 2 ^ (Zpos q - snd x)).

Definition dyadic_ltb (x y : Z * Z) : bool :=
  if snd x <=? snd y then fst x <? fst y * 2 ^ (snd y - snd x)
  else fst x * 2 ^ (snd x - snd y) <? fst y.

(** [b^a * q^n < p^n] and [p^n < b^a * q^n], decided on the bounds. *)
Definition pow_prod_below (b : Z) (a : positive) (q p : Z) (n : positive) : bool :=
  let x := pow_hi b a in
  let y := pow_hi q n in
  dyadic_ltb (fst x * fst y, snd x + snd y) (pow_lo p n).

Definition pow_prod_above (b : Z) (a : positive) (q p : Z) (n : positive) : bool :=
  let x := pow_lo b a in
  let y := pow_lo q n in
  dyadic_ltb (pow_hi p n) (fst x * fst y, snd x + snd y).

(** ** Rounding to nearest, on integers

    [rne m k] is [m / 2^k] rounded to the nearest integer, ties to the
    even one: what the alignment shift of a rounding computes.
    [shr_state m k] is the shift record after [k] single shifts of [m]:
    the quotient, the last bit shifted out, and whether any bit before it
    was set. *)
Definition rne (m k : Z) : Z :=
  let q := m / 2 ^ k in
  match 2 * (m mod 2 ^ k) ?= 2 ^ k with
  | Lt => q
  | Eq => if Z.even q then q else q + 1
  | Gt => q + 1
  end.

Definition shr_state (m k : Z) : shr_record :=
  {| shr_m := m / 2 ^ k;
     shr_r := (0 <? k) && Z.testbit m (k - 1);
     shr_s := (0 <? k) && negb (m mod 2 ^ (k - 1) =? 0) |}.

(** The exponent a binary32 rounding of [m * 2^e] works at, the
    significand it keeps there, and the float packed from the two. *)
Definition round_exp (m e : Z) : Z :=
  fexp F32.prec F32.emax (Zdigits2 m + e).

Definition round_sig (m e : Z) : Z :=
  let E := round_exp m e in
  if E <? e then m * 2 ^ (e - E) else rne m (E - e).

Definition round_result (s : bool) (m E : Z) : spec_float :=
  let m3 := if m =? 2 ^ 24 then 2 ^ 23 else m in
  let e3 := if m =? 2 ^ 24 then E + 1 else E in
  match m3 with
  | Z0 => S754_zero s
  | Zpos p => if e3 <=? 104 then S754_finite s p e3 else S754_infinity s
  | Zneg _ => S754_nan
  end.

(** A float as [decode] returns it: a significand of 24 bits with the top
    one set, or a smaller one at the lowest exponent. *)
Definition canonical (f : spec_float) : Prop :=
  match f with
  | S754_finite _ m e =>
      (2 ^ 23 <= Zpos m < 2 ^ 24 /\ -149 <= e <= 104)
      \/ (Zpos m < 2 ^ 23 /\ e = -149)
  | _ => True
  end.

(** ** Exact values of floats

    The value of a float that is not a NaN, an infinity counting as
    [2^128] with its sign, the first power of two out of range; the
    rationals a finite binary32 can hold; and what it is for a float to be
    the rounding of an exact value: it stays on the same side of every
    representable number, within half a unit in the last place, has the
    sign of the value, and is an infinity once the value is out of
    range. *)
Definition SF2Qx (f : spec_float) : Q :=
  match f with
  | S754_infinity s => inject_Z (cond_Zopp s (2 ^ 128))
  | _ => F32.SF2Q f
  end.

Definition sf_finite (f : spec_float) : bool :=
  match f with
  | S754_zero _ | S754_finite _ _ _ => true
  | _ => false
  end.

Definition sf_sign (f : spec_float) : bool :=
  match f with
  | S754_zero s | S754_infinity s | S754_finite s _ _ => s
  | S754_nan => false
  end.

Definition representable (q : Q) : Prop :=
  exists A a : Z,
    Z.abs A < 2 ^ 24 /\ -149 <= a <= 104 /\ (q == inject_Z A * Qpower 2 a)%Q.

Definition rounds_to (v : Q) (f : spec_float) : Prop :=
  canonical f /\ f <> S754_nan /\
  (forall q, representable q -> (v <= q)%Q -> (SF2Qx f <= q)%Q) /\
  (forall q, representable q -> (q <= v)%Q -> (q <= SF2Qx f)%Q) /\
  (forall j, -125 <= j <= 127 -> (Qabs v < Qpower 2 j)%Q ->
     sf_finite f = true /\ (Qabs (F32.SF2Q f - v) <= Qpower 2 (j - 25))%Q) /\
  ((0 < v)%Q -> sf_sign f = false) /\ ((v < 0)%Q -> sf_sign f = true) /\
  ((inject_Z (2 ^ 128) <= Qabs v)%Q -> sf_finite f = false).

(** ** Polynomials with rational coefficients

    Coefficient lists, lowest degree first, for the bounds on the
    polynomial of the table. *)

Fixpoint peval (p : list Q) (x : Q) : Q :=
  match p with
  | nil => 0%Q
  | a :: q => (a + x * peval q x)%Q
  end.

Fixpoint padd (p q : list Q) : list Q :=
  match p, q with
  | nil, _ => q
  | _, nil => p
  | a :: p', b :: q' => Qred (a + b)%Q :: padd p' q'
  end.

Definition pscale (k : Q) (p : list Q) : list Q := map (fun a => Qred (k * a)%Q) p.

Fixpoint pmul (p q : list Q) : list Q :=
  match p with
  | nil => nil
  | a :: p' => padd (pscale a q) (0%Q :: pmul p' q)
  end.

(** [p (- x)] as a polynomial in [x]. *)
Fixpoint pflip (p : list Q) : list Q :=
  match p with
  | nil => nil
  | a :: q => a :: pscale (- (1))%Q (pflip q)
  end.

(** The exponential series of [c * x] up to degree [N], a polynomial in
    [x], and the same with twice the next term added. *)
Fixpoint exp_coeff (c : Q) (i : nat) : Q :=
  match i with
  | O => 1%Q
  | S j => Qred (exp_coeff c j * (c / inject_Z (Z.of_nat i)))%Q
  end.

Definition exp_lower (c : Q) (N : nat) : list Q :=
  map (exp_coeff c) (seq 0 (S N)).

Definition exp_upper (c : Q) (N : nat) : list Q :=
  map (fun i => if (i <=? N)%nat then exp_coeff c i else (2 * exp_coeff c i)%Q)
      (seq 0 (S (S N))).

(** The series of [t] in nested form, for computing: the terms from
    [k] on divided by the term at [k], [m] of them and then [b]. *)
Fixpoint exp_nest (t : Q) (k m : nat) (b : Q) : Q :=
  match m with
  | O => b
  | S m' => (1 + t / inject_Z (Z.of_nat (S k)) * exp_nest t (S k) m' b)%Q
  end.

(** *** A sign check by cells

    A polynomial with integer coefficients is evaluated with its
    derivative at the left end of each cell [[i, i + 1]]; the second-order
    remainder is bounded from the coefficients. *)

Fixpoint zeval2 (p : list Z) (u : Z) : Z * Z :=
  match p with
  | nil => (0, 0)
  | a :: q => let (v, d) := zeval2 q u in (a + u * v, v + u * d)
  end.

(** Bounds on the value, the derivative and the second-order remainder
    for arguments of magnitude at most [n]. *)
Fixpoint zbounds (p : list Z) (n : Z) : Z * Z * Z :=
  match p with
  | nil => (0, 0, 0)
  | a :: q =>
      let '(M, D, C) := zbounds q n in (Z.abs a + n * M, M + n * D, n * C + D)
  end.

(** Evaluation at a rational point. *)
Definition qzeval (p : list Z) (u : Q) : Q := peval (map inject_Z p) u.

Definition cell_ok (p : list Z) (C : Z) (i : Z) : bool :=
  let (v, d) := zeval2 p i in 0 <=? v + Z.min 0 d - C.

Definition cells_ok (p : list Z) (n : nat) : bool :=
  let '(_, _, C) := zbounds p (Z.of_nat n) in
  forallb (cell_ok p C) (Zrange 0 n).

(** The coefficients of [w * p (s * u)] as a polynomial in [u], rounded
    down to integers. *)
Fixpoint zscale_from (w s : Q) (p : list Q) : list Z :=
  match p with
  | nil => nil
  | a :: q => Qfloor (w * a)%Q :: zscale_from (Qred (w * s)%Q) s q
  end.

(** Whether [p] is non-negative on [[0, B]], checked on [n] cells with
    the coefficients scaled by [K]. *)
Definition nonneg_on (p : list Q) (B : Q) (n : nat) (K : Z) : bool :=
  cells_ok (zscale_from (inject_Z K) (Qred (B / inject_Z (Z.of_nat n))%Q) p) n.

(** *** The polynomial of the table against [10^r] *)

(** Rational bounds on [ln 2] and [ln 10]. *)
Definition ln2_lo : Q := 693147180559 # 1000000000000.
Definition ln2_hi : Q := 693147180560 # 1000000000000.
Definition ln10_lo : Q := 2302585092994 # 1000000000000.
Definition ln10_hi : Q := 2302585092995 # 1000000000000.

(** [1 + poly (r)] of the source's comment, with the coefficients of the
    table. *)
Definition one_plus_poly : list Q :=
  1%Q :: map (fun i => Qred (F32.to_Q (Lane.c i))) (seq 0 5).

(** The bound on the reduced argument and the relative error shown for
    the polynomial on it. *)
Definition reduced_bound : Q := 150517 # 1000000.
Definition rel_eps : Q := 99 # 1073741824.

(** The four polynomials whose sign on [[0, reduced_bound]] gives the
    error bound: above and below [10^r], for [r >= 0] and, in [- r], for
    [r <= 0]. *)
Definition above_pos : list Q :=
  padd (pscale (1 + rel_eps)%Q (exp_lower ln10_lo 10))
       (pscale (- (1))%Q one_plus_poly).
Definition below_pos : list Q :=
  padd one_plus_poly (pscale (- (1 - rel_eps))%Q (exp_upper ln10_hi 10)).
Definition above_neg : list Q :=
  padd ((1 + rel_eps)%Q :: nil)
       (pscale (- (1))%Q (pmul (pflip one_plus_poly) (exp_upper ln10_hi 10))).
Definition below_neg : list Q :=
  padd (pmul (pflip one_plus_poly) (exp_lower ln10_lo 10))
       ((- (1 - rel_eps))%Q :: nil).

(** * Properties *)

(** ** Lane plumbing *)

Lemma lane_V4 (a : Z) (i : lane_ix) : lane (V4 a) i = a.
Proof. destruct i; reflexivity. Qed.

Lemma lane_map1 f a i : lane (map1 f a) i = f (lane a i).
Proof. destruct i; reflexivity. Qed.

Lemma lane_map2 f a b i : lane (map2 f a b) i = f (lane a i) (lane b i).
Proof. destruct i; reflexivity. Qed.

Lemma lane_map3 f a b c i :
  lane (map3 f a b c) i = f (lane a i) (lane b i) (lane c i).
Proof. destruct i; reflexivity. Qed.

Lemma v_any_u32_false (p : vec) :
  v_any_u32 p = false <-> forall i, lane p i = 0.
Proof.
  unfold v_any_u32. rewrite !orb_false_iff, !negb_false_iff, !Z.eqb_eq. split.
  - intros [[[H0 H1] H2] H3] i. destruct i; assumption.
  - intros H. repeat split; [apply (H L0) | apply (H L1) | apply (H L2) | apply (H L3)].
Qed.

Lemma v_any_u32_lane (p : vec) (i : lane_ix) :
  lane p i <> 0 -> v_any_u32 p = true.
Proof.
  intros H. destruct (v_any_u32 p) eqn:E; [reflexivity|].
  exfalso. apply H. apply v_any_u32_false. exact E.
Qed.

(** ** Words *)

Lemma wrap_wf (a : Z) : U32.wf (U32.wrap a).
Proof. unfold U32.wf, U32.wrap, U32.modulus. apply Z.mod_pos_bound. lia. Qed.

Lemma land_ones32 (a : Z) : U32.wf a -> Z.land U32.ones a = a.
Proof.
  intros H. rewrite Z.land_comm. change U32.ones with (Z.ones 32).
  rewrite Z.land_ones by lia. apply Z.mod_small. exact H.
Qed.

Lemma bsl_ones (a b : Z) : U32.wf a -> U32.bsl U32.ones a b = a.
Proof.
  intros H. unfold U32.bsl, U32.not. rewrite Z.lxor_nilpotent, Z.land_0_l, Z.lor_0_r.
  apply land_ones32. exact H.
Qed.

Lemma bsl_zero (a b : Z) : U32.wf b -> U32.bsl 0 a b = b.
Proof.
  intros H. unfold U32.bsl, U32.not. rewrite Z.land_0_l, Z.lxor_0_l, Z.lor_0_l.
  apply land_ones32. exact H.
Qed.

Lemma bsl_mask (c : bool) (a b : Z) :
  U32.wf a -> U32.wf b -> U32.bsl (U32.mask c) a b = if c then a else b.
Proof. intros Ha Hb. destruct c; cbn [U32.mask]; [apply bsl_ones | apply bsl_zero]; assumption. Qed.

(** ** Fields of a 32-bit pattern *)

Lemma biased_exp_div (b : Z) : F32.biased_exp b = (b / 2 ^ 23) mod 2 ^ 8.
Proof.
  unfold F32.biased_exp. rewrite Z.shiftr_div_pow2 by lia.
  change 0xff with (Z.ones 8). rewrite Z.land_ones by lia. reflexivity.
Qed.

Lemma fraction_mod (b : Z) : F32.fraction b = b mod 2 ^ 23.
Proof.
  unfold F32.fraction. change 0x7fffff with (Z.ones 23).
  rewrite Z.land_ones by lia. reflexivity.
Qed.

Lemma sign_bit_ge (b : Z) : U32.wf b -> F32.sign_bit b = (2 ^ 31 <=? b).
Proof.
  unfold U32.wf, U32.modulus, F32.sign_bit. intros H.
  rewrite Z.testbit_eqb by lia.
  destruct (Z.leb_spec (2 ^ 31) b) as [Hb|Hb].
  - replace (b / 2 ^ 31) with 1 by (apply Z.div_unique with (r := b - 2 ^ 31); lia).
    reflexivity.
  - rewrite Z.div_small by lia. reflexivity.
Qed.

Lemma biased_exp_range (b : Z) : 0 <= F32.biased_exp b < 256.
Proof. rewrite biased_exp_div. change 256 with (2 ^ 8). apply Z.mod_pos_bound. lia. Qed.

Lemma fraction_range (b : Z) : 0 <= F32.fraction b < 2 ^ 23.
Proof. rewrite fraction_mod. apply Z.mod_pos_bound. lia. Qed.

(** A well-formed pattern is its three fields laid side by side. *)
Lemma fields_eq (b : Z) :
  U32.wf b ->
  b = F32.sign_word (F32.sign_bit b) + F32.biased_exp b * 2 ^ 23 + F32.fraction b.
Proof.
  intros H. rewrite sign_bit_ge, biased_exp_div, fraction_mod by exact H.
  unfold U32.wf, U32.modulus in H.
  pose proof (Z.div_mod b (2 ^ 23) ltac:(lia)) as Hd.
  pose proof (Z.mod_pos_bound b (2 ^ 23) ltac:(lia)) as Hm.
  assert (0 <= b / 2 ^ 23 < 2 ^ 9) as Hq.
  { split; [apply Z.div_pos; lia | apply Z.div_lt_upper_bound; lia]. }
  destruct (Z.leb_spec (2 ^ 31) b) as [Hb|Hb]; cbn [F32.sign_word].
  - assert (2 ^ 8 <= b / 2 ^ 23) by (apply Z.div_le_lower_bound; lia).
    replace ((b / 2 ^ 23) mod 2 ^ 8) with (b / 2 ^ 23 - 2 ^ 8)
      by (apply Z.mod_unique with (q := 1); lia).
    lia.
  - assert (b / 2 ^ 23 < 2 ^ 8) by (apply Z.div_lt_upper_bound; lia).
    rewrite (Z.mod_small (b / 2 ^ 23)) by lia. lia.
Qed.

(** ** Rounding stays inside the format *)

Definition sf_ok (f : spec_float) : Prop :=
  match f with
  | S754_finite _ m e => Zpos m < 2 ^ 24 /\ -149 <= e <= 104
  | _ => True
  end.

Lemma digits2_pos_size (m : positive) : digits2_pos m = Pos.size m.
Proof. induction m; cbn; congruence. Qed.

Lemma Zdigits2_bounds (m : positive) :
  2 ^ (Zdigits2 (Zpos m) - 1) <= Zpos m < 2 ^ Zdigits2 (Zpos m).
Proof.
  cbn [Zdigits2]. rewrite digits2_pos_size.
  pose proof (Pos.size_gt m) as Hgt. pose proof (Pos.size_le m) as Hle.
  apply Pos2Z.pos_lt_pos in Hgt. apply Pos2Z.pos_le_pos in Hle.
  rewrite Pos2Z.inj_pow in Hgt, Hle.
  split; [|exact Hgt].
  replace (2 ^ Z.pos (Pos.size m)) with (2 * 2 ^ (Z.pos (Pos.size m) - 1)) in Hle.
  - change (Z.pos m~0) with (2 * Z.pos m) in Hle. lia.
  - rewrite <- Z.pow_succ_r by lia. f_equal. lia.
Qed.

Lemma shr_m_shr_1 (mrs : shr_record) :
  0 <= shr_m mrs -> shr_m (shr_1 mrs) = shr_m mrs / 2.
Proof.
  destruct mrs as [m r s]. cbn [shr_m]. intros Hm.
  destruct m as [|[p|p|]|p]; cbn [shr_1 shr_m];
    try reflexivity; try lia.
  - rewrite Pos2Z.pos_xI. apply Z.div_unique with (r := 1); lia.
  - rewrite Pos2Z.pos_xO. apply Z.div_unique with (r := 0); lia.
Qed.

Lemma shr_m_iter (p : positive) (mrs : shr_record) :
  0 <= shr_m mrs ->
  shr_m (SpecFloat.iter_pos shr_1 p mrs) = shr_m mrs / 2 ^ Zpos p.
Proof.
  revert mrs. induction p as [p IH|p IH|]; intros mrs Hm; cbn [SpecFloat.iter_pos].
  - assert (0 <= shr_m (shr_1 mrs)) as H1
        by (rewrite shr_m_shr_1 by exact Hm; apply Z.div_pos; lia).
    assert (0 <= shr_m (SpecFloat.iter_pos shr_1 p (shr_1 mrs))) as H2
        by (rewrite IH by exact H1; apply Z.div_pos; lia).
    rewrite IH, IH, shr_m_shr_1 by assumption.
    rewrite !Z.div_div by lia. f_equal.
    replace (Z.pos p~1) with (1 + Z.pos p + Z.pos p) by lia.
    rewrite !Z.pow_add_r by lia. change (2 ^ 1) with 2. ring.
  - assert (0 <= shr_m (SpecFloat.iter_pos shr_1 p mrs)) as H2
        by (rewrite IH by exact Hm; apply Z.div_pos; lia).
    rewrite IH, IH by assumption.
    rewrite Z.div_div by lia. f_equal.
    replace (Z.pos p~0) with (Z.pos p + Z.pos p) by lia.
    rewrite Z.pow_add_r by lia. reflexivity.
  - rewrite shr_m_shr_1 by exact Hm. reflexivity.
Qed.

Lemma shr_m_of_loc (m : Z) (l : location) : shr_m (shr_record_of_loc m l) = m.
Proof. destruct l as [|[| |]]; reflexivity. Qed.

Lemma Zdigits2_gt (m : Z) : 0 <= m -> m < 2 ^ Zdigits2 m.
Proof.
  destruct m as [|p|p]; intros H; [cbn; lia | apply Zdigits2_bounds | lia].
Qed.

(** One alignment step: the mantissa fits in 24 bits, the exponent is at
    least [emin], and the mantissa was divided by the power of two the
    exponent gained. *)
Lemma shr_fexp_bounds (m e : Z) (l : location) :
  0 <= m ->
  let r := shr_fexp F32.prec F32.emax m e l in
  0 <= shr_m (fst r) < 2 ^ 24 /\ -149 <= snd r /\ e <= snd r /\
  shr_m (fst r) = m / 2 ^ (snd r - e) /\
  snd r = Z.max e (fexp F32.prec F32.emax (Zdigits2 m + e)).
Proof.
  intros Hm. unfold shr_fexp, shr.
  pose proof (Zdigits2_gt m Hm) as Hd.
  assert (0 <= Zdigits2 m) as Hd0 by (destruct m; cbn; lia).
  set (d := Zdigits2 m) in *.
  unfold fexp, emin, F32.prec, F32.emax.
  destruct (Z.max (d + e - 24) (3 - 128 - 24) - e) as [|n|n] eqn:En; cbn [fst snd].
  - rewrite shr_m_of_loc, Z.sub_diag, Z.div_1_r.
    assert (m < 2 ^ 24) by (apply Z.lt_le_trans with (1 := Hd); apply Z.pow_le_mono_r; lia).
    lia.
  - rewrite shr_m_iter by (rewrite shr_m_of_loc; exact Hm).
    rewrite shr_m_of_loc.
    replace (e + Z.pos n - e) with (Z.pos n) by lia.
    split; [split|].
    + apply Z.div_pos; lia.
    + apply Z.div_lt_upper_bound; [lia|].
      rewrite <- Z.pow_add_r by lia.
      apply Z.lt_le_trans with (1 := Hd). apply Z.pow_le_mono_r; lia.
    + lia.
  - rewrite shr_m_of_loc, Z.sub_diag, Z.div_1_r.
    assert (m < 2 ^ 24) by (apply Z.lt_le_trans with (1 := Hd); apply Z.pow_le_mono_r; lia).
    lia.
Qed.

Lemma round_nearest_even_cases (m : Z) (l : location) :
  round_nearest_even m l = m \/ round_nearest_even m l = m + 1.
Proof. destruct l as [|[| |]]; cbn; try destruct (Z.even m); auto. Qed.

Lemma binary_round_aux_ok (s : bool) (m e : Z) (l : location) :
  0 <= m -> sf_ok (binary_round_aux F32.prec F32.emax s m e l).
Proof.
  intros Hm. unfold binary_round_aux.
  pose proof (shr_fexp_bounds m e l Hm) as H1. cbv zeta in H1.
  destruct (shr_fexp F32.prec F32.emax m e l) as [mrs1 e1]. cbn [fst snd] in H1.
  destruct H1 as (Hm1 & He1 & _ & _ & _).
  set (m2 := round_nearest_even (shr_m mrs1) (loc_of_shr_record mrs1)).
  assert (0 <= m2 <= 2 ^ 24) as Hm2
      by (destruct (round_nearest_even_cases (shr_m mrs1) (loc_of_shr_record mrs1));
          unfold m2; lia).
  pose proof (shr_fexp_bounds m2 e1 loc_Exact (proj1 Hm2)) as H2. cbv zeta in H2.
  destruct (shr_fexp F32.prec F32.emax m2 e1 loc_Exact) as [mrs2 e2]. cbn [fst snd] in H2.
  destruct H2 as (Hm3 & He2 & _ & _ & _).
  destruct (shr_m mrs2) as [|p|p] eqn:Ep; cbn; [exact I | | exact I].
  destruct (Z.leb_spec e2 104) as [Hle|Hgt]; cbn; [lia | exact I].
Qed.

Lemma binary_normalize_ok (m e : Z) (sz : bool) :
  sf_ok (binary_normalize F32.prec F32.emax m e sz).
Proof.
  destruct m as [|p|p]; cbn [binary_normalize]; [exact I| |];
    unfold binary_round;
    destruct (shl_align _ _ _) as [mz ez]; apply binary_round_aux_ok; lia.
Qed.

Lemma decode_ok (b : Z) : sf_ok (F32.decode b).
Proof.
  unfold F32.decode.
  pose proof (biased_exp_range b) as HE. pose proof (fraction_range b) as HM.
  destruct (Z.eqb_spec (F32.biased_exp b) 255) as [E1|E1].
  - destruct (F32.fraction b =? 0); exact I.
  - destruct (Z.eqb_spec (F32.biased_exp b) 0) as [E0|E0].
    + destruct (F32.fraction b) as [|p|p]; cbn; try exact I. lia.
    + destruct (F32.fraction b + 2 ^ 23) as [|p|p] eqn:Ep; cbn; try exact I. lia.
Qed.

Lemma encode_wf (f : spec_float) : sf_ok f -> U32.wf (F32.encode f).
Proof.
  unfold U32.wf, U32.modulus.
  destruct f as [s|s| |s m e]; cbn [sf_ok F32.encode]; intros H.
  - destruct s; cbv [F32.sign_word]; lia.
  - destruct s; cbv [F32.sign_word]; lia.
  - cbv [F32.default_nan]; lia.
  - destruct (Z.ltb_spec (Z.pos m) (2 ^ 23)); destruct s; cbn [F32.sign_word]; lia.
Qed.

Lemma SFmul_ok (x y : spec_float) : sf_ok (SFmul F32.prec F32.emax x y).
Proof.
  destruct x as [sx|sx| |sx mx ex], y as [sy|sy| |sy my ey]; cbn [SFmul]; try exact I.
  apply binary_round_aux_ok. lia.
Qed.

Lemma SFadd_ok (x y : spec_float) :
  sf_ok x -> sf_ok y -> sf_ok (SFadd F32.prec F32.emax x y).
Proof.
  intros Hx Hy.
  destruct x as [sx|sx| |sx mx ex], y as [sy|sy| |sy my ey]; cbn [SFadd];
    try exact I; try assumption;
    try (destruct sx, sy; exact I).
  apply binary_normalize_ok.
Qed.

Lemma SFsub_ok (x y : spec_float) :
  sf_ok x -> sf_ok y -> sf_ok (SFsub F32.prec F32.emax x y).
Proof.
  intros Hx Hy.
  destruct x as [sx|sx| |sx mx ex], y as [sy|sy| |sy my ey]; cbn [SFsub];
    try exact I; try assumption;
    try (destruct sx, sy; exact I).
  apply binary_normalize_ok.
Qed.

Lemma SFfma_ok (x y a : spec_float) : sf_ok a -> sf_ok (F32.SFfma x y a).
Proof.
  intros Ha. unfold F32.SFfma.
  destruct x as [sx|sx| |sx mx ex]; try (apply SFadd_ok; [apply SFmul_ok | exact Ha]).
  destruct y as [sy|sy| |sy my ey]; try (apply SFadd_ok; [apply SFmul_ok | exact Ha]).
  destruct a as [sa|sa| |sa ma ea]; try exact I.
  - apply SFmul_ok.
  - apply binary_normalize_ok.
Qed.

(** ** Every operation returns a 32-bit pattern *)

Lemma wf_log2 (a : Z) : U32.wf a <-> 0 <= a /\ Z.log2 a < 32.
Proof.
  unfold U32.wf, U32.modulus. split.
  - intros [H0 H1]. split; [exact H0|].
    destruct (Z.eq_dec a 0) as [->|Hn]; [cbn; lia|].
    apply Z.log2_lt_pow2; lia.
  - intros [H0 H1]. split; [exact H0|].
    destruct (Z.eq_dec a 0) as [->|Hn]; [lia|].
    apply Z.log2_lt_pow2; lia.
Qed.

Lemma lor_wf (a b : Z) : U32.wf a -> U32.wf b -> U32.wf (Z.lor a b).
Proof.
  rewrite !wf_log2. intros [Ha La] [Hb Lb]. split.
  - apply Z.lor_nonneg; split; assumption.
  - rewrite Z.log2_lor by assumption. lia.
Qed.

Lemma lxor_wf (a b : Z) : U32.wf a -> U32.wf b -> U32.wf (Z.lxor a b).
Proof.
  rewrite !wf_log2. intros [Ha La] [Hb Lb]. split.
  - apply Z.lxor_nonneg; split; intros _; assumption.
  - pose proof (Z.log2_lxor a b Ha Hb). lia.
Qed.

Lemma land_wf (a b : Z) : U32.wf a -> U32.wf b -> U32.wf (Z.land a b).
Proof.
  rewrite !wf_log2. intros [Ha La] [Hb Lb]. split.
  - apply Z.land_nonneg; left; assumption.
  - pose proof (Z.log2_land a b Ha Hb). lia.
Qed.

Lemma ones_wf : U32.wf U32.ones.
Proof. unfold U32.wf, U32.ones, U32.modulus. lia. Qed.

Lemma zero_wf : U32.wf 0.
Proof. unfold U32.wf, U32.modulus. lia. Qed.

Lemma mask_wf (b : bool) : U32.wf (U32.mask b).
Proof. destruct b; [apply ones_wf | apply zero_wf]. Qed.

Lemma bsl_wf (m a b : Z) :
  U32.wf m -> U32.wf a -> U32.wf b -> U32.wf (U32.bsl m a b).
Proof.
  intros Hm Ha Hb. unfold U32.bsl, U32.not.
  apply lor_wf; apply land_wf; try assumption.
  apply lxor_wf; [assumption | apply ones_wf].
Qed.

Lemma quiet_wf (a : Z) : U32.wf a -> U32.wf (F32.quiet a).
Proof. intros H. apply lor_wf; [exact H|]. unfold U32.wf, U32.modulus. lia. Qed.

Lemma neg_wf (a : Z) : U32.wf a -> U32.wf (F32.neg a).
Proof. intros H. apply lxor_wf; [exact H|]. unfold U32.wf, U32.modulus. lia. Qed.

Lemma default_nan_wf : U32.wf F32.default_nan.
Proof. unfold U32.wf, U32.modulus, F32.default_nan. lia. Qed.

Lemma process_nans2_wf (a b r : Z) :
  U32.wf a -> U32.wf b -> F32.process_nans2 a b = Some r -> U32.wf r.
Proof.
  intros Ha Hb. unfold F32.process_nans2.
  repeat match goal with |- context [if ?c then _ else _] => destruct c end;
    intros [= <-]; auto using quiet_wf.
Qed.

Lemma process_nans3_wf (a b c r : Z) :
  U32.wf a -> U32.wf b -> U32.wf c -> F32.process_nans3 a b c = Some r -> U32.wf r.
Proof.
  intros Ha Hb Hc. unfold F32.process_nans3.
  repeat match goal with |- context [if ?c then _ else _] => destruct c end;
    intros [= <-]; auto using quiet_wf.
Qed.

Lemma sub_wf (a b : Z) : U32.wf a -> U32.wf b -> U32.wf (F32.sub a b).
Proof.
  intros Ha Hb. unfold F32.sub, F32.lift2.
  destruct (F32.process_nans2 a b) as [r|] eqn:E.
  - eapply process_nans2_wf; [ | | exact E]; assumption.
  - apply encode_wf, SFsub_ok; apply decode_ok.
Qed.

Lemma mul_wf (a b : Z) : U32.wf a -> U32.wf b -> U32.wf (F32.mul a b).
Proof.
  intros Ha Hb. unfold F32.mul, F32.lift2.
  destruct (F32.process_nans2 a b) as [r|] eqn:E.
  - eapply process_nans2_wf; [ | | exact E]; assumption.
  - apply encode_wf, SFmul_ok.
Qed.

Lemma fma_wf (a x y : Z) :
  U32.wf a -> U32.wf x -> U32.wf y -> U32.wf (F32.fma a x y).
Proof.
  intros Ha Hx Hy. unfold F32.fma.
  destruct (F32.process_nans3 a x y) as [r|] eqn:E.
  - destruct (_ && _); [apply default_nan_wf|].
    eapply process_nans3_wf; [ | | | exact E]; assumption.
  - apply encode_wf, SFfma_ok, decode_ok.
Qed.

Lemma fms_wf (a x y : Z) :
  U32.wf a -> U32.wf x -> U32.wf y -> U32.wf (F32.fms a x y).
Proof. intros Ha Hx Hy. apply fma_wf; auto using neg_wf. Qed.

Lemma of_scaled_wf (m e : Z) : U32.wf (F32.of_scaled m e).
Proof. apply encode_wf, binary_normalize_ok. Qed.


Lemma lane_data (i : lane_ix) :
  lane (shift data) i = Lane.shift /\ lane (log10_2 data) i = Lane.log10_2 /\
  lane (log2_10_hi data) i = Lane.log2_10_hi /\
  lane (log2_10_lo data) i = Lane.log2_10_lo /\
  lane (scale_thresh data) i = ScaleBound.
Proof. destruct i; repeat split; reflexivity. Qed.

Lemma lane_C (k : nat) (i : lane_ix) : lane (C k) i = Lane.c k.
Proof.
  unfold Lane.c, C.
  do 5 (destruct k as [|k]; [destruct i; reflexivity|]).
  destruct k, i; reflexivity.
Qed.

Ltac lanes :=
  repeat first [rewrite lane_map3 | rewrite lane_map2 | rewrite lane_map1
               | rewrite lane_V4 | rewrite lane_C
               | rewrite (proj1 (lane_data _))
               | rewrite (proj1 (proj2 (lane_data _)))
               | rewrite (proj1 (proj2 (proj2 (lane_data _))))
               | rewrite (proj1 (proj2 (proj2 (proj2 (lane_data _)))))
               | rewrite (proj2 (proj2 (proj2 (proj2 (lane_data _)))))].

Lemma core_lanes (x : vec) (i : lane_ix) :
  lane (core_n (core x)) i = Lane.n (lane x i) /\
  lane (core_e (core x)) i = Lane.e (lane x i) /\
  lane (core_scale (core x)) i = Lane.scale (lane x i) /\
  lane (core_poly (core x)) i = Lane.poly (lane x i).
Proof.
  unfold core, Lane.n, Lane.e, Lane.scale, Lane.poly, Lane.r, Lane.z, estrin.
  cbn [core_n core_e core_scale core_poly].
  unfold vfmaq_f32, vfmsq_f32, vsubq_f32, vmulq_f32, vshlq_n_u32, vaddq_u32,
    vreinterpretq_u32_f32, vreinterpretq_f32_u32, ExponentBias, v_u32.
  lanes.
  repeat split; reflexivity.
Qed.

Lemma core_lanes_zr (x : vec) (i : lane_ix) :
  lane (core_z (core x)) i = Lane.z (lane x i) /\
  lane (core_r (core x)) i = Lane.r (lane x i).
Proof.
  unfold core, Lane.n, Lane.r, Lane.z.
  cbn [core_z core_r].
  unfold vfmaq_f32, vfmsq_f32, vsubq_f32.
  lanes.
  repeat split; reflexivity.
Qed.

Ltac unfold_neon :=
  unfold vfmaq_f32, vfmsq_f32, vsubq_f32, vmulq_f32, vshlq_n_u32, vaddq_u32,
    vsubq_u32, vandq_u32, vcgeq_u32, vcagtq_f32, vclezq_f32, vbslq_f32,
    v_call_f32, vreinterpretq_u32_f32, vreinterpretq_f32_u32,
    ExponentBias, v_u32, v_f32.

Lemma ordinary_lane (x : vec) (i : lane_ix) :
  lane (vfmaq_f32 (core_scale (core x)) (core_poly (core x)) (core_scale (core x))) i
  = Lane.r0 (lane x i).
Proof.
  destruct (core_lanes x i) as (_ & _ & Hs & Hp).
  unfold vfmaq_f32 at 1. rewrite lane_map3, Hs, Hp. reflexivity.
Qed.

Lemma fast_classify_lane (x : vec) (i : lane_ix) :
  lane (Fast.classify (core_n (core x))) i = U32.mask (Lane.cmp1 (lane x i)).
Proof.
  destruct (core_lanes x i) as (Hn & _).
  unfold Fast.classify, vcagtq_f32, v_f32. rewrite lane_map2, lane_V4, Hn. reflexivity.
Qed.

Lemma special_locals_lanes (x : vec) (i : lane_ix) :
  let k := core x in
  let l := Fast.special_locals (core_poly k) (core_n k) (core_e k) (core_scale k) in
  lane (Fast.sp_s1 l) i = Lane.s1 (lane x i) /\
  lane (Fast.sp_s2 l) i = Lane.s2 (lane x i) /\
  lane (Fast.sp_cmp2 l) i = U32.mask (Lane.cmp2 (lane x i)) /\
  lane (Fast.sp_r2 l) i = Lane.r2 (lane x i) /\
  lane (Fast.sp_r1 l) i = Lane.r1 (lane x i) /\
  lane (Fast.sp_r0 l) i = Lane.r0 (lane x i).
Proof.
  destruct (core_lanes x i) as (Hn & He & Hs & Hp).
  cbv zeta. unfold Fast.special_locals.
  cbn [Fast.sp_s1 Fast.sp_s2 Fast.sp_cmp2 Fast.sp_r2 Fast.sp_r1 Fast.sp_r0].
  unfold vfmaq_f32, vmulq_f32, vaddq_u32, vsubq_u32, vandq_u32, vcagtq_f32,
    vclezq_f32, vreinterpretq_f32_u32, Fast.SpecialOffset, Fast.SpecialBias, v_u32.
  repeat first [rewrite lane_map3 | rewrite lane_map2 | rewrite lane_map1
               | rewrite lane_V4 | rewrite (proj2 (proj2 (proj2 (proj2 (lane_data _)))))].
  rewrite Hn, He, Hs, Hp.
  unfold Lane.s1, Lane.s2, Lane.b, Lane.r1, Lane.r2, Lane.r0, Lane.cmp2, Lane.s1, Lane.s2, Lane.b.
  repeat split; reflexivity.
Qed.

Lemma strict_classify_lane (x : vec) (i : lane_ix) :
  lane (Strict.classify x) i = U32.mask (Lane.special (lane x i)).
Proof.
  unfold Strict.classify, Strict.TinyBound, Strict.Thres.
  unfold_neon. lanes. reflexivity.
Qed.


(** ** Lanes stay 32 bits wide through the routine *)

Lemma lane_consts_wf :
  U32.wf Lane.shift /\ U32.wf Lane.log10_2 /\ U32.wf Lane.log2_10_hi /\
  U32.wf Lane.log2_10_lo /\ (forall i, U32.wf (Lane.c i)).
Proof.
  split; [apply of_scaled_wf|]. split; [apply of_scaled_wf|].
  split; [apply of_scaled_wf|]. split; [apply of_scaled_wf|].
  intros i. do 5 (destruct i as [|i]; [apply of_scaled_wf|]).
  destruct i; apply zero_wf.
Qed.

Lemma z_wf (x : Z) : U32.wf x -> U32.wf (Lane.z x).
Proof.
  intros H. destruct lane_consts_wf as (Hs & Hl & _).
  unfold Lane.z. apply fma_wf; assumption.
Qed.

Lemma n_wf (x : Z) : U32.wf x -> U32.wf (Lane.n x).
Proof.
  intros H. destruct lane_consts_wf as (Hs & _).
  unfold Lane.n. apply sub_wf; [apply z_wf; exact H | exact Hs].
Qed.

Lemma r_wf (x : Z) : U32.wf x -> U32.wf (Lane.r x).
Proof.
  intros H. pose proof (n_wf x H) as Hn.
  destruct lane_consts_wf as (_ & _ & Hhi & Hlo & _).
  unfold Lane.r. apply fms_wf; [apply fms_wf| |]; assumption.
Qed.

Lemma estrin_wf (r : Z) : U32.wf r -> U32.wf (estrin F32.mul F32.fma Lane.c r).
Proof.
  intros H. pose proof (proj2 (proj2 (proj2 (proj2 lane_consts_wf)))) as Hc.
  unfold estrin.
  apply fma_wf; [apply mul_wf; [apply Hc | exact H] | | apply mul_wf; exact H].
  apply fma_wf; [ | | apply mul_wf; exact H].
  - apply fma_wf; [apply Hc | apply Hc | exact H].
  - apply fma_wf; [apply Hc | apply Hc | exact H].
Qed.

Lemma poly_wf (x : Z) : U32.wf x -> U32.wf (Lane.poly x).
Proof. intros H. apply estrin_wf, r_wf, H. Qed.

Lemma scale_wf (x : Z) : U32.wf (Lane.scale x).
Proof. apply wrap_wf. Qed.

Lemma r0_wf (x : Z) : U32.wf x -> U32.wf (Lane.r0 x).
Proof. intros H. unfold Lane.r0. apply fma_wf; auto using scale_wf, poly_wf. Qed.

Lemma s1_wf (x : Z) : U32.wf (Lane.s1 x).
Proof. apply wrap_wf. Qed.

Lemma s2_wf (x : Z) : U32.wf (Lane.s2 x).
Proof. apply wrap_wf. Qed.

Lemma r1_wf (x : Z) : U32.wf x -> U32.wf (Lane.r1 x).
Proof.
  intros H. unfold Lane.r1. apply mul_wf; [|apply s1_wf].
  apply fma_wf; auto using s2_wf, poly_wf.
Qed.

Lemma r2_wf (x : Z) : U32.wf (Lane.r2 x).
Proof. unfold Lane.r2. apply mul_wf; apply s1_wf. Qed.

(** ** Comparisons against the two thresholds *)

Lemma decode_ScaleBound : F32.decode ScaleBound = S754_finite false 12582912 (-16).
Proof. vm_compute. reflexivity. Qed.

Lemma decode_SpecialBound :
  F32.decode Fast.SpecialBound = S754_finite false 16515072 (-17).
Proof. vm_compute. reflexivity. Qed.

(** A lane beyond [ScaleBound] is beyond [SpecialBound]. *)
Lemma abs_gt_mono (n : Z) :
  F32.abs_gt n ScaleBound = true -> F32.abs_gt n Fast.SpecialBound = true.
Proof.
  unfold F32.abs_gt. rewrite decode_ScaleBound, decode_SpecialBound.
  destruct (F32.decode n) as [s|s| |s m e]; cbn [SFabs]; unfold SFltb, SFcompare;
    try discriminate; try reflexivity.
  destruct (Z.compare_spec (-16) e) as [He|He|He];
    destruct (Z.compare_spec (-17) e) as [He'|He'|He']; try lia; try discriminate;
    try reflexivity.
Qed.

Lemma cmp2_cmp1 (x : Z) : Lane.cmp2 x = true -> Lane.cmp1 x = true.
Proof. apply abs_gt_mono. Qed.

(** ** The fast build, one lane at a time *)

Lemma fast_exp10_lane (x : vec) (i : lane_ix) :
  wf x -> lane (Fast.exp10 x) i = Lane.fast (lane x i).
Proof.
  intros Hx. pose proof (Hx i) as Hi.
  unfold Fast.exp10. cbv zeta.
  destruct (v_any_u32 (Fast.classify (core_n (core x)))) eqn:Hany.
  - unfold Fast.special_case. cbv zeta.
    destruct (special_locals_lanes x i) as (_ & _ & Hc2 & Hr2 & Hr1 & Hr0).
    cbv zeta in Hc2, Hr2, Hr1, Hr0.
    unfold vbslq_f32. rewrite !lane_map3.
    rewrite Hc2, Hr2, Hr1, Hr0, fast_classify_lane.
    unfold Lane.fast.
    rewrite (bsl_mask (Lane.cmp1 (lane x i))) by auto using r1_wf, r0_wf.
    rewrite bsl_mask; [reflexivity | apply r2_wf |].
    destruct (Lane.cmp1 (lane x i)); auto using r1_wf, r0_wf.
  - rewrite ordinary_lane.
    assert (Lane.cmp1 (lane x i) = false) as H1.
    { pose proof (proj1 (v_any_u32_false _) Hany i) as H0.
      rewrite fast_classify_lane in H0.
      destruct (Lane.cmp1 (lane x i)); [discriminate H0 | reflexivity]. }
    assert (Lane.cmp2 (lane x i) = false) as H2.
    { destruct (Lane.cmp2 (lane x i)) eqn:E; [|reflexivity].
      apply cmp2_cmp1 in E. congruence. }
    unfold Lane.fast. rewrite H1, H2. reflexivity.
Qed.

(** ** The strict build, one lane at a time *)

Lemma one_wf : U32.wf (F32.of_Z 1).
Proof. apply of_scaled_wf. Qed.

Lemma masked_lane (x : vec) (i : lane_ix) :
  wf x ->
  lane (Strict.masked x) i
  = if Lane.special (lane x i) then F32.of_Z 1 else lane x i.
Proof.
  intros Hx. unfold Strict.masked. cbv zeta.
  destruct (v_any_u32 (Strict.classify x)) eqn:Hany.
  - unfold vbslq_f32, v_f32. rewrite lane_map3, lane_V4, strict_classify_lane.
    apply bsl_mask; [apply one_wf | apply Hx].
  - pose proof (proj1 (v_any_u32_false _) Hany i) as H0.
    rewrite strict_classify_lane in H0.
    destruct (Lane.special (lane x i)); [discriminate H0 | reflexivity].
Qed.

Lemma strict_exp10_lane (exp10f : Z -> Z) (x : vec) (i : lane_ix) :
  wf x -> lane (Strict.exp10 exp10f x) i = Lane.strict exp10f (lane x i).
Proof.
  intros Hx. unfold Strict.exp10, Strict.locals. cbv zeta. cbn [Strict.st_ret].
  unfold Lane.strict.
  destruct (v_any_u32 (Strict.classify x)) eqn:Hany.
  - unfold Strict.special_case, v_call_f32. rewrite lane_map3.
    rewrite strict_classify_lane, ordinary_lane, masked_lane by exact Hx.
    destruct (Lane.special (lane x i)); reflexivity.
  - pose proof (proj1 (v_any_u32_false _) Hany i) as H0.
    rewrite strict_classify_lane in H0.
    rewrite ordinary_lane, masked_lane by exact Hx.
    destruct (Lane.special (lane x i)); [discriminate H0 | reflexivity].
Qed.

(** ** Magnitudes: the value of a finite lane and the order of patterns *)

Lemma to_Q_mag (b : Z) :
  F32.is_finite b = true ->
  Qabs (F32.to_Q b) == inject_Z (F32.mag b) * Qpower 2 (-149).
Proof.
  unfold F32.is_finite, F32.to_Q, F32.decode, F32.mag. cbv zeta. intros Hf.
  apply negb_true_iff in Hf. rewrite Hf.
  pose proof (biased_exp_range b) as HE. pose proof (fraction_range b) as HM.
  destruct (Z.eqb_spec (F32.biased_exp b) 0) as [E0|E0].
  - destruct (F32.fraction b) as [|m|m]; [reflexivity | | lia].
    cbn [F32.SF2Q]. rewrite Qabs_Qmult.
    rewrite (Qabs_pos (2 ^ (-149))) by (apply Qpower_0_le; discriminate).
    destruct (F32.sign_bit b); reflexivity.
  - destruct (F32.fraction b + 2 ^ 23) as [|m|m] eqn:Em; [lia | | lia].
    cbn [F32.SF2Q]. rewrite Qabs_Qmult.
    rewrite (Qabs_pos (2 ^ (F32.biased_exp b - 150))) by (apply Qpower_0_le; discriminate).
    replace (Qabs (inject_Z (cond_Zopp (F32.sign_bit b) (Z.pos m))))
      with (inject_Z (Z.pos m)) by (destruct (F32.sign_bit b); reflexivity).
    rewrite inject_Z_mult, Zpower_Qpower by lia.
    replace (F32.biased_exp b - 150)%Z with ((F32.biased_exp b - 1) + (-149))%Z by lia.
    rewrite Qpower_plus by discriminate.
    change (inject_Z 2) with 2%Q. ring.
Qed.

(** Among finite lanes the magnitude grows with the pattern (sign bit
    cleared): this is what lets an integer comparison classify floats. *)
Lemma mag_mono (a b : Z) :
  F32.is_finite a = true -> F32.is_finite b = true ->
  (F32.biased_exp a * 2 ^ 23 + F32.fraction a
   < F32.biased_exp b * 2 ^ 23 + F32.fraction b
   <-> F32.mag a < F32.mag b).
Proof.
  unfold F32.is_finite, F32.mag. cbv zeta. intros _ _.
  pose proof (biased_exp_range a) as HEa. pose proof (fraction_range a) as HMa.
  pose proof (biased_exp_range b) as HEb. pose proof (fraction_range b) as HMb.
  set (Ea := F32.biased_exp a) in *. set (Ma := F32.fraction a) in *.
  set (Eb := F32.biased_exp b) in *. set (Mb := F32.fraction b) in *.
  assert (forall E, 1 <= E -> 2 ^ (E - 1) * 2 = 2 ^ E) as Hstep.
  { intros E HE. replace E with (Z.succ (E - 1)) at 2 by lia.
    rewrite Z.pow_succ_r by lia. ring. }
  assert (forall E E', 1 <= E -> E < E' -> 2 * 2 ^ (E - 1) <= 2 ^ (E' - 1)) as Hlt.
  { intros E E' H1 H2. rewrite Z.mul_comm, Hstep by lia.
    apply Z.pow_le_mono_r; lia. }
  assert (forall E, 1 <= E -> 1 <= 2 ^ (E - 1)) as Hpos.
  { intros E HE. change 1 with (2 ^ 0) at 1. apply Z.pow_le_mono_r; lia. }
  destruct (Z.eqb_spec Ea 0) as [Ea0|Ea0]; destruct (Z.eqb_spec Eb 0) as [Eb0|Eb0].
  - lia.
  - pose proof (Hpos Eb ltac:(lia)). split; intros _; nia.
  - pose proof (Hpos Ea ltac:(lia)). split; intros H'; nia.
  - destruct (Z.lt_trichotomy Ea Eb) as [H|[H|H]].
    + pose proof (Hlt Ea Eb ltac:(lia) H). pose proof (Hpos Ea ltac:(lia)).
      split; intros _; nia.
    + rewrite H. pose proof (Hpos Eb ltac:(lia)). split; intros H'; nia.
    + pose proof (Hlt Eb Ea ltac:(lia) H). pose proof (Hpos Eb ltac:(lia)).
      split; intros H'; nia.
Qed.

(** The pattern with the sign bit cleared, by fields. *)
Lemma and_abs_fields (x : Z) :
  U32.wf x ->
  U32.and x 0x7fffffff = F32.biased_exp x * 2 ^ 23 + F32.fraction x.
Proof.
  intros Hx. unfold U32.and. change 0x7fffffff with (Z.ones 31).
  rewrite Z.land_ones by lia.
  pose proof (fields_eq x Hx) as Hf.
  pose proof (biased_exp_range x) as HE. pose proof (fraction_range x) as HM.
  symmetry.
  apply Z.mod_unique with (q := if F32.sign_bit x then 1 else 0); [lia|].
  rewrite Hf at 1. destruct (F32.sign_bit x); cbn [F32.sign_word]; lia.
Qed.

(** The classification test of the strict build, on the cleared pattern. *)
Lemma special_iff (x : Z) :
  U32.wf x ->
  (Lane.special x = true <->
   U32.and x 0x7fffffff < 0x20000000 \/ 0x42180000 <= U32.and x 0x7fffffff).
Proof.
  intros Hx. unfold Lane.special. rewrite Z.leb_le.
  rewrite and_abs_fields by exact Hx.
  pose proof (biased_exp_range x) as HE. pose proof (fraction_range x) as HM.
  set (ax := F32.biased_exp x * 2 ^ 23 + F32.fraction x) in *.
  assert (0 <= ax < 2 ^ 31) as Hax by (unfold ax; lia).
  unfold U32.sub, U32.wrap, U32.modulus.
  destruct (Z.lt_ge_cases ax 0x20000000) as [Hlt|Hge].
  - replace ((ax - 0x20000000) mod 2 ^ 32) with (ax - 0x20000000 + 2 ^ 32)
      by (apply Z.mod_unique with (q := -1); lia).
    lia.
  - rewrite Z.mod_small by lia. lia.
Qed.

Lemma abs_lt_patterns (a b : Z) :
  U32.wf a -> U32.wf b -> F32.is_finite a = true -> F32.is_finite b = true ->
  (U32.and a 0x7fffffff < U32.and b 0x7fffffff
   <-> (Qabs (F32.to_Q a) < Qabs (F32.to_Q b))%Q).
Proof.
  intros Ha Hb Fa Fb.
  rewrite !and_abs_fields by assumption.
  rewrite (mag_mono a b Fa Fb), !to_Q_mag by assumption.
  rewrite Qmult_lt_r by (apply Qpower_0_lt; reflexivity).
  rewrite <- Zlt_Qlt. reflexivity.
Qed.

Lemma abs_le_patterns (a b : Z) :
  U32.wf a -> U32.wf b -> F32.is_finite a = true -> F32.is_finite b = true ->
  (U32.and a 0x7fffffff <= U32.and b 0x7fffffff
   <-> (Qabs (F32.to_Q a) <= Qabs (F32.to_Q b))%Q).
Proof.
  intros Ha Hb Fa Fb.
  pose proof (abs_lt_patterns b a Hb Ha Fb Fa) as H.
  split; intros Hle.
  - apply Qnot_lt_le. intros Hlt. apply H in Hlt. lia.
  - apply Z.le_ngt. intros Hlt. apply H in Hlt.
    exact (Qlt_not_le _ _ Hlt Hle).
Qed.

Lemma nonfinite_cases (x : Z) :
  F32.is_finite x = false ->
  (F32.is_inf x = true \/ F32.is_nan x = true) /\ F32.biased_exp x = 255.
Proof.
  unfold F32.is_finite, F32.is_inf, F32.is_nan. intros H.
  apply negb_false_iff, Z.eqb_eq in H. rewrite H.
  split; [|reflexivity].
  destruct (F32.fraction x =? 0); cbn; auto.
Qed.

Lemma finite_not_inf_nan (x : Z) :
  F32.is_finite x = true -> F32.is_inf x = false /\ F32.is_nan x = false.
Proof.
  unfold F32.is_finite, F32.is_inf, F32.is_nan. intros H.
  apply negb_true_iff in H. rewrite H. split; reflexivity.
Qed.

(** The strict build flags a lane exactly when its magnitude is below
    [2^-63], at least [38], or not finite. *)
Lemma special_spec (x : Z) :
  U32.wf x ->
  (Lane.special x = true <->
   (F32.is_finite x = true /\ (Qabs (F32.to_Q x) < Qpower 2 (-63))%Q) \/
   (F32.is_finite x = true /\ (38 <= Qabs (F32.to_Q x))%Q) \/
   F32.is_inf x = true \/ F32.is_nan x = true).
Proof.
  intros Hx. rewrite (special_iff x Hx).
  assert (U32.wf 0x20000000) as Ht by (unfold U32.wf, U32.modulus; lia).
  assert (U32.wf 0x42180000) as Hb by (unfold U32.wf, U32.modulus; lia).
  assert (Qabs (F32.to_Q 0x20000000) == Qpower 2 (-63))%Q as Vt by reflexivity.
  assert (Qabs (F32.to_Q 0x42180000) == 38)%Q as Vb by reflexivity.
  destruct (F32.is_finite x) eqn:Fx.
  - destruct (finite_not_inf_nan x Fx) as [Hi Hn]. rewrite Hi, Hn.
    pose proof (abs_lt_patterns x 0x20000000 Hx Ht Fx eq_refl) as H1.
    pose proof (abs_le_patterns 0x42180000 x Hb Hx eq_refl Fx) as H2.
    rewrite Vt in H1. rewrite Vb in H2.
    change (U32.and 0x20000000 0x7fffffff) with 0x20000000 in H1.
    change (U32.and 0x42180000 0x7fffffff) with 0x42180000 in H2.
    rewrite H1, H2. intuition discriminate.
  - destruct (nonfinite_cases x Fx) as [Hc HE].
    rewrite and_abs_fields by exact Hx. rewrite HE.
    pose proof (fraction_range x).
    split; [intros _; right; right; exact Hc | intros _; right; lia].
Qed.

(** C2.  In the strict build a lane of the classification mask is all ones
    exactly when the unsigned difference
    [(asuint (x) & 0x7fffffff) - 0x20000000] is at least [0x22180000], and
    all zeros otherwise; and that test holds exactly when [|x| < 2^-63], or
    [|x| >= 38], or the lane is an infinity or a NaN. *)
Theorem strict_classification (x : vec) (i : lane_ix) :
  wf x ->
  let xi := lane x i in
  let d := U32.sub (U32.and xi 0x7fffffff) 0x20000000 in
  (lane (Strict.classify x) i = U32.ones <-> 0x22180000 <= d) /\
  (lane (Strict.classify x) i = 0 <-> d < 0x22180000) /\
  (0x22180000 <= d <->
   (F32.is_finite xi = true /\ (Qabs (F32.to_Q xi) < Qpower 2 (-63))%Q) \/
   (F32.is_finite xi = true /\ (38 <= Qabs (F32.to_Q xi))%Q) \/
   F32.is_inf xi = true \/ F32.is_nan xi = true).
Proof.
  intros Hx xi d. rewrite strict_classify_lane. fold xi.
  assert (Lane.special xi = true <-> 0x22180000 <= d) as Hd
      by (unfold Lane.special; fold d; apply Z.leb_le).
  split; [|split].
  - rewrite <- Hd. destruct (Lane.special xi); cbn; split; intros H;
      try reflexivity; try discriminate.
  - destruct (Lane.special xi) eqn:E; cbn [U32.mask].
    + assert (0x22180000 <= d) by (apply Hd; reflexivity).
      split; [discriminate | lia].
    + assert (~ 0x22180000 <= d) by (intros H; apply Hd in H; discriminate).
      split; [lia | reflexivity].
  - rewrite <- Hd. apply special_spec, Hx.
Qed.

Lemma strict_classification_witness :
  let x := Vec4 0x42200000 0x3f800000 0x00000001 0x7fc00000 in
  wf x /\
  lane (Strict.classify x) L0 = U32.ones /\ lane (Strict.classify x) L1 = 0.
Proof.
  intros x.
  assert (wf x) as Hx by (intros [| | |]; vm_compute; split; congruence).
  split; [exact Hx|]. split.
  - apply (proj1 (strict_classification x L0 Hx)). vm_compute. congruence.
  - apply (proj1 (proj2 (strict_classification x L1 Hx))). vm_compute. reflexivity.
Defined.

(** ** Claims about the strict build *)

Example one_bits : F32.of_Z 1 = 0x3f800000.
Proof. vm_compute. reflexivity. Qed.

(** C3.  In the strict build [exp10] keeps the input in [xm] and works
    on the masked vector: on a flagged lane the input of the shared
    arithmetic is [1.0], so that its locals there are those of [1.0]
    ([z = shift + 3], [n = 3], [scale = 8], [poly = 0.25], the ordinary
    value [10]) whatever the lane held, and the result is the scalar
    [exp10f] applied to the original lane; an unflagged lane is left as it
    is and returns [vfmaq_f32 (scale, poly, scale)], the same value whether
    it is computed from the masked vector or from the original one. *)
Theorem strict_masking (exp10f : Z -> Z) (x : vec) (i : lane_ix) :
  wf x ->
  let l := Strict.locals exp10f x in
  let k := Strict.st_core l in
  let one := v_f32 (F32.of_Z 1) in
  let ordinary (v : vec) :=
    let k := core v in vfmaq_f32 (core_scale k) (core_poly k) (core_scale k) in
  (Strict.exp10 exp10f x = Strict.st_ret l /\
   Strict.st_xm l = x /\ Strict.st_cmp l = Strict.classify x /\
   Strict.st_x l = Strict.masked x /\
   k = core (Strict.st_x l) /\ Strict.st_y l = ordinary (Strict.st_x l) /\
   Strict.st_ret l
   = (if v_any_u32 (Strict.st_cmp l)
      then Strict.special_case exp10f (Strict.st_xm l) (Strict.st_y l) (Strict.st_cmp l)
      else Strict.st_y l)) /\
  (lane (Strict.classify x) i <> 0 ->
   lane (Strict.masked x) i = F32.of_Z 1 /\
   lane (Strict.exp10 exp10f x) i = exp10f (lane x i) /\
   lane (Strict.st_x l) i = F32.of_Z 1 /\
   lane (Strict.st_xm l) i = lane x i /\
   (lane (core_z k) i = lane (core_z (core one)) i /\
    lane (core_n k) i = lane (core_n (core one)) i /\
    lane (core_r k) i = lane (core_r (core one)) i /\
    lane (core_e k) i = lane (core_e (core one)) i /\
    lane (core_scale k) i = lane (core_scale (core one)) i /\
    lane (core_poly k) i = lane (core_poly (core one)) i /\
    lane (Strict.st_y l) i = lane (ordinary one) i) /\
   (lane (core_z k) i = 0x4b400003 /\
    lane (core_n k) i = F32.of_Z 3 /\
    lane (core_r k) i = 0x3dc678c2 /\
    lane (core_e k) i = 0x01800000 /\
    lane (core_scale k) i = F32.of_Z 8 /\
    lane (core_poly k) i = 0x3e800000 /\
    lane (Strict.st_y l) i = F32.of_Z 10)) /\
  (lane (Strict.classify x) i = 0 ->
   lane (Strict.masked x) i = lane x i /\
   lane (Strict.exp10 exp10f x) i = lane (ordinary (Strict.masked x)) i /\
   lane (ordinary (Strict.masked x)) i = lane (ordinary x) i /\
   lane (Strict.st_x l) i = lane x i /\
   lane (Strict.exp10 exp10f x) i = lane (Strict.st_y l) i).
Proof.
  intros Hx l k one ordinary.
  split; [repeat split; reflexivity|].
  assert (lane one i = F32.of_Z 1) as Hone by (unfold one, v_f32; apply lane_V4).
  unfold k, l, Strict.locals. cbv zeta. cbn [Strict.st_core Strict.st_x Strict.st_xm Strict.st_y].
  fold (ordinary (Strict.masked x)).
  destruct (core_lanes (Strict.masked x) i) as (Cn & Ce & Cs & Cp).
  destruct (core_lanes_zr (Strict.masked x) i) as (Cz & Cr).
  destruct (core_lanes one i) as (On & Oe & Os & Op).
  destruct (core_lanes_zr one i) as (Oz & Or).
  rewrite Cn, Ce, Cs, Cp, Cz, Cr, On, Oe, Os, Op, Oz, Or, Hone.
  rewrite strict_classify_lane, strict_exp10_lane by exact Hx.
  unfold ordinary. rewrite !ordinary_lane, masked_lane, Hone by exact Hx.
  unfold Lane.strict.
  destruct (Lane.special (lane x i)); cbn [U32.mask]; split; intros H;
    try (exfalso; apply H; reflexivity); try discriminate H.
  - split; [reflexivity|]. split; [reflexivity|]. split; [reflexivity|].
    split; [reflexivity|]. split; [repeat split; reflexivity|].
    split; [|split; [|split; [|split; [|split; [|split]]]]]; vm_compute; reflexivity.
  - repeat split; reflexivity.
Qed.

Lemma strict_masking_witness :
  let x := Vec4 0x42200000 0x3f000000 0x00000001 0x7fc00000 in
  let l := Strict.locals (fun v => v) x in
  wf x /\
  lane (Strict.masked x) L0 = F32.of_Z 1 /\
  lane (Strict.exp10 (fun v => v) x) L0 = 0x42200000 /\
  lane (Strict.masked x) L1 = 0x3f000000 /\
  lane (Strict.st_x l) L3 = F32.of_Z 1 /\
  lane (core_z (Strict.st_core l)) L3 = 0x4b400003 /\
  lane (Strict.st_y l) L3 = F32.of_Z 10.
Proof.
  intros x l.
  assert (wf x) as Hx by (intros [| | |]; vm_compute; split; congruence).
  split; [exact Hx|].
  destruct (strict_masking (fun v => v) x L0 Hx) as (_ & H0 & _).
  destruct (strict_masking (fun v => v) x L1 Hx) as (_ & _ & H1).
  destruct (strict_masking (fun v => v) x L3 Hx) as (_ & H3 & _).
  assert (lane (Strict.classify x) L0 <> 0) as F0 by (vm_compute; congruence).
  assert (lane (Strict.classify x) L1 = 0) as F1 by (vm_compute; reflexivity).
  assert (lane (Strict.classify x) L3 <> 0) as F3 by (vm_compute; congruence).
  destruct (H0 F0) as (Ha & Hb & _). destruct (H1 F1) as (Hc & _).
  destruct (H3 F3) as (_ & _ & Hd & _ & _ & He & _ & _ & _ & _ & _ & Hf).
  split; [exact Ha|]. split; [exact Hb|]. split; [exact Hc|].
  split; [exact Hd|]. split; [exact He | exact Hf].
Defined.

(** ** Lane independence *)

(** C7.  In both builds lane [i] of the result depends on lane [i] of the
    input only; and for a lane that is not flagged the special-case handler
    returns what the ordinary return [vfmaq_f32 (scale, poly, scale)]
    would, when the handler is entered because of other lanes. *)
Theorem lane_independence (exp10f : Z -> Z) (x y : vec) (i : lane_ix) :
  wf x -> wf y -> lane x i = lane y i ->
  lane (Fast.exp10 x) i = lane (Fast.exp10 y) i /\
  lane (Strict.exp10 exp10f x) i = lane (Strict.exp10 exp10f y) i /\
  (let k := core x in
   let cmp := Fast.classify (core_n k) in
   lane cmp i = 0 ->
   lane (Fast.special_case (core_poly k) (core_n k) (core_e k) cmp (core_scale k)) i
   = lane (vfmaq_f32 (core_scale k) (core_poly k) (core_scale k)) i) /\
  (let cmp := Strict.classify x in
   let k := core (Strict.masked x) in
   let k0 := core x in
   lane cmp i = 0 ->
   lane (Strict.special_case exp10f x
           (vfmaq_f32 (core_scale k) (core_poly k) (core_scale k)) cmp) i
   = lane (vfmaq_f32 (core_scale k0) (core_poly k0) (core_scale k0)) i).
Proof.
  intros Hx Hy Hxy. pose proof (Hx i) as Hi.
  split; [|split; [|split]].
  - rewrite !fast_exp10_lane by assumption. rewrite Hxy. reflexivity.
  - rewrite !strict_exp10_lane by assumption. rewrite Hxy. reflexivity.
  - cbv zeta. rewrite fast_classify_lane. intros Hc.
    assert (Lane.cmp1 (lane x i) = false) as H1
        by (destruct (Lane.cmp1 (lane x i)); [discriminate Hc | reflexivity]).
    assert (Lane.cmp2 (lane x i) = false) as H2.
    { destruct (Lane.cmp2 (lane x i)) eqn:E; [|reflexivity].
      apply cmp2_cmp1 in E. congruence. }
    unfold Fast.special_case. cbv zeta.
    destruct (special_locals_lanes x i) as (_ & _ & Hc2 & Hr2 & Hr1 & Hr0).
    cbv zeta in Hc2, Hr2, Hr1, Hr0.
    unfold vbslq_f32. rewrite !lane_map3.
    rewrite Hc2, Hr2, Hr1, Hr0, fast_classify_lane, ordinary_lane, H1, H2.
    cbn [U32.mask].
    rewrite (bsl_zero (Lane.r1 (lane x i))) by auto using r0_wf.
    apply bsl_zero. auto using r0_wf.
  - cbv zeta. rewrite strict_classify_lane. intros Hc.
    unfold Strict.special_case, v_call_f32. rewrite lane_map3.
    rewrite strict_classify_lane, !ordinary_lane, masked_lane by exact Hx.
    destruct (Lane.special (lane x i)); [discriminate Hc | reflexivity].
Qed.

Lemma lane_independence_witness :
  let x := Vec4 0x42200000 0x3f800000 0x00000000 0x40400000 in
  let y := Vec4 0x43480000 0x3f800000 0x7fc00000 0xc2200000 in
  wf x /\ wf y /\
  lane (Fast.exp10 x) L1 = lane (Fast.exp10 y) L1 /\
  lane (Strict.exp10 (fun v => v) x) L1 = lane (Strict.exp10 (fun v => v) y) L1.
Proof.
  intros x y.
  assert (wf x) as Hx by (intros [| | |]; vm_compute; split; congruence).
  assert (wf y) as Hy by (intros [| | |]; vm_compute; split; congruence).
  split; [exact Hx|]. split; [exact Hy|].
  destruct (lane_independence (fun v => v) x y L1 Hx Hy eq_refl) as (Hf & Hs & _).
  split; [exact Hf | exact Hs].
Defined.

(** ** Claims about the fast build *)

Lemma r2_saturates (x : Z) :
  Lane.r2 x = if F32.le_zero (Lane.n x) then F32.pzero else F32.pinf.
Proof.
  unfold Lane.r2, Lane.s1, Lane.b.
  destruct (F32.le_zero (Lane.n x)); vm_compute; reflexivity.
Qed.

Lemma fast_at_200 : Lane.fast 0x43480000 = F32.pinf /\ Lane.fast 0xc3480000 = F32.pzero.
Proof. split; vm_compute; reflexivity. Qed.

(** C6.  In the fast build a lane whose [n] exceeds [ScaleBound] (192) in
    magnitude returns [r2 = s1 * s1], whatever the first mask says; [r2] is
    [+inf] when [n] is positive and [+0] when it is not.  In particular
    [x = 200] gives [+inf] and [x = -200] gives [+0]. *)
Theorem scale_bound_saturates (x : vec) (i : lane_ix) :
  wf x ->
  let k := core x in
  let l := Fast.special_locals (core_poly k) (core_n k) (core_e k) (core_scale k) in
  (F32.abs_gt (lane (core_n k) i) ScaleBound = true ->
   lane (Fast.exp10 x) i = lane (Fast.sp_r2 l) i /\
   lane (Fast.sp_r2 l) i = F32.mul (lane (Fast.sp_s1 l) i) (lane (Fast.sp_s1 l) i) /\
   (forall cmp1 : vec,
      lane (Fast.special_case (core_poly k) (core_n k) (core_e k) cmp1 (core_scale k)) i
      = lane (Fast.sp_r2 l) i) /\
   (F32.le_zero (lane (core_n k) i) = false -> lane (Fast.exp10 x) i = F32.pinf) /\
   (F32.le_zero (lane (core_n k) i) = true -> lane (Fast.exp10 x) i = F32.pzero)) /\
  (lane x i = 0x43480000 -> lane (Fast.exp10 x) i = F32.pinf) /\
  (lane x i = 0xc3480000 -> lane (Fast.exp10 x) i = F32.pzero).
Proof.
  intros Hx k l.
  destruct (special_locals_lanes x i) as (Hs1 & _ & Hc2 & Hr2 & _).
  fold k in Hs1, Hc2, Hr2. fold l in Hs1, Hc2, Hr2.
  destruct (core_lanes x i) as (Hn & _). fold k in Hn.
  rewrite fast_exp10_lane by exact Hx.
  split; [|split].
  - rewrite Hn, Hr2, Hs1. intros Hgt.
    assert (Lane.cmp2 (lane x i) = true) as H2 by exact Hgt.
    assert (Lane.fast (lane x i) = Lane.r2 (lane x i)) as Hf
        by (unfold Lane.fast; rewrite H2; reflexivity).
    rewrite Hf. split; [reflexivity|]. split; [reflexivity|]. split; [|split].
    + intros cmp1. unfold Fast.special_case. cbv zeta. fold k. fold l.
      unfold vbslq_f32. rewrite lane_map3, Hc2, Hr2, H2.
      apply bsl_ones, r2_wf.
    + intros Hz. rewrite r2_saturates, Hz. reflexivity.
    + intros Hz. rewrite r2_saturates, Hz. reflexivity.
  - intros ->. apply fast_at_200.
  - intros ->. apply fast_at_200.
Qed.

Lemma scale_bound_saturates_witness :
  let x := Vec4 0x43480000 0x3f800000 0xc3480000 0x40400000 in
  wf x /\ lane (Fast.exp10 x) L0 = F32.pinf /\ lane (Fast.exp10 x) L2 = F32.pzero.
Proof.
  intros x.
  assert (wf x) as Hx by (intros [| | |]; vm_compute; split; congruence).
  split; [exact Hx|].
  destruct (scale_bound_saturates x L0 Hx) as (H0 & _ & _).
  destruct (scale_bound_saturates x L2 Hx) as (H2 & _ & _).
  cbv zeta in H0, H2.
  split.
  - apply H0; vm_compute; reflexivity.
  - apply H2; vm_compute; reflexivity.
Defined.

(** ** NaN lanes *)

Lemma fields_quiet (a : Z) :
  F32.biased_exp (F32.quiet a) = F32.biased_exp a /\ F32.fraction (F32.quiet a) <> 0.
Proof.
  unfold F32.biased_exp, F32.fraction, F32.quiet. split.
  - rewrite Z.shiftr_lor, Z.land_lor_distr_l.
    change (Z.land (Z.shiftr 4194304 23) 255) with 0. apply Z.lor_0_r.
  - rewrite Z.land_lor_distr_l. change (Z.land 4194304 8388607) with 4194304.
    intros H. apply Z.lor_eq_0_iff in H. destruct H as [_ H]. discriminate H.
Qed.

Lemma fields_neg (a : Z) :
  F32.biased_exp (F32.neg a) = F32.biased_exp a /\
  F32.fraction (F32.neg a) = F32.fraction a.
Proof.
  unfold F32.biased_exp, F32.fraction, F32.neg.
  change 2147483648 with (2 ^ 31). change 255 with (Z.ones 8).
  change 8388607 with (Z.ones 23).
  split; apply Z.bits_inj'; intros n Hn.
  - rewrite !Z.land_spec, !Z.shiftr_spec, Z.lxor_spec, Z.pow2_bits_eqb by lia.
    destruct (Z.ltb_spec n 8) as [H|H].
    + replace (31 =? n + 23) with false by (symmetry; apply Z.eqb_neq; lia).
      rewrite xorb_false_r. reflexivity.
    + rewrite Z.ones_spec_high by lia. rewrite !andb_false_r. reflexivity.
  - rewrite !Z.land_spec, Z.lxor_spec, Z.pow2_bits_eqb by lia.
    destruct (Z.ltb_spec n 23) as [H|H].
    + replace (31 =? n) with false by (symmetry; apply Z.eqb_neq; lia).
      rewrite xorb_false_r. reflexivity.
    + rewrite Z.ones_spec_high by lia. rewrite !andb_false_r. reflexivity.
Qed.

Lemma is_nan_quiet (a : Z) : F32.is_nan a = true -> F32.is_nan (F32.quiet a) = true.
Proof.
  unfold F32.is_nan. destruct (fields_quiet a) as [HE HM]. rewrite HE.
  intros H. apply andb_true_iff in H. destruct H as [H _]. rewrite H. cbn.
  apply negb_true_iff, Z.eqb_neq, HM.
Qed.

Lemma is_nan_neg (a : Z) : F32.is_nan (F32.neg a) = F32.is_nan a.
Proof. unfold F32.is_nan. destruct (fields_neg a) as [-> ->]. reflexivity. Qed.

Lemma is_snan_nan (a : Z) : F32.is_snan a = true -> F32.is_nan a = true.
Proof. unfold F32.is_snan. intros H. apply andb_true_iff in H. apply H. Qed.

Lemma process_nans2_some (a b r : Z) :
  F32.process_nans2 a b = Some r -> F32.is_nan r = true.
Proof.
  unfold F32.process_nans2.
  destruct (F32.is_snan a) eqn:Sa; [intros [= <-]; apply is_nan_quiet, is_snan_nan, Sa|].
  destruct (F32.is_snan b) eqn:Sb; [intros [= <-]; apply is_nan_quiet, is_snan_nan, Sb|].
  destruct (F32.is_nan a) eqn:Na; [intros [= <-]; exact Na|].
  destruct (F32.is_nan b) eqn:Nb; [intros [= <-]; exact Nb|].
  discriminate.
Qed.

Lemma process_nans2_none (a b : Z) :
  F32.process_nans2 a b = None -> F32.is_nan a = false /\ F32.is_nan b = false.
Proof.
  unfold F32.process_nans2.
  destruct (F32.is_snan a); [discriminate|]. destruct (F32.is_snan b); [discriminate|].
  destruct (F32.is_nan a); [discriminate|]. destruct (F32.is_nan b); [discriminate|].
  split; reflexivity.
Qed.

Lemma process_nans3_some (a b c r : Z) :
  F32.process_nans3 a b c = Some r -> F32.is_nan r = true.
Proof.
  unfold F32.process_nans3.
  destruct (F32.is_snan a) eqn:Sa; [intros [= <-]; apply is_nan_quiet, is_snan_nan, Sa|].
  destruct (F32.is_snan b) eqn:Sb; [intros [= <-]; apply is_nan_quiet, is_snan_nan, Sb|].
  destruct (F32.is_snan c) eqn:Sc; [intros [= <-]; apply is_nan_quiet, is_snan_nan, Sc|].
  destruct (F32.is_nan a) eqn:Na; [intros [= <-]; exact Na|].
  destruct (F32.is_nan b) eqn:Nb; [intros [= <-]; exact Nb|].
  destruct (F32.is_nan c) eqn:Nc; [intros [= <-]; exact Nc|].
  discriminate.
Qed.

Lemma process_nans3_none (a b c : Z) :
  F32.process_nans3 a b c = None ->
  F32.is_nan a = false /\ F32.is_nan b = false /\ F32.is_nan c = false.
Proof.
  unfold F32.process_nans3.
  destruct (F32.is_snan a); [discriminate|]. destruct (F32.is_snan b); [discriminate|].
  destruct (F32.is_snan c); [discriminate|].
  destruct (F32.is_nan a); [discriminate|]. destruct (F32.is_nan b); [discriminate|].
  destruct (F32.is_nan c); [discriminate|].
  repeat split; reflexivity.
Qed.

(** Every arithmetic instruction returns a NaN when an operand is one. *)
Lemma lift2_nan (op : spec_float -> spec_float -> spec_float) (a b : Z) :
  F32.is_nan a = true \/ F32.is_nan b = true -> F32.is_nan (F32.lift2 op a b) = true.
Proof.
  intros H. unfold F32.lift2.
  destruct (F32.process_nans2 a b) as [r|] eqn:E.
  - eapply process_nans2_some, E.
  - apply process_nans2_none in E. destruct E as [Ea Eb].
    destruct H as [H|H]; congruence.
Qed.

Lemma fma_nan (a x y : Z) :
  F32.is_nan a = true \/ F32.is_nan x = true \/ F32.is_nan y = true ->
  F32.is_nan (F32.fma a x y) = true.
Proof.
  intros H. unfold F32.fma.
  destruct (F32.process_nans3 a x y) as [r|] eqn:E.
  - destruct (_ && _); [reflexivity|]. eapply process_nans3_some, E.
  - apply process_nans3_none in E. destruct E as (Ea & Ex & Ey).
    destruct H as [H|[H|H]]; congruence.
Qed.

Lemma fms_nan (a x y : Z) :
  F32.is_nan a = true \/ F32.is_nan x = true \/ F32.is_nan y = true ->
  F32.is_nan (F32.fms a x y) = true.
Proof. intros H. unfold F32.fms. apply fma_nan. rewrite is_nan_neg. exact H. Qed.

Lemma decode_nan (a : Z) : F32.is_nan a = true -> F32.decode a = S754_nan.
Proof.
  unfold F32.is_nan, F32.decode. cbv zeta. intros H.
  apply andb_true_iff in H. destruct H as [H1 H2]. rewrite H1.
  apply negb_true_iff in H2. rewrite H2. reflexivity.
Qed.

Lemma abs_gt_nan (a b : Z) : F32.is_nan a = true -> F32.abs_gt a b = false.
Proof.
  intros H. unfold F32.abs_gt. rewrite (decode_nan a H).
  destruct (SFabs (F32.decode b)); reflexivity.
Qed.

(** A NaN input makes every local of the shared arithmetic a NaN. *)
Lemma nan_propagates (x : Z) :
  F32.is_nan x = true ->
  F32.is_nan (Lane.z x) = true /\ F32.is_nan (Lane.n x) = true /\
  F32.is_nan (Lane.r x) = true /\ F32.is_nan (Lane.poly x) = true /\
  F32.is_nan (Lane.r0 x) = true.
Proof.
  intros H.
  assert (F32.is_nan (Lane.z x) = true) as Hz
      by (unfold Lane.z; apply fma_nan; right; left; exact H).
  assert (F32.is_nan (Lane.n x) = true) as Hn
      by (unfold Lane.n, F32.sub; apply lift2_nan; left; exact Hz).
  assert (F32.is_nan (Lane.r x) = true) as Hr
      by (unfold Lane.r; apply fms_nan; right; left; exact Hn).
  assert (F32.is_nan (Lane.poly x) = true) as Hp.
  { unfold Lane.poly, estrin. apply fma_nan. right. right.
    unfold F32.mul. apply lift2_nan. left. exact Hr. }
  repeat split; try assumption.
  unfold Lane.r0. apply fma_nan. right. left. exact Hp.
Qed.

(** ** Lanes that are not finite *)

Lemma fast_at_inf :
  Lane.cmp1 F32.pinf = true /\ Lane.cmp2 F32.pinf = true /\
  F32.is_nan (Lane.r F32.pinf) = true /\
  Lane.r2 F32.pinf = F32.pinf /\ Lane.fast F32.pinf = F32.pinf /\
  Lane.cmp1 F32.ninf = true /\ Lane.cmp2 F32.ninf = true /\
  F32.is_nan (Lane.r F32.ninf) = true /\
  Lane.r2 F32.ninf = F32.pzero /\ Lane.fast F32.ninf = F32.pzero.
Proof. repeat split; vm_compute; reflexivity. Qed.

Lemma fast_at_nan (x : Z) :
  F32.is_nan x = true ->
  Lane.cmp1 x = false /\ Lane.cmp2 x = false /\ Lane.fast x = Lane.r0 x /\
  F32.is_nan (Lane.r0 x) = true.
Proof.
  intros H. destruct (nan_propagates x H) as (_ & Hn & _ & _ & H0).
  assert (Lane.cmp1 x = false) as H1 by (apply abs_gt_nan, Hn).
  assert (Lane.cmp2 x = false) as H2 by (apply abs_gt_nan, Hn).
  unfold Lane.fast. rewrite H1, H2. repeat split; try reflexivity. exact H0.
Qed.

(** The claim C10 puts every non-finite lane of the fast build on the
    [r2] branch.  A quiet NaN is not flagged there: both comparisons are
    false on a NaN, and the lane returns the NaN of the ordinary
    [vfmaq_f32 (scale, poly, scale)], which is not [r2] (here [+inf]). *)
Lemma nan_lane_not_on_r2 :
  let x := V4 0x7fc00000 in
  let k := core x in
  let l := Fast.special_locals (core_poly k) (core_n k) (core_e k) (core_scale k) in
  F32.is_finite (lane x L0) = false /\
  lane (Fast.classify (core_n k)) L0 = 0 /\
  lane (Fast.exp10 x) L0 <> lane (Fast.sp_r2 l) L0 /\
  ~ (lane (Fast.classify (core_n k)) L0 <> 0 /\
     lane (Fast.exp10 x) L0 = lane (Fast.sp_r2 l) L0).
Proof.
  cbv zeta. split; [vm_compute; reflexivity|].
  split; [vm_compute; reflexivity|].
  split; [vm_compute; discriminate|].
  intros [H _]. apply H. vm_compute. reflexivity.
Qed.

(** C10, as the code has it.  In the fast build an infinite lane is
    flagged by both comparisons and returns [r2 = s1 * s1] ([+inf] for
    [+inf], [+0] for [-inf]) although its residual [r] is a NaN; a NaN lane
    is flagged by neither comparison and returns the NaN of the ordinary
    [vfmaq_f32 (scale, poly, scale)].  In the strict build every
    non-finite lane is flagged and returns the scalar [exp10f] of the
    lane.  So in both builds a NaN lane yields a NaN, a [+inf] lane
    [+inf] and a [-inf] lane [+0], in the strict build provided the
    scalar routine does so. *)
Theorem nonfinite_lanes (exp10f : Z -> Z) (x : vec) (i : lane_ix) :
  wf x ->
  let xi := lane x i in
  let k := core x in
  let l := Fast.special_locals (core_poly k) (core_n k) (core_e k) (core_scale k) in
  (xi = F32.pinf \/ xi = F32.ninf ->
   lane (Fast.classify (core_n k)) i = U32.ones /\
   lane (Fast.sp_cmp2 l) i = U32.ones /\
   F32.is_nan (lane (core_r k) i) = true /\
   lane (Fast.exp10 x) i = lane (Fast.sp_r2 l) i /\
   lane (Fast.exp10 x) i = (if xi =? F32.pinf then F32.pinf else F32.pzero)) /\
  (F32.is_nan xi = true ->
   lane (Fast.classify (core_n k)) i = 0 /\
   lane (Fast.sp_cmp2 l) i = 0 /\
   lane (Fast.exp10 x) i
   = lane (vfmaq_f32 (core_scale k) (core_poly k) (core_scale k)) i /\
   F32.is_nan (lane (Fast.exp10 x) i) = true) /\
  (F32.is_finite xi = false ->
   lane (Strict.classify x) i = U32.ones /\
   lane (Strict.exp10 exp10f x) i = exp10f xi) /\
  ((forall a, F32.is_nan a = true -> F32.is_nan (exp10f a) = true) ->
   exp10f F32.pinf = F32.pinf -> exp10f F32.ninf = F32.pzero ->
   (F32.is_nan xi = true ->
    F32.is_nan (lane (Fast.exp10 x) i) = true /\
    F32.is_nan (lane (Strict.exp10 exp10f x) i) = true) /\
   (xi = F32.pinf ->
    lane (Fast.exp10 x) i = F32.pinf /\
    lane (Strict.exp10 exp10f x) i = F32.pinf) /\
   (xi = F32.ninf ->
    lane (Fast.exp10 x) i = F32.pzero /\
    lane (Strict.exp10 exp10f x) i = F32.pzero)).
Proof.
  intros Hx xi k l.
  destruct (special_locals_lanes x i) as (_ & _ & Hc2 & Hr2 & _).
  fold k in Hc2, Hr2. fold l in Hc2, Hr2.
  destruct (core_lanes_zr x i) as (_ & Hr). fold k in Hr.
  unfold k at 1 3. rewrite !fast_classify_lane, Hc2, Hr2, Hr.
  rewrite strict_classify_lane, strict_exp10_lane, !fast_exp10_lane by exact Hx.
  unfold k. rewrite ordinary_lane. fold xi.
  destruct fast_at_inf as (P1 & P2 & P3 & P4 & P5 & N1 & N2 & N3 & N4 & N5).
  assert (F32.is_finite xi = false -> Lane.strict exp10f xi = exp10f xi) as Hstrict.
  { intros Hf.
    assert (Lane.special xi = true) as Hs.
    { apply (special_spec xi (Hx i)). right. right.
      apply nonfinite_cases, Hf. }
    unfold Lane.strict. rewrite Hs. reflexivity. }
  split; [|split; [|split]].
  - intros [E|E]; rewrite E.
    + rewrite P1, P2, P3, P4, P5. repeat split; reflexivity.
    + rewrite N1, N2, N3, N4, N5. repeat split; reflexivity.
  - intros Hn. destruct (fast_at_nan xi Hn) as (H1 & H2 & Hf & H0).
    rewrite H1, H2, Hf. repeat split; try reflexivity. exact H0.
  - intros Hf.
    assert (Lane.special xi = true) as Hs.
    { apply (special_spec xi (Hx i)). right. right.
      apply nonfinite_cases, Hf. }
    unfold Lane.strict. rewrite Hs. split; reflexivity.
  - intros Snan Spinf Sninf. split; [|split].
    + intros Hn. destruct (fast_at_nan xi Hn) as (_ & _ & Hf & H0).
      rewrite Hf. split; [exact H0|].
      rewrite Hstrict; [apply Snan, Hn|].
      unfold F32.is_nan in Hn. unfold F32.is_finite.
      apply andb_true_iff in Hn. destruct Hn as [Hn _]. rewrite Hn. reflexivity.
    + intros E. rewrite Hstrict by (rewrite E; vm_compute; reflexivity).
      rewrite E, P5, Spinf. split; reflexivity.
    + intros E. rewrite Hstrict by (rewrite E; vm_compute; reflexivity).
      rewrite E, N5, Sninf. split; reflexivity.
Qed.

Lemma nonfinite_lanes_witness :
  let x := Vec4 0x7f800000 0xff800000 0x7fc00000 0x3f800000 in
  let scalar (a : Z) :=
    if F32.is_nan a then a else if a =? F32.ninf then F32.pzero else a in
  wf x /\
  lane (Fast.exp10 x) L0 = F32.pinf /\
  lane (Fast.exp10 x) L1 = F32.pzero /\
  F32.is_nan (lane (Fast.exp10 x) L2) = true /\
  lane (Strict.exp10 (fun v => v) x) L2 = 0x7fc00000 /\
  lane (Strict.exp10 scalar x) L0 = F32.pinf /\
  lane (Strict.exp10 scalar x) L1 = F32.pzero /\
  F32.is_nan (lane (Strict.exp10 scalar x) L2) = true.
Proof.
  intros x scalar.
  assert (wf x) as Hx by (intros [| | |]; vm_compute; split; congruence).
  split; [exact Hx|].
  destruct (nonfinite_lanes (fun v => v) x L0 Hx) as (A0 & _ & _).
  destruct (nonfinite_lanes (fun v => v) x L1 Hx) as (A1 & _ & _).
  destruct (nonfinite_lanes (fun v => v) x L2 Hx) as (_ & B2 & C2 & _).
  cbv zeta in A0, A1, B2, C2.
  assert (forall a, F32.is_nan a = true -> F32.is_nan (scalar a) = true) as Snan
      by (intros a Ha; unfold scalar; rewrite Ha; exact Ha).
  assert (scalar F32.pinf = F32.pinf) as Spinf by (vm_compute; reflexivity).
  assert (scalar F32.ninf = F32.pzero) as Sninf by (vm_compute; reflexivity).
  destruct (nonfinite_lanes scalar x L0 Hx) as (_ & _ & _ & D0).
  destruct (nonfinite_lanes scalar x L1 Hx) as (_ & _ & _ & D1).
  destruct (nonfinite_lanes scalar x L2 Hx) as (_ & _ & _ & D2).
  cbv zeta in D0, D1, D2.
  destruct (D0 Snan Spinf Sninf) as (_ & E0 & _).
  destruct (D1 Snan Spinf Sninf) as (_ & _ & E1).
  destruct (D2 Snan Spinf Sninf) as (E2 & _ & _).
  split; [|split; [|split; [|split; [|split; [|split]]]]].
  - apply (A0 (or_introl eq_refl)).
  - apply (A1 (or_intror eq_refl)).
  - apply B2. vm_compute. reflexivity.
  - apply C2. vm_compute. reflexivity.
  - apply E0. reflexivity.
  - apply E1. reflexivity.
  - apply E2. vm_compute. reflexivity.
Defined.

(** ** The two-factor scale of the fast build *)

Lemma Zrange_In (lo : Z) (len : nat) (k : Z) :
  lo <= k < lo + Z.of_nat len -> In k (Zrange lo len).
Proof.
  intros H. unfold Zrange. apply in_map_iff.
  exists (Z.to_nat (k - lo)). split; [lia|].
  apply in_seq. lia.
Qed.

Lemma forallb_Zrange (f : Z -> bool) (lo : Z) (len : nat) :
  forallb f (Zrange lo len) = true ->
  forall k, lo <= k < lo + Z.of_nat len -> f k = true.
Proof.
  intros H k Hk. rewrite forallb_forall in H. apply H, Zrange_In, Hk.
Qed.

Lemma factors_ok_all (k : Z) : 126 < Z.abs k <= 192 -> factors_ok k = true.
Proof.
  intros H.
  assert (forallb factors_ok (Zrange (-192) 66) = true) as Hneg
      by (vm_compute; reflexivity).
  assert (forallb factors_ok (Zrange 127 66) = true) as Hpos
      by (vm_compute; reflexivity).
  destruct (Z.le_gt_cases k 0).
  - apply (forallb_Zrange _ _ _ Hneg). lia.
  - apply (forallb_Zrange _ _ _ Hpos). lia.
Qed.

Lemma reduction_ok_all (k : Z) : -192 <= k <= 192 -> reduction_ok k = true.
Proof.
  intros H.
  assert (forallb reduction_ok (Zrange (-192) 385) = true) as Hall
      by (vm_compute; reflexivity).
  apply (forallb_Zrange _ _ _ Hall). lia.
Qed.

(** The single-word scale is right exactly on [-126 .. 127]. *)
Lemma direct_scale_ok_normal (k : Z) : -126 <= k <= 127 -> direct_scale_ok k = true.
Proof.
  intros H.
  assert (forallb direct_scale_ok (Zrange (-126) 254) = true) as Hall
      by (vm_compute; reflexivity).
  apply (forallb_Zrange _ _ _ Hall). lia.
Qed.

Lemma direct_scale_ok_beyond (k : Z) :
  127 < Z.abs k <= 192 \/ k = -127 -> direct_scale_ok k = false.
Proof.
  intros H.
  assert (forallb (fun j => negb (direct_scale_ok j)) (Zrange (-192) 66) = true)
    as Hneg by (vm_compute; reflexivity).
  assert (forallb (fun j => negb (direct_scale_ok j)) (Zrange 128 65) = true)
    as Hpos by (vm_compute; reflexivity).
  apply negb_true_iff.
  destruct (Z.le_gt_cases k 0).
  - apply (forallb_Zrange _ _ _ Hneg). lia.
  - apply (forallb_Zrange _ _ _ Hpos). lia.
Qed.

(** When [z] is [shift + k] for a small integer [k], the reduction leaves
    [n = k] and [e = k << 23]: the precondition of the next theorem is what
    the caller hands to [special_case]. *)
Lemma integer_reduction (x : vec) (i : lane_ix) (k : Z) :
  -192 <= k <= 192 ->
  lane (core_z (core x)) i = 0x4b400000 + k ->
  lane (core_n (core x)) i = F32.of_Z k /\
  lane (core_e (core x)) i = U32.wrap (k * 2 ^ 23).
Proof.
  intros Hk Hz.
  destruct (core_lanes x i) as (Hn & He & _).
  destruct (core_lanes_zr x i) as (Hz' & _).
  rewrite Hn, He. rewrite Hz' in Hz. unfold Lane.n, Lane.e. rewrite Hz.
  pose proof (reduction_ok_all k Hk) as H. unfold reduction_ok in H. cbv zeta in H.
  apply andb_true_iff in H. destruct H as [H1 H2].
  apply Z.eqb_eq in H1, H2. split; assumption.
Qed.

Lemma special_locals_at (poly n e scale : vec) (i : lane_ix) :
  let l := Fast.special_locals poly n e scale in
  let b := U32.and (U32.mask (F32.le_zero (lane n i))) 0x82000000 in
  lane (Fast.sp_s1 l) i = U32.add b 0x7f000000 /\
  lane (Fast.sp_s2 l) i = U32.sub (lane e i) b /\
  lane (Fast.sp_cmp2 l) i = U32.mask (F32.abs_gt (lane n i) ScaleBound) /\
  lane (Fast.sp_r1 l) i
  = F32.mul (F32.fma (lane (Fast.sp_s2 l) i) (lane poly i) (lane (Fast.sp_s2 l) i))
            (lane (Fast.sp_s1 l) i).
Proof.
  cbv zeta. unfold Fast.special_locals.
  cbn [Fast.sp_s1 Fast.sp_s2 Fast.sp_cmp2 Fast.sp_r2 Fast.sp_r1 Fast.sp_r0].
  unfold vfmaq_f32, vmulq_f32, vaddq_u32, vsubq_u32, vandq_u32, vcagtq_f32,
    vclezq_f32, vreinterpretq_f32_u32, Fast.SpecialOffset, Fast.SpecialBias, v_u32.
  repeat first [rewrite lane_map3 | rewrite lane_map2 | rewrite lane_map1
               | rewrite lane_V4 | rewrite (proj2 (proj2 (proj2 (proj2 (lane_data _)))))].
  repeat split; reflexivity.
Qed.

(** What [special_case] builds on a lane whose [n] is the integer [k]. *)
Lemma factors_at (poly n e cmp1 scale : vec) (i : lane_ix) (k : Z) :
  126 < Z.abs k <= 192 ->
  lane n i = F32.of_Z k ->
  lane e i = U32.wrap (k * 2 ^ 23) ->
  lane cmp1 i = U32.ones ->
  U32.wf (lane poly i) ->
  let l := Fast.special_locals poly n e scale in
  let b := if k <=? 0 then 0x82000000 else 0 in
  let s1 := lane (Fast.sp_s1 l) i in
  let s2 := lane (Fast.sp_s2 l) i in
  s1 = U32.add b 0x7f000000 /\
  s2 = U32.sub (lane e i) b /\
  F32.is_normal s1 = true /\ F32.is_normal s2 = true /\
  (F32.to_Q s1 * F32.to_Q s2 == Qpower 2 k)%Q /\
  lane (Fast.sp_r1 l) i = F32.mul (F32.fma s2 (lane poly i) s2) s1 /\
  lane (Fast.special_case poly n e cmp1 scale) i = lane (Fast.sp_r1 l) i.
Proof.
  intros Hk Hn He Hc Hp l b s1 s2.
  destruct (special_locals_at poly n e scale i) as (H1 & H2 & H3 & H4).
  fold l in H1, H2, H3, H4. cbv zeta in H1, H2.
  pose proof (factors_ok_all k Hk) as Hok. unfold factors_ok in Hok. cbv zeta in Hok.
  rewrite <- Hn, <- He in Hok.
  apply andb_true_iff in Hok. destruct Hok as [Hok G6].
  apply andb_true_iff in Hok. destruct Hok as [Hok G5].
  apply andb_true_iff in Hok. destruct Hok as [Hok G4].
  apply andb_true_iff in Hok. destruct Hok as [Hok G3].
  apply andb_true_iff in Hok. destruct Hok as [G1 G2].
  apply Z.eqb_eq in G1. apply Qeq_bool_iff in G4. apply negb_true_iff in G6.
  rewrite G1 in H1, H2, G2, G3, G4.
  fold b in H1, H2, G2, G3, G4. fold s1 in H1, H4. fold s2 in H2, H4.
  rewrite <- H1 in G2, G4. rewrite <- H2 in G3, G4.
  split; [exact H1|]. split; [exact H2|]. split; [exact G2|]. split; [exact G3|].
  split; [exact G4|]. split; [exact H4|].
  unfold Fast.special_case. cbv zeta. fold l.
  unfold vbslq_f32. rewrite !lane_map3, H3, Hc.
  rewrite G6.
  cbn [U32.mask].
  assert (U32.wf s1) as W1 by (rewrite H1; apply wrap_wf).
  assert (U32.wf s2) as W2 by (rewrite H2; apply wrap_wf).
  assert (U32.wf (lane (Fast.sp_r1 l) i)) as Wr1
      by (rewrite H4; apply mul_wf; [apply fma_wf|]; assumption).
  rewrite bsl_zero; [apply bsl_ones, Wr1|].
  rewrite bsl_ones; exact Wr1.
Qed.

Lemma direct_scale_fails (scale e : Z) (k : Z) :
  127 < Z.abs k <= 192 \/ k = -127 ->
  e = U32.wrap (k * 2 ^ 23) -> scale = U32.add e 0x3f800000 ->
  ~ (F32.is_normal scale = true /\ (F32.to_Q scale == Qpower 2 k)%Q).
Proof.
  intros Hk -> -> [Hn Hq].
  pose proof (direct_scale_ok_beyond k Hk) as H. unfold direct_scale_ok in H.
  cbv zeta in H. rewrite Hn in H. apply Qeq_bool_iff in Hq. rewrite Hq in H.
  discriminate H.
Qed.

(** C5.  In the fast build's [special_case], for a flagged lane whose [n]
    is an integer [k] with [126 < |k| <= 192] and whose [e] is [k] shifted
    into the exponent field, [s1 = asfloat (b + 0x7f000000)] and
    [s2 = asfloat (e - b)], with [b = 0x82000000] when [k <= 0] and [0]
    otherwise, are normal numbers whose exact product is [2^k]; the lane
    returns [r1 = fma (poly, s2, s2) * s1]; and the single-word scale
    [asfloat (e + ExponentBias)] of the ordinary path is not the normal
    number [2^k] once [|k| > 127] or [k = -127]. *)
Theorem special_case_factors (poly n e cmp1 scale : vec) (i : lane_ix) (k : Z) :
  126 < Z.abs k <= 192 ->
  lane n i = F32.of_Z k ->
  lane e i = U32.wrap (k * 2 ^ 23) ->
  lane scale i = U32.add (lane e i) 0x3f800000 ->
  lane cmp1 i = U32.ones ->
  U32.wf (lane poly i) ->
  let l := Fast.special_locals poly n e scale in
  let b := if k <=? 0 then 0x82000000 else 0 in
  let s1 := lane (Fast.sp_s1 l) i in
  let s2 := lane (Fast.sp_s2 l) i in
  s1 = U32.add b 0x7f000000 /\
  s2 = U32.sub (lane e i) b /\
  F32.is_normal s1 = true /\ F32.is_normal s2 = true /\
  (F32.to_Q s1 * F32.to_Q s2 == Qpower 2 k)%Q /\
  lane (Fast.sp_r1 l) i = F32.mul (F32.fma s2 (lane poly i) s2) s1 /\
  lane (Fast.special_case poly n e cmp1 scale) i = lane (Fast.sp_r1 l) i /\
  (k <> 127 ->
   ~ (F32.is_normal (lane scale i) = true /\
      (F32.to_Q (lane scale i) == Qpower 2 k)%Q)).
Proof.
  intros Hk Hn He Hs Hc Hp l b s1 s2.
  destruct (factors_at poly n e cmp1 scale i k Hk Hn He Hc Hp)
    as (A1 & A2 & A3 & A4 & A5 & A6 & A7).
  repeat (split; [assumption|]).
  intros H127. apply (direct_scale_fails _ (lane e i) k); [lia | exact He | exact Hs].
Qed.

Lemma special_case_factors_witness :
  let x := V4 0x42200000 in
  let k := core x in
  let l := Fast.special_locals (core_poly k) (core_n k) (core_e k) (core_scale k) in
  126 < Z.abs 133 <= 192 /\
  lane (core_n k) L0 = F32.of_Z 133 /\
  F32.is_normal (lane (Fast.sp_s1 l) L0) = true /\
  (F32.to_Q (lane (Fast.sp_s1 l) L0) * F32.to_Q (lane (Fast.sp_s2 l) L0)
   == Qpower 2 133)%Q.
Proof.
  intros x k l.
  assert (126 < Z.abs 133 <= 192) as Hk by (cbn; lia).
  assert (lane (core_n k) L0 = F32.of_Z 133) as Hn by (vm_compute; reflexivity).
  assert (lane (core_e k) L0 = U32.wrap (133 * 2 ^ 23)) as He by (vm_compute; reflexivity).
  assert (lane (core_scale k) L0 = U32.add (lane (core_e k) L0) 0x3f800000) as Hs
      by (vm_compute; reflexivity).
  assert (lane (Fast.classify (core_n k)) L0 = U32.ones) as Hc by (vm_compute; reflexivity).
  assert (U32.wf (lane (core_poly k) L0)) as Hp by (vm_compute; split; congruence).
  destruct (special_case_factors (core_poly k) (core_n k) (core_e k)
              (Fast.classify (core_n k)) (core_scale k) L0 133 Hk Hn He Hs Hc Hp)
    as (_ & _ & N1 & _ & Hq & _).
  split; [exact Hk|]. split; [exact Hn|]. split; [exact N1 | exact Hq].
Defined.

(** The same on the whole routine: when [z] is [shift + k] with
    [126 < |k| <= 192], [exp10] returns [r1] on that lane, built from two
    normal factors whose exact product is [2^k]. *)
Lemma two_factor_path (x : vec) (i : lane_ix) (k : Z) :
  wf x -> 126 < Z.abs k <= 192 ->
  lane (core_z (core x)) i = 0x4b400000 + k ->
  let xi := lane x i in
  lane (Fast.exp10 x) i = Lane.r1 xi /\
  F32.is_normal (Lane.s1 xi) = true /\ F32.is_normal (Lane.s2 xi) = true /\
  (F32.to_Q (Lane.s1 xi) * F32.to_Q (Lane.s2 xi) == Qpower 2 k)%Q.
Proof.
  intros Hx Hk Hz xi.
  destruct (integer_reduction x i k ltac:(lia) Hz) as [Hn He].
  destruct (core_lanes x i) as (Hn' & He' & _ & Hp').
  destruct (special_locals_lanes x i) as (S1 & S2 & _ & _ & R1 & _).
  cbv zeta in S1, S2, R1.
  assert (lane (Fast.classify (core_n (core x))) i = U32.ones) as Hc.
  { rewrite fast_classify_lane. unfold Lane.cmp1. rewrite <- Hn', Hn.
    pose proof (factors_ok_all k Hk) as Hok. unfold factors_ok in Hok. cbv zeta in Hok.
    apply andb_true_iff in Hok. destruct Hok as [Hok _].
    apply andb_true_iff in Hok. destruct Hok as [_ Hok].
    rewrite Hok. reflexivity. }
  assert (U32.wf (lane (core_poly (core x)) i)) as Wp
      by (rewrite Hp'; apply poly_wf, Hx).
  destruct (factors_at (core_poly (core x)) (core_n (core x)) (core_e (core x))
              (Fast.classify (core_n (core x))) (core_scale (core x)) i k
              Hk Hn He Hc Wp) as (_ & _ & A3 & A4 & A5 & _ & A7).
  cbv zeta in A3, A4, A5, A7. rewrite S1 in A3, A5. rewrite S2 in A4, A5.
  rewrite R1 in A7. fold xi in A3, A4, A5, A7.
  split; [|split; [exact A3 | split; [exact A4 | exact A5]]].
  rewrite <- A7. unfold Fast.exp10. cbv zeta.
  rewrite (v_any_u32_lane _ i); [reflexivity|].
  rewrite Hc. discriminate.
Qed.


(** ** The polynomial over the reals *)

(** C8.  The Estrin-style evaluation of the routine, read over exact real
    arithmetic, is the polynomial
    [poly[0] r + poly[1] r^2 + poly[2] r^3 + poly[3] r^4 + poly[4] r^5]. *)
Theorem estrin_is_direct (c : nat -> R) (r : R) :
  estrin Rmult Rfma c r = direct_poly c r.
Proof. unfold estrin, Rfma, direct_poly. ring. Qed.

(** ** Logarithms between rationals *)

Lemma ln2_pos : (0 < ln 2)%R.
Proof. pose proof ln_lt_2. lra. Qed.

Lemma ln10_pos : (0 < ln 10)%R.
Proof. rewrite <- ln_1. apply ln_increasing; lra. Qed.

(** An inequality between integer powers is one between multiples of
    logarithms. *)
Lemma pow_lt_ln (a b : Z) (p q : positive) :
  1 < a -> 1 < b -> a ^ Zpos p < b ^ Zpos q ->
  (IZR (Zpos p) * ln (IZR a) < IZR (Zpos q) * ln (IZR b))%R.
Proof.
  intros Ha Hb H. apply IZR_lt in H.
  rewrite <- (positive_nat_Z p), <- (positive_nat_Z q) in H.
  rewrite <- !pow_IZR in H.
  assert (0 < IZR a)%R as Pa by (apply IZR_lt; lia).
  assert (0 < IZR b)%R as Pb by (apply IZR_lt; lia).
  apply ln_increasing in H; [|apply pow_lt; exact Pa].
  rewrite !ln_pow in H by assumption.
  rewrite !INR_IZR_INZ, !positive_nat_Z in H. exact H.
Qed.

Lemma cross_lt (a b c d : R) :
  (0 < b)%R -> (0 < d)%R -> (a * d < c * b)%R -> (a / b < c / d)%R.
Proof.
  intros Hb Hd H.
  apply Rmult_lt_reg_r with (r := (b * d)%R); [apply Rmult_lt_0_compat; assumption|].
  replace (a / b * (b * d))%R with (a * d)%R by (field; lra).
  replace (c / d * (b * d))%R with (c * b)%R by (field; lra).
  exact H.
Qed.

(** [p / q < log2 (10)] from [2^p < 10^q], and the three other ways round. *)
Lemma log2_10_lower (p q : positive) :
  2 ^ Zpos p < 10 ^ Zpos q -> (IZR (Zpos p) / IZR (Zpos q) < log2_of_10)%R.
Proof.
  intros H. apply (pow_lt_ln 2 10 p q) in H; [|lia|lia].
  unfold log2_of_10. apply cross_lt; [apply IZR_lt; lia | apply ln2_pos | lra].
Qed.

Lemma log2_10_upper (p q : positive) :
  10 ^ Zpos q < 2 ^ Zpos p -> (log2_of_10 < IZR (Zpos p) / IZR (Zpos q))%R.
Proof.
  intros H. apply (pow_lt_ln 10 2 q p) in H; [|lia|lia].
  unfold log2_of_10. apply cross_lt; [apply ln2_pos | apply IZR_lt; lia | lra].
Qed.

Lemma log10_2_lower (p q : positive) :
  10 ^ Zpos p < 2 ^ Zpos q -> (IZR (Zpos p) / IZR (Zpos q) < log10_of_2)%R.
Proof.
  intros H. apply (pow_lt_ln 10 2 p q) in H; [|lia|lia].
  unfold log10_of_2. apply cross_lt; [apply IZR_lt; lia | apply ln10_pos | lra].
Qed.

Lemma log10_2_upper (p q : positive) :
  2 ^ Zpos q < 10 ^ Zpos p -> (log10_of_2 < IZR (Zpos p) / IZR (Zpos q))%R.
Proof.
  intros H. apply (pow_lt_ln 2 10 q p) in H; [|lia|lia].
  unfold log10_of_2. apply cross_lt; [apply ln10_pos | apply IZR_lt; lia | lra].
Qed.


(** ** Dyadic bounds of a power *)

Lemma trunc_lo_le (me : Z * Z) :
  0 <= fst me -> 0 <= snd me ->
  0 <= fst (trunc_lo me) /\ 0 <= snd (trunc_lo me) /\
  dyadic (trunc_lo me) <= dyadic me.
Proof.
  intros Hm He. unfold trunc_lo, dyadic. cbv zeta. cbn [fst snd].
  set (k := Z.max 0 (Z.log2 (fst me) - pow_bits)).
  assert (0 <= k) as Hk by (unfold k; lia).
  assert (0 < 2 ^ k) as Hp by (apply Z.pow_pos_nonneg; lia).
  split; [apply Z.div_pos; lia|]. split; [lia|].
  rewrite (Z.add_comm (snd me)), Z.pow_add_r, Z.mul_assoc by lia.
  apply Z.mul_le_mono_nonneg_r; [apply Z.pow_nonneg; lia|].
  rewrite Z.mul_comm. apply Z.mul_div_le. exact Hp.
Qed.

Lemma trunc_hi_ge (me : Z * Z) :
  0 <= fst me -> 0 <= snd me ->
  0 <= fst (trunc_hi me) /\ 0 <= snd (trunc_hi me) /\
  dyadic me <= dyadic (trunc_hi me).
Proof.
  intros Hm He. unfold trunc_hi. cbv zeta.
  set (k := Z.max 0 (Z.log2 (fst me) - pow_bits)).
  destruct (k =? 0); [repeat split; lia|].
  unfold dyadic. cbn [fst snd].
  assert (0 <= k) as Hk by (unfold k; lia).
  assert (0 < 2 ^ k) as Hp by (apply Z.pow_pos_nonneg; lia).
  assert (0 <= fst me / 2 ^ k) as Hq by (apply Z.div_pos; lia).
  split; [lia|]. split; [lia|].
  rewrite (Z.add_comm (snd me)), Z.pow_add_r, Z.mul_assoc by lia.
  apply Z.mul_le_mono_nonneg_r; [apply Z.pow_nonneg; lia|].
  pose proof (Z.div_mod (fst me) (2 ^ k) ltac:(lia)) as Hd.
  pose proof (Z.mod_pos_bound (fst me) (2 ^ k) Hp) as Hr.
  lia.
Qed.

Lemma dyadic_square (b : Z) (x : Z * Z) :
  0 <= snd x ->
  dyadic (fst x * fst x, snd x + snd x) = dyadic x * dyadic x /\
  dyadic (b * (fst x * fst x), snd x + snd x) = b * (dyadic x * dyadic x).
Proof.
  intros He. unfold dyadic. cbn [fst snd]. rewrite Z.pow_add_r by lia. split; ring.
Qed.

Lemma pow_double (b : Z) (p : positive) :
  b ^ Zpos p~0 = b ^ Zpos p * b ^ Zpos p /\
  b ^ Zpos p~1 = b * (b ^ Zpos p * b ^ Zpos p).
Proof.
  split.
  - replace (Zpos p~0) with (Zpos p + Zpos p) by lia.
    apply Z.pow_add_r; lia.
  - replace (Zpos p~1) with (Z.succ (Zpos p + Zpos p)) by lia.
    rewrite Z.pow_succ_r, Z.pow_add_r by lia. reflexivity.
Qed.

Lemma pow_lo_le (b : Z) (p : positive) :
  0 <= b ->
  0 <= fst (pow_lo b p) /\ 0 <= snd (pow_lo b p) /\ dyadic (pow_lo b p) <= b ^ Zpos p.
Proof.
  intros Hb. induction p as [p IH|p IH|]; cbn [pow_lo]; cbv zeta.
  - destruct IH as (Hm & He & Hle).
    set (x := pow_lo b p) in *.
    destruct (trunc_lo_le (b * (fst x * fst x), snd x + snd x)) as (H1 & H2 & H3);
      cbn [fst snd]; [nia | lia|].
    split; [exact H1|]. split; [exact H2|].
    eapply Z.le_trans; [exact H3|].
    rewrite (proj2 (dyadic_square b x He)), (proj2 (pow_double b p)).
    assert (0 <= dyadic x) by (unfold dyadic; apply Z.mul_nonneg_nonneg;
                               [lia | apply Z.pow_nonneg; lia]).
    apply Z.mul_le_mono_nonneg_l; [exact Hb|].
    apply Z.mul_le_mono_nonneg; lia.
  - destruct IH as (Hm & He & Hle).
    set (x := pow_lo b p) in *.
    destruct (trunc_lo_le (fst x * fst x, snd x + snd x)) as (H1 & H2 & H3);
      cbn [fst snd]; [nia | lia|].
    split; [exact H1|]. split; [exact H2|].
    eapply Z.le_trans; [exact H3|].
    rewrite (proj1 (dyadic_square b x He)), (proj1 (pow_double b p)).
    assert (0 <= dyadic x) by (unfold dyadic; apply Z.mul_nonneg_nonneg;
                               [lia | apply Z.pow_nonneg; lia]).
    apply Z.mul_le_mono_nonneg; lia.
  - cbn [fst snd]. unfold dyadic. cbn [fst snd]. rewrite Z.pow_1_r. lia.
Qed.

Lemma pow_hi_ge (b : Z) (p : positive) :
  0 <= b ->
  0 <= fst (pow_hi b p) /\ 0 <= snd (pow_hi b p) /\ b ^ Zpos p <= dyadic (pow_hi b p).
Proof.
  intros Hb.
  assert (forall q : positive, 0 <= b ^ Zpos q) as Hpos
      by (intros q; apply Z.pow_nonneg; exact Hb).
  induction p as [p IH|p IH|]; cbn [pow_hi]; cbv zeta.
  - destruct IH as (Hm & He & Hle).
    set (x := pow_hi b p) in *.
    destruct (trunc_hi_ge (b * (fst x * fst x), snd x + snd x)) as (H1 & H2 & H3);
      cbn [fst snd]; [nia | lia|].
    split; [exact H1|]. split; [exact H2|].
    eapply Z.le_trans; [|exact H3].
    rewrite (proj2 (dyadic_square b x He)), (proj2 (pow_double b p)).
    pose proof (Hpos p).
    apply Z.mul_le_mono_nonneg_l; [exact Hb|].
    apply Z.mul_le_mono_nonneg; lia.
  - destruct IH as (Hm & He & Hle).
    set (x := pow_hi b p) in *.
    destruct (trunc_hi_ge (fst x * fst x, snd x + snd x)) as (H1 & H2 & H3);
      cbn [fst snd]; [nia | lia|].
    split; [exact H1|]. split; [exact H2|].
    eapply Z.le_trans; [|exact H3].
    rewrite (proj1 (dyadic_square b x He)), (proj1 (pow_double b p)).
    pose proof (Hpos p).
    apply Z.mul_le_mono_nonneg; lia.
  - cbn [fst snd]. unfold dyadic. cbn [fst snd]. rewrite Z.pow_1_r. lia.
Qed.

Lemma two_pow_below_ok (q : positive) (b : Z) (p : positive) :
  0 <= b -> two_pow_below q b p = true -> 2 ^ Zpos q < b ^ Zpos p.
Proof.
  intros Hb H. unfold two_pow_below in H. cbv zeta in H.
  apply andb_true_iff in H. destruct H as [H1 H2].
  apply Z.leb_le in H1. apply Z.ltb_lt in H2.
  destruct (pow_lo_le b p Hb) as (Hm & He & Hle).
  eapply Z.lt_le_trans; [|exact Hle]. unfold dyadic.
  replace (Zpos q) with ((Zpos q - snd (pow_lo b p)) + snd (pow_lo b p)) at 1 by lia.
  rewrite Z.pow_add_r by lia.
  apply Z.mul_lt_mono_pos_r; [apply Z.pow_pos_nonneg; lia | exact H2].
Qed.

Lemma two_pow_above_ok (q : positive) (b : Z) (p : positive) :
  0 <= b -> two_pow_above q b p = true -> b ^ Zpos p < 2 ^ Zpos q.
Proof.
  intros Hb H. unfold two_pow_above in H. cbv zeta in H.
  apply andb_true_iff in H. destruct H as [H1 H2].
  apply Z.leb_le in H1. apply Z.ltb_lt in H2.
  destruct (pow_hi_ge b p Hb) as (Hm & He & Hle).
  eapply Z.le_lt_trans; [exact Hle|]. unfold dyadic.
  replace (Zpos q) with ((Zpos q - snd (pow_hi b p)) + snd (pow_hi b p)) at 1 by lia.
  rewrite Z.pow_add_r by lia.
  apply Z.mul_lt_mono_pos_r; [apply Z.pow_pos_nonneg; lia | exact H2].
Qed.

(** Convergents of the continued fractions of the two logarithms. *)
Lemma log2_10_bounds : (13301 / 4004 < log2_of_10 < 28738 / 8651)%R.
Proof.
  split.
  - apply (log2_10_lower 13301 4004), two_pow_below_ok; [lia|].
    vm_compute. reflexivity.
  - apply (log2_10_upper 28738 8651), two_pow_above_ok; [lia|].
    vm_compute. reflexivity.
Qed.

Lemma log10_2_bounds :
  (59632978 / 198096465 < log10_of_2 < 44240665 / 146964308)%R.
Proof.
  split.
  - apply (log10_2_lower 59632978 198096465), two_pow_above_ok; [lia|].
    vm_compute. reflexivity.
  - apply (log10_2_upper 44240665 146964308), two_pow_below_ok; [lia|].
    vm_compute. reflexivity.
Qed.

(** ** The constant table *)

Lemma to_Q_sign (b : Z) :
  (F32.sign_bit b = false -> 0 <= F32.to_Q b)%Q /\
  (F32.sign_bit b = true -> F32.to_Q b <= 0)%Q.
Proof.
  unfold F32.to_Q.
  assert (forall m e, 0 <= inject_Z (Z.pos m) * Qpower 2 e)%Q as Hpos.
  { intros m e. apply Qmult_le_0_compat; [|apply Qpower_0_le]; discriminate. }
  assert (match F32.decode b with
          | S754_finite s _ _ => s = F32.sign_bit b
          | _ => True
          end) as Hs.
  { unfold F32.decode. cbv zeta.
    destruct (F32.biased_exp b =? 255); [destruct (F32.fraction b =? 0); exact I|].
    destruct (F32.biased_exp b =? 0).
    - destruct (F32.fraction b); try exact I. reflexivity.
    - destruct (F32.fraction b + 2 ^ 23); try exact I. reflexivity. }
  destruct (F32.decode b) as [s|s| |s m e]; cbn [F32.SF2Q];
    try (split; intros _; apply Qle_refl).
  rewrite Hs.
  split; intros ->; cbn [cond_Zopp].
  - apply Hpos.
  - setoid_replace (inject_Z (- Z.pos m) * Qpower 2 e)%Q
      with (- (inject_Z (Z.pos m) * Qpower 2 e))%Q
      by (rewrite inject_Z_opp; ring).
    apply (Qopp_le_compat 0), Hpos.
Qed.

Lemma and_abs_pos (x : Z) :
  U32.wf x -> F32.sign_bit x = false -> U32.and x 0x7fffffff = x.
Proof.
  intros Hx Hs. rewrite and_abs_fields by exact Hx.
  pose proof (fields_eq x Hx) as H. rewrite Hs in H. cbn [F32.sign_word] in H. lia.
Qed.

(** The finite lanes around a positive one: any other finite value is at
    most the predecessor's or at least the successor's. *)
Lemma neighbours (c b : Z) :
  U32.wf (c - 1) -> U32.wf c -> U32.wf (c + 1) ->
  F32.sign_bit (c - 1) = false -> F32.sign_bit c = false ->
  F32.sign_bit (c + 1) = false ->
  F32.is_finite (c - 1) = true -> F32.is_finite (c + 1) = true ->
  U32.wf b -> F32.is_finite b = true ->
  (b = c \/ F32.to_Q b <= F32.to_Q (c - 1) \/ F32.to_Q (c + 1) <= F32.to_Q b)%Q.
Proof.
  intros Wp Wc Ws Sp Sc Ss Fp Fs Wb Fb.
  pose proof (proj1 (to_Q_sign (c - 1)) Sp) as Pp.
  pose proof (proj1 (to_Q_sign (c + 1)) Ss) as Ps.
  destruct (F32.sign_bit b) eqn:Sb.
  - right. left. apply Qle_trans with (y := 0%Q); [|exact Pp].
    apply to_Q_sign, Sb.
  - pose proof (proj1 (to_Q_sign b) Sb) as Pb.
    destruct (Z.lt_trichotomy b c) as [H|[H|H]].
    + right. left.
      rewrite <- (Qabs_pos _ Pb), <- (Qabs_pos _ Pp).
      apply abs_le_patterns; try assumption.
      rewrite !and_abs_pos by assumption. lia.
    + left. exact H.
    + right. right.
      rewrite <- (Qabs_pos _ Pb), <- (Qabs_pos _ Ps).
      apply abs_le_patterns; try assumption.
      rewrite !and_abs_pos by assumption. lia.
Qed.

Lemma table_patterns :
  Lane.log10_2 = 0x40549a78 /\ Lane.shift = 0x4b400000 /\
  Lane.log2_10_hi = 0x3e9a209b /\ Lane.log2_10_lo = 0xb2760860.
Proof. repeat split; vm_compute; reflexivity. Qed.

Lemma table_values :
  to_R 0x40549a78 = (IZR 0x1a934f / 2 ^ 19)%R /\
  to_R 0x4b400000 = (3 / 2 * 2 ^ 23)%R /\
  to_R 0x3e9a209b = (IZR 0x1344136 / 2 ^ 26)%R /\
  to_R 0xb2760860 = (- IZR 0x1ec10c / 2 ^ 47)%R /\
  to_R (0x40549a78 - 1) = (IZR 0x1a934f / 2 ^ 19 - / 2 ^ 22)%R /\
  to_R (0x40549a78 + 1) = (IZR 0x1a934f / 2 ^ 19 + / 2 ^ 22)%R.
Proof.
  unfold to_R.
  repeat split;
    match goal with
    | |- Q2R (F32.to_Q ?b) = _ =>
        let q := eval vm_compute in (F32.to_Q b) in
        change (F32.to_Q b) with q
    end;
    unfold Q2R; cbn [Qnum Qden]; field.
Qed.

(** C9.  The constant table holds what the specification says: the field
    [log10_2] is [0x1.a934fp+1], within half a unit in the last place of
    [log2 (10)] and nearer to it than any other finite single-precision
    value; [shift] is [1.5 * 2^23]; [log2_10_hi] and [log2_10_lo] are
    [0x1.344136p-2] and [-0x1.ec10cp-27], the first within the
    single-precision half-ulp [2^-26] of [log10 (2)], the second below
    [2^-25], and their sum within [2^-53] of [log10 (2)]. *)
Theorem constant_table (i : lane_ix) :
  let l := to_R (lane (log10_2 data) i) in
  let s := to_R (lane (shift data) i) in
  let hi := to_R (lane (log2_10_hi data) i) in
  let lo := to_R (lane (log2_10_lo data) i) in
  l = (IZR 0x1a934f / 2 ^ 19)%R /\
  (Rabs (l - log2_of_10) < / 2 ^ 23)%R /\
  (forall b, U32.wf b -> F32.is_finite b = true ->
     (Rabs (l - log2_of_10) <= Rabs (to_R b - log2_of_10))%R) /\
  s = (3 / 2 * 2 ^ 23)%R /\
  hi = (IZR 0x1344136 / 2 ^ 26)%R /\
  lo = (- IZR 0x1ec10c / 2 ^ 47)%R /\
  (Rabs (hi + lo - log10_of_2) < / 2 ^ 53)%R /\
  (Rabs (hi - log10_of_2) < / 2 ^ 26)%R /\
  (Rabs lo < / 2 ^ 25)%R.
Proof.
  destruct (lane_data i) as (Hs & Hl & Hhi & Hlo & _).
  destruct table_patterns as (Pl & Ps & Phi & Plo).
  destruct table_values as (Vl & Vs & Vhi & Vlo & Vp & Vn).
  rewrite Hs, Hl, Hhi, Hlo, Pl, Ps, Phi, Plo. cbv zeta.
  rewrite Vl, Vs, Vhi, Vlo.
  pose proof log2_10_bounds as [L1 L2]. pose proof log10_2_bounds as [T1 T2].
  split; [reflexivity|]. split; [|split].
  - apply Rabs_def1; lra.
  - intros b Wb Fb.
    assert (U32.wf (0x40549a78 - 1) /\ U32.wf 0x40549a78 /\ U32.wf (0x40549a78 + 1))
      as (W1 & W2 & W3) by (unfold U32.wf, U32.modulus; lia).
    destruct (neighbours 0x40549a78 b W1 W2 W3 eq_refl eq_refl eq_refl
                eq_refl eq_refl Wb Fb) as [E|[E|E]].
    + rewrite E, Vl. apply Rle_refl.
    + apply Qle_Rle in E. fold (to_R b) in E. fold (to_R (0x40549a78 - 1)) in E.
      rewrite Vp in E.
      unfold Rabs. destruct (Rcase_abs _), (Rcase_abs _); lra.
    + apply Qle_Rle in E. fold (to_R b) in E. fold (to_R (0x40549a78 + 1)) in E.
      rewrite Vn in E.
      unfold Rabs. destruct (Rcase_abs _), (Rcase_abs _); lra.
  - split; [reflexivity|]. split; [reflexivity|]. split; [reflexivity|].
    split; [|split]; apply Rabs_def1; lra.
Qed.

Lemma constant_table_witness :
  U32.wf 0x40400000 /\ F32.is_finite 0x40400000 = true /\
  (Rabs (to_R (lane (log10_2 data) L0) - log2_of_10)
   <= Rabs (to_R 0x40400000 - log2_of_10))%R.
Proof.
  assert (U32.wf 0x40400000) as W by (unfold U32.wf, U32.modulus; lia).
  split; [exact W|]. split; [reflexivity|].
  destruct (constant_table L0) as (_ & _ & H & _). cbv zeta in H.
  exact (H 0x40400000 W eq_refl).
Defined.

(** ** The inputs the source and its specification name *)

(** The worst case recorded in the source:
    [_ZGVnN4v_exp10f (0x1.be2b36p+1)] got [0x1.7e79c4p+11], where
    [0x1.7e79cp+11] was wanted.  Both builds take the ordinary path there. *)
Example documented_worst_case :
  let x := F32.of_scaled 0x1be2b36 (-23) in
  Fast.exp10 (V4 x) = V4 (F32.of_scaled 0x17e79c4 (-13)) /\
  (forall exp10f, Strict.exp10 exp10f (V4 x) = V4 (F32.of_scaled 0x17e79c4 (-13))) /\
  F32.of_scaled 0x17e79c4 (-13) = F32.of_scaled 0x17e79c (-9) + 2.
Proof.
  cbv zeta. split; [vm_compute; reflexivity|]. split; [|vm_compute; reflexivity].
  intros exp10f.
  assert (v_any_u32 (Strict.classify (V4 (F32.of_scaled 0x1be2b36 (-23)))) = false)
    as H by (vm_compute; reflexivity).
  unfold Strict.exp10, Strict.locals, Strict.masked. cbv zeta.
  cbn [Strict.st_ret]. rewrite H.
  vm_compute. reflexivity.
Qed.

(** [10^0 = 1] and [10^1 = 10] come out exactly; [x = -40] gives a
    subnormal in the fast build, [x = 38.5] is handed to the scalar routine
    in the strict build. *)
Example named_inputs :
  Lane.fast (F32.of_Z 0) = F32.of_Z 1 /\
  Lane.fast (F32.of_Z 1) = F32.of_Z 10 /\
  Lane.fast (F32.of_Z (-40)) = 71362 /\
  F32.is_normal 71362 = false /\
  (forall exp10f, Lane.strict exp10f (F32.of_scaled 77 (-1)) = exp10f (F32.of_scaled 77 (-1))).
Proof.
  split; [vm_compute; reflexivity|]. split; [vm_compute; reflexivity|].
  split; [vm_compute; reflexivity|]. split; [vm_compute; reflexivity|].
  intros exp10f. unfold Lane.strict.
  assert (Lane.special (F32.of_scaled 77 (-1)) = true) as H by (vm_compute; reflexivity).
  rewrite H. reflexivity.
Qed.

(** ** The error at the documented input *)

Lemma dyadic_ltb_ok (x y : Z * Z) :
  0 <= snd x -> 0 <= snd y -> dyadic_ltb x y = true -> dyadic x < dyadic y.
Proof.
  unfold dyadic_ltb, dyadic. intros Hx Hy.
  destruct (Z.leb_spec (snd x) (snd y)) as [H|H]; intros Hlt; apply Z.ltb_lt in Hlt.
  - replace (snd y) with ((snd y - snd x) + snd x) at 1 by lia.
    rewrite Z.pow_add_r, Z.mul_assoc by lia.
    apply Z.mul_lt_mono_pos_r; [apply Z.pow_pos_nonneg; lia | exact Hlt].
  - replace (snd x) with ((snd x - snd y) + snd y) at 1 by lia.
    rewrite Z.pow_add_r, Z.mul_assoc by lia.
    apply Z.mul_lt_mono_pos_r; [apply Z.pow_pos_nonneg; lia | exact Hlt].
Qed.

Lemma dyadic_nonneg (x : Z * Z) : 0 <= fst x -> 0 <= snd x -> 0 <= dyadic x.
Proof.
  intros Hm He. unfold dyadic. apply Z.mul_nonneg_nonneg; [exact Hm|].
  apply Z.pow_nonneg. lia.
Qed.

Lemma dyadic_mul (x y : Z * Z) :
  0 <= snd x -> 0 <= snd y ->
  dyadic (fst x * fst y, snd x + snd y) = dyadic x * dyadic y.
Proof.
  intros Hx Hy. unfold dyadic. cbn [fst snd]. rewrite Z.pow_add_r by lia. ring.
Qed.

Lemma pow_prod_below_ok (b : Z) (a : positive) (q p : Z) (n : positive) :
  0 <= b -> 0 <= q -> 0 <= p ->
  pow_prod_below b a q p n = true -> b ^ Zpos a * q ^ Zpos n < p ^ Zpos n.
Proof.
  intros Hb Hq Hp H. unfold pow_prod_below in H. cbv zeta in H.
  destruct (pow_hi_ge b a Hb) as (Xm & Xe & Xle).
  destruct (pow_hi_ge q n Hq) as (Ym & Ye & Yle).
  destruct (pow_lo_le p n Hp) as (Zm & Ze & Zle).
  apply dyadic_ltb_ok in H; cbn [fst snd]; [|lia|exact Ze].
  rewrite dyadic_mul in H by assumption.
  eapply Z.le_lt_trans; [|eapply Z.lt_le_trans; [exact H | exact Zle]].
  apply Z.mul_le_mono_nonneg; try assumption; apply Z.pow_nonneg; assumption.
Qed.

Lemma pow_prod_above_ok (b : Z) (a : positive) (q p : Z) (n : positive) :
  0 <= b -> 0 <= q -> 0 <= p ->
  pow_prod_above b a q p n = true -> p ^ Zpos n < b ^ Zpos a * q ^ Zpos n.
Proof.
  intros Hb Hq Hp H. unfold pow_prod_above in H. cbv zeta in H.
  destruct (pow_lo_le b a Hb) as (Xm & Xe & Xle).
  destruct (pow_lo_le q n Hq) as (Ym & Ye & Yle).
  destruct (pow_hi_ge p n Hp) as (Zm & Ze & Zle).
  apply dyadic_ltb_ok in H; cbn [fst snd]; [|exact Ze|lia].
  rewrite dyadic_mul in H by assumption.
  eapply Z.le_lt_trans; [exact Zle|]. eapply Z.lt_le_trans; [exact H|].
  apply Z.mul_le_mono_nonneg; try assumption; apply dyadic_nonneg; assumption.
Qed.

Lemma ln_IZR_pow (x : Z) (p : positive) :
  0 < x -> ln (IZR (x ^ Zpos p)) = (IZR (Zpos p) * ln (IZR x))%R.
Proof.
  intros Hx. rewrite <- (positive_nat_Z p) at 1. rewrite <- pow_IZR.
  rewrite ln_pow by (apply IZR_lt; lia).
  rewrite INR_IZR_INZ, positive_nat_Z. reflexivity.
Qed.

Lemma ln_IZR_div (p q : Z) :
  0 < p -> 0 < q -> ln (IZR p / IZR q) = (ln (IZR p) - ln (IZR q))%R.
Proof.
  intros Hp Hq. apply IZR_lt in Hp, Hq. unfold Rdiv.
  rewrite ln_mult, ln_Rinv by (try apply Rinv_0_lt_compat; assumption).
  reflexivity.
Qed.

Lemma Rpower_pos (x y : R) : (0 < Rpower x y)%R.
Proof. unfold Rpower. apply exp_pos. Qed.

(** A power with a rational exponent against a rational, by integers. *)
Lemma Rpower_below (b : Z) (a n : positive) (q p : Z) :
  1 < b -> 0 < q -> 0 < p ->
  b ^ Zpos a * q ^ Zpos n < p ^ Zpos n ->
  (Rpower (IZR b) (IZR (Zpos a) / IZR (Zpos n)) < IZR p / IZR q)%R.
Proof.
  intros Hb Hq Hp H.
  assert (0 < IZR (Zpos n))%R as Hn by (apply IZR_lt; lia).
  assert (0 < b ^ Zpos a) as Pa by (apply Z.pow_pos_nonneg; lia).
  assert (0 < q ^ Zpos n) as Pq by (apply Z.pow_pos_nonneg; lia).
  apply ln_lt_inv; [apply Rpower_pos | |].
  { apply Rdiv_lt_0_compat; apply IZR_lt; assumption. }
  rewrite ln_Rpower, ln_IZR_div by assumption.
  apply IZR_lt in H. rewrite mult_IZR in H.
  apply ln_increasing in H;
    [|apply Rmult_lt_0_compat; apply IZR_lt; assumption].
  rewrite ln_mult in H by (apply IZR_lt; assumption).
  rewrite !ln_IZR_pow in H by lia.
  apply Rmult_lt_reg_l with (r := IZR (Zpos n)); [exact Hn|].
  replace (IZR (Zpos n) * (IZR (Zpos a) / IZR (Zpos n) * ln (IZR b)))%R
    with (IZR (Zpos a) * ln (IZR b))%R by (field; lra).
  lra.
Qed.

Lemma Rpower_above (b : Z) (a n : positive) (q p : Z) :
  1 < b -> 0 < q -> 0 < p ->
  p ^ Zpos n < b ^ Zpos a * q ^ Zpos n ->
  (IZR p / IZR q < Rpower (IZR b) (IZR (Zpos a) / IZR (Zpos n)))%R.
Proof.
  intros Hb Hq Hp H.
  assert (0 < IZR (Zpos n))%R as Hn by (apply IZR_lt; lia).
  assert (0 < b ^ Zpos a) as Pa by (apply Z.pow_pos_nonneg; lia).
  assert (0 < q ^ Zpos n) as Pq by (apply Z.pow_pos_nonneg; lia).
  assert (0 < p ^ Zpos n) as Pp by (apply Z.pow_pos_nonneg; lia).
  apply ln_lt_inv; [|apply Rpower_pos|].
  { apply Rdiv_lt_0_compat; apply IZR_lt; assumption. }
  rewrite ln_Rpower, ln_IZR_div by assumption.
  apply IZR_lt in H. rewrite mult_IZR in H.
  apply ln_increasing in H; [|apply IZR_lt; assumption].
  rewrite ln_mult in H by (apply IZR_lt; assumption).
  rewrite !ln_IZR_pow in H by lia.
  apply Rmult_lt_reg_l with (r := IZR (Zpos n)); [exact Hn|].
  replace (IZR (Zpos n) * (IZR (Zpos a) / IZR (Zpos n) * ln (IZR b)))%R
    with (IZR (Zpos a) * ln (IZR b))%R by (field; lra).
  lra.
Qed.

(** At the input the source documents, [0x1.be2b36p+1], the result
    [0x1.7e79c4p+11] lies between 2.3594 and 2.3595 units in the last place
    above [10^x]; the unit there is [2^-12].  This is the "maxerr: 1.85943
    + 0.5 ulp" of the source. *)
Lemma documented_error :
  let x := F32.of_scaled 0x1be2b36 (-23) in
  let y := lane (Fast.exp10 (V4 x)) L0 in
  (23594 / 10000 * / 2 ^ 12 < to_R y - Rpower 10 (to_R x)
   < 23595 / 10000 * / 2 ^ 12)%R.
Proof.
  cbv zeta.
  assert (F32.of_scaled 0x1be2b36 (-23) = 0x405f159b) as -> by (vm_compute; reflexivity).
  assert (lane (Fast.exp10 (V4 0x405f159b)) L0 = 0x453f3ce2) as ->
      by (vm_compute; reflexivity).
  assert (to_R 0x405f159b = (14620059 / 4194304)%R) as ->.
  { unfold to_R.
    let q := eval vm_compute in (F32.to_Q 0x405f159b) in
    change (F32.to_Q 0x405f159b) with q.
    unfold Q2R; cbn [Qnum Qden]. reflexivity. }
  assert (to_R 0x453f3ce2 = (12532962 / 4096)%R) as ->.
  { unfold to_R.
    let q := eval vm_compute in (F32.to_Q 0x453f3ce2) in
    change (F32.to_Q 0x453f3ce2) with q.
    unfold Q2R; cbn [Qnum Qden]. reflexivity. }
  assert (125329596405 / 40960000 < Rpower 10 (14620059 / 4194304)
          < 125329596406 / 40960000)%R as [Hlo Hhi].
  { split.
    - apply (Rpower_above 10 14620059 4194304 40960000 125329596405);
        [lia|lia|lia|].
      apply pow_prod_above_ok; [lia|lia|lia|]. vm_compute. reflexivity.
    - apply (Rpower_below 10 14620059 4194304 40960000 125329596406);
        [lia|lia|lia|].
      apply pow_prod_below_ok; [lia|lia|lia|]. vm_compute. reflexivity. }
  split; lra.
Qed.

(** ** Rounding to nearest: what the shifts compute *)

Lemma shr_1_eq (m : Z) (r s : bool) :
  0 <= m ->
  shr_1 {| shr_m := m; shr_r := r; shr_s := s |}
  = {| shr_m := m / 2; shr_r := Z.odd m; shr_s := r || s |}.
Proof.
  intros Hm. destruct m as [|[p|p|]|p]; cbn [shr_1]; try lia; try reflexivity.
  - replace (Z.pos p~1 / 2) with (Z.pos p)
      by (apply Z.div_unique with (r := 1); lia).
    reflexivity.
  - replace (Z.pos p~0 / 2) with (Z.pos p)
      by (apply Z.div_unique with (r := 0); lia).
    reflexivity.
Qed.

Lemma pow2_pred (k : Z) : 0 < k -> 2 ^ k = 2 * 2 ^ (k - 1).
Proof.
  intros Hk. rewrite <- Z.pow_succ_r by lia. f_equal. lia.
Qed.

Lemma mod_pow2_split (m k : Z) :
  0 < k ->
  m mod 2 ^ k = (if Z.testbit m (k - 1) then 2 ^ (k - 1) else 0) + m mod 2 ^ (k - 1).
Proof.
  intros Hk.
  rewrite (pow2_pred k Hk), (Z.mul_comm 2).
  assert (0 < 2 ^ (k - 1)) as Hp by (apply Z.pow_pos_nonneg; lia).
  rewrite Z.rem_mul_r by lia.
  pose proof (Z.testbit_spec' m (k - 1) ltac:(lia)) as Ht.
  rewrite <- Ht. destruct (Z.testbit m (k - 1)); cbn [Z.b2z]; lia.
Qed.

Lemma shr_1_state (m k : Z) :
  0 <= m -> 0 <= k -> shr_1 (shr_state m k) = shr_state m (k + 1).
Proof.
  intros Hm Hk. unfold shr_state.
  assert (0 < 2 ^ k) as Hp by (apply Z.pow_pos_nonneg; lia).
  rewrite shr_1_eq by (apply Z.div_pos; lia).
  replace (k + 1 - 1) with k by lia.
  replace (0 <? k + 1) with true by (symmetry; apply Z.ltb_lt; lia).
  cbn [andb].
  f_equal.
  - rewrite Z.div_div by lia. rewrite Z.pow_add_r by lia. reflexivity.
  - rewrite Z.testbit_odd, Z.shiftr_div_pow2 by lia. reflexivity.
  - destruct (Z.ltb_spec 0 k) as [H0|H0]; cbn [andb].
    + rewrite (mod_pow2_split m k H0).
      pose proof (Z.mod_pos_bound m (2 ^ (k - 1)) ltac:(apply Z.pow_pos_nonneg; lia)) as Hb.
      assert (0 < 2 ^ (k - 1)) as Hq by (apply Z.pow_pos_nonneg; lia).
      destruct (Z.testbit m (k - 1)); cbn [orb].
      * symmetry. apply negb_true_iff, Z.eqb_neq. lia.
      * reflexivity.
    + replace k with 0 by lia. rewrite Z.mod_1_r. reflexivity.
Qed.

Lemma iter_shr_state (p : positive) (m k : Z) :
  0 <= m -> 0 <= k ->
  SpecFloat.iter_pos shr_1 p (shr_state m k) = shr_state m (k + Zpos p).
Proof.
  intros Hm. revert k.
  induction p as [p IH|p IH|]; intros k Hk; cbn [SpecFloat.iter_pos].
  - rewrite shr_1_state, IH, IH by lia. f_equal. lia.
  - rewrite IH, IH by lia. f_equal. lia.
  - apply shr_1_state; assumption.
Qed.

Lemma shr_state_0 (m : Z) : shr_state m 0 = shr_record_of_loc m loc_Exact.
Proof. unfold shr_state. cbn. rewrite Z.div_1_r. reflexivity. Qed.

Lemma round_state (m k : Z) :
  0 <= m -> 0 <= k ->
  round_nearest_even (shr_m (shr_state m k)) (loc_of_shr_record (shr_state m k))
  = rne m k.
Proof.
  intros Hm Hk. unfold shr_state, rne. cbn [shr_m loc_of_shr_record]. cbv zeta.
  destruct (Z.ltb_spec 0 k) as [H0|H0]; cbn [andb].
  - rewrite (mod_pow2_split m k H0).
    pose proof (Z.mod_pos_bound m (2 ^ (k - 1)) ltac:(apply Z.pow_pos_nonneg; lia)) as Hb.
    pose proof (pow2_pred k H0) as E2.
    destruct (Z.testbit m (k - 1)).
    + destruct (Z.eqb_spec (m mod 2 ^ (k - 1)) 0) as [E|E]; cbn [negb round_nearest_even].
      * rewrite E, E2, Z.add_0_r, Z.compare_refl. reflexivity.
      * replace (2 * (2 ^ (k - 1) + m mod 2 ^ (k - 1)) ?= 2 ^ k) with Gt
          by (symmetry; apply Z.compare_gt_iff; lia).
        reflexivity.
    + replace (2 * (0 + m mod 2 ^ (k - 1)) ?= 2 ^ k) with Lt
        by (symmetry; apply Z.compare_lt_iff; lia).
      destruct (m mod 2 ^ (k - 1) =? 0); reflexivity.
  - replace k with 0 by lia. rewrite Z.mod_1_r. reflexivity.
Qed.

(** *** Properties of [rne] *)

Lemma rne_cases (m k : Z) : rne m k = m / 2 ^ k \/ rne m k = m / 2 ^ k + 1.
Proof.
  unfold rne. cbv zeta.
  destruct (2 * (m mod 2 ^ k) ?= 2 ^ k); [destruct (Z.even _)| |]; auto.
Qed.

Lemma rne_0 (m : Z) : rne m 0 = m.
Proof. unfold rne. cbn. rewrite Z.mod_1_r, Z.div_1_r. reflexivity. Qed.

(** Nearest: twice the distance is at most one unit. *)
Lemma rne_nearest (m k : Z) :
  0 <= k -> 2 * Z.abs (rne m k * 2 ^ k - m) <= 2 ^ k.
Proof.
  intros Hk. unfold rne. cbv zeta.
  assert (0 < 2 ^ k) as Hp by (apply Z.pow_pos_nonneg; lia).
  pose proof (Z.div_mod m (2 ^ k) ltac:(lia)) as Hd.
  pose proof (Z.mod_pos_bound m (2 ^ k) Hp) as Hb.
  set (q := m / 2 ^ k) in *. set (r := m mod 2 ^ k) in *.
  destruct (Z.compare_spec (2 * r) (2 ^ k)) as [E|E|E];
    [destruct (Z.even q)| |]; nia.
Qed.

(** On a tie the even neighbour is taken. *)
Lemma rne_tie (m k : Z) :
  0 <= k -> 2 * (m mod 2 ^ k) = 2 ^ k -> Z.even (rne m k) = true.
Proof.
  intros Hk E. unfold rne. cbv zeta. rewrite E, Z.compare_refl.
  destruct (Z.even (m / 2 ^ k)) eqn:Ev; [exact Ev|].
  rewrite Z.even_add, Ev. reflexivity.
Qed.

Lemma rne_exact (a k : Z) : 0 <= k -> rne (a * 2 ^ k) k = a.
Proof.
  intros Hk. unfold rne. cbv zeta.
  assert (0 < 2 ^ k) as Hp by (apply Z.pow_pos_nonneg; lia).
  rewrite Z.mod_mul, Z.div_mul by lia.
  replace (2 * 0 ?= 2 ^ k) with Lt by (symmetry; apply Z.compare_lt_iff; lia).
  reflexivity.
Qed.

Lemma rne_mono (m m' k : Z) : 0 <= k -> m <= m' -> rne m k <= rne m' k.
Proof.
  intros Hk Hle.
  assert (0 < 2 ^ k) as Hp by (apply Z.pow_pos_nonneg; lia).
  pose proof (Z.div_le_mono m m' (2 ^ k) Hp Hle) as Hq.
  destruct (Z.eq_dec (m / 2 ^ k) (m' / 2 ^ k)) as [E|E].
  - unfold rne. cbv zeta. rewrite E.
    pose proof (Z.div_mod m (2 ^ k) ltac:(lia)) as Hd.
    pose proof (Z.div_mod m' (2 ^ k) ltac:(lia)) as Hd'.
    rewrite E in Hd.
    destruct (Z.compare_spec (2 * (m mod 2 ^ k)) (2 ^ k)) as [A|A|A];
      destruct (Z.compare_spec (2 * (m' mod 2 ^ k)) (2 ^ k)) as [B|B|B];
      try destruct (Z.even (m' / 2 ^ k)); lia.
  - destruct (rne_cases m k) as [A|A], (rne_cases m' k) as [B|B]; lia.
Qed.

(** A multiple of the unit below (above) the value stays below (above). *)
Lemma rne_ge (a m k : Z) : 0 <= k -> a * 2 ^ k <= m -> a <= rne m k.
Proof.
  intros Hk H. rewrite <- (rne_exact a k Hk). apply rne_mono; assumption.
Qed.

Lemma rne_le (a m k : Z) : 0 <= k -> m <= a * 2 ^ k -> rne m k <= a.
Proof.
  intros Hk H. rewrite <- (rne_exact a k Hk). apply rne_mono; assumption.
Qed.

(** *** Digit counts *)

Lemma Zdigits2_unique (m n : Z) :
  2 ^ (n - 1) <= m < 2 ^ n -> 0 < m -> Zdigits2 m = n.
Proof.
  intros H Hm. destruct m as [|p|p]; try lia.
  pose proof (Zdigits2_bounds p) as Hd.
  assert (0 < Zdigits2 (Z.pos p)) as Hpos by (cbn; lia).
  set (d := Zdigits2 (Z.pos p)) in *.
  assert (0 < n) as Hn.
  { destruct (Z.lt_ge_cases 0 n) as [|Hle]; [assumption|].
    destruct (Z.eq_dec n 0) as [->|Hne]; [change (2 ^ 0) with 1 in H; lia|].
    rewrite (Z.pow_neg_r 2 n) in H by lia. lia. }
  destruct (Z.lt_trichotomy d n) as [Hlt|[Heq|Hgt]]; [|exact Heq|].
  - assert (2 ^ d <= 2 ^ (n - 1)) by (apply Z.pow_le_mono_r; lia). lia.
  - assert (2 ^ n <= 2 ^ (d - 1)) by (apply Z.pow_le_mono_r; lia). lia.
Qed.

Lemma Zdigits2_le (m n : Z) : 0 <= n -> 0 <= m < 2 ^ n -> Zdigits2 m <= n.
Proof.
  intros Hn H. destruct m as [|p|p]; [cbn; lia | | lia].
  pose proof (Zdigits2_bounds p) as Hd.
  set (d := Zdigits2 (Z.pos p)) in *.
  destruct (Z.le_gt_cases d n) as [|Hgt]; [assumption|].
  assert (2 ^ n <= 2 ^ (d - 1)) by (apply Z.pow_le_mono_r; lia). lia.
Qed.

Lemma Zdigits2_ge (m n : Z) : 0 <= n -> 2 ^ n <= m -> n < Zdigits2 m.
Proof.
  intros Hn H.
  assert (0 < 2 ^ n) by (apply Z.pow_pos_nonneg; lia).
  destruct m as [|p|p]; try lia.
  pose proof (Zdigits2_bounds p) as Hd.
  set (d := Zdigits2 (Z.pos p)) in *.
  destruct (Z.lt_ge_cases n d) as [|Hge]; [assumption|].
  assert (2 ^ d <= 2 ^ n) by (apply Z.pow_le_mono_r; lia).
  lia.
Qed.

Lemma Zdigits2_pos (m : Z) : 0 < m -> 0 < Zdigits2 m.
Proof. destruct m; cbn; lia. Qed.

Lemma Zdigits2_shift (m j : Z) :
  0 < m -> 0 <= j -> Zdigits2 (m * 2 ^ j) = Zdigits2 m + j.
Proof.
  intros Hm Hj.
  assert (0 < 2 ^ j) as Hp by (apply Z.pow_pos_nonneg; lia).
  destruct m as [|p|p]; try lia.
  pose proof (Zdigits2_bounds p) as Hd.
  pose proof (Zdigits2_pos (Z.pos p) Hm) as Hd0.
  set (d := Zdigits2 (Z.pos p)) in *.
  apply Zdigits2_unique; [|nia].
  replace (d + j - 1) with ((d - 1) + j) by lia.
  rewrite !Z.pow_add_r by lia. nia.
Qed.

Lemma iter_xO (m d : positive) : Zpos (Pos.iter xO m d) = Zpos m * 2 ^ Zpos d.
Proof.
  induction d as [|d IH] using Pos.peano_ind.
  - cbn [Pos.iter]. lia.
  - rewrite Pos.iter_succ, Pos2Z.inj_succ, Z.pow_succ_r by lia.
    rewrite Pos2Z.pos_xO, IH. ring.
Qed.

Lemma round_exp_ge (m e : Z) : -149 <= round_exp m e.
Proof. unfold round_exp, fexp, emin, F32.prec, F32.emax. lia. Qed.

Lemma round_exp_eq (m e : Z) :
  round_exp m e = Z.max (Zdigits2 m + e - 24) (-149).
Proof. reflexivity. Qed.

(** *** The rounding functions, by what they return *)

Lemma shr_fexp_state (m e : Z) :
  0 <= m ->
  shr_fexp F32.prec F32.emax m e loc_Exact
  = (shr_state m (Z.max e (round_exp m e) - e), Z.max e (round_exp m e)).
Proof.
  intros Hm. unfold shr_fexp, shr.
  change (fexp F32.prec F32.emax (Zdigits2 m + e)) with (round_exp m e).
  destruct (round_exp m e - e) as [|p|p] eqn:En.
  - replace (Z.max e (round_exp m e)) with e by lia.
    rewrite Z.sub_diag, shr_state_0. reflexivity.
  - rewrite <- shr_state_0, iter_shr_state by lia.
    replace (Z.max e (round_exp m e)) with (e + Z.pos p) by lia.
    f_equal. f_equal. lia.
  - replace (Z.max e (round_exp m e)) with e by lia.
    rewrite Z.sub_diag, shr_state_0. reflexivity.
Qed.

Lemma shr_state_m (m k : Z) : shr_m (shr_state m k) = m / 2 ^ k.
Proof. reflexivity. Qed.

Lemma binary_round_aux_spec (s : bool) (m e : Z) :
  0 <= m ->
  binary_round_aux F32.prec F32.emax s m e loc_Exact
  = round_result s (rne m (Z.max e (round_exp m e) - e)) (Z.max e (round_exp m e)).
Proof.
  intros Hm. unfold binary_round_aux.
  pose proof (shr_fexp_bounds m e loc_Exact Hm) as Hb. cbv zeta in Hb.
  rewrite shr_fexp_state in Hb |- * by exact Hm. cbn [fst snd] in Hb.
  destruct Hb as (Hq & _).
  rewrite shr_state_m in Hq.
  pose proof (round_exp_ge m e) as HE.
  set (E := Z.max e (round_exp m e)) in *.
  rewrite round_state by lia.
  pose proof (rne_cases m (E - e)) as Hc.
  set (m2 := rne m (E - e)) in *.
  assert (0 <= m2 <= 2 ^ 24) as Hm2 by lia.
  rewrite shr_fexp_state by lia.
  rewrite shr_state_m.
  unfold round_result. cbv zeta.
  destruct (Z.eqb_spec m2 (2 ^ 24)) as [E24|N24].
  - rewrite E24.
    assert (round_exp (2 ^ 24) E = E + 1) as ->
        by (rewrite round_exp_eq; change (Zdigits2 (2 ^ 24)) with 25; lia).
    replace (Z.max E (E + 1)) with (E + 1) by lia.
    replace (E + 1 - E) with 1 by lia.
    reflexivity.
  - assert (Zdigits2 m2 <= 24) as Hd by (apply Zdigits2_le; lia).
    assert (round_exp m2 E <= E) as Hr by (rewrite round_exp_eq; lia).
    replace (Z.max E (round_exp m2 E)) with E by lia.
    rewrite Z.sub_diag. change (2 ^ 0) with 1. rewrite Z.div_1_r.
    reflexivity.
Qed.

Lemma binary_round_spec (s : bool) (m : positive) (e : Z) :
  binary_round F32.prec F32.emax s m e
  = round_result s (round_sig (Zpos m) e) (round_exp (Zpos m) e).
Proof.
  unfold binary_round, shl_align, round_sig. cbv zeta.
  change (fexp F32.prec F32.emax (Z.pos (digits2_pos m) + e))
    with (round_exp (Zpos m) e).
  set (E := round_exp (Zpos m) e).
  destruct (E - e) as [|p|p] eqn:En.
  - rewrite binary_round_aux_spec by lia. fold E.
    replace (Z.max e E) with E by lia. rewrite En.
    replace (E <? e) with false by (symmetry; apply Z.ltb_ge; lia).
    reflexivity.
  - rewrite binary_round_aux_spec by lia. fold E.
    replace (Z.max e E) with E by lia. rewrite En.
    replace (E <? e) with false by (symmetry; apply Z.ltb_ge; lia).
    reflexivity.
  - rewrite binary_round_aux_spec by lia.
    rewrite iter_xO.
    assert (round_exp (Z.pos m * 2 ^ Z.pos p) E = E) as ->.
    { unfold E at 2. rewrite !round_exp_eq, Zdigits2_shift by lia. f_equal. lia. }
    rewrite Z.max_id, Z.sub_diag, rne_0.
    replace (E <? e) with true by (symmetry; apply Z.ltb_lt; lia).
    replace (e - E) with (Z.pos p) by lia.
    reflexivity.
Qed.

Lemma binary_normalize_spec (m e : Z) (sz : bool) :
  m <> 0 ->
  binary_normalize F32.prec F32.emax m e sz
  = round_result (m <? 0) (round_sig (Z.abs m) e) (round_exp (Z.abs m) e).
Proof.
  intros Hm. destruct m as [|p|p]; [congruence| |]; cbn [binary_normalize Z.abs];
    apply binary_round_spec.
Qed.

(** ** Patterns and floats: the round trip *)

Lemma fields_of_parts (s : bool) (E M : Z) :
  0 <= E < 256 -> 0 <= M < 2 ^ 23 ->
  let b := F32.sign_word s + E * 2 ^ 23 + M in
  U32.wf b /\ F32.sign_bit b = s /\ F32.biased_exp b = E /\ F32.fraction b = M.
Proof.
  intros HE HM b.
  assert (U32.wf b) as Hwf.
  { unfold U32.wf, U32.modulus, b. destruct s; cbn [F32.sign_word]; lia. }
  split; [exact Hwf|]. split; [|split].
  - rewrite sign_bit_ge by exact Hwf. unfold b.
    destruct s; cbn [F32.sign_word]; [apply Z.leb_le | apply Z.leb_gt]; lia.
  - rewrite biased_exp_div. unfold b.
    replace ((F32.sign_word s + E * 2 ^ 23 + M) / 2 ^ 23)
      with ((if s then 2 ^ 8 else 0) + E).
    + destruct s.
      * symmetry; apply Z.mod_unique with (q := 1); lia.
      * apply Z.mod_small; lia.
    + apply Z.div_unique with (r := M); [lia|].
      destruct s; cbn [F32.sign_word]; lia.
  - rewrite fraction_mod. unfold b. symmetry.
    apply Z.mod_unique with (q := (if s then 2 ^ 8 else 0) + E); [lia|].
    destruct s; cbn [F32.sign_word]; lia.
Qed.

Lemma decode_canonical (b : Z) : canonical (F32.decode b).
Proof.
  unfold F32.decode. cbv zeta.
  pose proof (biased_exp_range b) as HE. pose proof (fraction_range b) as HM.
  destruct (Z.eqb_spec (F32.biased_exp b) 255) as [E1|E1].
  - destruct (F32.fraction b =? 0); exact I.
  - destruct (Z.eqb_spec (F32.biased_exp b) 0) as [E0|E0].
    + destruct (F32.fraction b) as [|p|p]; cbn [canonical]; try exact I.
      right. lia.
    + destruct (F32.fraction b + 2 ^ 23) as [|p|p] eqn:Ep; cbn [canonical];
        try exact I.
      left. lia.
Qed.

Lemma decode_encode (f : spec_float) :
  canonical f -> F32.decode (F32.encode f) = f.
Proof.
  destruct f as [s|s| |s m e]; cbn [canonical F32.encode].
  - intros _. destruct s; vm_compute; reflexivity.
  - intros _. destruct s; vm_compute; reflexivity.
  - intros _. vm_compute. reflexivity.
  - intros [[Hm He]|[Hm He]].
    + replace (Z.pos m <? 2 ^ 23) with false by (symmetry; apply Z.ltb_ge; lia).
      destruct (fields_of_parts s (e + 150) (Z.pos m - 2 ^ 23) ltac:(lia) ltac:(lia))
        as (_ & Hs & HE & HM).
      cbv zeta in Hs, HE, HM.
      unfold F32.decode. cbv zeta. rewrite Hs, HE, HM.
      replace (e + 150 =? 255) with false by (symmetry; apply Z.eqb_neq; lia).
      replace (e + 150 =? 0) with false by (symmetry; apply Z.eqb_neq; lia).
      replace (Z.pos m - 2 ^ 23 + 2 ^ 23) with (Z.pos m) by lia.
      replace (e + 150 - 150) with e by lia. reflexivity.
    + replace (Z.pos m <? 2 ^ 23) with true by (symmetry; apply Z.ltb_lt; lia).
      destruct (fields_of_parts s 0 (Z.pos m) ltac:(lia) ltac:(lia))
        as (_ & Hs & HE & HM).
      cbv zeta in Hs, HE, HM.
      replace (F32.sign_word s + 0 * 2 ^ 23 + Z.pos m)
        with (F32.sign_word s + Z.pos m) in Hs, HE, HM by lia.
      unfold F32.decode. cbv zeta. rewrite Hs, HE, HM.
      rewrite He. reflexivity.
Qed.

(** *** The significand kept by a rounding *)

Lemma pow2_pos (k : Z) : 0 <= k -> 0 < 2 ^ k.
Proof. intros H. apply Z.pow_pos_nonneg; lia. Qed.

Lemma pow2_le (a b : Z) : a <= b -> 2 ^ a <= 2 ^ b.
Proof. intros H. apply Z.pow_le_mono_r; lia. Qed.

Lemma pow2_lt_inv (a b : Z) : 0 <= b -> 2 ^ a < 2 ^ b -> a < b.
Proof.
  intros Hb H. destruct (Z.lt_ge_cases a b) as [|Hge]; [assumption|].
  pose proof (pow2_le b a Hge). lia.
Qed.

Lemma round_sig_range (m e : Z) :
  0 < m ->
  0 <= round_sig m e <= 2 ^ 24 /\
  (round_exp m e = Zdigits2 m + e - 24 -> 2 ^ 23 <= round_sig m e) /\
  (-149 < round_exp m e -> 2 ^ 23 <= round_sig m e).
Proof.
  intros Hm.
  assert (0 < Zdigits2 m) as Hd0 by (apply Zdigits2_pos, Hm).
  assert (2 ^ (Zdigits2 m - 1) <= m < 2 ^ Zdigits2 m) as Hd
      by (destruct m as [|p|p]; try lia; apply Zdigits2_bounds).
  pose proof (round_exp_eq m e) as HE.
  unfold round_sig. cbv zeta.
  set (d := Zdigits2 m) in *. set (E := round_exp m e) in *.
  assert (0 <= round_sig m e <= 2 ^ 24 /\
          (E = d + e - 24 -> 2 ^ 23 <= round_sig m e)) as Hmain.
  { unfold round_sig. cbv zeta. fold E.
    destruct (Z.ltb_spec E e) as [Hlt|Hge].
    - assert (0 < 2 ^ (e - E)) as Hp by (apply pow2_pos; lia).
      split; [split; [nia|]|].
      + assert (m * 2 ^ (e - E) < 2 ^ d * 2 ^ (e - E)) as H1 by nia.
        rewrite <- Z.pow_add_r in H1 by lia.
        pose proof (pow2_le (d + (e - E)) 24 ltac:(lia)). lia.
      + intros HEd.
        assert (2 ^ (d - 1) * 2 ^ (e - E) <= m * 2 ^ (e - E)) as H1 by nia.
        rewrite <- Z.pow_add_r in H1 by lia.
        replace (d - 1 + (e - E)) with 23 in H1 by lia. exact H1.
    - split; [split|].
      + apply (rne_ge 0); lia.
      + apply rne_le; [lia|].
        rewrite <- Z.pow_add_r by lia.
        pose proof (pow2_le d (24 + (E - e)) ltac:(lia)). lia.
      + intros HEd. apply rne_ge; [lia|].
        rewrite <- Z.pow_add_r by lia.
        replace (23 + (E - e)) with (d - 1) by lia. lia. }
  destruct Hmain as [H1 H2]. unfold round_sig in H1, H2. cbv zeta in H1, H2.
  fold E in H1, H2.
  split; [exact H1|]. split; [exact H2|].
  intros Hn. apply H2. lia.
Qed.

Lemma round_result_canonical (s : bool) (m e : Z) :
  0 < m -> canonical (round_result s (round_sig m e) (round_exp m e)).
Proof.
  intros Hm.
  destruct (round_sig_range m e Hm) as (Hr & _ & Hn).
  pose proof (round_exp_ge m e) as HE.
  unfold round_result. cbv zeta.
  set (N := round_sig m e) in *. set (E := round_exp m e) in *.
  destruct (Z.eqb_spec N (2 ^ 24)) as [E24|N24].
  - change (2 ^ 23) with (Z.pos 8388608).
    destruct (Z.leb_spec (E + 1) 104); cbn [canonical]; [|exact I].
    left. lia.
  - destruct N as [|p|p] eqn:EN; [exact I | | lia].
    destruct (Z.leb_spec E 104); cbn [canonical]; [|exact I].
    destruct (Z.lt_ge_cases (Z.pos p) (2 ^ 23)) as [Hlt|Hge].
    + right. split; [exact Hlt|].
      destruct (Z.eq_dec E (-149)) as [|Hne]; [assumption|].
      specialize (Hn ltac:(lia)). lia.
    + left. lia.
Qed.

Lemma binary_normalize_canonical (m e : Z) (sz : bool) :
  canonical (binary_normalize F32.prec F32.emax m e sz).
Proof.
  destruct (Z.eq_dec m 0) as [->|Hm]; [exact I|].
  rewrite binary_normalize_spec by exact Hm.
  apply round_result_canonical. lia.
Qed.

(** *** Rounding is monotone, exact on what fits, and nearest

    Values are compared as integers at a common exponent [c]: the value
    [m * 2^e] is [m * 2^(e - c)] units of [2^c]. *)

Lemma digits_le_of_scaled (m e A a c : Z) :
  0 < m -> 0 < A -> c <= e -> c <= a ->
  m * 2 ^ (e - c) <= A * 2 ^ (a - c) ->
  Zdigits2 m + e <= Zdigits2 A + a.
Proof.
  intros Hm HA Hce Hca H.
  assert (2 ^ (Zdigits2 m - 1) <= m < 2 ^ Zdigits2 m) as Hd
      by (destruct m as [|p|p]; try lia; apply Zdigits2_bounds).
  assert (2 ^ (Zdigits2 A - 1) <= A < 2 ^ Zdigits2 A) as HdA
      by (destruct A as [|p|p]; try lia; apply Zdigits2_bounds).
  pose proof (Zdigits2_pos m Hm) as Hd0. pose proof (Zdigits2_pos A HA) as HdA0.
  set (d := Zdigits2 m) in *. set (dA := Zdigits2 A) in *.
  assert (0 < 2 ^ (e - c)) as P1 by (apply pow2_pos; lia).
  assert (0 < 2 ^ (a - c)) as P2 by (apply pow2_pos; lia).
  assert (2 ^ (d - 1) * 2 ^ (e - c) < 2 ^ dA * 2 ^ (a - c)) as H1 by nia.
  rewrite <- !Z.pow_add_r in H1 by lia.
  apply pow2_lt_inv in H1; lia.
Qed.

Lemma round_sig_le (m e A a c : Z) :
  0 < m -> 0 < A < 2 ^ 24 -> -149 <= a ->
  c <= e -> c <= a -> c <= round_exp m e ->
  m * 2 ^ (e - c) <= A * 2 ^ (a - c) ->
  round_sig m e * 2 ^ (round_exp m e - c) <= A * 2 ^ (a - c).
Proof.
  intros Hm HA Ha Hce Hca HcE H.
  pose proof (digits_le_of_scaled m e A a c Hm ltac:(lia) Hce Hca H) as Hd.
  assert (Zdigits2 A <= 24) as HdA by (apply Zdigits2_le; lia).
  pose proof (round_exp_eq m e) as HE.
  unfold round_sig. cbv zeta.
  set (E := round_exp m e) in *.
  assert (E <= a) as HEa by lia.
  assert (0 < 2 ^ (e - c)) as P1 by (apply pow2_pos; lia).
  assert (0 < 2 ^ (E - c)) as P2 by (apply pow2_pos; lia).
  assert (0 < 2 ^ (a - E)) as P3 by (apply pow2_pos; lia).
  assert (2 ^ (a - c) = 2 ^ (a - E) * 2 ^ (E - c)) as Ea
      by (rewrite <- Z.pow_add_r by lia; f_equal; lia).
  destruct (Z.ltb_spec E e) as [Hlt|Hge].
  - assert (2 ^ (e - c) = 2 ^ (e - E) * 2 ^ (E - c)) as Ee
        by (rewrite <- Z.pow_add_r by lia; f_equal; lia).
    rewrite Ee in H. lia.
  - assert (2 ^ (E - c) = 2 ^ (E - e) * 2 ^ (e - c)) as Ee
        by (rewrite <- Z.pow_add_r by lia; f_equal; lia).
    assert (rne m (E - e) <= A * 2 ^ (a - E)) as Hr.
    { apply rne_le; [lia|].
      rewrite Ea, Ee in H.
      apply Z.mul_le_mono_pos_r with (p := 2 ^ (e - c)); [exact P1|].
      lia. }
    rewrite Ea. nia.
Qed.

Lemma round_sig_ge (m e A a c : Z) :
  0 < m -> 0 < A < 2 ^ 24 -> -149 <= a ->
  c <= e -> c <= a -> c <= round_exp m e ->
  A * 2 ^ (a - c) <= m * 2 ^ (e - c) ->
  A * 2 ^ (a - c) <= round_sig m e * 2 ^ (round_exp m e - c).
Proof.
  intros Hm HA Ha Hce Hca HcE H.
  pose proof (digits_le_of_scaled A a m e c ltac:(lia) Hm Hca Hce H) as Hd.
  assert (Zdigits2 A <= 24) as HdA by (apply Zdigits2_le; lia).
  pose proof (Zdigits2_pos A ltac:(lia)) as HdA0.
  assert (A < 2 ^ Zdigits2 A) as HA2 by (apply Zdigits2_gt; lia).
  pose proof (round_exp_eq m e) as HE.
  destruct (round_sig_range m e Hm) as (_ & _ & Hn).
  unfold round_sig in *. cbv zeta in *.
  set (E := round_exp m e) in *.
  assert (0 < 2 ^ (e - c)) as P1 by (apply pow2_pos; lia).
  assert (0 < 2 ^ (E - c)) as P2 by (apply pow2_pos; lia).
  assert (0 < 2 ^ (a - c)) as P4 by (apply pow2_pos; lia).
  destruct (Z.le_gt_cases E a) as [HEa|HEa].
  - assert (0 < 2 ^ (a - E)) as P3 by (apply pow2_pos; lia).
    assert (2 ^ (a - c) = 2 ^ (a - E) * 2 ^ (E - c)) as Ea
        by (rewrite <- Z.pow_add_r by lia; f_equal; lia).
    destruct (Z.ltb_spec E e) as [Hlt|Hge].
    + assert (2 ^ (e - c) = 2 ^ (e - E) * 2 ^ (E - c)) as Ee
          by (rewrite <- Z.pow_add_r by lia; f_equal; lia).
      rewrite Ee in H. lia.
    + assert (2 ^ (E - c) = 2 ^ (E - e) * 2 ^ (e - c)) as Ee
          by (rewrite <- Z.pow_add_r by lia; f_equal; lia).
      assert (A * 2 ^ (a - E) <= rne m (E - e)) as Hr.
      { apply rne_ge; [lia|].
        rewrite Ea, Ee in H.
        apply Z.mul_le_mono_pos_r with (p := 2 ^ (e - c)); [exact P1|].
        lia. }
      rewrite Ea. nia.
  - specialize (Hn ltac:(lia)).
    assert (2 ^ (Zdigits2 A + (a - c)) <= 2 ^ (23 + (E - c))) as Hp
        by (apply pow2_le; lia).
    rewrite !Z.pow_add_r in Hp by lia.
    destruct (E <? e); nia.
Qed.

(** A value that fits is returned as it is. *)
Lemma round_sig_exact (m e A a c : Z) :
  0 < m -> 0 < A < 2 ^ 24 -> -149 <= a ->
  c <= e -> c <= a -> c <= round_exp m e ->
  m * 2 ^ (e - c) = A * 2 ^ (a - c) ->
  round_sig m e * 2 ^ (round_exp m e - c) = A * 2 ^ (a - c).
Proof.
  intros Hm HA Ha Hce Hca HcE H.
  apply Z.le_antisymm.
  - apply round_sig_le; try assumption. lia.
  - apply round_sig_ge; try assumption. lia.
Qed.

(** The result is within half a unit of the last place of the value. *)
Lemma round_sig_nearest (m e c : Z) :
  0 < m -> c <= e -> c <= round_exp m e ->
  2 * Z.abs (round_sig m e * 2 ^ (round_exp m e - c) - m * 2 ^ (e - c))
  <= 2 ^ (round_exp m e - c).
Proof.
  intros Hm Hce HcE. unfold round_sig. cbv zeta.
  set (E := round_exp m e) in *.
  assert (0 < 2 ^ (e - c)) as P1 by (apply pow2_pos; lia).
  assert (0 < 2 ^ (E - c)) as P2 by (apply pow2_pos; lia).
  destruct (Z.ltb_spec E e) as [Hlt|Hge].
  - assert (2 ^ (e - c) = 2 ^ (e - E) * 2 ^ (E - c)) as Ee
        by (rewrite <- Z.pow_add_r by lia; f_equal; lia).
    rewrite Ee.
    replace (m * 2 ^ (e - E) * 2 ^ (E - c) - m * (2 ^ (e - E) * 2 ^ (E - c)))
      with 0 by ring.
    cbn. lia.
  - assert (2 ^ (E - c) = 2 ^ (E - e) * 2 ^ (e - c)) as Ee
        by (rewrite <- Z.pow_add_r by lia; f_equal; lia).
    pose proof (rne_nearest m (E - e) ltac:(lia)) as Hn.
    rewrite Ee.
    replace (rne m (E - e) * (2 ^ (E - e) * 2 ^ (e - c)) - m * 2 ^ (e - c))
      with ((rne m (E - e) * 2 ^ (E - e) - m) * 2 ^ (e - c)) by ring.
    rewrite Z.abs_mul, (Z.abs_eq (2 ^ (e - c))) by lia.
    nia.
Qed.

(** ** Exact values as rationals *)

Lemma Qpow2_pos (e : Z) : (0 < Qpower 2 e)%Q.
Proof. apply Qpower_0_lt. reflexivity. Qed.

Lemma Qpow2_add (a b : Z) : (Qpower 2 (a + b) == Qpower 2 a * Qpower 2 b)%Q.
Proof. apply Qpower_plus. discriminate. Qed.

Lemma Qpow2_Z (k : Z) : 0 <= k -> (Qpower 2 k == inject_Z (2 ^ k))%Q.
Proof. intros H. rewrite Zpower_Qpower by exact H. reflexivity. Qed.

Lemma Qpow2_le (a b : Z) : a <= b -> (Qpower 2 a <= Qpower 2 b)%Q.
Proof. intros H. apply Qpower_le_compat_l; [exact H | discriminate]. Qed.

(** A dyadic number at a lower exponent. *)
Lemma Qdyadic (m e c : Z) :
  c <= e ->
  (inject_Z m * Qpower 2 e == inject_Z (m * 2 ^ (e - c)) * Qpower 2 c)%Q.
Proof.
  intros H. replace e with ((e - c) + c) at 1 by lia.
  rewrite Qpow2_add, Qpow2_Z by lia. rewrite inject_Z_mult. ring.
Qed.

Lemma Qdyadic_le (m1 e1 m2 e2 c : Z) :
  c <= e1 -> c <= e2 ->
  ((inject_Z m1 * Qpower 2 e1 <= inject_Z m2 * Qpower 2 e2)%Q
   <-> m1 * 2 ^ (e1 - c) <= m2 * 2 ^ (e2 - c)).
Proof.
  intros H1 H2. rewrite (Qdyadic m1 e1 c H1), (Qdyadic m2 e2 c H2).
  rewrite Qmult_le_r by apply Qpow2_pos. rewrite <- Zle_Qle. reflexivity.
Qed.

Lemma Qdyadic_lt (m1 e1 m2 e2 c : Z) :
  c <= e1 -> c <= e2 ->
  ((inject_Z m1 * Qpower 2 e1 < inject_Z m2 * Qpower 2 e2)%Q
   <-> m1 * 2 ^ (e1 - c) < m2 * 2 ^ (e2 - c)).
Proof.
  intros H1 H2. rewrite (Qdyadic m1 e1 c H1), (Qdyadic m2 e2 c H2).
  rewrite Qmult_lt_r by apply Qpow2_pos. rewrite <- Zlt_Qlt. reflexivity.
Qed.

Lemma Qdyadic_eq (m1 e1 m2 e2 c : Z) :
  c <= e1 -> c <= e2 ->
  ((inject_Z m1 * Qpower 2 e1 == inject_Z m2 * Qpower 2 e2)%Q
   <-> m1 * 2 ^ (e1 - c) = m2 * 2 ^ (e2 - c)).
Proof.
  intros H1 H2. split; intros H.
  - apply Z.le_antisymm; apply (Qdyadic_le _ e1 _ e2 c) || apply (Qdyadic_le _ e2 _ e1 c);
      try assumption; rewrite H; apply Qle_refl.
  - rewrite (Qdyadic m1 e1 c H1), (Qdyadic m2 e2 c H2), H. reflexivity.
Qed.

Lemma Qdyadic_opp (m e : Z) :
  (inject_Z (- m) * Qpower 2 e == - (inject_Z m * Qpower 2 e))%Q.
Proof. rewrite inject_Z_opp. ring. Qed.

Lemma Qdyadic_abs (m e : Z) :
  (Qabs (inject_Z m * Qpower 2 e) == inject_Z (Z.abs m) * Qpower 2 e)%Q.
Proof.
  rewrite Qabs_Qmult.
  rewrite (Qabs_pos (Qpower 2 e)) by (apply Qlt_le_weak, Qpow2_pos).
  apply Qmult_comp; [|reflexivity].
  destruct m as [|p|p]; reflexivity.
Qed.

Lemma Qdyadic_nonneg (m e : Z) : 0 <= m -> (0 <= inject_Z m * Qpower 2 e)%Q.
Proof.
  intros H. apply Qmult_le_0_compat; [|apply Qlt_le_weak, Qpow2_pos].
  rewrite Zle_Qle in H. exact H.
Qed.

Lemma Qdyadic_pos (m e : Z) : 0 < m -> (0 < inject_Z m * Qpower 2 e)%Q.
Proof.
  intros H. apply Qmult_lt_0_compat; [|apply Qpow2_pos].
  rewrite Zlt_Qlt in H. exact H.
Qed.

Lemma dyadic_lt_2_128 (A a : Z) :
  0 <= A < 2 ^ 24 -> a <= 104 ->
  (inject_Z A * Qpower 2 a < inject_Z (2 ^ 128))%Q.
Proof.
  intros HA Ha.
  setoid_replace (inject_Z (2 ^ 128)) with (inject_Z (2 ^ 128) * Qpower 2 0)%Q
    by (change (Qpower 2 0) with 1%Q; ring).
  apply (Qdyadic_lt A a (2 ^ 128) 0 (Z.min a 0)); [lia | lia |].
  destruct (Z.le_gt_cases a 0) as [H|H].
  - replace (Z.min a 0) with a by lia. rewrite Z.sub_diag.
    pose proof (pow2_pos (0 - a) ltac:(lia)). change (2 ^ 0) with 1. nia.
  - replace (Z.min a 0) with 0 by lia. rewrite !Z.sub_0_r.
    pose proof (pow2_le a 104 Ha). pose proof (pow2_pos a ltac:(lia)).
    change (2 ^ 0) with 1. change (2 ^ 128) with (2 ^ 24 * 2 ^ 104). nia.
Qed.

(** Every representable number is below [2^128] in magnitude. *)
Lemma representable_lt (q : Q) :
  representable q -> (Qabs q < inject_Z (2 ^ 128))%Q.
Proof.
  intros (A & a & HA & Ha & Hq). rewrite Hq, Qdyadic_abs.
  apply dyadic_lt_2_128; lia.
Qed.

Lemma representable_opp (q : Q) : representable q -> representable (- q).
Proof.
  intros (A & a & HA & Ha & Hq). exists (- A), a.
  split; [lia|]. split; [exact Ha|]. rewrite Hq, Qdyadic_opp. reflexivity.
Qed.

Lemma representable_dyadic (A a : Z) :
  Z.abs A < 2 ^ 24 -> -149 <= a <= 104 ->
  representable (inject_Z A * Qpower 2 a).
Proof. intros HA Ha. exists A, a. split; [exact HA|]. split; [exact Ha | reflexivity]. Qed.

(** *** The value of a rounding *)

Lemma overflow_bound (N E : Z) :
  2 ^ 23 <= N -> (105 <= E \/ (N = 2 ^ 24 /\ 104 <= E)) ->
  (inject_Z (2 ^ 128) <= inject_Z N * Qpower 2 E)%Q.
Proof.
  intros HN HE.
  setoid_replace (inject_Z (2 ^ 128)) with (inject_Z (2 ^ 24) * Qpower 2 104)%Q
    by reflexivity.
  apply (Qdyadic_le _ 104 _ E 104); [lia | lia |].
  rewrite Z.sub_diag. change (2 ^ 0) with 1.
  destruct HE as [HE|[-> HE]].
  - pose proof (pow2_le 1 (E - 104) ltac:(lia)) as Hp.
    change (2 ^ 1) with 2 in Hp. nia.
  - pose proof (pow2_pos (E - 104) ltac:(lia)) as Hp. nia.
Qed.

Lemma round_result_val (s : bool) (N E : Z) :
  0 <= N <= 2 ^ 24 -> (2 ^ 23 <= N \/ E = -149) -> -149 <= E ->
  (sf_finite (round_result s N E) = true /\
   (F32.SF2Q (round_result s N E) == inject_Z (cond_Zopp s N) * Qpower 2 E)%Q) \/
  (round_result s N E = S754_infinity s /\
   (inject_Z (2 ^ 128) <= inject_Z N * Qpower 2 E)%Q).
Proof.
  intros HN Hn HE. unfold round_result. cbv zeta.
  destruct (Z.eqb_spec N (2 ^ 24)) as [E24|N24].
  - change (2 ^ 23) with (Z.pos 8388608).
    destruct (Z.leb_spec (E + 1) 104) as [Hle|Hgt].
    + left. split; [reflexivity|]. cbn [F32.SF2Q]. rewrite E24.
      rewrite Qpow2_add. change (Qpower 2 1) with 2%Q.
      destruct s; cbn [cond_Zopp]; unfold inject_Z; cbn; ring.
    + right. split; [reflexivity|]. apply overflow_bound; lia.
  - destruct N as [|p|p] eqn:EN; [| |lia].
    + left. split; [reflexivity|]. cbn [F32.SF2Q].
      destruct s; cbn [cond_Zopp]; unfold inject_Z; cbn; ring.
    + destruct (Z.leb_spec E 104) as [Hle|Hgt].
      * left. split; reflexivity.
      * right. split; [reflexivity|]. apply overflow_bound; lia.
Qed.

Lemma normalize_cases (M e : Z) (sz : bool) :
  M <> 0 ->
  (sf_finite (binary_normalize F32.prec F32.emax M e sz) = true /\
   (F32.SF2Q (binary_normalize F32.prec F32.emax M e sz)
    == inject_Z (cond_Zopp (M <? 0) (round_sig (Z.abs M) e))
       * Qpower 2 (round_exp (Z.abs M) e))%Q) \/
  (binary_normalize F32.prec F32.emax M e sz = S754_infinity (M <? 0) /\
   (inject_Z (2 ^ 128)
    <= inject_Z (round_sig (Z.abs M) e) * Qpower 2 (round_exp (Z.abs M) e))%Q).
Proof.
  intros HM. rewrite binary_normalize_spec by exact HM.
  destruct (round_sig_range (Z.abs M) e ltac:(lia)) as (Hr & _ & Hn).
  pose proof (round_exp_ge (Z.abs M) e) as HE.
  apply round_result_val; [exact Hr | | exact HE].
  destruct (Z.eq_dec (round_exp (Z.abs M) e) (-149)) as [|Hne]; [right; assumption|].
  left. apply Hn. lia.
Qed.

(** *** A rounding of an exact value *)

Lemma SF2Qx_finite (f : spec_float) : sf_finite f = true -> SF2Qx f = F32.SF2Q f.
Proof. destruct f; try discriminate; reflexivity. Qed.

Lemma SF2Q_opp (f : spec_float) : (F32.SF2Q (SFopp f) == - F32.SF2Q f)%Q.
Proof.
  destruct f as [s|s| |s m e]; cbn [SFopp F32.SF2Q]; try reflexivity.
  destruct s; cbn [negb cond_Zopp]; rewrite Qdyadic_opp; [ring | reflexivity].
Qed.

Lemma SF2Qx_opp (f : spec_float) : (SF2Qx (SFopp f) == - SF2Qx f)%Q.
Proof.
  destruct f as [s|s| |s m e]; try apply SF2Q_opp.
  cbn [SFopp SF2Qx]. destruct s; cbn [negb cond_Zopp];
    rewrite ?inject_Z_opp; ring.
Qed.

Lemma canonical_opp (f : spec_float) : canonical f -> canonical (SFopp f).
Proof. destruct f; cbn; auto. Qed.

Lemma sf_finite_opp (f : spec_float) : sf_finite (SFopp f) = sf_finite f.
Proof. destruct f; reflexivity. Qed.

Lemma rounds_to_opp (v : Q) (f : spec_float) :
  rounds_to v f -> rounds_to (- v) (SFopp f).
Proof.
  intros (Hc & Hn & Hle & Hge & Hnear & Hsp & Hsn & Hov).
  split; [apply canonical_opp, Hc|].
  split; [destruct f; try discriminate; congruence|].
  split; [|split; [|split; [|split; [|split]]]].
  - intros q Hq Hv. rewrite SF2Qx_opp.
    specialize (Hge (- q)%Q (representable_opp q Hq) ltac:(Lqa.lra)).
    Lqa.lra.
  - intros q Hq Hv. rewrite SF2Qx_opp.
    specialize (Hle (- q)%Q (representable_opp q Hq) ltac:(Lqa.lra)).
    Lqa.lra.
  - intros j Hj Hv. rewrite Qabs_opp in Hv.
    destruct (Hnear j Hj Hv) as [Hf He].
    split; [rewrite sf_finite_opp; exact Hf|].
    rewrite SF2Q_opp.
    setoid_replace (- F32.SF2Q f - - v)%Q with (- (F32.SF2Q f - v))%Q by ring.
    rewrite Qabs_opp. exact He.
  - intros Hv. specialize (Hsn ltac:(Lqa.lra)).
    destruct f; try congruence; cbn [sf_sign SFopp] in *; rewrite Hsn; reflexivity.
  - intros Hv. specialize (Hsp ltac:(Lqa.lra)).
    destruct f; try congruence; cbn [sf_sign SFopp] in *; rewrite Hsp; reflexivity.
  - intros Hv. rewrite Qabs_opp in Hv. rewrite sf_finite_opp. apply Hov, Hv.
Qed.

Lemma rounds_to_eq (v w : Q) (f : spec_float) :
  (v == w)%Q -> rounds_to v f -> rounds_to w f.
Proof.
  intros E (Hc & Hn & Hle & Hge & Hnear & Hsp & Hsn & Hov).
  split; [exact Hc|]. split; [exact Hn|].
  split; [|split; [|split; [|split; [|split]]]].
  - intros q Hq Hv. apply Hle; [exact Hq|]. rewrite E. exact Hv.
  - intros q Hq Hv. apply Hge; [exact Hq|]. rewrite E. exact Hv.
  - intros j Hj Hv. rewrite <- E in Hv. destruct (Hnear j Hj Hv) as [Hf He].
    split; [exact Hf|]. rewrite <- E. exact He.
  - intros Hv. apply Hsp. rewrite E. exact Hv.
  - intros Hv. apply Hsn. rewrite E. exact Hv.
  - intros Hv. apply Hov. rewrite E. exact Hv.
Qed.

Lemma round_result_opp (s : bool) (N E : Z) :
  SFopp (round_result s N E) = round_result (negb s) N E.
Proof.
  unfold round_result. cbv zeta.
  destruct (N =? 2 ^ 24).
  - change (2 ^ 23) with (Z.pos 8388608). cbv iota.
    destruct (E + 1 <=? 104); reflexivity.
  - destruct N as [|p|p]; try reflexivity.
    destruct (E <=? 104); reflexivity.
Qed.

Lemma binary_normalize_opp (M e : Z) (sz sz' : bool) :
  M <> 0 ->
  binary_normalize F32.prec F32.emax (- M) e sz
  = SFopp (binary_normalize F32.prec F32.emax M e sz').
Proof.
  intros HM. rewrite !binary_normalize_spec by lia.
  rewrite round_result_opp, Z.abs_opp. f_equal.
  destruct (Z.ltb_spec M 0), (Z.ltb_spec (- M) 0); try reflexivity; lia.
Qed.

Lemma dyadic_nonpos (A a : Z) : A <= 0 -> (inject_Z A * Qpower 2 a <= 0)%Q.
Proof.
  intros H. pose proof (Qdyadic_nonneg (- A) a ltac:(lia)) as Hn.
  rewrite Qdyadic_opp in Hn. Lqa.lra.
Qed.

Lemma canonical_value_lt (f : spec_float) :
  canonical f -> sf_finite f = true ->
  (Qabs (F32.SF2Q f) < inject_Z (2 ^ 128))%Q.
Proof.
  intros Hc Hf. destruct f as [s|s| |s m e]; try discriminate.
  - reflexivity.
  - cbn [F32.SF2Q canonical] in *. rewrite Qdyadic_abs.
    replace (Z.abs (cond_Zopp s (Z.pos m))) with (Z.pos m) by (destruct s; cbn; lia).
    apply dyadic_lt_2_128; lia.
Qed.

Lemma round_result_sign (s : bool) (N E : Z) :
  0 <= N -> sf_sign (round_result s N E) = s.
Proof.
  intros HN. unfold round_result. cbv zeta.
  destruct (N =? 2 ^ 24).
  - change (2 ^ 23) with (Z.pos 8388608). cbv iota.
    destruct (E + 1 <=? 104); reflexivity.
  - destruct N as [|p|p]; [reflexivity | | lia].
    destruct (E <=? 104); reflexivity.
Qed.

Lemma normalize_rounds_pos (M e : Z) (sz : bool) :
  0 < M ->
  rounds_to (inject_Z M * Qpower 2 e) (binary_normalize F32.prec F32.emax M e sz).
Proof.
  intros HM.
  pose proof (normalize_cases M e sz ltac:(lia)) as Hc.
  replace (M <? 0) with false in Hc by (symmetry; apply Z.ltb_ge; lia).
  rewrite (Z.abs_eq M) in Hc by lia. cbn [cond_Zopp] in Hc.
  pose proof (binary_normalize_canonical M e sz) as Hcan.
  pose proof (round_exp_ge M e) as HE.
  pose proof (round_exp_eq M e) as HEeq.
  destruct (round_sig_range M e HM) as (Hr & _ & _).
  pose proof (round_sig_nearest M e (Z.min e (round_exp M e)) HM ltac:(lia) ltac:(lia))
    as Hnr.
  pose proof (Qdyadic_pos M e HM) as Vpos.
  assert (forall A a, 0 < A < 2 ^ 24 -> -149 <= a ->
            (inject_Z M * Qpower 2 e <= inject_Z A * Qpower 2 a)%Q ->
            (inject_Z (round_sig M e) * Qpower 2 (round_exp M e)
             <= inject_Z A * Qpower 2 a)%Q) as le_fact.
  { intros A a HA Ha H.
    apply (Qdyadic_le _ _ _ _ (Z.min e (Z.min a (round_exp M e)))); [lia | lia |].
    apply round_sig_le; try lia.
    apply (Qdyadic_le _ e _ a); [lia | lia | exact H]. }
  assert (forall A a, 0 < A < 2 ^ 24 -> -149 <= a ->
            (inject_Z A * Qpower 2 a <= inject_Z M * Qpower 2 e)%Q ->
            (inject_Z A * Qpower 2 a
             <= inject_Z (round_sig M e) * Qpower 2 (round_exp M e))%Q) as ge_fact.
  { intros A a HA Ha H.
    apply (Qdyadic_le _ _ _ _ (Z.min e (Z.min a (round_exp M e)))); [lia | lia |].
    apply round_sig_ge; try lia.
    apply (Qdyadic_le _ a _ e); [lia | lia | exact H]. }
  assert (Z.abs M = M) as HabsM by lia.
  set (f := binary_normalize F32.prec F32.emax M e sz) in *.
  set (N := round_sig M e) in *. set (E := round_exp M e) in *.
  set (V := (inject_Z M * Qpower 2 e)%Q) in *.
  set (R := (inject_Z N * Qpower 2 E)%Q) in *.
  assert (0 <= R)%Q as Rpos by (apply Qdyadic_nonneg; lia).
  split; [exact Hcan|]. split.
  { destruct Hc as [[Hf _]|[Hf _]]; intros Hnan; rewrite Hnan in Hf; discriminate. }
  split; [|split; [|split; [|split; [|split]]]]; cycle 3.
  - intros _. unfold f. rewrite binary_normalize_spec by lia.
    replace (M <? 0) with false by (symmetry; apply Z.ltb_ge; lia).
    apply round_result_sign. rewrite HabsM. fold N. lia.
  - intros Hv. exfalso. Lqa.lra.
  - intros Hv. rewrite (Qabs_pos V) in Hv by (apply Qlt_le_weak, Vpos).
    destruct Hc as [[Hf Hval]|[Hf Hbig]]; [|rewrite Hf; reflexivity].
    exfalso. pose proof (canonical_value_lt f Hcan Hf) as Hlt.
    rewrite Hval in Hlt. rewrite (Qabs_pos R Rpos) in Hlt.
    assert (inject_Z (2 ^ 23) * Qpower 2 105 <= R)%Q as HR.
    { apply ge_fact; [lia | lia |].
      setoid_replace (inject_Z (2 ^ 23) * Qpower 2 105)%Q with (inject_Z (2 ^ 128))
        by reflexivity.
      exact Hv. }
    setoid_replace (inject_Z (2 ^ 23) * Qpower 2 105)%Q with (inject_Z (2 ^ 128)) in HR
      by reflexivity.
    Lqa.lra.
  - intros q Hq Hv. pose proof (representable_lt q Hq) as Hlt.
    destruct Hq as (A & a & HA & Ha & Hq).
    assert (0 < A) as HA0.
    { destruct (Z.lt_ge_cases 0 A) as [|Hle]; [assumption|]. exfalso.
      pose proof (dyadic_nonpos A a Hle). Lqa.lra. }
    rewrite Hq in Hv. specialize (le_fact A a ltac:(lia) ltac:(lia) Hv).
    destruct Hc as [[Hf Hval]|[Hf Hbig]].
    + rewrite SF2Qx_finite, Hval, Hq by exact Hf. exact le_fact.
    + exfalso. apply Qabs_Qlt_condition in Hlt. Lqa.lra.
  - intros q Hq Hv. pose proof (representable_lt q Hq) as Hlt.
    apply Qabs_Qlt_condition in Hlt.
    destruct Hq as (A & a & HA & Ha & Hq).
    assert (q <= R)%Q as HqR.
    { destruct (Z.lt_ge_cases 0 A) as [Hpos|Hle].
      - rewrite Hq. apply ge_fact; [lia | lia | rewrite <- Hq; exact Hv].
      - pose proof (dyadic_nonpos A a Hle). Lqa.lra. }
    destruct Hc as [[Hf Hval]|[Hf Hbig]].
    + rewrite SF2Qx_finite, Hval by exact Hf. exact HqR.
    + rewrite Hf. cbn [SF2Qx cond_Zopp]. Lqa.lra.
  - intros j Hj Hv.
    rewrite (Qabs_pos V) in Hv by (apply Qlt_le_weak, Vpos).
    assert (V <= inject_Z (2 ^ 23) * Qpower 2 (j - 23))%Q as Hv'.
    { setoid_replace (inject_Z (2 ^ 23) * Qpower 2 (j - 23))%Q with (Qpower 2 j).
      - apply Qlt_le_weak, Hv.
      - rewrite <- Qpow2_Z, <- Qpow2_add by lia. replace (23 + (j - 23)) with j by lia.
        reflexivity. }
    specialize (le_fact (2 ^ 23) (j - 23) ltac:(lia) ltac:(lia) Hv').
    assert (inject_Z (2 ^ 23) * Qpower 2 (j - 23) < inject_Z (2 ^ 128))%Q as Hlt
        by (apply dyadic_lt_2_128; lia).
    destruct Hc as [[Hf Hval]|[Hf Hbig]]; [|exfalso; Lqa.lra].
    split; [exact Hf|]. rewrite Hval. fold R.
    (* the exponent of the rounding is at most j - 24 *)
    assert (E <= j - 24) as HEj.
    { assert (Zdigits2 M + e <= j); [|lia].
      assert (2 ^ (Zdigits2 M - 1) <= M) as Hd
          by (destruct M as [|p|p]; try lia; apply Zdigits2_bounds).
      pose proof (Zdigits2_pos M HM) as Hd0.
      setoid_replace (Qpower 2 j) with (inject_Z 1 * Qpower 2 j)%Q in Hv
        by (unfold inject_Z; ring).
      apply (Qdyadic_lt M e 1 j (Z.min e j)) in Hv; [|lia|lia].
      assert (0 < 2 ^ (e - Z.min e j)) as P1 by (apply pow2_pos; lia).
      assert (2 ^ (Zdigits2 M - 1) * 2 ^ (e - Z.min e j) < 2 ^ (j - Z.min e j)) as H1
          by nia.
      rewrite <- Z.pow_add_r in H1 by lia.
      apply pow2_lt_inv in H1; lia. }
    set (c := Z.min e E) in *.
    unfold R, V.
    rewrite (Qdyadic N E c), (Qdyadic M e c) by lia.
    setoid_replace (inject_Z (N * 2 ^ (E - c)) * Qpower 2 c
                    - inject_Z (M * 2 ^ (e - c)) * Qpower 2 c)%Q
      with (inject_Z (N * 2 ^ (E - c) - M * 2 ^ (e - c)) * Qpower 2 c)%Q
      by (unfold Z.sub at 3; rewrite inject_Z_plus, inject_Z_opp; ring).
    rewrite Qdyadic_abs.
    set (D := Z.abs (N * 2 ^ (E - c) - M * 2 ^ (e - c))) in *.
    setoid_replace (Qpower 2 (j - 25)) with (inject_Z 1 * Qpower 2 (j - 25))%Q
      by (unfold inject_Z; ring).
    apply (Qdyadic_le D c 1 (j - 25) (Z.min c (j - 25))); [lia | lia |].
    set (c' := Z.min c (j - 25)).
    destruct (Z.eq_dec D 0) as [->|HD]; [pose proof (pow2_pos (j - 25 - c')); lia|].
    assert (0 <= D) as HD0 by (unfold D; lia).
    assert (1 <= E - c) as HEc.
    { destruct (Z.le_gt_cases 1 (E - c)) as [|Hlt0]; [assumption|].
      replace (E - c) with 0 in Hnr by lia. change (2 ^ 0) with 1 in Hnr. lia. }
    rewrite (pow2_pred (E - c)) in Hnr by lia.
    assert (D <= 2 ^ (E - c - 1)) as HDle by lia.
    assert (0 < 2 ^ (c - c')) as P2 by (apply pow2_pos; unfold c'; lia).
    assert (2 ^ (E - c - 1) * 2 ^ (c - c') <= 2 ^ (j - 25 - c')) as Hp.
    { rewrite <- Z.pow_add_r by (unfold c'; lia). apply pow2_le. lia. }
    nia.
Qed.

Lemma normalize_rounds (M e : Z) (sz : bool) :
  rounds_to (inject_Z M * Qpower 2 e) (binary_normalize F32.prec F32.emax M e sz).
Proof.
  destruct (Z.lt_trichotomy M 0) as [Hneg|[->|Hpos]].
  - replace M with (- (- M)) by lia.
    rewrite (binary_normalize_opp (- M) e sz sz) by lia.
    apply rounds_to_eq with (v := (- (inject_Z (- M) * Qpower 2 e))%Q).
    + rewrite <- Qdyadic_opp. reflexivity.
    + apply rounds_to_opp, normalize_rounds_pos. lia.
  - cbn [binary_normalize].
    split; [exact I|]. split; [discriminate|].
    split; [|split; [|split; [|split; [|split]]]]; cycle 3.
    + intros H. exfalso. change (inject_Z 0) with 0%Q in H. Lqa.lra.
    + intros H. exfalso. change (inject_Z 0) with 0%Q in H. Lqa.lra.
    + intros H. exfalso. change (inject_Z 0) with 0%Q in H.
      setoid_replace (0 * Qpower 2 e)%Q with 0%Q in H by ring.
      revert H. apply Qlt_not_le. reflexivity.
    + intros q _ H. cbn [SF2Qx F32.SF2Q]. change (inject_Z 0) with 0%Q in H. Lqa.lra.
    + intros q _ H. cbn [SF2Qx F32.SF2Q]. change (inject_Z 0) with 0%Q in H. Lqa.lra.
    + intros j _ _. split; [reflexivity|]. cbn [F32.SF2Q].
      change (inject_Z 0) with 0%Q.
      setoid_replace (0 - 0 * Qpower 2 e)%Q with 0%Q by ring.
      change (Qabs 0) with 0%Q.
      apply Qlt_le_weak, Qpow2_pos.
  - apply normalize_rounds_pos, Hpos.
Qed.

(** ** The arithmetic instructions round the exact result *)

Lemma shl_align_fst (m : positive) (e ez : Z) :
  ez <= e -> Zpos (fst (shl_align m e ez)) = Zpos m * 2 ^ (e - ez).
Proof.
  intros H. unfold shl_align.
  destruct (ez - e) as [|p|p] eqn:Ed; cbn [fst].
  - replace (e - ez) with 0 by lia. change (2 ^ 0) with 1. lia.
  - lia.
  - rewrite iter_xO. f_equal. f_equal. lia.
Qed.

Lemma cond_Zopp_mul (s : bool) (a b : Z) : cond_Zopp s a * b = cond_Zopp s (a * b).
Proof. destruct s; cbn [cond_Zopp]; lia. Qed.

(** A finite float at a lower exponent. *)
Lemma SF2Q_align (s : bool) (m : positive) (e ez : Z) :
  ez <= e ->
  (F32.SF2Q (S754_finite s m e)
   == inject_Z (cond_Zopp s (Zpos (fst (shl_align m e ez)))) * Qpower 2 ez)%Q.
Proof.
  intros H. cbn [F32.SF2Q]. rewrite (Qdyadic _ e ez H), shl_align_fst by exact H.
  rewrite cond_Zopp_mul. reflexivity.
Qed.

(** Rounding leaves a float of the format as it is. *)
Lemma normalize_canonical (s : bool) (m : positive) (e : Z) (sz : bool) :
  canonical (S754_finite s m e) ->
  binary_normalize F32.prec F32.emax (cond_Zopp s (Zpos m)) e sz = S754_finite s m e.
Proof.
  cbn [canonical]. intros Hc.
  rewrite binary_normalize_spec by (destruct s; cbn; lia).
  replace (cond_Zopp s (Z.pos m) <? 0) with s
    by (destruct s; cbn [cond_Zopp]; [symmetry; apply Z.ltb_lt | symmetry; apply Z.ltb_ge]; lia).
  replace (Z.abs (cond_Zopp s (Z.pos m))) with (Z.pos m) by (destruct s; cbn; lia).
  assert (round_exp (Z.pos m) e = e) as HE.
  { rewrite round_exp_eq. destruct Hc as [[Hm He]|[Hm He]].
    - rewrite (Zdigits2_unique (Z.pos m) 24) by lia. lia.
    - pose proof (Zdigits2_le (Z.pos m) 23 ltac:(lia) ltac:(lia)). lia. }
  unfold round_sig. cbv zeta. rewrite HE, Z.ltb_irrefl, Z.sub_diag, rne_0.
  unfold round_result. cbv zeta.
  replace (Z.pos m =? 2 ^ 24) with false by (symmetry; apply Z.eqb_neq; lia).
  replace (e <=? 104) with true by (symmetry; apply Z.leb_le; lia).
  reflexivity.
Qed.

Lemma rounds_to_zero (s : bool) : rounds_to 0 (S754_zero s).
Proof.
  apply rounds_to_eq with (v := (inject_Z 0 * Qpower 2 0)%Q); [reflexivity|].
  apply (normalize_rounds 0 0 s).
Qed.

Lemma rounds_to_exact (f : spec_float) :
  canonical f -> sf_finite f = true -> rounds_to (F32.SF2Q f) f.
Proof.
  intros Hc Hf. destruct f as [s|s| |s m e]; try discriminate.
  - apply rounds_to_zero.
  - rewrite <- (normalize_canonical s m e false Hc) at 2.
    apply normalize_rounds.
Qed.

Lemma SFsub_rounds (x y : spec_float) :
  canonical x -> canonical y -> sf_finite x = true -> sf_finite y = true ->
  rounds_to (F32.SF2Q x - F32.SF2Q y) (SFsub F32.prec F32.emax x y).
Proof.
  intros Cx Cy Fx Fy.
  destruct x as [sx|sx| |sx mx ex], y as [sy|sy| |sy my ey]; try discriminate;
    cbn [SFsub].
  - apply rounds_to_eq with (v := 0%Q); [cbn [F32.SF2Q]; ring|].
    destruct sx, sy; apply rounds_to_zero.
  - apply rounds_to_eq with (v := F32.SF2Q (SFopp (S754_finite sy my ey))).
    + rewrite SF2Q_opp. cbn [F32.SF2Q]. ring.
    + apply (rounds_to_exact (S754_finite (negb sy) my ey)); [exact Cy | reflexivity].
  - apply rounds_to_eq with (v := F32.SF2Q (S754_finite sx mx ex)).
    + cbn [F32.SF2Q]. ring.
    + apply rounds_to_exact; [exact Cx | reflexivity].
  - eapply rounds_to_eq; [|apply normalize_rounds].
    rewrite (SF2Q_align sx mx ex (Z.min ex ey)), (SF2Q_align sy my ey (Z.min ex ey))
      by lia.
    unfold Z.sub at 1. rewrite inject_Z_plus, inject_Z_opp. ring.
Qed.

Lemma SFmul_finite (sx : bool) (mx : positive) (ex : Z)
      (sy : bool) (my : positive) (ey : Z) :
  canonical (S754_finite sx mx ex) -> canonical (S754_finite sy my ey) ->
  SFmul F32.prec F32.emax (S754_finite sx mx ex) (S754_finite sy my ey)
  = binary_normalize F32.prec F32.emax
      (cond_Zopp (xorb sx sy) (Zpos (mx * my))) (ex + ey) false.
Proof.
  cbn [canonical]. intros Cx Cy. cbn [SFmul].
  rewrite binary_round_aux_spec by lia.
  rewrite binary_normalize_spec by (destruct (xorb sx sy); cbn; lia).
  replace (cond_Zopp (xorb sx sy) (Z.pos (mx * my)) <? 0) with (xorb sx sy)
    by (destruct (xorb sx sy); cbn [cond_Zopp];
        [symmetry; apply Z.ltb_lt | symmetry; apply Z.ltb_ge]; lia).
  replace (Z.abs (cond_Zopp (xorb sx sy) (Z.pos (mx * my)))) with (Z.pos (mx * my))
    by (destruct (xorb sx sy); cbn; lia).
  assert (ex + ey <= round_exp (Z.pos (mx * my)) (ex + ey)) as HE.
  { rewrite round_exp_eq, Pos2Z.inj_mul.
    destruct Cx as [[Hx Hex]|[Hx Hex]], Cy as [[Hy Hey]|[Hy Hey]].
    - pose proof (Zdigits2_ge (Z.pos mx * Z.pos my) 23 ltac:(lia) ltac:(nia)). lia.
    - pose proof (Zdigits2_ge (Z.pos mx * Z.pos my) 23 ltac:(lia) ltac:(nia)). lia.
    - pose proof (Zdigits2_ge (Z.pos mx * Z.pos my) 23 ltac:(lia) ltac:(nia)). lia.
    - lia. }
  unfold round_sig. cbv zeta.
  replace (Z.max (ex + ey) (round_exp (Z.pos (mx * my)) (ex + ey)))
    with (round_exp (Z.pos (mx * my)) (ex + ey)) by lia.
  replace (round_exp (Z.pos (mx * my)) (ex + ey) <? ex + ey) with false
    by (symmetry; apply Z.ltb_ge; lia).
  reflexivity.
Qed.

Lemma SF2Q_mul (sx : bool) (mx : positive) (ex : Z)
      (sy : bool) (my : positive) (ey : Z) :
  (F32.SF2Q (S754_finite sx mx ex) * F32.SF2Q (S754_finite sy my ey)
   == inject_Z (cond_Zopp (xorb sx sy) (Zpos (mx * my))) * Qpower 2 (ex + ey))%Q.
Proof.
  cbn [F32.SF2Q]. rewrite Qpow2_add.
  replace (cond_Zopp (xorb sx sy) (Z.pos (mx * my)))
    with (cond_Zopp sx (Z.pos mx) * cond_Zopp sy (Z.pos my))
    by (destruct sx, sy; cbn; lia).
  rewrite inject_Z_mult. ring.
Qed.

Lemma SFmul_rounds (x y : spec_float) :
  canonical x -> canonical y -> sf_finite x = true -> sf_finite y = true ->
  rounds_to (F32.SF2Q x * F32.SF2Q y) (SFmul F32.prec F32.emax x y).
Proof.
  intros Cx Cy Fx Fy.
  destruct x as [sx|sx| |sx mx ex], y as [sy|sy| |sy my ey]; try discriminate.
  - cbn [SFmul]. apply rounds_to_eq with (v := 0%Q); [cbn [F32.SF2Q]; ring|].
    apply rounds_to_zero.
  - cbn [SFmul]. apply rounds_to_eq with (v := 0%Q); [cbn [F32.SF2Q]; ring|].
    apply rounds_to_zero.
  - cbn [SFmul]. apply rounds_to_eq with (v := 0%Q); [cbn [F32.SF2Q]; ring|].
    apply rounds_to_zero.
  - rewrite SFmul_finite by assumption.
    eapply rounds_to_eq; [|apply normalize_rounds].
    rewrite SF2Q_mul. reflexivity.
Qed.

Lemma SFfma_rounds (x y a : spec_float) :
  canonical x -> canonical y -> canonical a ->
  sf_finite x = true -> sf_finite y = true -> sf_finite a = true ->
  rounds_to (F32.SF2Q a + F32.SF2Q x * F32.SF2Q y) (F32.SFfma x y a).
Proof.
  intros Cx Cy Ca Fx Fy Fa.
  assert (forall s, rounds_to (F32.SF2Q a + 0)
                      (SFadd F32.prec F32.emax (S754_zero s) a)) as Hz.
  { intros s. destruct a as [sa|sa| |sa ma ea]; try discriminate; cbn [SFadd].
    - apply rounds_to_eq with (v := 0%Q); [cbn [F32.SF2Q]; ring|].
      destruct s, sa; apply rounds_to_zero.
    - eapply rounds_to_eq; [|apply rounds_to_exact; [exact Ca | reflexivity]].
      ring. }
  destruct x as [sx|sx| |sx mx ex], y as [sy|sy| |sy my ey]; try discriminate;
    unfold F32.SFfma.
  - cbn [SFmul]. eapply rounds_to_eq; [|apply Hz]. cbn [F32.SF2Q]. ring.
  - cbn [SFmul]. eapply rounds_to_eq; [|apply Hz]. cbn [F32.SF2Q]. ring.
  - cbn [SFmul]. eapply rounds_to_eq; [|apply Hz]. cbn [F32.SF2Q]. ring.
  - destruct a as [sa|sa| |sa ma ea]; try discriminate.
    + eapply rounds_to_eq; [|apply SFmul_rounds; try assumption; reflexivity].
      cbn [F32.SF2Q]. ring.
    + cbv zeta. eapply rounds_to_eq; [|apply normalize_rounds].
      rewrite inject_Z_plus, Qmult_plus_distr_l.
      rewrite <- (SF2Q_align sa ma ea (Z.min (ex + ey) ea)) by lia.
      rewrite <- (SF2Q_align (xorb sx sy) (mx * my) (ex + ey) (Z.min (ex + ey) ea)) by lia.
      rewrite SF2Q_mul. cbn [F32.SF2Q]. ring.
Qed.

(** ** The instructions on patterns *)

Lemma is_finite_decode (b : Z) :
  F32.is_finite b = true <-> sf_finite (F32.decode b) = true.
Proof.
  unfold F32.is_finite, F32.decode. cbv zeta.
  pose proof (fraction_range b) as HM.
  destruct (F32.biased_exp b =? 255); cbn [negb].
  - destruct (F32.fraction b =? 0); cbn [sf_finite]; split; discriminate.
  - destruct (F32.biased_exp b =? 0).
    + destruct (F32.fraction b); cbn [sf_finite]; split; reflexivity.
    + destruct (F32.fraction b + 2 ^ 23) eqn:E; try lia.
      cbn [sf_finite]; split; reflexivity.
Qed.

Lemma is_nan_decode (b : Z) :
  F32.is_nan b = false <-> F32.decode b <> S754_nan.
Proof.
  unfold F32.is_nan, F32.decode. cbv zeta.
  pose proof (fraction_range b) as HM.
  destruct (F32.biased_exp b =? 255); cbn [andb].
  - destruct (F32.fraction b =? 0); cbn [negb]; split; congruence.
  - destruct (F32.biased_exp b =? 0).
    + destruct (F32.fraction b); split; congruence.
    + destruct (F32.fraction b + 2 ^ 23) eqn:E; try lia. split; congruence.
Qed.

Lemma is_finite_not_nan (b : Z) : F32.is_finite b = true -> F32.is_nan b = false.
Proof. intros H. apply (finite_not_inf_nan b H). Qed.

Lemma is_snan_false (b : Z) : F32.is_nan b = false -> F32.is_snan b = false.
Proof. unfold F32.is_snan. intros ->. reflexivity. Qed.

Lemma lift2_no_nan (op : spec_float -> spec_float -> spec_float) (a b : Z) :
  F32.is_nan a = false -> F32.is_nan b = false ->
  F32.lift2 op a b = F32.encode (op (F32.decode a) (F32.decode b)).
Proof.
  intros Ha Hb. unfold F32.lift2, F32.process_nans2.
  rewrite !is_snan_false, Ha, Hb by assumption. reflexivity.
Qed.

Lemma fma_no_nan (a x y : Z) :
  F32.is_nan a = false -> F32.is_nan x = false -> F32.is_nan y = false ->
  F32.fma a x y = F32.encode (F32.SFfma (F32.decode x) (F32.decode y) (F32.decode a)).
Proof.
  intros Ha Hx Hy. unfold F32.fma, F32.process_nans3.
  rewrite !is_snan_false, Ha, Hx, Hy by assumption. reflexivity.
Qed.

Lemma sign_bit_neg (a : Z) : F32.sign_bit (F32.neg a) = negb (F32.sign_bit a).
Proof.
  unfold F32.sign_bit, F32.neg. change 0x80000000 with (2 ^ 31).
  rewrite Z.lxor_spec, Z.pow2_bits_eqb by lia. cbn [Z.eqb Pos.eqb].
  apply xorb_true_r.
Qed.

Lemma decode_neg (a : Z) : F32.decode (F32.neg a) = SFopp (F32.decode a).
Proof.
  unfold F32.decode. cbv zeta.
  destruct (fields_neg a) as [-> ->]. rewrite sign_bit_neg.
  destruct (F32.biased_exp a =? 255).
  - destruct (F32.fraction a =? 0); reflexivity.
  - destruct (F32.biased_exp a =? 0).
    + destruct (F32.fraction a); reflexivity.
    + destruct (F32.fraction a + 2 ^ 23); reflexivity.
Qed.

Lemma to_Q_neg (a : Z) : (F32.to_Q (F32.neg a) == - F32.to_Q a)%Q.
Proof. unfold F32.to_Q. rewrite decode_neg. apply SF2Q_opp. Qed.

Lemma is_finite_neg (a : Z) : F32.is_finite (F32.neg a) = F32.is_finite a.
Proof. unfold F32.is_finite. destruct (fields_neg a) as [-> _]. reflexivity. Qed.

(** What an instruction returns decodes to the float it computed. *)
Lemma decode_rounded (v : Q) (f : spec_float) :
  rounds_to v f -> F32.decode (F32.encode f) = f.
Proof. intros (Hc & _). apply decode_encode, Hc. Qed.

Lemma fma_rounds (a x y : Z) :
  F32.is_finite a = true -> F32.is_finite x = true -> F32.is_finite y = true ->
  rounds_to (F32.to_Q a + F32.to_Q x * F32.to_Q y) (F32.decode (F32.fma a x y)).
Proof.
  intros Ha Hx Hy.
  rewrite fma_no_nan by (apply is_finite_not_nan; assumption).
  pose proof (SFfma_rounds (F32.decode x) (F32.decode y) (F32.decode a)
                (decode_canonical x) (decode_canonical y) (decode_canonical a)
                (proj1 (is_finite_decode x) Hx) (proj1 (is_finite_decode y) Hy)
                (proj1 (is_finite_decode a) Ha)) as H.
  fold (F32.to_Q a) (F32.to_Q x) (F32.to_Q y) in H.
  rewrite (decode_rounded _ _ H). exact H.
Qed.

Lemma fms_rounds (a x y : Z) :
  F32.is_finite a = true -> F32.is_finite x = true -> F32.is_finite y = true ->
  rounds_to (F32.to_Q a - F32.to_Q x * F32.to_Q y) (F32.decode (F32.fms a x y)).
Proof.
  intros Ha Hx Hy. unfold F32.fms.
  eapply rounds_to_eq; [|apply fma_rounds; [exact Ha | | exact Hy]].
  - rewrite to_Q_neg. ring.
  - rewrite is_finite_neg. exact Hx.
Qed.

Lemma sub_rounds (a b : Z) :
  F32.is_finite a = true -> F32.is_finite b = true ->
  rounds_to (F32.to_Q a - F32.to_Q b) (F32.decode (F32.sub a b)).
Proof.
  intros Ha Hb. unfold F32.sub.
  rewrite lift2_no_nan by (apply is_finite_not_nan; assumption).
  pose proof (SFsub_rounds (F32.decode a) (F32.decode b)
                (decode_canonical a) (decode_canonical b)
                (proj1 (is_finite_decode a) Ha) (proj1 (is_finite_decode b) Hb)) as H.
  fold (F32.to_Q a) (F32.to_Q b) in H.
  rewrite (decode_rounded _ _ H). exact H.
Qed.

Lemma mul_rounds (a b : Z) :
  F32.is_finite a = true -> F32.is_finite b = true ->
  rounds_to (F32.to_Q a * F32.to_Q b) (F32.decode (F32.mul a b)).
Proof.
  intros Ha Hb. unfold F32.mul.
  rewrite lift2_no_nan by (apply is_finite_not_nan; assumption).
  pose proof (SFmul_rounds (F32.decode a) (F32.decode b)
                (decode_canonical a) (decode_canonical b)
                (proj1 (is_finite_decode a) Ha) (proj1 (is_finite_decode b) Hb)) as H.
  fold (F32.to_Q a) (F32.to_Q b) in H.
  rewrite (decode_rounded _ _ H). exact H.
Qed.

(** *** Comparisons *)

Lemma canonical_lt (m1 : positive) (e1 : Z) (m2 : positive) (e2 : Z) :
  canonical (S754_finite false m1 e1) -> canonical (S754_finite false m2 e2) ->
  (SFltb (S754_finite false m1 e1) (S754_finite false m2 e2) = true
   <-> (inject_Z (Zpos m1) * Qpower 2 e1 < inject_Z (Zpos m2) * Qpower 2 e2)%Q).
Proof.
  cbn [canonical]. intros C1 C2.
  rewrite (Qdyadic_lt _ e1 _ e2 (Z.min e1 e2)) by lia.
  unfold SFltb, SFcompare.
  destruct (Z.compare_spec e1 e2) as [E|E|E].
  - subst e2. rewrite Z.min_id, Z.sub_diag. change (2 ^ 0) with 1.
    change (Pos.compare_cont Eq m1 m2) with (Pos.compare m1 m2).
    destruct (Pos.compare_spec m1 m2) as [H|H|H]; split; intros H'; try discriminate;
      try reflexivity; lia.
  - replace (Z.min e1 e2) with e1 by lia. rewrite Z.sub_diag. change (2 ^ 0) with 1.
    pose proof (pow2_le 1 (e2 - e1) ltac:(lia)) as Hp. change (2 ^ 1) with 2 in Hp.
    split; [intros _|reflexivity]. nia.
  - replace (Z.min e1 e2) with e2 by lia. rewrite Z.sub_diag. change (2 ^ 0) with 1.
    pose proof (pow2_le 1 (e1 - e2) ltac:(lia)) as Hp. change (2 ^ 1) with 2 in Hp.
    split; [discriminate|]. nia.
Qed.

Lemma SF2Qx_abs (f : spec_float) : (Qabs (SF2Qx f) == SF2Qx (SFabs f))%Q.
Proof.
  destruct f as [s|s| |s m e]; cbn [SFabs SF2Qx F32.SF2Q cond_Zopp]; try reflexivity.
  - destruct s; reflexivity.
  - rewrite Qdyadic_abs. destruct s; reflexivity.
Qed.

Lemma canonical_abs (f : spec_float) : canonical f -> canonical (SFabs f).
Proof. destruct f; cbn; auto. Qed.

Lemma canonical_lt_2_128 (s : bool) (m : positive) (e : Z) :
  canonical (S754_finite s m e) ->
  (inject_Z (Zpos m) * Qpower 2 e < inject_Z (2 ^ 128))%Q.
Proof. cbn [canonical]. intros H. apply dyadic_lt_2_128; lia. Qed.

(** FACGT compares magnitudes. *)
Lemma abs_gt_spec (a b : Z) :
  F32.is_nan a = false -> F32.is_nan b = false ->
  (F32.abs_gt a b = true
   <-> (Qabs (SF2Qx (F32.decode b)) < Qabs (SF2Qx (F32.decode a)))%Q).
Proof.
  intros Ha Hb. apply is_nan_decode in Ha, Hb.
  unfold F32.abs_gt. rewrite !SF2Qx_abs.
  pose proof (canonical_abs _ (decode_canonical a)) as Ca.
  pose proof (canonical_abs _ (decode_canonical b)) as Cb.
  destruct (F32.decode a) as [sa|sa| |sa ma ea], (F32.decode b) as [sb|sb| |sb mb eb];
    try congruence; cbn [SFabs] in *; cbn [SF2Qx F32.SF2Q cond_Zopp].
  - split; [discriminate | intros H; exfalso; revert H; apply Qlt_irrefl].
  - split; [discriminate|]. intros H. exfalso. revert H. apply Qle_not_lt. discriminate.
  - split; [discriminate|]. intros H. exfalso. revert H. apply Qle_not_lt.
    apply Qdyadic_nonneg. lia.
  - split; reflexivity.
  - split; [discriminate | intros H; exfalso; revert H; apply Qlt_irrefl].
  - split; [|reflexivity]. intros _. apply (canonical_lt_2_128 false mb eb Cb).
  - split; [|reflexivity]. intros _. apply Qdyadic_pos. lia.
  - split; [discriminate|]. intros H. exfalso. revert H. apply Qle_not_lt.
    apply Qlt_le_weak, (canonical_lt_2_128 false ma ea Ca).
  - apply canonical_lt; assumption.
Qed.

(** FCMLE against zero. *)
Lemma le_zero_spec (a : Z) :
  F32.is_nan a = false ->
  (F32.le_zero a = true <-> (SF2Qx (F32.decode a) <= 0)%Q).
Proof.
  intros Ha. apply is_nan_decode in Ha. unfold F32.le_zero, SFleb, SFcompare.
  destruct (F32.decode a) as [s|s| |s m e]; try congruence;
    cbn [SF2Qx F32.SF2Q].
  - split; [intros _; apply Qle_refl | reflexivity].
  - destruct s; cbn [cond_Zopp].
    + split; [intros _; discriminate | reflexivity].
    + split; [discriminate|]. intros H. exfalso. revert H. apply Qlt_not_le.
      reflexivity.
  - destruct s; cbn [cond_Zopp].
    + split; [intros _|reflexivity]. apply dyadic_nonpos. lia.
    + split; [discriminate|]. intros H. exfalso. revert H. apply Qlt_not_le.
      apply Qdyadic_pos. lia.
Qed.

(** ** The range reduction *)

Lemma rounds_to_representable (v : Q) (f : spec_float) :
  rounds_to v f -> representable v ->
  sf_finite f = true /\ (F32.SF2Q f == v)%Q.
Proof.
  intros (Hc & Hn & Hle & Hge & _) Hv.
  pose proof (Hle v Hv (Qle_refl v)) as H1.
  pose proof (Hge v Hv (Qle_refl v)) as H2.
  pose proof (representable_lt v Hv) as H3. apply Qabs_Qlt_condition in H3.
  destruct f as [s|s| |s m e]; try congruence.
  - split; [reflexivity|]. cbn [SF2Qx] in H1, H2. apply Qle_antisym; assumption.
  - exfalso. cbn [SF2Qx] in H1, H2. destruct s; cbn [cond_Zopp] in H1, H2.
    + rewrite inject_Z_opp in H1, H2. Lqa.lra.
    + Lqa.lra.
  - split; [reflexivity|]. cbn [SF2Qx] in H1, H2. apply Qle_antisym; assumption.
Qed.

Lemma Qdyadic_int (m : Z) : (inject_Z m == inject_Z m * Qpower 2 0)%Q.
Proof. change (Qpower 2 0) with 1%Q. ring. Qed.

Lemma representable_int (A : Z) : Z.abs A < 2 ^ 24 -> representable (inject_Z A).
Proof.
  intros H. exists A, 0. split; [exact H|]. split; [lia | apply Qdyadic_int].
Qed.

(** A float of the format between [2^23] and [2^24] is an integer. *)
Lemma binade_integer (f : spec_float) :
  canonical f -> sf_finite f = true ->
  (inject_Z (2 ^ 23) <= F32.SF2Q f)%Q -> (F32.SF2Q f < inject_Z (2 ^ 24))%Q ->
  exists N : positive, f = S754_finite false N 0 /\ 2 ^ 23 <= Zpos N < 2 ^ 24.
Proof.
  intros Hc Hf H1 H2. destruct f as [s|s| |s m e]; try discriminate.
  - exfalso. cbn [F32.SF2Q] in H1. revert H1. apply Qlt_not_le. reflexivity.
  - cbn [F32.SF2Q canonical] in *. destruct s; cbn [cond_Zopp] in *.
    + exfalso. pose proof (dyadic_nonpos (- Z.pos m) e ltac:(lia)) as H0.
      assert (0 < inject_Z (2 ^ 23))%Q by reflexivity. Lqa.lra.
    + rewrite (Qdyadic_int (2 ^ 23)) in H1. rewrite (Qdyadic_int (2 ^ 24)) in H2.
      apply (Qdyadic_le _ 0 _ e (Z.min e 0)) in H1; [|lia|lia].
      apply (Qdyadic_lt _ e _ 0 (Z.min e 0)) in H2; [|lia|lia].
      assert (e = 0) as ->.
      { destruct Hc as [[Hm He]|[Hm He]].
        - destruct (Z.lt_trichotomy e 0) as [Hlt|[Heq|Hgt]]; [|exact Heq|]; exfalso.
          + replace (Z.min e 0) with e in H1, H2 by lia.
            rewrite Z.sub_diag in H1. change (2 ^ 0) with 1 in H1.
            pose proof (pow2_le 1 (0 - e) ltac:(lia)) as Hp.
            change (2 ^ 1) with 2 in Hp. nia.
          + replace (Z.min e 0) with 0 in H1, H2 by lia.
            rewrite Z.sub_0_r in H2. change (2 ^ (0 - 0)) with 1 in H2.
            pose proof (pow2_le 1 e ltac:(lia)) as Hp.
            change (2 ^ 1) with 2 in Hp. nia.
        - exfalso. subst e. change (Z.min (-149) 0) with (-149) in H1.
          rewrite Z.sub_diag in H1. change (2 ^ 0) with 1 in H1.
          change (2 ^ (0 - -149)) with (2 ^ 149) in H1.
          assert (1 <= 2 ^ 149) by (apply (pow2_le 0 149); lia). nia. }
      exists m. split; [reflexivity|].
      change (Z.min 0 0) with 0 in H1, H2. change (2 ^ (0 - 0)) with 1 in H1, H2.
      lia.
Qed.

Lemma fma_encode_decode (a x y : Z) :
  F32.is_finite a = true -> F32.is_finite x = true -> F32.is_finite y = true ->
  F32.fma a x y = F32.encode (F32.decode (F32.fma a x y)).
Proof.
  intros Ha Hx Hy.
  rewrite fma_no_nan by (apply is_finite_not_nan; assumption).
  pose proof (SFfma_rounds (F32.decode x) (F32.decode y) (F32.decode a)
                (decode_canonical x) (decode_canonical y) (decode_canonical a)
                (proj1 (is_finite_decode x) Hx) (proj1 (is_finite_decode y) Hy)
                (proj1 (is_finite_decode a) Ha)) as H.
  rewrite (decode_rounded _ _ H). reflexivity.
Qed.

Lemma shift_decode : F32.decode Lane.shift = S754_finite false 12582912 0.
Proof. vm_compute. reflexivity. Qed.

Lemma log10_2_decode : F32.decode Lane.log10_2 = S754_finite false 13933176 (-22).
Proof. vm_compute. reflexivity. Qed.

Lemma shift_value : (F32.to_Q Lane.shift == inject_Z 12582912)%Q.
Proof. vm_compute. reflexivity. Qed.

Lemma log10_2_value : (F32.to_Q Lane.log10_2 == 1741647 # 524288)%Q.
Proof. vm_compute. reflexivity. Qed.

Lemma shift_finite : F32.is_finite Lane.shift = true.
Proof. vm_compute. reflexivity. Qed.

Lemma log10_2_finite : F32.is_finite Lane.log10_2 = true.
Proof. vm_compute. reflexivity. Qed.

(** [z] is a rounding of [shift + x * log10_2]. *)
Lemma z_rounds (x : Z) :
  F32.is_finite x = true ->
  rounds_to (inject_Z 12582912 + F32.to_Q x * F32.to_Q Lane.log10_2)
            (F32.decode (Lane.z x)).
Proof.
  intros Hx. unfold Lane.z.
  eapply rounds_to_eq; [|apply fma_rounds; [apply shift_finite | exact Hx | apply log10_2_finite]].
  rewrite shift_value. reflexivity.
Qed.

(** While [|x * log10_2| < 2^22], [z] is [shift] plus the integer nearest
    to [x * log10_2]. *)
Lemma z_integer (x : Z) :
  F32.is_finite x = true ->
  (Qabs (F32.to_Q x * F32.to_Q Lane.log10_2) <= inject_Z 4194303)%Q ->
  exists N : positive,
    F32.decode (Lane.z x) = S754_finite false N 0 /\
    2 ^ 23 <= Zpos N < 2 ^ 24 /\
    Lane.z x = 0x4b400000 + (Zpos N - 12582912) /\
    (Qabs (inject_Z (Zpos N - 12582912) - F32.to_Q x * F32.to_Q Lane.log10_2)
     <= 1 # 2)%Q.
Proof.
  intros Hx Hv.
  pose proof (z_rounds x Hx) as (Hc & Hn & Hle & Hge & Hnear & _).
  pose proof (fma_encode_decode Lane.shift x Lane.log10_2 shift_finite Hx log10_2_finite)
    as Henc.
  fold (Lane.z x) in Henc.
  set (v := (F32.to_Q x * F32.to_Q Lane.log10_2)%Q) in *.
  set (f := F32.decode (Lane.z x)) in *.
  apply Qabs_Qle_condition in Hv.
  change (inject_Z 4194303) with (4194303 # 1)%Q in Hv.
  change (inject_Z 12582912) with (12582912 # 1)%Q in *.
  destruct (Hnear 24 ltac:(lia)) as [Hf He].
  { apply Qabs_Qlt_condition. change (Qpower 2 24) with (16777216 # 1)%Q.
    split; Lqa.lra. }
  change (Qpower 2 (24 - 25)) with (1 # 2)%Q in He.
  pose proof (Hge (inject_Z (2 ^ 23)) (representable_int (2 ^ 23) ltac:(lia))) as H1.
  pose proof (Hle (inject_Z 16777215) (representable_int 16777215 ltac:(lia))) as H2.
  rewrite (SF2Qx_finite f Hf) in H1, H2.
  change (inject_Z (2 ^ 23)) with (8388608 # 1)%Q in H1.
  change (inject_Z 16777215) with (16777215 # 1)%Q in H2.
  specialize (H1 ltac:(Lqa.lra)). specialize (H2 ltac:(Lqa.lra)).
  destruct (binade_integer f Hc Hf) as (N & HN & HNr).
  { change (inject_Z (2 ^ 23)) with (8388608 # 1)%Q. exact H1. }
  { change (inject_Z (2 ^ 24)) with (16777216 # 1)%Q. Lqa.lra. }
  exists N. split; [exact HN|]. split; [exact HNr|]. split.
  - rewrite Henc, HN. unfold F32.encode.
    replace (Z.pos N <? 2 ^ 23) with false by (symmetry; apply Z.ltb_ge; lia).
    cbn [F32.sign_word]. lia.
  - rewrite HN in He. cbn [F32.SF2Q cond_Zopp] in He.
    change (Qpower 2 0) with 1%Q in He.
    unfold Z.sub. rewrite inject_Z_plus.
    change (inject_Z (- (12582912))) with (- (12582912 # 1))%Q.
    apply Qabs_Qle_condition in He. apply Qabs_Qle_condition.
    split; Lqa.lra.
Qed.

Lemma decode_finite_flags (b : Z) (s : bool) (m : positive) (e : Z) :
  F32.decode b = S754_finite s m e ->
  F32.is_finite b = true /\ F32.is_nan b = false.
Proof.
  intros H.
  assert (F32.is_finite b = true) as Hf
      by (apply is_finite_decode; rewrite H; reflexivity).
  split; [exact Hf | apply is_finite_not_nan, Hf].
Qed.

(** With [z = shift + k] the subtraction returns the float [k]. *)
Lemma n_of_integer (x : Z) (N : positive) :
  F32.decode (Lane.z x) = S754_finite false N 0 ->
  Lane.n x = F32.of_Z (Zpos N - 12582912).
Proof.
  intros HN. destruct (decode_finite_flags _ _ _ _ HN) as [Hf Hnan].
  unfold Lane.n, F32.sub.
  rewrite lift2_no_nan by (try exact Hnan; vm_compute; reflexivity).
  rewrite HN, shift_decode. cbn [SFsub]. change (Z.min 0 0) with 0.
  rewrite !shl_align_fst by lia. change (2 ^ (0 - 0)) with 1.
  cbn [cond_Zopp]. rewrite !Z.mul_1_r.
  unfold F32.of_Z, F32.of_scaled. reflexivity.
Qed.

Lemma n_value (x : Z) (N : positive) :
  F32.decode (Lane.z x) = S754_finite false N 0 ->
  2 ^ 23 <= Zpos N < 2 ^ 24 ->
  F32.is_finite (Lane.n x) = true /\
  (F32.to_Q (Lane.n x) == inject_Z (Zpos N - 12582912))%Q.
Proof.
  intros HN Hr. destruct (decode_finite_flags _ _ _ _ HN) as [Hf Hnan].
  pose proof (sub_rounds (Lane.z x) Lane.shift Hf shift_finite) as H.
  fold (Lane.n x) in H.
  assert (F32.to_Q (Lane.z x) - F32.to_Q Lane.shift
          == inject_Z (Zpos N - 12582912))%Q as Hv.
  { rewrite shift_value. unfold F32.to_Q at 1. rewrite HN. cbn [F32.SF2Q cond_Zopp].
    change (Qpower 2 0) with 1%Q. unfold Z.sub. rewrite inject_Z_plus, inject_Z_opp.
    ring. }
  apply (rounds_to_eq _ _ _ Hv) in H.
  destruct (rounds_to_representable _ _ H (representable_int (Zpos N - 12582912) ltac:(lia))) as [F V].
  split; [apply is_finite_decode, F | exact V].
Qed.

Lemma e_of_integer (x : Z) (k : Z) :
  Lane.z x = 0x4b400000 + k -> Lane.e x = U32.wrap (k * 2 ^ 23).
Proof.
  intros Hz. unfold Lane.e, U32.shl, U32.wrap, U32.modulus. rewrite Hz.
  rewrite Z.shiftl_mul_pow2 by lia.
  replace ((0x4b400000 + k) * 2 ^ 23) with (k * 2 ^ 23 + 2465792 * 2 ^ 32) by lia.
  apply Z_mod_plus_full.
Qed.

(** *** The comparisons of the fast build, on the value of [n] *)

Lemma abs_gt_finite (a b : Z) :
  F32.is_finite a = true -> F32.is_finite b = true ->
  (F32.abs_gt a b = true <-> (Qabs (F32.to_Q b) < Qabs (F32.to_Q a))%Q).
Proof.
  intros Ha Hb.
  rewrite (abs_gt_spec a b (is_finite_not_nan a Ha) (is_finite_not_nan b Hb)).
  rewrite !SF2Qx_finite by (apply is_finite_decode; assumption).
  reflexivity.
Qed.

Lemma le_zero_finite (a : Z) :
  F32.is_finite a = true -> (F32.le_zero a = true <-> (F32.to_Q a <= 0)%Q).
Proof.
  intros Ha. rewrite (le_zero_spec a (is_finite_not_nan a Ha)).
  rewrite SF2Qx_finite by (apply is_finite_decode; assumption).
  reflexivity.
Qed.

Lemma Qabs_inject_Z (k : Z) : (Qabs (inject_Z k) == inject_Z (Z.abs k))%Q.
Proof. destruct k; reflexivity. Qed.

Lemma cmp1_of_integer (x k : Z) :
  F32.is_finite (Lane.n x) = true -> (F32.to_Q (Lane.n x) == inject_Z k)%Q ->
  Lane.cmp1 x = (126 <? Z.abs k).
Proof.
  intros Hf Hv. unfold Lane.cmp1.
  pose proof (abs_gt_finite (Lane.n x) Fast.SpecialBound Hf eq_refl) as H.
  rewrite Hv, Qabs_inject_Z in H.
  assert (Qabs (F32.to_Q Fast.SpecialBound) == inject_Z 126)%Q as E
      by (vm_compute; reflexivity).
  rewrite E, <- Zlt_Qlt in H.
  destruct (Z.ltb_spec 126 (Z.abs k)) as [Hk|Hk].
  - apply H, Hk.
  - destruct (F32.abs_gt (Lane.n x) Fast.SpecialBound); [|reflexivity].
    pose proof (proj1 H eq_refl). lia.
Qed.

Lemma cmp2_of_integer (x k : Z) :
  F32.is_finite (Lane.n x) = true -> (F32.to_Q (Lane.n x) == inject_Z k)%Q ->
  Lane.cmp2 x = (192 <? Z.abs k).
Proof.
  intros Hf Hv. unfold Lane.cmp2.
  pose proof (abs_gt_finite (Lane.n x) ScaleBound Hf eq_refl) as H.
  rewrite Hv, Qabs_inject_Z in H.
  assert (Qabs (F32.to_Q ScaleBound) == inject_Z 192)%Q as E
      by (vm_compute; reflexivity).
  rewrite E, <- Zlt_Qlt in H.
  destruct (Z.ltb_spec 192 (Z.abs k)) as [Hk|Hk].
  - apply H, Hk.
  - destruct (F32.abs_gt (Lane.n x) ScaleBound); [|reflexivity].
    pose proof (proj1 H eq_refl). lia.
Qed.

(** The reduction, on one lane: while [|x * log10_2| < 2^22] the integer
    [k = z - shift] read off the pattern of [z] is within one half of
    [x * log10_2]; [n] is the float [k], [e] is [k] shifted into the
    exponent field, and the two comparisons of the fast build test
    [|k| > 126] and [|k| > 192]. *)
Lemma reduction_lane (x : Z) :
  F32.is_finite x = true ->
  (Qabs (F32.to_Q x * F32.to_Q Lane.log10_2) <= inject_Z 4194303)%Q ->
  let k := Lane.z x - 0x4b400000 in
  - 2 ^ 22 <= k < 2 ^ 22 /\
  (Qabs (inject_Z k - F32.to_Q x * F32.to_Q Lane.log10_2) <= 1 # 2)%Q /\
  Lane.n x = F32.of_Z k /\
  F32.is_finite (Lane.n x) = true /\
  (F32.to_Q (Lane.n x) == inject_Z k)%Q /\
  Lane.e x = U32.wrap (k * 2 ^ 23) /\
  Lane.cmp1 x = (126 <? Z.abs k) /\
  Lane.cmp2 x = (192 <? Z.abs k).
Proof.
  intros Hx Hv k.
  destruct (z_integer x Hx Hv) as (N & HN & HNr & Hz & Hnear).
  assert (k = Zpos N - 12582912) as Hk by (unfold k; lia).
  destruct (n_value x N HN HNr) as [Hnf Hnv].
  rewrite Hk.
  split; [lia|]. split; [exact Hnear|]. split; [apply n_of_integer, HN|].
  split; [exact Hnf|]. split; [exact Hnv|]. split; [apply e_of_integer, Hz|].
  split; [apply cmp1_of_integer | apply cmp2_of_integer]; assumption.
Qed.

(** ** Which path a lane takes, by its input *)

Lemma z_not_nan (x : Z) : F32.is_finite x = true -> F32.is_nan (Lane.z x) = false.
Proof.
  intros Hx. destruct (z_rounds x Hx) as (_ & Hn & _). apply is_nan_decode, Hn.
Qed.

Lemma ScaleBound_value : (Qabs (SF2Qx (F32.decode ScaleBound)) == inject_Z 192)%Q.
Proof. vm_compute. reflexivity. Qed.

(** When [z] is at least [shift + 193], [n] is beyond [ScaleBound] and
    positive; when [z] is at most [shift - 193], beyond it and negative. *)
Lemma n_saturates_pos (x : Z) :
  F32.is_nan (Lane.z x) = false ->
  (inject_Z 12583105 <= SF2Qx (F32.decode (Lane.z x)))%Q ->
  Lane.cmp2 x = true /\ F32.le_zero (Lane.n x) = false.
Proof.
  intros Hnan Hz.
  destruct (F32.decode (Lane.z x)) as [s|s| |s m e] eqn:Hd.
  - exfalso. cbn [SF2Qx F32.SF2Q] in Hz. revert Hz. apply Qlt_not_le. reflexivity.
  - destruct s.
    + exfalso. cbn [SF2Qx cond_Zopp] in Hz. revert Hz. apply Qlt_not_le. reflexivity.
    + assert (Lane.n x = F32.pinf) as Hn.
      { unfold Lane.n, F32.sub.
        rewrite lift2_no_nan by (try exact Hnan; vm_compute; reflexivity).
        rewrite Hd, shift_decode. reflexivity. }
      unfold Lane.cmp2. rewrite Hn. split; vm_compute; reflexivity.
  - exfalso. apply is_nan_decode in Hnan. congruence.
  - destruct (decode_finite_flags _ _ _ _ Hd) as [Hf _].
    pose proof (sub_rounds (Lane.z x) Lane.shift Hf shift_finite) as H.
    fold (Lane.n x) in H. destruct H as (_ & Hn & _ & Hge & _).
    apply is_nan_decode in Hn.
    assert (F32.to_Q (Lane.z x) = SF2Qx (F32.decode (Lane.z x))) as Ev
        by (unfold F32.to_Q; rewrite Hd; reflexivity).
    rewrite Hd in Ev. rewrite <- Ev in Hz.
    specialize (Hge (inject_Z 193) (representable_int 193 ltac:(lia))).
    rewrite shift_value in Hge.
    change (inject_Z 193) with (193 # 1)%Q in Hge.
    change (inject_Z 12582912) with (12582912 # 1)%Q in Hge.
    change (inject_Z 12583105) with (12583105 # 1)%Q in Hz.
    specialize (Hge ltac:(Lqa.lra)).
    split.
    + apply (abs_gt_spec (Lane.n x) ScaleBound Hn eq_refl).
      rewrite ScaleBound_value. change (inject_Z 192) with (192 # 1)%Q.
      rewrite Qabs_pos by Lqa.lra. Lqa.lra.
    + destruct (F32.le_zero (Lane.n x)) eqn:El; [|reflexivity].
      apply (le_zero_spec (Lane.n x) Hn) in El. exfalso. Lqa.lra.
Qed.

Lemma n_saturates_neg (x : Z) :
  F32.is_nan (Lane.z x) = false ->
  (SF2Qx (F32.decode (Lane.z x)) <= inject_Z 12582719)%Q ->
  Lane.cmp2 x = true /\ F32.le_zero (Lane.n x) = true.
Proof.
  intros Hnan Hz.
  assert (forall f, F32.decode (Lane.z x) = f -> sf_finite f = true ->
            (F32.SF2Q f <= 12582719 # 1)%Q ->
            Lane.cmp2 x = true /\ F32.le_zero (Lane.n x) = true) as Hfin.
  { intros f Hd Hff Hv.
    assert (F32.is_finite (Lane.z x) = true) as Hf
        by (apply is_finite_decode; rewrite Hd; exact Hff).
    pose proof (sub_rounds (Lane.z x) Lane.shift Hf shift_finite) as H.
    fold (Lane.n x) in H. destruct H as (_ & Hn & Hle & _ & _).
    apply is_nan_decode in Hn.
    specialize (Hle (inject_Z (-193)) (representable_int (-193) ltac:(lia))).
    rewrite shift_value in Hle. unfold F32.to_Q in Hle. rewrite Hd in Hle.
    change (inject_Z (-193)) with (-193 # 1)%Q in Hle.
    change (inject_Z 12582912) with (12582912 # 1)%Q in Hle.
    specialize (Hle ltac:(Lqa.lra)).
    split.
    - apply (abs_gt_spec (Lane.n x) ScaleBound Hn eq_refl).
      rewrite ScaleBound_value. change (inject_Z 192) with (192 # 1)%Q.
      rewrite Qabs_neg by Lqa.lra. Lqa.lra.
    - apply (le_zero_spec (Lane.n x) Hn). Lqa.lra. }
  change (inject_Z 12582719) with (12582719 # 1)%Q in Hz.
  destruct (F32.decode (Lane.z x)) as [s|s| |s m e] eqn:Hd.
  - apply (Hfin _ eq_refl eq_refl). exact Hz.
  - destruct s.
    + assert (Lane.n x = F32.ninf) as Hn.
      { unfold Lane.n, F32.sub.
        rewrite lift2_no_nan by (try exact Hnan; vm_compute; reflexivity).
        rewrite Hd, shift_decode. reflexivity. }
      unfold Lane.cmp2. rewrite Hn. split; vm_compute; reflexivity.
    + exfalso. cbn [SF2Qx cond_Zopp] in Hz. revert Hz. apply Qlt_not_le. reflexivity.
  - exfalso. apply is_nan_decode in Hnan. congruence.
  - apply (Hfin _ eq_refl eq_refl). exact Hz.
Qed.

Lemma Qabs_lt_int (k : Z) (v : Q) (b : Z) :
  (Qabs (inject_Z k - v) <= 1 # 2)%Q ->
  (Qabs v < inject_Z b + (1 # 2))%Q -> Z.abs k <= b.
Proof.
  intros H1 H2. apply Qabs_Qle_condition in H1. apply Qabs_Qlt_condition in H2.
  assert (inject_Z k < inject_Z (b + 1))%Q as Hu
      by (rewrite inject_Z_plus; change (inject_Z 1) with 1%Q; Lqa.lra).
  assert (inject_Z (- b - 1) < inject_Z k)%Q as Hl.
  { unfold Z.sub. rewrite inject_Z_plus, inject_Z_opp.
    change (inject_Z (- (1))) with (- (1))%Q. Lqa.lra. }
  rewrite <- Zlt_Qlt in Hu, Hl. lia.
Qed.

Lemma Qabs_gt_int (k : Z) (v : Q) (b : Z) :
  (Qabs (inject_Z k - v) <= 1 # 2)%Q ->
  (inject_Z b + (1 # 2) < Qabs v)%Q -> b < Z.abs k.
Proof.
  intros H1 H2. apply Qabs_Qle_condition in H1.
  destruct (Qlt_le_dec v 0) as [Hneg|Hpos].
  - rewrite Qabs_neg in H2 by (apply Qlt_le_weak, Hneg).
    assert (inject_Z k < inject_Z (- b))%Q as Hu
        by (rewrite inject_Z_opp; Lqa.lra).
    rewrite <- Zlt_Qlt in Hu. lia.
  - rewrite Qabs_pos in H2 by exact Hpos.
    assert (inject_Z b < inject_Z k)%Q as Hu by Lqa.lra.
    rewrite <- Zlt_Qlt in Hu. lia.
Qed.

(** The three regimes of the fast build, by the exact product
    [x * log10_2] of the input and the table's constant: the ordinary path
    below 126.5 in magnitude, the two-factor path between 126.5 and 192.5,
    saturation to [+inf] or [+0] beyond. *)
Lemma fast_regimes_lane (x : Z) :
  F32.is_finite x = true ->
  let v := (F32.to_Q x * F32.to_Q Lane.log10_2)%Q in
  ((Qabs v < 253 # 2)%Q -> Lane.fast x = Lane.r0 x) /\
  ((253 # 2 < Qabs v)%Q -> (Qabs v < 385 # 2)%Q -> Lane.fast x = Lane.r1 x) /\
  ((385 # 2 < v)%Q -> Lane.fast x = F32.pinf) /\
  ((v < - (385 # 2))%Q -> Lane.fast x = F32.pzero).
Proof.
  intros Hx v.
  assert ((Qabs v < 385 # 2)%Q ->
          exists k, (Qabs (inject_Z k - v) <= 1 # 2)%Q /\
                    Lane.cmp1 x = (126 <? Z.abs k) /\
                    Lane.cmp2 x = (192 <? Z.abs k)) as Hsmall.
  { intros Hv.
    assert (Qabs v <= inject_Z 4194303)%Q as Hv'
        by (change (inject_Z 4194303) with (4194303 # 1)%Q; Lqa.lra).
    destruct (reduction_lane x Hx Hv') as (_ & Hn & _ & _ & _ & _ & H1 & H2).
    eexists. split; [exact Hn|]. split; assumption. }
  split; [|split; [|split]].
  - intros Hv. destruct (Hsmall ltac:(Lqa.lra)) as (k & Hn & H1 & H2).
    assert (Z.abs k <= 126) as Hk
        by (apply (Qabs_lt_int k v 126 Hn); change (inject_Z 126) with (126 # 1)%Q;
            Lqa.lra).
    unfold Lane.fast. rewrite H1, H2.
    replace (192 <? Z.abs k) with false by (symmetry; apply Z.ltb_ge; lia).
    replace (126 <? Z.abs k) with false by (symmetry; apply Z.ltb_ge; lia).
    reflexivity.
  - intros Hlo Hhi. destruct (Hsmall Hhi) as (k & Hn & H1 & H2).
    assert (Z.abs k <= 192) as Hk
        by (apply (Qabs_lt_int k v 192 Hn); change (inject_Z 192) with (192 # 1)%Q;
            Lqa.lra).
    assert (126 < Z.abs k) as Hk'
        by (apply (Qabs_gt_int k v 126 Hn); change (inject_Z 126) with (126 # 1)%Q;
            Lqa.lra).
    unfold Lane.fast. rewrite H1, H2.
    replace (192 <? Z.abs k) with false by (symmetry; apply Z.ltb_ge; lia).
    replace (126 <? Z.abs k) with true by (symmetry; apply Z.ltb_lt; lia).
    reflexivity.
  - intros Hv.
    assert (inject_Z 12583105 <= SF2Qx (F32.decode (Lane.z x)))%Q as Hz.
    { change (inject_Z 12583105) with (12583105 # 1)%Q.
      destruct (Qlt_le_dec (4194303 # 1) v) as [Hbig|Hsm].
      - destruct (z_rounds x Hx) as (_ & _ & _ & Hge & _). fold v in Hge.
        specialize (Hge (inject_Z 16777215) (representable_int 16777215 ltac:(lia))).
        change (inject_Z 16777215) with (16777215 # 1)%Q in Hge.
        change (inject_Z 12582912) with (12582912 # 1)%Q in Hge.
        specialize (Hge ltac:(Lqa.lra)). Lqa.lra.
      - assert (Qabs v <= inject_Z 4194303)%Q as Hv'.
        { change (inject_Z 4194303) with (4194303 # 1)%Q.
          rewrite Qabs_pos by Lqa.lra. exact Hsm. }
        destruct (z_integer x Hx Hv') as (N & HN & HNr & _ & Hnear).
        fold v in Hnear. rewrite HN. cbn [SF2Qx F32.SF2Q cond_Zopp].
        change (Qpower 2 0) with 1%Q.
        assert (192 < Z.abs (Zpos N - 12582912)) as Hk
            by (apply (Qabs_gt_int _ v 192 Hnear);
                change (inject_Z 192) with (192 # 1)%Q;
                rewrite Qabs_pos by Lqa.lra; Lqa.lra).
        assert (0 <= Zpos N - 12582912) as Hk0.
        { apply Qabs_Qle_condition in Hnear.
          assert (inject_Z 0 < inject_Z (Zpos N - 12582912))%Q as H0
              by (change (inject_Z 0) with 0%Q; Lqa.lra).
          rewrite <- Zlt_Qlt in H0. lia. }
        assert (12583105 <= Zpos N) as HN' by lia.
        rewrite Zle_Qle in HN'.
        change (inject_Z 12583105) with (12583105 # 1)%Q in HN'. Lqa.lra. }
    destruct (n_saturates_pos x (z_not_nan x Hx) Hz) as [H2 Hl].
    unfold Lane.fast. rewrite H2, r2_saturates, Hl. reflexivity.
  - intros Hv.
    assert (SF2Qx (F32.decode (Lane.z x)) <= inject_Z 12582719)%Q as Hz.
    { change (inject_Z 12582719) with (12582719 # 1)%Q.
      destruct (Qlt_le_dec v (- (4194303 # 1))) as [Hbig|Hsm].
      - destruct (z_rounds x Hx) as (_ & _ & Hle & _ & _). fold v in Hle.
        specialize (Hle (inject_Z 8388609) (representable_int 8388609 ltac:(lia))).
        change (inject_Z 8388609) with (8388609 # 1)%Q in Hle.
        change (inject_Z 12582912) with (12582912 # 1)%Q in Hle.
        specialize (Hle ltac:(Lqa.lra)). Lqa.lra.
      - assert (Qabs v <= inject_Z 4194303)%Q as Hv'.
        { change (inject_Z 4194303) with (4194303 # 1)%Q.
          rewrite Qabs_neg by Lqa.lra. Lqa.lra. }
        destruct (z_integer x Hx Hv') as (N & HN & HNr & _ & Hnear).
        fold v in Hnear. rewrite HN. cbn [SF2Qx F32.SF2Q cond_Zopp].
        change (Qpower 2 0) with 1%Q.
        assert (192 < Z.abs (Zpos N - 12582912)) as Hk
            by (apply (Qabs_gt_int _ v 192 Hnear);
                change (inject_Z 192) with (192 # 1)%Q;
                rewrite Qabs_neg by Lqa.lra; Lqa.lra).
        assert (Zpos N - 12582912 <= 0) as Hk0.
        { apply Qabs_Qle_condition in Hnear.
          assert (inject_Z (Zpos N - 12582912) < inject_Z 0)%Q as H0
              by (change (inject_Z 0) with 0%Q; Lqa.lra).
          rewrite <- Zlt_Qlt in H0. lia. }
        assert (Zpos N <= 12582719) as HN' by lia.
        rewrite Zle_Qle in HN'.
        change (inject_Z 12582719) with (12582719 # 1)%Q in HN'. Lqa.lra. }
    destruct (n_saturates_neg x (z_not_nan x Hx) Hz) as [H2 Hl].
    unfold Lane.fast. rewrite H2, r2_saturates, Hl. reflexivity.
Qed.

(** ** The reduced argument *)

Lemma hi_value : (F32.to_Q Lane.log2_10_hi == 10100891 # 33554432)%Q.
Proof. vm_compute. reflexivity. Qed.

Lemma lo_value : (F32.to_Q Lane.log2_10_lo == - (503875 # 35184372088832))%Q.
Proof. vm_compute. reflexivity. Qed.

Lemma hi_finite : F32.is_finite Lane.log2_10_hi = true.
Proof. vm_compute. reflexivity. Qed.

Lemma lo_finite : F32.is_finite Lane.log2_10_lo = true.
Proof. vm_compute. reflexivity. Qed.

Lemma rounds_to_finite (v : Q) (y : Z) :
  rounds_to v (F32.decode y) -> forall j, -125 <= j <= 127 ->
  (Qabs v < Qpower 2 j)%Q ->
  F32.is_finite y = true /\ (Qabs (F32.to_Q y - v) <= Qpower 2 (j - 25))%Q.
Proof.
  intros (_ & _ & _ & _ & Hnear & _) j Hj Hv.
  destruct (Hnear j Hj Hv) as [Hf He].
  split; [apply is_finite_decode, Hf | exact He].
Qed.

(** While [n] is an integer [k] of at most 192 in magnitude within one
    half of [x * log10_2], the two subtractions leave
    [x - k * (log2_10_hi + log2_10_lo)] to within [2^-26], and that is at
    most 0.150517 in magnitude. *)
Lemma reduced_argument_lane (x k : Z) :
  F32.is_finite x = true ->
  F32.is_finite (Lane.n x) = true ->
  (F32.to_Q (Lane.n x) == inject_Z k)%Q ->
  Z.abs k <= 192 ->
  (Qabs (inject_Z k - F32.to_Q x * F32.to_Q Lane.log10_2) <= 1 # 2)%Q ->
  F32.is_finite (Lane.r x) = true /\
  (Qabs (F32.to_Q (Lane.r x)
         - (F32.to_Q x
            - inject_Z k * (F32.to_Q Lane.log2_10_hi + F32.to_Q Lane.log2_10_lo)))
   <= 1 # 67108864)%Q /\
  (Qabs (F32.to_Q (Lane.r x)) <= 150517 # 1000000)%Q.
Proof.
  intros Hx Hnf Hnv Hk Hnear.
  rewrite log10_2_value in Hnear. apply Qabs_Qle_condition in Hnear.
  assert (- (192 # 1) <= inject_Z k <= 192 # 1)%Q as HK.
  { change (192 # 1)%Q with (inject_Z 192).
    rewrite <- inject_Z_opp, <- !Zle_Qle. lia. }
  set (X := F32.to_Q x) in *. set (K := inject_Z k) in *.
  unfold Lane.r.
  set (rh := F32.fms x (Lane.n x) Lane.log2_10_hi).
  pose proof (fms_rounds x (Lane.n x) Lane.log2_10_hi Hx Hnf hi_finite) as H1.
  fold rh in H1. fold X in H1.
  assert (X - F32.to_Q (Lane.n x) * F32.to_Q Lane.log2_10_hi
          == X - K * (10100891 # 33554432))%Q as E1
      by (rewrite Hnv, hi_value; reflexivity).
  apply (rounds_to_eq _ _ _ E1) in H1.
  destruct (rounds_to_finite _ _ H1 (-2) ltac:(lia)) as [Hrf Hre].
  { change (Qpower 2 (-2)) with (1 # 4)%Q. apply Qabs_Qlt_condition.
    split; Lqa.lra. }
  change (Qpower 2 (-2 - 25)) with (1 # 134217728)%Q in Hre.
  apply Qabs_Qle_condition in Hre.
  pose proof (fms_rounds rh (Lane.n x) Lane.log2_10_lo Hrf Hnf lo_finite) as H2.
  assert (F32.to_Q rh - F32.to_Q (Lane.n x) * F32.to_Q Lane.log2_10_lo
          == F32.to_Q rh - K * - (503875 # 35184372088832))%Q as E2
      by (rewrite Hnv, lo_value; reflexivity).
  apply (rounds_to_eq _ _ _ E2) in H2.
  destruct (rounds_to_finite _ _ H2 (-2) ltac:(lia)) as [Hf He].
  { change (Qpower 2 (-2)) with (1 # 4)%Q. apply Qabs_Qlt_condition.
    split; Lqa.lra. }
  change (Qpower 2 (-2 - 25)) with (1 # 134217728)%Q in He.
  apply Qabs_Qle_condition in He.
  split; [exact Hf|].
  rewrite hi_value, lo_value.
  split; apply Qabs_Qle_condition; split; Lqa.lra.
Qed.

(** ** The polynomial stays small *)

Lemma Qsqr_bound (r b : Q) :
  (Qabs r <= b)%Q -> (0 <= r * r)%Q /\ (r * r <= b * b)%Q.
Proof.
  intros H. apply Qabs_Qle_condition in H.
  destruct (Qlt_le_dec r 0) as [Hn|Hp].
  - setoid_replace (r * r)%Q with ((- r) * (- r))%Q by ring.
    split.
    + apply Qmult_le_0_compat; Lqa.lra.
    + apply Qmult_le_compat_nonneg; split; Lqa.lra.
  - split.
    + apply Qmult_le_0_compat; assumption.
    + apply Qmult_le_compat_nonneg; split; Lqa.lra.
Qed.

Lemma Qmult_bounds_nonneg (x y b d : Q) :
  (0 <= x <= b)%Q -> (0 <= y <= d)%Q -> (0 <= x * y)%Q /\ (x * y <= b * d)%Q.
Proof.
  intros Hx Hy. split.
  - apply Qmult_le_0_compat; [apply Hx | apply Hy].
  - apply Qmult_le_compat_nonneg; assumption.
Qed.

Lemma c_values :
  (F32.to_Q (Lane.c 0) == 9657739 # 4194304)%Q /\
  (F32.to_Q (Lane.c 1) == 11118697 # 4194304)%Q /\
  (F32.to_Q (Lane.c 2) == 8534565 # 4194304)%Q /\
  (F32.to_Q (Lane.c 3) == 9879739 # 8388608)%Q /\
  (F32.to_Q (Lane.c 4) == 9001485 # 16777216)%Q.
Proof. repeat split; vm_compute; reflexivity. Qed.

Lemma c_finite (i : nat) : (i <= 4)%nat -> F32.is_finite (Lane.c i) = true.
Proof.
  intros H. do 5 (destruct i as [|i]; [vm_compute; reflexivity|]). lia.
Qed.

(** For a reduced argument of at most 0.150517 in magnitude the
    polynomial is finite and lies between -0.3466 and 0.4143. *)
Lemma poly_bounds (r : Z) :
  F32.is_finite r = true ->
  (Qabs (F32.to_Q r) <= 150517 # 1000000)%Q ->
  F32.is_finite (estrin F32.mul F32.fma Lane.c r) = true /\
  (- (3466 # 10000) <= F32.to_Q (estrin F32.mul F32.fma Lane.c r))%Q /\
  (F32.to_Q (estrin F32.mul F32.fma Lane.c r) <= 4143 # 10000)%Q.
Proof.
  intros Hr HB. unfold estrin. cbv zeta.
  destruct c_values as (V0 & V1 & V2 & V3 & V4).
  destruct (Qsqr_bound _ _ HB) as [S0 S1].
  apply Qabs_Qle_condition in HB.
  set (R := F32.to_Q r) in *.
  (* r2 = r * r *)
  set (r2 := F32.mul r r).
  pose proof (mul_rounds r r Hr Hr) as H. fold r2 in H. fold R in H.
  destruct (rounds_to_finite _ _ H (-5) ltac:(lia)) as [F2 E2].
  { change (Qpower 2 (-5)) with (1 # 32)%Q. apply Qabs_Qlt_condition.
    split; Lqa.lra. }
  change (Qpower 2 (-5 - 25)) with (1 # 1073741824)%Q in E2.
  apply Qabs_Qle_condition in E2.
  assert (0 <= F32.to_Q r2)%Q as Hr2pos.
  { destruct H as (_ & _ & _ & Hge & _).
    specialize (Hge 0%Q (representable_int 0 ltac:(lia)) S0).
    rewrite SF2Qx_finite in Hge by (apply is_finite_decode, F2). exact Hge. }
  clear H. set (R2 := F32.to_Q r2) in *.
  (* p = C3 + C4 * r *)
  set (p1 := F32.fma (Lane.c 3) (Lane.c 4) r).
  pose proof (fma_rounds (Lane.c 3) (Lane.c 4) r (c_finite 3 ltac:(lia))
                (c_finite 4 ltac:(lia)) Hr) as H.
  fold p1 in H. fold R in H.
  assert (F32.to_Q (Lane.c 3) + F32.to_Q (Lane.c 4) * R
          == (9879739 # 8388608) + (9001485 # 16777216) * R)%Q as E
      by (rewrite V3, V4; reflexivity).
  apply (rounds_to_eq _ _ _ E) in H. clear E.
  destruct (rounds_to_finite _ _ H 1 ltac:(lia)) as [Fp1 Ep1].
  { change (Qpower 2 1) with (2 # 1)%Q. apply Qabs_Qlt_condition. split; Lqa.lra. }
  change (Qpower 2 (1 - 25)) with (1 # 16777216)%Q in Ep1.
  apply Qabs_Qle_condition in Ep1. clear H. set (P1 := F32.to_Q p1) in *.
  (* q = C1 + C2 * r *)
  set (q1 := F32.fma (Lane.c 1) (Lane.c 2) r).
  pose proof (fma_rounds (Lane.c 1) (Lane.c 2) r (c_finite 1 ltac:(lia))
                (c_finite 2 ltac:(lia)) Hr) as H.
  fold q1 in H. fold R in H.
  assert (F32.to_Q (Lane.c 1) + F32.to_Q (Lane.c 2) * R
          == (11118697 # 4194304) + (8534565 # 4194304) * R)%Q as E
      by (rewrite V1, V2; reflexivity).
  apply (rounds_to_eq _ _ _ E) in H. clear E.
  destruct (rounds_to_finite _ _ H 2 ltac:(lia)) as [Fq1 Eq1].
  { change (Qpower 2 2) with (4 # 1)%Q. apply Qabs_Qlt_condition. split; Lqa.lra. }
  change (Qpower 2 (2 - 25)) with (1 # 8388608)%Q in Eq1.
  apply Qabs_Qle_condition in Eq1. clear H. set (Q1 := F32.to_Q q1) in *.
  (* q = q + p * r2 *)
  set (q2 := F32.fma q1 p1 r2).
  pose proof (fma_rounds q1 p1 r2 Fq1 Fp1 F2) as H.
  fold q2 in H. fold Q1 in H. fold P1 in H. fold R2 in H.
  destruct (Qmult_bounds_nonneg P1 R2 (126 # 100) (2266 # 100000)
              ltac:(split; Lqa.lra) ltac:(split; Lqa.lra)) as [M0 M1].
  destruct (rounds_to_finite _ _ H 2 ltac:(lia)) as [Fq2 Eq2].
  { change (Qpower 2 2) with (4 # 1)%Q. apply Qabs_Qlt_condition. split; Lqa.lra. }
  change (Qpower 2 (2 - 25)) with (1 # 8388608)%Q in Eq2.
  apply Qabs_Qle_condition in Eq2. clear H. set (Q2 := F32.to_Q q2) in *.
  (* p = C0 * r *)
  set (p2 := F32.mul (Lane.c 0) r).
  pose proof (mul_rounds (Lane.c 0) r (c_finite 0 ltac:(lia)) Hr) as H.
  fold p2 in H. fold R in H.
  assert (F32.to_Q (Lane.c 0) * R == (9657739 # 4194304) * R)%Q as E
      by (rewrite V0; reflexivity).
  apply (rounds_to_eq _ _ _ E) in H. clear E.
  destruct (rounds_to_finite _ _ H (-1) ltac:(lia)) as [Fp2 Ep2].
  { change (Qpower 2 (-1)) with (1 # 2)%Q. apply Qabs_Qlt_condition. split; Lqa.lra. }
  change (Qpower 2 (-1 - 25)) with (1 # 67108864)%Q in Ep2.
  apply Qabs_Qle_condition in Ep2. clear H. set (P2 := F32.to_Q p2) in *.
  (* poly = p + q * r2 *)
  pose proof (fma_rounds p2 q2 r2 Fp2 Fq2 F2) as H.
  fold P2 in H. fold Q2 in H. fold R2 in H.
  destruct (Qmult_bounds_nonneg Q2 R2 (2987 # 1000) (2266 # 100000)
              ltac:(split; Lqa.lra) ltac:(split; Lqa.lra)) as [N0 N1].
  destruct (rounds_to_finite _ _ H (-1) ltac:(lia)) as [Fp Ep].
  { change (Qpower 2 (-1)) with (1 # 2)%Q. apply Qabs_Qlt_condition. split; Lqa.lra. }
  change (Qpower 2 (-1 - 25)) with (1 # 67108864)%Q in Ep.
  apply Qabs_Qle_condition in Ep.
  split; [exact Fp|]. split; Lqa.lra.
Qed.

(** ** What the fast build returns on a finite lane *)

Lemma sign_bit_decode (b : Z) :
  F32.is_nan b = false -> sf_sign (F32.decode b) = F32.sign_bit b.
Proof.
  unfold F32.is_nan, F32.decode. cbv zeta.
  pose proof (fraction_range b) as HM.
  destruct (F32.biased_exp b =? 255); cbn [andb].
  - destruct (F32.fraction b =? 0); cbn [negb]; [reflexivity | discriminate].
  - intros _. destruct (F32.biased_exp b =? 0).
    + destruct (F32.fraction b); reflexivity.
    + destruct (F32.fraction b + 2 ^ 23) eqn:E; try lia. reflexivity.
Qed.

Lemma encode_flags (f : spec_float) :
  canonical f -> f <> S754_nan ->
  F32.is_nan (F32.encode f) = false /\ F32.sign_bit (F32.encode f) = sf_sign f.
Proof.
  intros Hc Hn. pose proof (decode_encode f Hc) as Hd.
  assert (F32.is_nan (F32.encode f) = false) as H
      by (apply is_nan_decode; rewrite Hd; exact Hn).
  split; [exact H|]. rewrite <- (sign_bit_decode _ H), Hd. reflexivity.
Qed.

Lemma rounds_to_flags (v : Q) (y : Z) :
  rounds_to v (F32.decode y) ->
  F32.is_nan y = false /\
  ((0 < v)%Q -> F32.sign_bit y = false) /\ ((v < 0)%Q -> F32.sign_bit y = true).
Proof.
  intros (_ & Hn & _ & _ & _ & Hp & Hm & _).
  assert (F32.is_nan y = false) as H by (apply is_nan_decode, Hn).
  rewrite <- (sign_bit_decode y H). split; [exact H|]. split; assumption.
Qed.

Lemma rounds_to_between (v lo hi : Q) (y : Z) :
  rounds_to v (F32.decode y) -> representable lo -> representable hi ->
  (lo <= v)%Q -> (v <= hi)%Q ->
  F32.is_finite y = true /\ (lo <= F32.to_Q y <= hi)%Q.
Proof.
  intros (Hc & Hn & Hle & Hge & _) Rl Rh H1 H2.
  specialize (Hle hi Rh H2). specialize (Hge lo Rl H1).
  pose proof (representable_lt lo Rl) as B1. pose proof (representable_lt hi Rh) as B2.
  apply Qabs_Qlt_condition in B1, B2.
  assert (sf_finite (F32.decode y) = true) as Hf.
  { destruct (F32.decode y) as [s|s| |s m e]; try congruence; try reflexivity.
    exfalso. cbn [SF2Qx] in *.
    destruct s; cbn [cond_Zopp] in *; [rewrite inject_Z_opp in *|]; Lqa.lra. }
  rewrite (SF2Qx_finite _ Hf) in Hle, Hge.
  split; [apply is_finite_decode, Hf|]. split; assumption.
Qed.

Lemma is_normal_finite (b : Z) : F32.is_normal b = true -> F32.is_finite b = true.
Proof.
  unfold F32.is_normal, F32.is_finite. intros H.
  apply andb_true_iff in H. apply H.
Qed.

(** On [-126 .. 127] the single-word scale is the normal number [2^k]. *)
Lemma scale_value (x k : Z) :
  Lane.e x = U32.wrap (k * 2 ^ 23) -> -126 <= k <= 127 ->
  F32.is_finite (Lane.scale x) = true /\
  (F32.to_Q (Lane.scale x) == Qpower 2 k)%Q.
Proof.
  intros He Hk. unfold Lane.scale. rewrite He.
  pose proof (direct_scale_ok_normal k Hk) as H. unfold direct_scale_ok in H.
  cbv zeta in H. apply andb_true_iff in H. destruct H as [H1 H2].
  apply Qeq_bool_iff in H2. split; [apply is_normal_finite, H1 | exact H2].
Qed.

(** The ordinary result [scale + poly * scale] for [scale = 2^k]. *)
Lemma r0_bounds (x k : Z) :
  -126 <= k <= 127 ->
  F32.is_finite (Lane.scale x) = true ->
  (F32.to_Q (Lane.scale x) == Qpower 2 k)%Q ->
  F32.is_finite (Lane.poly x) = true ->
  (- (3466 # 10000) <= F32.to_Q (Lane.poly x))%Q ->
  (F32.to_Q (Lane.poly x) <= 4143 # 10000)%Q ->
  F32.is_finite (Lane.r0 x) = true /\
  ((5 # 8) * Qpower 2 k <= F32.to_Q (Lane.r0 x))%Q /\
  (F32.to_Q (Lane.r0 x) <= (3 # 2) * Qpower 2 k)%Q.
Proof.
  intros Hk Fs Vs Fp Pl Ph. unfold Lane.r0.
  pose proof (fma_rounds (Lane.scale x) (Lane.poly x) (Lane.scale x) Fs Fp Fs) as H.
  assert (F32.to_Q (Lane.scale x) + F32.to_Q (Lane.poly x) * F32.to_Q (Lane.scale x)
          == Qpower 2 k + F32.to_Q (Lane.poly x) * Qpower 2 k)%Q as E
      by (rewrite Vs; reflexivity).
  apply (rounds_to_eq _ _ _ E) in H. clear E.
  pose proof (Qpow2_pos k) as Tpos.
  pose proof (Qpow2_add k (-23)) as Ek.
  change (Qpower 2 (-23)) with (1 # 8388608)%Q in Ek.
  replace (k + -23) with (k - 23) in Ek by lia.
  assert (- (3466 # 10000) * Qpower 2 k <= F32.to_Q (Lane.poly x) * Qpower 2 k)%Q as L1
      by (apply Qmult_le_compat_r; [exact Pl | apply Qlt_le_weak, Tpos]).
  assert (F32.to_Q (Lane.poly x) * Qpower 2 k <= (4143 # 10000) * Qpower 2 k)%Q as L2
      by (apply Qmult_le_compat_r; [exact Ph | apply Qlt_le_weak, Tpos]).
  set (T := Qpower 2 k) in *. set (PT := (F32.to_Q (Lane.poly x) * T)%Q) in *.
  destruct (rounds_to_between _ (inject_Z 5242880 * Qpower 2 (k - 23))
              (inject_Z 12582912 * Qpower 2 (k - 23)) _ H) as [Hf [B1 B2]].
  - apply representable_dyadic; lia.
  - apply representable_dyadic; lia.
  - rewrite Ek. change (inject_Z 5242880) with (5242880 # 1)%Q. Lqa.lra.
  - rewrite Ek. change (inject_Z 12582912) with (12582912 # 1)%Q. Lqa.lra.
  - split; [exact Hf|]. rewrite Ek in B1, B2.
    change (inject_Z 5242880) with (5242880 # 1)%Q in B1.
    change (inject_Z 12582912) with (12582912 # 1)%Q in B2.
    split; Lqa.lra.
Qed.

(** An ordinary lane, from the input to the result. *)
Lemma ordinary_lane_result (x : Z) :
  F32.is_finite x = true ->
  (Qabs (F32.to_Q x * F32.to_Q Lane.log10_2) <= inject_Z 4194303)%Q ->
  let k := Lane.z x - 0x4b400000 in
  Z.abs k <= 126 ->
  Lane.fast x = Lane.r0 x /\
  F32.is_finite (Lane.r0 x) = true /\
  ((5 # 8) * Qpower 2 k <= F32.to_Q (Lane.r0 x))%Q /\
  (F32.to_Q (Lane.r0 x) <= (3 # 2) * Qpower 2 k)%Q.
Proof.
  intros Hx Hv k Hk.
  destruct (reduction_lane x Hx Hv) as (_ & Hn & _ & Hnf & Hnv & He & H1 & H2).
  fold k in Hn, Hnv, He, H1, H2.
  split.
  { unfold Lane.fast. rewrite H1, H2.
    replace (192 <? Z.abs k) with false by (symmetry; apply Z.ltb_ge; lia).
    replace (126 <? Z.abs k) with false by (symmetry; apply Z.ltb_ge; lia).
    reflexivity. }
  destruct (reduced_argument_lane x k Hx Hnf Hnv ltac:(lia) Hn) as (Fr & _ & Br).
  destruct (poly_bounds (Lane.r x) Fr Br) as (Fp & Pl & Ph).
  destruct (scale_value x k He ltac:(lia)) as [Fs Vs].
  apply (r0_bounds x k); try assumption. lia.
Qed.

Lemma mul_pos_flags (a b : Z) (m : positive) (e : Z) :
  F32.is_nan a = false -> F32.sign_bit a = false ->
  F32.decode b = S754_finite false m e ->
  F32.is_nan (F32.mul a b) = false /\ F32.sign_bit (F32.mul a b) = false.
Proof.
  intros Ha Sa Hb. destruct (decode_finite_flags _ _ _ _ Hb) as [_ Nb].
  unfold F32.mul. rewrite lift2_no_nan by assumption.
  pose proof (sign_bit_decode a Ha) as Hs. rewrite Sa in Hs.
  pose proof (decode_canonical a) as Ca. pose proof (decode_canonical b) as Cb.
  apply is_nan_decode in Ha. rewrite Hb in *.
  destruct (F32.decode a) as [s|s| |s ma ea]; try congruence;
    cbn [sf_sign] in Hs; subst s.
  - cbn [SFmul xorb]. split; vm_compute; reflexivity.
  - cbn [SFmul xorb]. split; vm_compute; reflexivity.
  - rewrite SFmul_finite by assumption. cbn [xorb cond_Zopp].
    pose proof (normalize_rounds (Z.pos (ma * m)) (ea + e) false)
      as (Hc & Hn & _ & _ & _ & Hp & _).
    specialize (Hp (Qdyadic_pos (Z.pos (ma * m)) (ea + e) ltac:(lia))).
    destruct (encode_flags _ Hc Hn) as [F1 F2].
    split; [exact F1 | rewrite F2; exact Hp].
Qed.

(** The two-factor path: not a NaN and not negative. *)
Lemma r1_flags (x : Z) :
  F32.is_finite x = true ->
  (Qabs (F32.to_Q x * F32.to_Q Lane.log10_2) <= inject_Z 4194303)%Q ->
  let k := Lane.z x - 0x4b400000 in
  126 < Z.abs k <= 192 ->
  Lane.fast x = Lane.r1 x /\
  F32.is_nan (Lane.r1 x) = false /\ F32.sign_bit (Lane.r1 x) = false.
Proof.
  intros Hx Hv k Hk.
  destruct (reduction_lane x Hx Hv) as (_ & Hn & Hno & Hnf & Hnv & He & H1 & H2).
  fold k in Hn, Hno, Hnv, He, H1, H2.
  split.
  { unfold Lane.fast. rewrite H1, H2.
    replace (192 <? Z.abs k) with false by (symmetry; apply Z.ltb_ge; lia).
    replace (126 <? Z.abs k) with true by (symmetry; apply Z.ltb_lt; lia).
    reflexivity. }
  destruct (reduced_argument_lane x k Hx Hnf Hnv ltac:(lia) Hn) as (Fr & _ & Br).
  destruct (poly_bounds (Lane.r x) Fr Br) as (Fp & Pl & Ph).
  fold (Lane.poly x) in Fp, Pl, Ph.
  pose proof (factors_ok_all k Hk) as Hok. unfold factors_ok in Hok. cbv zeta in Hok.
  rewrite <- Hno, <- He in Hok.
  fold (Lane.b x) in Hok. fold (Lane.s1 x) in Hok. fold (Lane.s2 x) in Hok.
  apply andb_true_iff in Hok. destruct Hok as [Hok _].
  apply andb_true_iff in Hok. destruct Hok as [Hok _].
  apply andb_true_iff in Hok. destruct Hok as [Hok G4].
  apply andb_true_iff in Hok. destruct Hok as [Hok G3].
  apply andb_true_iff in Hok. destruct Hok as [G1 G2].
  apply Z.eqb_eq in G1. apply Qeq_bool_iff in G4.
  assert (exists m e, F32.decode (Lane.s1 x) = S754_finite false m e /\
                      (0 < F32.to_Q (Lane.s1 x))%Q) as (m1 & e1 & D1 & P1).
  { unfold Lane.s1, F32.to_Q. rewrite G1.
    destruct (k <=? 0).
    - exists 8388608%positive, (-148). split; vm_compute; reflexivity.
    - exists 8388608%positive, 104. split; vm_compute; reflexivity. }
  assert (0 < F32.to_Q (Lane.s2 x))%Q as P2.
  { destruct (Qlt_le_dec 0 (F32.to_Q (Lane.s2 x))) as [|Hle]; [assumption|].
    exfalso. pose proof (Qpow2_pos k) as Tpos.
    assert (0 <= F32.to_Q (Lane.s1 x) * - F32.to_Q (Lane.s2 x))%Q as Hm
        by (apply Qmult_le_0_compat; Lqa.lra).
    Lqa.lra. }
  pose proof (is_normal_finite _ G3) as F2.
  unfold Lane.r1.
  pose proof (fma_rounds (Lane.s2 x) (Lane.poly x) (Lane.s2 x) F2 Fp F2) as H.
  assert (- (3466 # 10000) * F32.to_Q (Lane.s2 x)
          <= F32.to_Q (Lane.poly x) * F32.to_Q (Lane.s2 x))%Q as L1
      by (apply Qmult_le_compat_r; [exact Pl | apply Qlt_le_weak, P2]).
  destruct (rounds_to_flags _ _ H) as (Nt & St & _).
  specialize (St ltac:(Lqa.lra)).
  apply (mul_pos_flags _ _ m1 e1 Nt St D1).
Qed.

Lemma finite_positive_sign (y : Z) :
  (0 < F32.to_Q y)%Q -> F32.sign_bit y = false.
Proof.
  intros H. destruct (F32.sign_bit y) eqn:E; [|reflexivity].
  exfalso. pose proof (proj2 (to_Q_sign y) E). Lqa.lra.
Qed.

(** On a finite lane the fast build returns neither a NaN nor a negative
    number. *)
Lemma fast_finite_flags (x : Z) :
  F32.is_finite x = true ->
  F32.is_nan (Lane.fast x) = false /\ F32.sign_bit (Lane.fast x) = false.
Proof.
  intros Hx.
  destruct (fast_regimes_lane x Hx) as (_ & _ & Hhi & Hlo). cbv zeta in Hhi, Hlo.
  set (v := (F32.to_Q x * F32.to_Q Lane.log10_2)%Q) in *.
  destruct (Qlt_le_dec (4194303 # 1) v) as [Hbig|Hs1].
  { rewrite Hhi by Lqa.lra. split; vm_compute; reflexivity. }
  destruct (Qlt_le_dec v (- (4194303 # 1))) as [Hbig|Hs2].
  { rewrite Hlo by Lqa.lra. split; vm_compute; reflexivity. }
  assert (Qabs v <= inject_Z 4194303)%Q as Hv.
  { change (inject_Z 4194303) with (4194303 # 1)%Q.
    apply Qabs_Qle_condition. split; assumption. }
  destruct (reduction_lane x Hx Hv) as (_ & _ & _ & _ & _ & _ & H1 & H2).
  set (k := Lane.z x - 0x4b400000) in *.
  destruct (Z.le_gt_cases (Z.abs k) 126) as [K1|K1].
  - destruct (ordinary_lane_result x Hx Hv K1) as (-> & Hf & Hl & _).
    fold k in Hl. split; [apply is_finite_not_nan, Hf|].
    apply finite_positive_sign. pose proof (Qpow2_pos k). Lqa.lra.
  - destruct (Z.le_gt_cases (Z.abs k) 192) as [K2|K2].
    + destruct (r1_flags x Hx Hv ltac:(fold k; lia)) as (-> & Hn & Hs).
      split; assumption.
    + unfold Lane.fast. rewrite H2.
      replace (192 <? Z.abs k) with true by (symmetry; apply Z.ltb_lt; lia).
      rewrite r2_saturates.
      destruct (F32.le_zero (Lane.n x)); split; vm_compute; reflexivity.
Qed.

Lemma inf_patterns (x : Z) :
  U32.wf x -> F32.is_inf x = true -> x = F32.pinf \/ x = F32.ninf.
Proof.
  intros Hx H. unfold F32.is_inf in H. apply andb_true_iff in H.
  destruct H as [HE HM]. apply Z.eqb_eq in HE, HM.
  pose proof (fields_eq x Hx) as Hf. rewrite HE, HM in Hf.
  destruct (F32.sign_bit x); cbn [F32.sign_word] in Hf; [right | left];
    rewrite Hf; reflexivity.
Qed.

(** On every lane: a NaN comes out exactly when a NaN went in, and what
    comes out is never negative. *)
Lemma fast_flags (x : Z) :
  U32.wf x ->
  F32.is_nan (Lane.fast x) = F32.is_nan x /\
  (F32.is_nan x = false -> F32.sign_bit (Lane.fast x) = false).
Proof.
  intros Hx. destruct (F32.is_nan x) eqn:Hn.
  - destruct (fast_at_nan x Hn) as (_ & _ & -> & H0). split; [exact H0 | discriminate].
  - destruct (F32.is_finite x) eqn:Hf.
    + destruct (fast_finite_flags x Hf) as [H1 H2]. split; [exact H1 | intros _; exact H2].
    + destruct (nonfinite_cases x Hf) as [[Hi|Hi] _]; [|congruence].
      destruct fast_at_inf as (_ & _ & _ & _ & Ep & _ & _ & _ & _ & En).
      destruct (inf_patterns x Hx Hi) as [->| ->].
      * rewrite Ep. split; [reflexivity | intros _; reflexivity].
      * rewrite En. split; [reflexivity | intros _; reflexivity].
Qed.

(** * Further properties of the routine *)

Lemma log10_2_lane (i : lane_ix) : lane (log10_2 data) i = Lane.log10_2.
Proof. apply (lane_data i). Qed.

Lemma product_small (X : Q) :
  (Qabs X <= inject_Z (2 ^ 20))%Q ->
  (Qabs (X * F32.to_Q Lane.log10_2) <= inject_Z 4194303)%Q.
Proof.
  intros H. rewrite log10_2_value.
  change (inject_Z (2 ^ 20)) with (1048576 # 1)%Q in H.
  change (inject_Z 4194303) with (4194303 # 1)%Q.
  apply Qabs_Qle_condition in H. apply Qabs_Qle_condition. split; Lqa.lra.
Qed.

Lemma product_below (v : Q) :
  (Qabs v < 385 # 2)%Q -> (Qabs v <= inject_Z 4194303)%Q.
Proof.
  intros H. change (inject_Z 4194303) with (4194303 # 1)%Q.
  apply Qabs_Qlt_condition in H. apply Qabs_Qle_condition. split; Lqa.lra.
Qed.

(** X1.  The range reduction of [exp10].  On a finite lane of magnitude
    at most [2^20], [z = fma (shift, x, log10_2)] is [shift] plus an
    integer [k], read off its pattern as [asuint (z) - asuint (shift)];
    [k] is within one half of the exact product of [x] and the table's
    [log10_2]; [n = z - shift] is the float [k], exactly; [e = asuint (z)
    << 23] is [k] shifted into the exponent field; and the fast build's
    mask [|n| > SpecialBound] is the integer test [|k| > 126]. *)
Theorem range_reduction (x : vec) (i : lane_ix) :
  F32.is_finite (lane x i) = true ->
  (Qabs (F32.to_Q (lane x i)) <= inject_Z (2 ^ 20))%Q ->
  let c := core x in
  let k := lane (core_z c) i - 0x4b400000 in
  - 2 ^ 22 <= k < 2 ^ 22 /\
  (Qabs (inject_Z k - F32.to_Q (lane x i) * F32.to_Q (lane (log10_2 data) i))
   <= 1 # 2)%Q /\
  lane (core_n c) i = F32.of_Z k /\
  (F32.to_Q (lane (core_n c) i) == inject_Z k)%Q /\
  lane (core_e c) i = U32.wrap (k * 2 ^ 23) /\
  lane (Fast.classify (core_n c)) i = U32.mask (126 <? Z.abs k).
Proof.
  intros Hf Hb c k.
  destruct (core_lanes x i) as (Hn & He & _). destruct (core_lanes_zr x i) as (Hz & _).
  fold c in Hn, He, Hz. unfold k.
  rewrite Hn, He, Hz, log10_2_lane. unfold c. rewrite fast_classify_lane.
  destruct (reduction_lane (lane x i) Hf (product_small _ Hb))
    as (A1 & A2 & A3 & _ & A5 & A6 & A7 & _).
  rewrite A7. repeat split; try assumption; apply A1.
Qed.

Lemma range_reduction_witness :
  let x := Vec4 0x40400000 0x42200000 0x43480000 0xc2340000 in
  F32.is_finite (lane x L3) = true /\
  (Qabs (F32.to_Q (lane x L3)) <= inject_Z (2 ^ 20))%Q /\
  lane (core_z (core x)) L3 - 0x4b400000 = -149 /\
  lane (core_n (core x)) L3 = F32.of_Z (lane (core_z (core x)) L3 - 0x4b400000).
Proof.
  intros x.
  assert (F32.is_finite (lane x L3) = true) as H1 by (vm_compute; reflexivity).
  assert (Qabs (F32.to_Q (lane x L3)) <= inject_Z (2 ^ 20))%Q as H2
      by (vm_compute; congruence).
  split; [exact H1|]. split; [exact H2|]. split; [vm_compute; reflexivity|].
  apply (range_reduction x L3 H1 H2).
Defined.

(** X2.  Which result the fast build returns, by the input alone.  With
    [v] the exact product of a finite lane and the table's [log10_2]: the
    ordinary [fma (scale, poly, scale)] when [|v| < 126.5]; [r1] of
    [special_case], built from the two-factor scale, when
    [126.5 < |v| < 192.5]; [+inf] when [v > 192.5]; and [+0] when
    [v < -192.5]. *)
Theorem fast_path_by_input (x : vec) (i : lane_ix) :
  wf x -> F32.is_finite (lane x i) = true ->
  let v := (F32.to_Q (lane x i) * F32.to_Q (lane (log10_2 data) i))%Q in
  let c := core x in
  let l := Fast.special_locals (core_poly c) (core_n c) (core_e c) (core_scale c) in
  ((Qabs v < 253 # 2)%Q ->
   lane (Fast.exp10 x) i
   = lane (vfmaq_f32 (core_scale c) (core_poly c) (core_scale c)) i) /\
  ((253 # 2 < Qabs v)%Q -> (Qabs v < 385 # 2)%Q ->
   lane (Fast.exp10 x) i = lane (Fast.sp_r1 l) i) /\
  ((385 # 2 < v)%Q -> lane (Fast.exp10 x) i = F32.pinf) /\
  ((v < - (385 # 2))%Q -> lane (Fast.exp10 x) i = F32.pzero).
Proof.
  intros Hx Hf v c l.
  destruct (special_locals_lanes x i) as (_ & _ & _ & _ & Hr1 & _).
  fold c in Hr1. fold l in Hr1.
  unfold v, c. rewrite fast_exp10_lane, ordinary_lane, Hr1, log10_2_lane by exact Hx.
  apply (fast_regimes_lane (lane x i) Hf).
Qed.

Lemma fast_path_by_input_witness :
  let x := Vec4 0x40400000 0x42200000 0x43480000 0xc2340000 in
  wf x /\ F32.is_finite (lane x L2) = true /\
  lane (Fast.exp10 x) L2 = F32.pinf.
Proof.
  intros x.
  assert (wf x) as Hx by (intros [| | |]; vm_compute; split; congruence).
  assert (F32.is_finite (lane x L2) = true) as H1 by (vm_compute; reflexivity).
  split; [exact Hx|]. split; [exact H1|].
  destruct (fast_path_by_input x L2 Hx H1) as (_ & _ & H & _).
  apply H. vm_compute. reflexivity.
Defined.

Lemma integer_below (x : Z) :
  F32.is_finite x = true ->
  (Qabs (F32.to_Q x * F32.to_Q Lane.log10_2) < 385 # 2)%Q ->
  Z.abs (Lane.z x - 0x4b400000) <= 192.
Proof.
  intros Hf Hv.
  destruct (reduction_lane x Hf (product_below _ Hv)) as (_ & Hn & _).
  apply (Qabs_lt_int _ _ 192 Hn). change (inject_Z 192) with (192 # 1)%Q.
  apply Qabs_Qlt_condition in Hv. apply Qabs_Qlt_condition. split; Lqa.lra.
Qed.

(** X3.  The reduced argument.  On a finite lane that does not saturate
    ([|x * log10_2| < 192.5]) the two fused subtractions leave
    [r = x - k * (log2_10_hi + log2_10_lo)] to within [2^-26], [k] being
    the integer of the reduction, and [|r| <= 0.150517]: the interval
    [[-log10(2)/2, log10(2)/2]] of the source, up to [2e-6]. *)
Theorem reduced_argument (x : vec) (i : lane_ix) :
  F32.is_finite (lane x i) = true ->
  (Qabs (F32.to_Q (lane x i) * F32.to_Q (lane (log10_2 data) i)) < 385 # 2)%Q ->
  let c := core x in
  let k := lane (core_z c) i - 0x4b400000 in
  F32.is_finite (lane (core_r c) i) = true /\
  (Qabs (F32.to_Q (lane (core_r c) i)
         - (F32.to_Q (lane x i)
            - inject_Z k * (F32.to_Q (lane (log2_10_hi data) i)
                            + F32.to_Q (lane (log2_10_lo data) i))))
   <= 1 # 67108864)%Q /\
  (Qabs (F32.to_Q (lane (core_r c) i)) <= 150517 # 1000000)%Q.
Proof.
  intros Hf Hv c k. rewrite log10_2_lane in Hv.
  destruct (core_lanes_zr x i) as (Hz & Hr). fold c in Hz, Hr.
  destruct (lane_data i) as (_ & _ & Hhi & Hlo & _).
  unfold k. rewrite Hz, Hr, Hhi, Hlo.
  destruct (reduction_lane (lane x i) Hf (product_below _ Hv))
    as (_ & Hn & _ & Hnf & Hnv & _).
  apply (reduced_argument_lane _ _ Hf Hnf Hnv (integer_below _ Hf Hv) Hn).
Qed.

Lemma reduced_argument_witness :
  let x := Vec4 0x40400000 0x42200000 0x43480000 0xc2340000 in
  (Qabs (F32.to_Q (lane x L1) * F32.to_Q (lane (log10_2 data) L1)) < 385 # 2)%Q /\
  (Qabs (F32.to_Q (lane (core_r (core x)) L1)) <= 150517 # 1000000)%Q.
Proof.
  intros x.
  assert (F32.is_finite (lane x L1) = true) as H1 by (vm_compute; reflexivity).
  assert (Qabs (F32.to_Q (lane x L1) * F32.to_Q (lane (log10_2 data) L1)) < 385 # 2)%Q
    as H2 by (vm_compute; reflexivity).
  split; [exact H2|]. apply (reduced_argument x L1 H1 H2).
Defined.

(** X4.  The polynomial.  On the same lanes [poly], evaluated by the
    Estrin scheme of the routine in binary32, is finite and lies between
    [-0.3466] and [0.4143], so that [1 + poly] lies between [0.6534] and
    [1.4143]: the source's [[1/sqrt(2), sqrt(2)]], up to rounding. *)
Theorem polynomial_range (x : vec) (i : lane_ix) :
  F32.is_finite (lane x i) = true ->
  (Qabs (F32.to_Q (lane x i) * F32.to_Q (lane (log10_2 data) i)) < 385 # 2)%Q ->
  F32.is_finite (lane (core_poly (core x)) i) = true /\
  (- (3466 # 10000) <= F32.to_Q (lane (core_poly (core x)) i))%Q /\
  (F32.to_Q (lane (core_poly (core x)) i) <= 4143 # 10000)%Q.
Proof.
  intros Hf Hv. rewrite log10_2_lane in Hv.
  destruct (core_lanes x i) as (_ & _ & _ & Hp). rewrite Hp.
  destruct (reduction_lane (lane x i) Hf (product_below _ Hv))
    as (_ & Hn & _ & Hnf & Hnv & _).
  destruct (reduced_argument_lane _ _ Hf Hnf Hnv (integer_below _ Hf Hv) Hn)
    as (Fr & _ & Br).
  apply (poly_bounds _ Fr Br).
Qed.

Lemma polynomial_range_witness :
  let x := Vec4 0x40400000 0x42200000 0x43480000 0xc2340000 in
  (Qabs (F32.to_Q (lane x L0) * F32.to_Q (lane (log10_2 data) L0)) < 385 # 2)%Q /\
  (F32.to_Q (lane (core_poly (core x)) L0) <= 4143 # 10000)%Q.
Proof.
  intros x.
  assert (F32.is_finite (lane x L0) = true) as H1 by (vm_compute; reflexivity).
  assert (Qabs (F32.to_Q (lane x L0) * F32.to_Q (lane (log10_2 data) L0)) < 385 # 2)%Q
    as H2 by (vm_compute; reflexivity).
  split; [exact H2|]. apply (polynomial_range x L0 H1 H2).
Defined.

(** X5.  The ordinary result.  On a finite lane with
    [|x * log10_2| < 126.5] the integer [k] of the reduction is at most
    126 in magnitude, [scale = asfloat (e + ExponentBias)] is the normal
    number [2^k] exactly, and the result [fma (scale, poly, scale)], which
    is what the fast build returns, is finite and lies between
    [0.625 * 2^k] and [1.5 * 2^k]: it neither overflows nor vanishes. *)
Theorem ordinary_result (x : vec) (i : lane_ix) :
  wf x -> F32.is_finite (lane x i) = true ->
  (Qabs (F32.to_Q (lane x i) * F32.to_Q (lane (log10_2 data) i)) < 253 # 2)%Q ->
  let c := core x in
  let k := lane (core_z c) i - 0x4b400000 in
  let y := lane (vfmaq_f32 (core_scale c) (core_poly c) (core_scale c)) i in
  Z.abs k <= 126 /\
  F32.is_normal (lane (core_scale c) i) = true /\
  (F32.to_Q (lane (core_scale c) i) == Qpower 2 k)%Q /\
  lane (Fast.exp10 x) i = y /\
  F32.is_finite y = true /\
  ((5 # 8) * Qpower 2 k <= F32.to_Q y)%Q /\ (F32.to_Q y <= (3 # 2) * Qpower 2 k)%Q.
Proof.
  intros Hx Hf Hv c k y. rewrite log10_2_lane in Hv.
  assert (Qabs (F32.to_Q (lane x i) * F32.to_Q Lane.log10_2) <= inject_Z 4194303)%Q
    as Hv' by (apply product_below; apply Qabs_Qlt_condition in Hv;
               apply Qabs_Qlt_condition; split; Lqa.lra).
  destruct (core_lanes x i) as (_ & _ & Hs & _). destruct (core_lanes_zr x i) as (Hz & _).
  fold c in Hs, Hz.
  unfold y, k. rewrite Hs, Hz. unfold c.
  rewrite ordinary_lane, fast_exp10_lane by exact Hx.
  destruct (reduction_lane (lane x i) Hf Hv') as (_ & Hn & _ & _ & _ & He & _).
  assert (Z.abs (Lane.z (lane x i) - 0x4b400000) <= 126) as Hk.
  { apply (Qabs_lt_int _ _ 126 Hn). change (inject_Z 126) with (126 # 1)%Q.
    apply Qabs_Qlt_condition in Hv. apply Qabs_Qlt_condition. split; Lqa.lra. }
  destruct (ordinary_lane_result (lane x i) Hf Hv' Hk) as (B1 & B2 & B3 & B4).
  pose proof (direct_scale_ok_normal (Lane.z (lane x i) - 0x4b400000) ltac:(lia))
    as Hok.
  unfold direct_scale_ok in Hok. cbv zeta in Hok. rewrite <- He in Hok.
  fold (Lane.scale (lane x i)) in Hok.
  apply andb_true_iff in Hok. destruct Hok as [N1 N2]. apply Qeq_bool_iff in N2.
  repeat split; assumption.
Qed.

Lemma ordinary_result_witness :
  let x := Vec4 0x40400000 0x42200000 0x43480000 0xc2340000 in
  wf x /\
  (Qabs (F32.to_Q (lane x L0) * F32.to_Q (lane (log10_2 data) L0)) < 253 # 2)%Q /\
  (F32.to_Q (lane (core_scale (core x)) L0)
   == Qpower 2 (lane (core_z (core x)) L0 - 0x4b400000))%Q.
Proof.
  intros x.
  assert (wf x) as Hx by (intros [| | |]; vm_compute; split; congruence).
  assert (F32.is_finite (lane x L0) = true) as H1 by (vm_compute; reflexivity).
  assert (Qabs (F32.to_Q (lane x L0) * F32.to_Q (lane (log10_2 data) L0)) < 253 # 2)%Q
    as H2 by (vm_compute; reflexivity).
  split; [exact Hx|]. split; [exact H2|].
  apply (ordinary_result x L0 Hx H1 H2).
Defined.

(** X6.  What the fast build never returns.  A lane of the result is a
    NaN exactly when the lane of the input is one; on every other lane,
    finite or infinite, the result has its sign bit clear: no negative
    number and no [-0]. *)
Theorem fast_nan_and_sign (x : vec) (i : lane_ix) :
  wf x ->
  F32.is_nan (lane (Fast.exp10 x) i) = F32.is_nan (lane x i) /\
  (F32.is_nan (lane x i) = false -> F32.sign_bit (lane (Fast.exp10 x) i) = false).
Proof.
  intros Hx. rewrite fast_exp10_lane by exact Hx. apply fast_flags, Hx.
Qed.

Lemma fast_nan_and_sign_witness :
  let x := Vec4 0x40400000 0x7fc00000 0xff800000 0xc2340000 in
  wf x /\
  F32.is_nan (lane (Fast.exp10 x) L1) = true /\
  F32.is_nan (lane (Fast.exp10 x) L2) = false /\
  F32.sign_bit (lane (Fast.exp10 x) L3) = false.
Proof.
  intros x.
  assert (wf x) as Hx by (intros [| | |]; vm_compute; split; congruence).
  split; [exact Hx|].
  destruct (fast_nan_and_sign x L1 Hx) as [A1 _].
  destruct (fast_nan_and_sign x L2 Hx) as [A2 _].
  destruct (fast_nan_and_sign x L3 Hx) as [_ A3].
  split; [rewrite A1; vm_compute; reflexivity|].
  split; [rewrite A2; vm_compute; reflexivity|].
  apply A3. vm_compute. reflexivity.
Defined.

Lemma unflagged_lane (x : Z) :
  U32.wf x -> Lane.special x = false ->
  F32.is_finite x = true /\
  (Qabs (F32.to_Q x * F32.to_Q Lane.log10_2) < 253 # 2)%Q.
Proof.
  intros Hx Hs. pose proof (special_spec x Hx) as H.
  assert (F32.is_finite x = true) as Hf.
  { destruct (F32.is_finite x) eqn:E; [reflexivity|].
    destruct (nonfinite_cases x E) as [Hc _].
    rewrite (proj2 H) in Hs; [discriminate | right; right; exact Hc]. }
  split; [exact Hf|].
  assert (Qabs (F32.to_Q x) < 38)%Q as Hlt.
  { destruct (Qlt_le_dec (Qabs (F32.to_Q x)) 38) as [|Hge]; [assumption|].
    rewrite (proj2 H) in Hs; [discriminate | right; left; split; assumption]. }
  rewrite log10_2_value. apply Qabs_Qlt_condition in Hlt.
  apply Qabs_Qlt_condition. split; Lqa.lra.
Qed.

(** X7.  The two builds agree where the strict one does not call the
    scalar routine.  On a lane the strict classification leaves
    unflagged ([2^-63 <= |x| < 38]) the strict build passes the input
    through unmasked, the fast build does not flag the lane either, and
    both return the same [fma (scale, poly, scale)], whatever the scalar
    routine is. *)
Theorem builds_agree (exp10f : Z -> Z) (x : vec) (i : lane_ix) :
  wf x -> lane (Strict.classify x) i = 0 ->
  lane (Strict.masked x) i = lane x i /\
  lane (Fast.classify (core_n (core x))) i = 0 /\
  lane (Strict.exp10 exp10f x) i = lane (Fast.exp10 x) i /\
  lane (Fast.exp10 x) i
  = lane (vfmaq_f32 (core_scale (core x)) (core_poly (core x)) (core_scale (core x))) i.
Proof.
  intros Hx Hc. rewrite strict_classify_lane in Hc.
  assert (Lane.special (lane x i) = false) as Hs
      by (destruct (Lane.special (lane x i)); [discriminate Hc | reflexivity]).
  destruct (unflagged_lane _ (Hx i) Hs) as [Hf Hv].
  destruct (fast_regimes_lane _ Hf) as (H0 & _). specialize (H0 Hv).
  rewrite masked_lane, fast_classify_lane, strict_exp10_lane, fast_exp10_lane,
    ordinary_lane by exact Hx.
  unfold Lane.strict. rewrite Hs, H0.
  assert (Lane.cmp1 (lane x i) = false) as H1.
  { assert (Qabs (F32.to_Q (lane x i) * F32.to_Q Lane.log10_2) <= inject_Z 4194303)%Q
      as Hv' by (apply product_below; apply Qabs_Qlt_condition in Hv;
                 apply Qabs_Qlt_condition; split; Lqa.lra).
    destruct (reduction_lane _ Hf Hv') as (_ & Hn & _ & _ & _ & _ & C1 & _).
    rewrite C1. apply Z.ltb_ge.
    apply (Qabs_lt_int _ _ 126 Hn). change (inject_Z 126) with (126 # 1)%Q.
    apply Qabs_Qlt_condition in Hv. apply Qabs_Qlt_condition. split; Lqa.lra. }
  rewrite H1. repeat split; reflexivity.
Qed.

Lemma builds_agree_witness :
  let x := Vec4 0x40400000 0x42200000 0x43480000 0xc2340000 in
  wf x /\ lane (Strict.classify x) L0 = 0 /\
  lane (Strict.exp10 (fun v => v) x) L0 = lane (Fast.exp10 x) L0.
Proof.
  intros x.
  assert (wf x) as Hx by (intros [| | |]; vm_compute; split; congruence).
  assert (lane (Strict.classify x) L0 = 0) as Hc by (vm_compute; reflexivity).
  split; [exact Hx|]. split; [exact Hc|].
  apply (builds_agree (fun v => v) x L0 Hx Hc).
Defined.

(** X8.  The early exits only skip work.  In the fast build calling
    [special_case] whether or not a lane is flagged would return the
    vector [exp10] returns; in the strict build selecting [1] into the
    flagged lanes whether or not there is one gives the masked input. *)
Theorem early_exit_is_shortcut (x : vec) (i : lane_ix) :
  wf x ->
  let c := core x in
  lane (Fast.special_case (core_poly c) (core_n c) (core_e c)
          (Fast.classify (core_n c)) (core_scale c)) i
  = lane (Fast.exp10 x) i /\
  lane (vbslq_f32 (Strict.classify x) (v_f32 (F32.of_Z 1)) x) i
  = lane (Strict.masked x) i.
Proof.
  intros Hx c. pose proof (Hx i) as Hi. split.
  - rewrite fast_exp10_lane by exact Hx.
    unfold Fast.special_case. cbv zeta.
    destruct (special_locals_lanes x i) as (_ & _ & Hc2 & Hr2 & Hr1 & Hr0).
    cbv zeta in Hc2, Hr2, Hr1, Hr0. fold c in Hc2, Hr2, Hr1, Hr0.
    unfold vbslq_f32. rewrite !lane_map3.
    rewrite Hc2, Hr2, Hr1, Hr0. unfold c. rewrite fast_classify_lane.
    unfold Lane.fast.
    rewrite (bsl_mask (Lane.cmp1 (lane x i))) by auto using r1_wf, r0_wf.
    rewrite bsl_mask; [reflexivity | apply r2_wf |].
    destruct (Lane.cmp1 (lane x i)); auto using r1_wf, r0_wf.
  - rewrite masked_lane by exact Hx.
    unfold vbslq_f32, v_f32. rewrite lane_map3, lane_V4, strict_classify_lane.
    apply bsl_mask; [apply one_wf | exact Hi].
Qed.

Lemma early_exit_is_shortcut_witness :
  let x := Vec4 0x40400000 0x3f000000 0x3a83126f 0xc0400000 in
  let c := core x in
  wf x /\ v_any_u32 (Fast.classify (core_n c)) = false /\
  lane (Fast.special_case (core_poly c) (core_n c) (core_e c)
          (Fast.classify (core_n c)) (core_scale c)) L1
  = lane (Fast.exp10 x) L1.
Proof.
  intros x c.
  assert (wf x) as Hx by (intros [| | |]; vm_compute; split; congruence).
  split; [exact Hx|]. split; [vm_compute; reflexivity|].
  apply (early_exit_is_shortcut x L1 Hx).
Defined.

(** ** Where the two-factor path saturates *)

Lemma mul_overflow (a b : Z) :
  F32.is_finite a = true -> F32.is_finite b = true ->
  (inject_Z (2 ^ 128) <= F32.to_Q a * F32.to_Q b)%Q ->
  F32.mul a b = F32.pinf.
Proof.
  intros Ha Hb Hv. unfold F32.mul.
  rewrite lift2_no_nan by (apply is_finite_not_nan; assumption).
  pose proof (SFmul_rounds (F32.decode a) (F32.decode b)
                (decode_canonical a) (decode_canonical b)
                (proj1 (is_finite_decode a) Ha) (proj1 (is_finite_decode b) Hb)) as H.
  fold (F32.to_Q a) (F32.to_Q b) in H.
  destruct H as (_ & Hn & _ & _ & _ & Hp & _ & Hov).
  assert (0 < inject_Z (2 ^ 128))%Q as P128 by reflexivity.
  set (v := (F32.to_Q a * F32.to_Q b)%Q) in *.
  assert (0 < v)%Q as Vpos by Lqa.lra.
  specialize (Hp Vpos).
  rewrite (Qabs_pos v) in Hov by (apply Qlt_le_weak, Vpos).
  specialize (Hov Hv).
  destruct (SFmul F32.prec F32.emax (F32.decode a) (F32.decode b)) as [s|s| |s m e];
    try discriminate; try congruence.
  cbn [sf_sign] in Hp. subst s. vm_compute. reflexivity.
Qed.

Lemma finite_min (s : bool) (m : positive) (e : Z) :
  canonical (S754_finite s m e) ->
  (Qpower 2 (-149) <= inject_Z (Z.pos m) * Qpower 2 e)%Q.
Proof.
  intros Hc. cbn [canonical] in Hc.
  assert (inject_Z 1 * Qpower 2 (-149) <= inject_Z (Z.pos m) * Qpower 2 e)%Q as H.
  { apply (Qdyadic_le 1 (-149) (Z.pos m) e (-149)); [lia | lia |].
    assert (0 < 2 ^ (e - -149)) by (apply Z.pow_pos_nonneg; lia).
    replace (-149 - -149) with 0 by lia. change (2 ^ 0) with 1. nia. }
  change (inject_Z 1) with 1%Q in H. rewrite Qmult_1_l in H. exact H.
Qed.

Lemma mul_underflow (a b : Z) :
  F32.is_finite a = true -> F32.is_finite b = true ->
  (0 < F32.to_Q a * F32.to_Q b)%Q ->
  (F32.to_Q a * F32.to_Q b < Qpower 2 (-150))%Q ->
  F32.mul a b = F32.pzero.
Proof.
  intros Ha Hb Vpos Hv. unfold F32.mul.
  rewrite lift2_no_nan by (apply is_finite_not_nan; assumption).
  pose proof (SFmul_rounds (F32.decode a) (F32.decode b)
                (decode_canonical a) (decode_canonical b)
                (proj1 (is_finite_decode a) Ha) (proj1 (is_finite_decode b) Hb)) as H.
  fold (F32.to_Q a) (F32.to_Q b) in H.
  destruct H as (Hc & Hn & _ & _ & Hnear & Hp & _).
  set (v := (F32.to_Q a * F32.to_Q b)%Q) in *.
  specialize (Hp Vpos).
  assert (Qpower 2 (-150) < Qpower 2 (-125))%Q as L1 by reflexivity.
  assert (Qpower 2 (-149) == 2 * Qpower 2 (-150))%Q as L2 by (vm_compute; reflexivity).
  destruct (Hnear (-125) ltac:(lia)) as [Hf He].
  { rewrite (Qabs_pos v) by (apply Qlt_le_weak, Vpos). Lqa.lra. }
  replace (-125 - 25) with (-150) in He by lia.
  destruct (SFmul F32.prec F32.emax (F32.decode a) (F32.decode b)) as [s|s| |s m e];
    try discriminate; try congruence; cbn [sf_sign] in Hp; subst s.
  - vm_compute. reflexivity.
  - exfalso. pose proof (finite_min _ _ _ Hc) as Hm.
    cbn [F32.SF2Q cond_Zopp] in He. apply Qabs_Qle_condition in He.
    set (w := (inject_Z (Z.pos m) * Qpower 2 e)%Q) in *.
    set (u := Qpower 2 (-150)) in *. set (u' := Qpower 2 (-149)) in *.
    Lqa.lra.
Qed.

(** [fma (s, p, s)] for a power of two [s = 2^k] of the normal range and
    [p] in the range of the polynomial. *)
Lemma fma_scale_bounds (s p k : Z) :
  -126 <= k <= 127 ->
  F32.is_finite s = true -> (F32.to_Q s == Qpower 2 k)%Q ->
  F32.is_finite p = true ->
  (- (3466 # 10000) <= F32.to_Q p)%Q -> (F32.to_Q p <= 4143 # 10000)%Q ->
  F32.is_finite (F32.fma s p s) = true /\
  ((5 # 8) * Qpower 2 k <= F32.to_Q (F32.fma s p s))%Q /\
  (F32.to_Q (F32.fma s p s) <= (3 # 2) * Qpower 2 k)%Q.
Proof.
  intros Hk Fs Vs Fp Pl Ph.
  pose proof (fma_rounds s p s Fs Fp Fs) as H.
  assert (F32.to_Q s + F32.to_Q p * F32.to_Q s
          == Qpower 2 k + F32.to_Q p * Qpower 2 k)%Q as E
      by (rewrite Vs; reflexivity).
  apply (rounds_to_eq _ _ _ E) in H. clear E.
  pose proof (Qpow2_pos k) as Tpos.
  pose proof (Qpow2_add k (-23)) as Ek.
  change (Qpower 2 (-23)) with (1 # 8388608)%Q in Ek.
  replace (k + -23) with (k - 23) in Ek by lia.
  assert (- (3466 # 10000) * Qpower 2 k <= F32.to_Q p * Qpower 2 k)%Q as L1
      by (apply Qmult_le_compat_r; [exact Pl | apply Qlt_le_weak, Tpos]).
  assert (F32.to_Q p * Qpower 2 k <= (4143 # 10000) * Qpower 2 k)%Q as L2
      by (apply Qmult_le_compat_r; [exact Ph | apply Qlt_le_weak, Tpos]).
  set (T := Qpower 2 k) in *. set (PT := (F32.to_Q p * T)%Q) in *.
  destruct (rounds_to_between _ (inject_Z 5242880 * Qpower 2 (k - 23))
              (inject_Z 12582912 * Qpower 2 (k - 23)) _ H) as [Hf [B1 B2]].
  - apply representable_dyadic; lia.
  - apply representable_dyadic; lia.
  - rewrite Ek. change (inject_Z 5242880) with (5242880 # 1)%Q. Lqa.lra.
  - rewrite Ek. change (inject_Z 12582912) with (12582912 # 1)%Q. Lqa.lra.
  - split; [exact Hf|]. rewrite Ek in B1, B2.
    change (inject_Z 5242880) with (5242880 # 1)%Q in B1.
    change (inject_Z 12582912) with (12582912 # 1)%Q in B2.
    split; Lqa.lra.
Qed.

(** The two factors of [special_case], for [n = k] and [e = k << 23] with
    [126 < |k| <= 192]: [s1] is [2^127] for a positive [k] and [2^-125]
    otherwise, and [s2] is the power of two that makes the product
    [2^k]. *)
Lemma factors_values (x k : Z) :
  Lane.n x = F32.of_Z k -> Lane.e x = U32.wrap (k * 2 ^ 23) ->
  126 < Z.abs k <= 192 ->
  let j := if k <=? 0 then -125 else 127 in
  F32.is_finite (Lane.s1 x) = true /\ (F32.to_Q (Lane.s1 x) == Qpower 2 j)%Q /\
  F32.is_finite (Lane.s2 x) = true /\ (F32.to_Q (Lane.s2 x) == Qpower 2 (k - j))%Q.
Proof.
  intros Hno He Hk j.
  pose proof (factors_ok_all k Hk) as Hok. unfold factors_ok in Hok. cbv zeta in Hok.
  rewrite <- Hno, <- He in Hok.
  fold (Lane.b x) in Hok. fold (Lane.s1 x) in Hok. fold (Lane.s2 x) in Hok.
  apply andb_true_iff in Hok. destruct Hok as [Hok _].
  apply andb_true_iff in Hok. destruct Hok as [Hok _].
  apply andb_true_iff in Hok. destruct Hok as [Hok G4].
  apply andb_true_iff in Hok. destruct Hok as [Hok G3].
  apply andb_true_iff in Hok. destruct Hok as [G1 G2].
  apply Z.eqb_eq in G1. apply Qeq_bool_iff in G4.
  assert (F32.to_Q (Lane.s1 x) == Qpower 2 j)%Q as V1.
  { unfold Lane.s1, j. rewrite G1. destruct (k <=? 0); vm_compute; reflexivity. }
  split; [apply is_normal_finite, G2|]. split; [exact V1|].
  split; [apply is_normal_finite, G3|].
  rewrite V1 in G4.
  pose proof (Qpow2_add j (k - j)) as E. replace (j + (k - j)) with k in E by lia.
  rewrite E in G4.
  apply Qmult_inj_l in G4; [exact G4|].
  pose proof (Qpow2_pos j) as P. intros Z0. rewrite Z0 in P. revert P.
  apply Qlt_irrefl.
Qed.

Lemma scaled_product (T A B K : Q) :
  (0 < B)%Q -> (A * B == K)%Q -> ((5 # 8) * A <= T)%Q -> (T <= (3 # 2) * A)%Q ->
  ((5 # 8) * K <= T * B)%Q /\ (T * B <= (3 # 2) * K)%Q.
Proof.
  intros HB HK H1 H2. rewrite <- HK. split.
  - setoid_replace ((5 # 8) * (A * B))%Q with (((5 # 8) * A) * B)%Q by ring.
    apply Qmult_le_compat_r; [exact H1 | apply Qlt_le_weak, HB].
  - setoid_replace ((3 # 2) * (A * B))%Q with (((3 # 2) * A) * B)%Q by ring.
    apply Qmult_le_compat_r; [exact H2 | apply Qlt_le_weak, HB].
Qed.

(** The result of the two-factor path.  With [k] the integer of the
    reduction, [126 < |k| <= 192]: [r1] is [+inf] from [k = 129] on, [+0]
    from [k = -151] down, and for [k] from -146 to 127 finite and between
    [5/8 * 2^k] and [3/2 * 2^k]. *)
Lemma r1_lane (x : Z) :
  F32.is_finite x = true ->
  (Qabs (F32.to_Q x * F32.to_Q Lane.log10_2) <= inject_Z 4194303)%Q ->
  let k := Lane.z x - 0x4b400000 in
  126 < Z.abs k <= 192 ->
  (129 <= k -> Lane.r1 x = F32.pinf) /\
  (k <= -151 -> Lane.r1 x = F32.pzero) /\
  (-146 <= k <= 127 ->
   F32.is_finite (Lane.r1 x) = true /\
   ((5 # 8) * Qpower 2 k <= F32.to_Q (Lane.r1 x))%Q /\
   (F32.to_Q (Lane.r1 x) <= (3 # 2) * Qpower 2 k)%Q).
Proof.
  intros Hx Hv k Hk.
  destruct (reduction_lane x Hx Hv) as (_ & Hn & Hno & Hnf & Hnv & He & H1 & H2).
  fold k in Hn, Hno, Hnv, He, H1, H2.
  destruct (reduced_argument_lane x k Hx Hnf Hnv ltac:(lia) Hn) as (Fr & _ & Br).
  destruct (poly_bounds (Lane.r x) Fr Br) as (Fp & Pl & Ph).
  fold (Lane.poly x) in Fp, Pl, Ph.
  destruct (factors_values x k Hno He Hk) as (F1 & V1 & F2 & V2).
  set (j := if k <=? 0 then -125 else 127) in *.
  assert (-126 <= k - j <= 127) as Hj by (unfold j; destruct (Z.leb_spec k 0); lia).
  destruct (fma_scale_bounds (Lane.s2 x) (Lane.poly x) (k - j) Hj F2 V2 Fp Pl Ph)
    as (Ft & T1 & T2).
  set (t := F32.fma (Lane.s2 x) (Lane.poly x) (Lane.s2 x)) in *.
  assert (Qpower 2 (k - j) * Qpower 2 j == Qpower 2 k)%Q as EK
      by (rewrite <- Qpow2_add; replace (k - j + j) with k by lia; reflexivity).
  destruct (scaled_product _ _ _ _ (Qpow2_pos j) EK T1 T2) as [B1 B2].
  rewrite <- V1 in B1, B2.
  pose proof (Qpow2_pos k) as Kpos.
  fold (Lane.r1 x). unfold Lane.r1. fold t.
  split; [|split].
  - intros Hk'. apply (mul_overflow t (Lane.s1 x) Ft F1).
    pose proof (Qpow2_le 129 k Hk') as L.
    assert (Qpower 2 129 == 2 * inject_Z (2 ^ 128))%Q as E by (vm_compute; reflexivity).
    assert (0 < inject_Z (2 ^ 128))%Q as P128 by reflexivity.
    set (K := Qpower 2 k) in *. set (P := (F32.to_Q t * F32.to_Q (Lane.s1 x))%Q) in *.
    set (I128 := inject_Z (2 ^ 128)) in *. set (P129 := Qpower 2 129) in *.
    Lqa.lra.
  - intros Hk'.
    pose proof (Qpow2_le k (-151) Hk') as L.
    assert (Qpower 2 (-150) == 2 * Qpower 2 (-151))%Q as E by (vm_compute; reflexivity).
    set (K := Qpower 2 k) in *. set (P := (F32.to_Q t * F32.to_Q (Lane.s1 x))%Q) in *.
    set (U := Qpower 2 (-150)) in *. set (U' := Qpower 2 (-151)) in *.
    apply (mul_underflow t (Lane.s1 x) Ft F1); fold P; fold U; Lqa.lra.
  - intros Hk'.
    pose proof (mul_rounds t (Lane.s1 x) Ft F1) as H.
    destruct (Z.leb_spec k 0) as [Hneg|Hpos].
    + pose proof (Qpow2_add k (-3)) as E3. pose proof (Qpow2_add k (-1)) as E1.
      change (Qpower 2 (-3)) with (1 # 8)%Q in E3.
      change (Qpower 2 (-1)) with (1 # 2)%Q in E1.
      replace (k + -3) with (k - 3) in E3 by lia.
      replace (k + -1) with (k - 1) in E1 by lia.
      destruct (rounds_to_between _ (inject_Z 5 * Qpower 2 (k - 3))
                  (inject_Z 3 * Qpower 2 (k - 1)) _ H) as [Hf [C1 C2]].
      * apply representable_dyadic; lia.
      * apply representable_dyadic; lia.
      * rewrite E3. change (inject_Z 5) with (5 # 1)%Q.
        set (K := Qpower 2 k) in *.
        set (P := (F32.to_Q t * F32.to_Q (Lane.s1 x))%Q) in *. Lqa.lra.
      * rewrite E1. change (inject_Z 3) with (3 # 1)%Q.
        set (K := Qpower 2 k) in *.
        set (P := (F32.to_Q t * F32.to_Q (Lane.s1 x))%Q) in *. Lqa.lra.
      * split; [exact Hf|]. rewrite E3 in C1. rewrite E1 in C2.
        change (inject_Z 5) with (5 # 1)%Q in C1.
        change (inject_Z 3) with (3 # 1)%Q in C2.
        set (K := Qpower 2 k) in *. split; Lqa.lra.
    + pose proof (Qpow2_add k (-23)) as Ek.
      change (Qpower 2 (-23)) with (1 # 8388608)%Q in Ek.
      replace (k + -23) with (k - 23) in Ek by lia.
      destruct (rounds_to_between _ (inject_Z 5242880 * Qpower 2 (k - 23))
                  (inject_Z 12582912 * Qpower 2 (k - 23)) _ H) as [Hf [C1 C2]].
      * apply representable_dyadic; lia.
      * apply representable_dyadic; lia.
      * rewrite Ek. change (inject_Z 5242880) with (5242880 # 1)%Q.
        set (K := Qpower 2 k) in *.
        set (P := (F32.to_Q t * F32.to_Q (Lane.s1 x))%Q) in *. Lqa.lra.
      * rewrite Ek. change (inject_Z 12582912) with (12582912 # 1)%Q.
        set (K := Qpower 2 k) in *.
        set (P := (F32.to_Q t * F32.to_Q (Lane.s1 x))%Q) in *. Lqa.lra.
      * split; [exact Hf|]. rewrite Ek in C1, C2.
        change (inject_Z 5242880) with (5242880 # 1)%Q in C1.
        change (inject_Z 12582912) with (12582912 # 1)%Q in C2.
        set (K := Qpower 2 k) in *. split; Lqa.lra.
Qed.

Lemma le_zero_integer (a k : Z) :
  F32.is_finite a = true -> (F32.to_Q a == inject_Z k)%Q ->
  F32.le_zero a = (k <=? 0).
Proof.
  intros Hf Hv.
  pose proof (le_zero_spec a (is_finite_not_nan a Hf)) as H.
  rewrite (SF2Qx_finite _ (proj1 (is_finite_decode a) Hf)) in H.
  fold (F32.to_Q a) in H. rewrite Hv in H.
  change 0%Q with (inject_Z 0) in H. rewrite <- Zle_Qle in H.
  destruct (Z.leb_spec k 0) as [Hk|Hk].
  - apply H, Hk.
  - destruct (F32.le_zero a); [|reflexivity]. exfalso.
    assert (k <= 0) by (apply H; reflexivity). lia.
Qed.

Lemma integer_between (k : Z) (v : Q) (lo hi : Z) :
  (Qabs (inject_Z k - v) <= 1 # 2)%Q ->
  (inject_Z lo - (1 # 2) < v)%Q -> (v < inject_Z hi + (1 # 2))%Q ->
  lo <= k <= hi.
Proof.
  intros H H1 H2. apply Qabs_Qle_condition in H.
  assert (inject_Z (lo - 1) < inject_Z k)%Q as A.
  { unfold Z.sub. rewrite inject_Z_plus. change (inject_Z (- (1))) with (- (1))%Q.
    Lqa.lra. }
  assert (inject_Z k < inject_Z (hi + 1))%Q as B.
  { rewrite inject_Z_plus. change (inject_Z 1) with 1%Q. Lqa.lra. }
  rewrite <- Zlt_Qlt in A, B. lia.
Qed.

(** The result of the fast build on a finite lane, by the exact product
    [v = x * log10_2]: [+inf] above 128.5, [+0] below -150.5, and between
    -146.5 and 127.5 a finite number between [5/8 * 2^k] and [3/2 * 2^k]
    for the integer [k] of the reduction. *)
Lemma fast_result_lane (x : Z) :
  F32.is_finite x = true ->
  let v := (F32.to_Q x * F32.to_Q Lane.log10_2)%Q in
  let k := Lane.z x - 0x4b400000 in
  ((257 # 2 < v)%Q -> Lane.fast x = F32.pinf) /\
  ((v < - (301 # 2))%Q -> Lane.fast x = F32.pzero) /\
  ((- (293 # 2) < v)%Q -> (v < 255 # 2)%Q ->
   -146 <= k <= 127 /\
   F32.is_finite (Lane.fast x) = true /\
   ((5 # 8) * Qpower 2 k <= F32.to_Q (Lane.fast x))%Q /\
   (F32.to_Q (Lane.fast x) <= (3 # 2) * Qpower 2 k)%Q).
Proof.
  intros Hx v k.
  destruct (fast_regimes_lane x Hx) as (_ & _ & Hhi & Hlo). cbv zeta in Hhi, Hlo.
  fold v in Hhi, Hlo.
  assert ((- (385 # 2) <= v)%Q -> (v <= 385 # 2)%Q ->
          (Qabs v <= inject_Z 4194303)%Q) as Hsmall.
  { intros A B. change (inject_Z 4194303) with (4194303 # 1)%Q.
    apply Qabs_Qle_condition. split; Lqa.lra. }
  split; [|split].
  - intros Hv. destruct (Qlt_le_dec (385 # 2) v) as [Hbig|Hsm]; [apply Hhi, Hbig|].
    assert (Qabs v <= inject_Z 4194303)%Q as Hv' by (apply Hsmall; Lqa.lra).
    destruct (reduction_lane x Hx Hv') as (_ & Hn & _ & Hnf & Hnv & _ & H1 & H2).
    fold k in Hn, Hnv, H1, H2. fold v in Hn.
    assert (129 <= k <= 193) as Hk.
    { apply (integer_between k v 129 193 Hn).
      - change (inject_Z 129) with (129 # 1)%Q. Lqa.lra.
      - change (inject_Z 193) with (193 # 1)%Q. Lqa.lra. }
    destruct (Z.le_gt_cases k 192) as [K|K].
    + assert (126 < Z.abs k <= 192) as Hk' by lia.
      destruct (r1_flags x Hx Hv' Hk') as (-> & _).
      apply (r1_lane x Hx Hv' Hk'). fold k. lia.
    + unfold Lane.fast. rewrite H2.
      replace (192 <? Z.abs k) with true by (symmetry; apply Z.ltb_lt; lia).
      rewrite r2_saturates, (le_zero_integer _ k Hnf Hnv).
      replace (k <=? 0) with false by (symmetry; apply Z.leb_gt; lia).
      reflexivity.
  - intros Hv. destruct (Qlt_le_dec v (- (385 # 2))) as [Hbig|Hsm]; [apply Hlo, Hbig|].
    assert (Qabs v <= inject_Z 4194303)%Q as Hv' by (apply Hsmall; Lqa.lra).
    destruct (reduction_lane x Hx Hv') as (_ & Hn & _ & Hnf & Hnv & _ & H1 & H2).
    fold k in Hn, Hnv, H1, H2. fold v in Hn.
    assert (-193 <= k <= -151) as Hk.
    { apply (integer_between k v (-193) (-151) Hn).
      - change (inject_Z (-193)) with (-193 # 1)%Q. Lqa.lra.
      - change (inject_Z (-151)) with (-151 # 1)%Q. Lqa.lra. }
    destruct (Z.le_gt_cases (-192) k) as [K|K].
    + assert (126 < Z.abs k <= 192) as Hk' by lia.
      destruct (r1_flags x Hx Hv' Hk') as (-> & _).
      apply (r1_lane x Hx Hv' Hk'). fold k. lia.
    + unfold Lane.fast. rewrite H2.
      replace (192 <? Z.abs k) with true by (symmetry; apply Z.ltb_lt; lia).
      rewrite r2_saturates, (le_zero_integer _ k Hnf Hnv).
      replace (k <=? 0) with true by (symmetry; apply Z.leb_le; lia).
      reflexivity.
  - intros Hl Hh.
    assert (Qabs v <= inject_Z 4194303)%Q as Hv' by (apply Hsmall; Lqa.lra).
    destruct (reduction_lane x Hx Hv') as (_ & Hn & _).
    fold k in Hn. fold v in Hn.
    assert (-146 <= k <= 127) as Hk.
    { apply (integer_between k v (-146) 127 Hn).
      - change (inject_Z (-146)) with (-146 # 1)%Q. Lqa.lra.
      - change (inject_Z 127) with (127 # 1)%Q. Lqa.lra. }
    split; [exact Hk|].
    destruct (Z.le_gt_cases (Z.abs k) 126) as [K|K].
    + destruct (ordinary_lane_result x Hx Hv' K) as (-> & Hf & B1 & B2).
      fold k in B1, B2. split; [exact Hf|]. split; assumption.
    + assert (126 < Z.abs k <= 192) as Hk' by lia.
      destruct (r1_flags x Hx Hv' Hk') as (-> & _).
      apply (r1_lane x Hx Hv' Hk'). fold k. lia.
Qed.

(** X9.  The thresholds on the input itself.  A finite lane below 38 in
    magnitude takes the ordinary path of the fast build; one of at least
    38.7 returns [+inf], and one of at most -45.4 returns [+0]. *)
Theorem thresholds_on_input (x : vec) (i : lane_ix) :
  wf x -> F32.is_finite (lane x i) = true ->
  ((Qabs (F32.to_Q (lane x i)) < 38)%Q ->
   lane (Fast.exp10 x) i
   = lane (vfmaq_f32 (core_scale (core x)) (core_poly (core x)) (core_scale (core x))) i) /\
  ((387 # 10 <= F32.to_Q (lane x i))%Q -> lane (Fast.exp10 x) i = F32.pinf) /\
  ((F32.to_Q (lane x i) <= - (454 # 10))%Q -> lane (Fast.exp10 x) i = F32.pzero).
Proof.
  intros Hx Hf. rewrite fast_exp10_lane, ordinary_lane by exact Hx.
  destruct (fast_regimes_lane _ Hf) as (H0 & _). cbv zeta in H0.
  destruct (fast_result_lane _ Hf) as (H2 & H3 & _). cbv zeta in H2, H3.
  rewrite log10_2_value in H0, H2, H3.
  split; [|split].
  - intros H. apply H0. apply Qabs_Qlt_condition in H.
    apply Qabs_Qlt_condition. split; Lqa.lra.
  - intros H. apply H2. Lqa.lra.
  - intros H. apply H3. Lqa.lra.
Qed.

Lemma thresholds_on_input_witness :
  let x := Vec4 0x40400000 0x42200000 0x43480000 0xc2380000 in
  wf x /\ F32.is_finite (lane x L3) = true /\
  (F32.to_Q (lane x L3) <= - (454 # 10))%Q /\
  lane (Fast.exp10 x) L3 = F32.pzero.
Proof.
  intros x.
  assert (wf x) as Hx by (intros [| | |]; vm_compute; split; congruence).
  assert (F32.is_finite (lane x L3) = true) as H1 by (vm_compute; reflexivity).
  assert (F32.to_Q (lane x L3) <= - (454 # 10))%Q as H2 by (vm_compute; congruence).
  split; [exact Hx|]. split; [exact H1|]. split; [exact H2|].
  destruct (thresholds_on_input x L3 Hx H1) as (_ & _ & H). apply H, H2.
Defined.

(** X10.  The result of the fast build over the finite inputs, both paths
    of [special_case] included.  With [v] the exact product of a finite
    lane and the table's [log10_2], and [k] the integer of the reduction:
    the result is [+inf] when [v > 128.5] and [+0] when [v < -150.5]; when
    [-146.5 < v < 127.5], [k] is between -146 and 127 and the result is a
    finite number between [5/8 * 2^k] and [3/2 * 2^k], whether it comes
    from the ordinary [fma] or from the two-factor product [r1]. *)
Theorem result_range (x : vec) (i : lane_ix) :
  wf x -> F32.is_finite (lane x i) = true ->
  let v := (F32.to_Q (lane x i) * F32.to_Q (lane (log10_2 data) i))%Q in
  let k := lane (core_z (core x)) i - 0x4b400000 in
  let y := lane (Fast.exp10 x) i in
  ((257 # 2 < v)%Q -> y = F32.pinf) /\
  ((v < - (301 # 2))%Q -> y = F32.pzero) /\
  ((- (293 # 2) < v)%Q -> (v < 255 # 2)%Q ->
   -146 <= k <= 127 /\ F32.is_finite y = true /\
   ((5 # 8) * Qpower 2 k <= F32.to_Q y)%Q /\ (F32.to_Q y <= (3 # 2) * Qpower 2 k)%Q).
Proof.
  intros Hx Hf v k y. unfold v, k, y.
  destruct (core_lanes_zr x i) as (Hz & _).
  rewrite fast_exp10_lane, log10_2_lane, Hz by exact Hx.
  apply (fast_result_lane (lane x i) Hf).
Qed.

Lemma result_range_witness :
  let x := Vec4 0x40400000 0x42200000 0x43480000 0xc2380000 in
  wf x /\ F32.is_finite (lane x L1) = true /\
  lane (Fast.exp10 x) L1 = F32.pinf.
Proof.
  intros x.
  assert (wf x) as Hx by (intros [| | |]; vm_compute; split; congruence).
  assert (F32.is_finite (lane x L1) = true) as H1 by (vm_compute; reflexivity).
  split; [exact Hx|]. split; [exact H1|].
  destruct (result_range x L1 Hx H1) as (H & _).
  apply H. vm_compute. reflexivity.
Defined.

(** * The accuracy of the result *)

(** ** The exponential series

    Partial sums of the series of [exp] bound it from below on the
    non-negative reals, and from above with twice the next term added
    once the terms at least halve. *)

Local Open Scope R_scope.

Lemma exp_term_pos (t : R) (i : nat) : 0 <= t -> 0 <= / INR (fact i) * t ^ i.
Proof.
  intros Ht. apply Rmult_le_pos.
  - apply Rlt_le, Rinv_0_lt_compat, INR_fact_lt_0.
  - apply pow_le, Ht.
Qed.

Lemma exp_term_succ (t : R) (i : nat) :
  / INR (fact (S i)) * t ^ S i = (/ INR (fact i) * t ^ i) * (t / INR (S i)).
Proof.
  rewrite fact_simpl, mult_INR. cbn [pow].
  field. split; try apply INR_fact_neq_0; apply not_0_INR; discriminate.
Qed.

Lemma exp_sum_mono (t : R) (N m : nat) :
  0 <= t ->
  sum_f_R0 (fun i => / INR (fact i) * t ^ i) N
  <= sum_f_R0 (fun i => / INR (fact i) * t ^ i) (N + m).
Proof.
  intros Ht. induction m as [|m IH].
  - rewrite Nat.add_0_r. apply Rle_refl.
  - rewrite Nat.add_succ_r. cbn [sum_f_R0].
    pose proof (exp_term_pos t (S (N + m)) Ht). lra.
Qed.

Lemma exp_sum_tail (t : R) (N m : nat) :
  0 <= t -> 2 * t <= INR (S (S N)) ->
  sum_f_R0 (fun i => / INR (fact i) * t ^ i) (N + m)
  + 2 * (/ INR (fact (S (N + m))) * t ^ S (N + m))
  <= sum_f_R0 (fun i => / INR (fact i) * t ^ i) N
     + 2 * (/ INR (fact (S N)) * t ^ S N).
Proof.
  intros Ht HN. induction m as [|m IH].
  - rewrite Nat.add_0_r. apply Rle_refl.
  - eapply Rle_trans; [|exact IH].
    rewrite Nat.add_succ_r. cbn [sum_f_R0].
    rewrite (exp_term_succ t (S (N + m))).
    pose proof (exp_term_pos t (S (N + m)) Ht) as Hp.
    set (a := / INR (fact (S (N + m))) * t ^ S (N + m)) in *.
    assert (t / INR (S (S (N + m))) <= / 2) as Hq.
    { assert (INR (S (S N)) <= INR (S (S (N + m)))) as Hle by (apply le_INR; lia).
      assert (0 < INR (S (S (N + m)))) as Hpos by (apply lt_0_INR; lia).
      apply Rmult_le_reg_r with (r := INR (S (S (N + m)))); [exact Hpos|].
      unfold Rdiv. rewrite Rmult_assoc, Rinv_l by lra. lra. }
    assert (a * (t / INR (S (S (N + m)))) <= a * / 2) as Hm
        by (apply Rmult_le_compat_l; assumption).
    lra.
Qed.

Lemma exp_series_bounds (t : R) (N : nat) :
  0 <= t -> 2 * t <= INR (S (S N)) ->
  sum_f_R0 (fun i => / INR (fact i) * t ^ i) N <= exp t
  <= sum_f_R0 (fun i => / INR (fact i) * t ^ i) N
     + 2 * (/ INR (fact (S N)) * t ^ S N).
Proof.
  intros Ht HN. unfold exp. destruct (exist_exp t) as [l Hl]. cbn [proj1_sig].
  unfold exp_in, infinite_sum in Hl.
  set (A := sum_f_R0 (fun i => / INR (fact i) * t ^ i)) in *.
  split.
  - destruct (Rle_lt_dec (A N) l) as [|Hlt]; [assumption|]. exfalso.
    destruct (Hl (A N - l) ltac:(lra)) as [N0 H0].
    specialize (H0 (N + N0)%nat ltac:(lia)).
    pose proof (exp_sum_mono t N N0 Ht) as Hm. fold A in Hm.
    unfold Rdist in H0. rewrite Rabs_right in H0 by lra. lra.
  - set (b := A N + 2 * (/ INR (fact (S N)) * t ^ S N)).
    destruct (Rle_lt_dec l b) as [|Hlt]; [assumption|]. exfalso.
    destruct (Hl (l - b) ltac:(lra)) as [N0 H0].
    specialize (H0 (N + N0)%nat ltac:(lia)).
    pose proof (exp_sum_tail t N N0 Ht HN) as Hm. fold A in Hm. fold b in Hm.
    pose proof (exp_term_pos t (S (N + N0)) Ht) as Hp.
    unfold Rdist in H0.
    rewrite Rabs_left1 in H0 by lra. lra.
Qed.

Local Close Scope R_scope.

Lemma peval_padd (p q : list Q) (x : Q) :
  (peval (padd p q) x == peval p x + peval q x)%Q.
Proof.
  revert q. induction p as [|a p IH]; intros q.
  - cbn [padd peval]. ring.
  - destruct q as [|b q]; cbn [padd peval].
    + ring.
    + rewrite Qred_correct, IH. ring.
Qed.

Lemma peval_pscale (k : Q) (p : list Q) (x : Q) :
  (peval (pscale k p) x == k * peval p x)%Q.
Proof.
  induction p as [|a p IH]; cbn [pscale map peval].
  - ring.
  - fold (pscale k p). rewrite Qred_correct, IH. ring.
Qed.

Lemma peval_pmul (p q : list Q) (x : Q) :
  (peval (pmul p q) x == peval p x * peval q x)%Q.
Proof.
  induction p as [|a p IH]; cbn [pmul peval].
  - ring.
  - rewrite peval_padd, peval_pscale. cbn [peval]. rewrite IH. ring.
Qed.

Lemma peval_pflip (p : list Q) (x : Q) :
  (peval (pflip p) x == peval p (- x))%Q.
Proof.
  induction p as [|a p IH]; cbn [pflip peval].
  - reflexivity.
  - rewrite peval_pscale, IH. ring.
Qed.

Lemma peval_ext (p : list Q) (x y : Q) : (x == y)%Q -> (peval p x == peval p y)%Q.
Proof.
  intros E. induction p as [|a p IH]; cbn [peval].
  - reflexivity.
  - rewrite IH, E. reflexivity.
Qed.

Lemma Qabs_mul_le (a b x y : Q) :
  (Qabs a <= x)%Q -> (Qabs b <= y)%Q -> (Qabs (a * b) <= x * y)%Q.
Proof.
  intros Ha Hb. rewrite Qabs_Qmult.
  apply Qmult_le_compat_nonneg; (split; [apply Qabs_nonneg | assumption]).
Qed.

Lemma inject_Z_abs (a : Z) : (Qabs (inject_Z a) == inject_Z (Z.abs a))%Q.
Proof. destruct a; reflexivity. Qed.

(** The value and the derivative at an integer, their bounds, and the
    second-order remainder. *)
Lemma taylor_cell (p : list Z) (n i : Z) (h : Q) :
  0 <= n -> Z.abs i <= n -> (Qabs (inject_Z i + h) <= inject_Z n)%Q ->
  let '(v, d) := zeval2 p i in
  let '(M, D, C) := zbounds p n in
  Z.abs v <= M /\ Z.abs d <= D /\ 0 <= C /\
  (Qabs (qzeval p (inject_Z i + h) - inject_Z v - h * inject_Z d)
   <= inject_Z C * (h * h))%Q.
Proof.
  intros Hn Hi Hh. induction p as [|a p IH].
  - cbn [zeval2 zbounds]. unfold qzeval. cbn [map peval].
    repeat split; try lia.
    setoid_replace (0 - inject_Z 0 - h * inject_Z 0)%Q with 0%Q by ring.
    setoid_replace (inject_Z 0 * (h * h))%Q with 0%Q by ring.
    apply Qle_refl.
  - cbn [zeval2 zbounds].
    destruct (zeval2 p i) as [v d]. destruct (zbounds p n) as [[M D] C].
    destruct IH as (Hv & Hd & HC & HR).
    assert (0 <= M) as HM by lia. assert (0 <= D) as HD by lia.
    split; [|split; [|split]].
    + pose proof (Z.abs_triangle a (i * v)). rewrite Z.abs_mul in *. nia.
    + pose proof (Z.abs_triangle v (i * d)). rewrite Z.abs_mul in *. nia.
    + nia.
    + unfold qzeval in *. cbn [map peval].
      set (m := inject_Z i) in *. set (X := peval (map inject_Z p) (m + h)) in *.
      setoid_replace (inject_Z a + (m + h) * X - inject_Z (a + i * v)
                      - h * inject_Z (v + i * d))%Q
        with ((m + h) * (X - inject_Z v - h * inject_Z d)
              + (h * h) * inject_Z d)%Q
        by (rewrite !inject_Z_plus, !inject_Z_mult; fold m; ring).
      eapply Qle_trans; [apply Qabs_triangle|].
      rewrite !inject_Z_plus, !inject_Z_mult.
      setoid_replace ((inject_Z n * inject_Z C + inject_Z D) * (h * h))%Q
        with (inject_Z n * (inject_Z C * (h * h)) + (h * h) * inject_Z D)%Q by ring.
      apply Qplus_le_compat.
      * apply Qabs_mul_le; assumption.
      * apply Qabs_mul_le.
        -- rewrite Qabs_pos; [apply Qle_refl|].
           setoid_replace (h * h)%Q with (h ^ 2)%Q by (simpl; ring).
           apply Qsqr_nonneg.
        -- rewrite inject_Z_abs. rewrite <- Zle_Qle. exact Hd.
Qed.

Lemma cell_sound (p : list Z) (n i : Z) (u : Q) :
  0 <= i -> i + 1 <= n ->
  cell_ok p (snd (zbounds p n)) i = true ->
  (inject_Z i <= u)%Q -> (u <= inject_Z (i + 1))%Q ->
  (0 <= qzeval p u)%Q.
Proof.
  intros Hi Hn Hok H1 H2. rewrite inject_Z_plus in H2.
  change (inject_Z 1) with 1%Q in H2.
  set (h := (u - inject_Z i)%Q).
  assert (0 <= h)%Q as Hh0 by (unfold h; Lqa.lra).
  assert (h <= 1)%Q as Hh1 by (unfold h; Lqa.lra).
  assert (inject_Z i + h == u)%Q as Eu by (unfold h; ring).
  assert (0 <= inject_Z i)%Q as Hi' by (change 0%Q with (inject_Z 0); rewrite <- Zle_Qle; lia).
  assert (inject_Z i + 1 <= inject_Z n)%Q as Hn'.
  { change 1%Q with (inject_Z 1). rewrite <- inject_Z_plus, <- Zle_Qle. exact Hn. }
  pose proof (taylor_cell p n i h ltac:(lia) ltac:(lia)) as T.
  unfold cell_ok in Hok.
  destruct (zeval2 p i) as [v d]. destruct (zbounds p n) as [[M D] C].
  cbn [snd] in Hok. apply Z.leb_le in Hok.
  destruct T as (_ & _ & HC & HR).
  { rewrite Qabs_pos by Lqa.lra. Lqa.lra. }
  unfold qzeval in *. rewrite (peval_ext _ _ _ Eu) in HR.
  apply Qabs_Qle_condition in HR. destruct HR as [HR _].
  assert (inject_Z 0 <= inject_Z (v + Z.min 0 d - C))%Q as Hok'
      by (rewrite <- Zle_Qle; exact Hok).
  unfold Z.sub in Hok'. rewrite !inject_Z_plus, inject_Z_opp in Hok'.
  change (inject_Z 0) with 0%Q in Hok'.
  assert (0 <= inject_Z C)%Q as HC'
      by (change 0%Q with (inject_Z 0); rewrite <- Zle_Qle; exact HC).
  assert (inject_Z (Z.min 0 d) <= h * inject_Z d)%Q as Hmin.
  { destruct (Z.le_ge_cases 0 d) as [Hd|Hd].
    - rewrite Z.min_l by exact Hd. change (inject_Z 0) with 0%Q.
      apply Qmult_le_0_compat; [exact Hh0|].
      change 0%Q with (inject_Z 0). rewrite <- Zle_Qle. exact Hd.
    - rewrite Z.min_r by exact Hd.
      assert (inject_Z d <= 0)%Q as Hd'
          by (change 0%Q with (inject_Z 0); rewrite <- Zle_Qle; exact Hd).
      assert (0 <= (1 - h) * (- inject_Z d))%Q as Hm
          by (apply Qmult_le_0_compat; Lqa.lra).
      Lqa.lra. }
  assert (0 <= inject_Z C * (1 - h * h))%Q as Hsq.
  { assert (h * h <= 1)%Q as Hhh.
    { setoid_replace 1%Q with (1 * 1)%Q by ring.
      apply Qmult_le_compat_nonneg; split; assumption. }
    apply Qmult_le_0_compat; [exact HC' | Lqa.lra]. }
  Lqa.lra.
Qed.

Lemma cells_sound (p : list Z) (n : nat) (u : Q) :
  (0 < n)%nat -> cells_ok p n = true ->
  (0 <= u)%Q -> (u <= inject_Z (Z.of_nat n))%Q ->
  (0 <= qzeval p u)%Q.
Proof.
  intros Hn Hok H0 H1. unfold cells_ok in Hok.
  assert (forall i, 0 <= i < Z.of_nat n ->
            cell_ok p (snd (zbounds p (Z.of_nat n))) i = true) as Hall.
  { intros i Hi. destruct (zbounds p (Z.of_nat n)) as [[M D] C]. cbn [snd].
    apply (forallb_Zrange _ _ _ Hok). lia. }
  clear Hok.
  set (i := Z.min (Qfloor u) (Z.of_nat n - 1)).
  assert (0 <= Qfloor u) as Hf.
  { apply Qfloor_resp_le in H0. exact H0. }
  pose proof (Qfloor_le u) as Hfl. pose proof (Qlt_floor u) as Hfu.
  assert (0 <= i < Z.of_nat n) as Hi by (unfold i; lia).
  apply (cell_sound p (Z.of_nat n) i u); try lia.
  - apply Hall, Hi.
  - apply Qle_trans with (y := inject_Z (Qfloor u)); [|exact Hfl].
    rewrite <- Zle_Qle. unfold i. lia.
  - unfold i. destruct (Z.le_ge_cases (Qfloor u) (Z.of_nat n - 1)) as [Hc|Hc].
    + rewrite Z.min_l by exact Hc. apply Qlt_le_weak, Hfu.
    + rewrite Z.min_r by exact Hc. replace (Z.of_nat n - 1 + 1) with (Z.of_nat n) by lia.
      exact H1.
Qed.

Lemma zscale_le (w s : Q) (p : list Q) (u : Q) :
  (0 <= w)%Q -> (0 <= s)%Q -> (0 <= u)%Q ->
  (qzeval (zscale_from w s p) u <= w * peval p (s * u))%Q.
Proof.
  intros Hw Hs Hu. revert w Hw. induction p as [|a p IH]; intros w Hw.
  - unfold qzeval. cbn [zscale_from map peval]. Lqa.lra.
  - unfold qzeval in *. cbn [zscale_from map peval].
    pose proof (Qred_correct (w * s)) as Ew.
    set (w' := Qred (w * s)) in *.
    assert (0 <= w')%Q as Hws
        by (rewrite Ew; apply Qmult_le_0_compat; assumption).
    specialize (IH _ Hws).
    pose proof (Qfloor_le (w * a)) as Hfl.
    set (X := peval (map inject_Z (zscale_from w' s p)) u) in *.
    set (Y := peval p (s * u)) in *.
    assert (w' * Y == w * s * Y)%Q as EY by (rewrite Ew; reflexivity).
    assert (u * X <= u * (w' * Y))%Q as Hm.
    { destruct (Qle_lt_or_eq _ _ Hu) as [Hlt|Heq].
      - rewrite Qmult_le_l by exact Hlt. exact IH.
      - rewrite <- Heq. Lqa.lra. }
    rewrite EY in Hm.
    Lqa.lra.
Qed.

(** The check is sound: a polynomial that passes is non-negative on
    [[0, B]]. *)
Lemma nonneg_on_sound (p : list Q) (B : Q) (n : nat) (K : Z) :
  nonneg_on p B n K = true -> 0 < K -> (0 < B)%Q -> (0 < n)%nat ->
  forall r, (0 <= r)%Q -> (r <= B)%Q -> (0 <= peval p r)%Q.
Proof.
  intros Hok HK HB Hn r H0 H1. unfold nonneg_on in Hok.
  set (N := inject_Z (Z.of_nat n)) in *.
  assert (0 < N)%Q as HN
      by (unfold N; change 0%Q with (inject_Z 0); rewrite <- Zlt_Qlt; lia).
  set (s := Qred (B / N)) in *.
  assert (s == B / N)%Q as Es by (unfold s; apply Qred_correct).
  assert (0 < B / N)%Q as Hs by (apply Qlt_shift_div_l; Lqa.lra).
  set (u := (r * N / B)%Q).
  assert (s * u == r)%Q as Eu by (rewrite Es; unfold u; field; split; Lqa.lra).
  assert (0 <= u)%Q as Hu0.
  { unfold u. apply Qle_shift_div_l; [exact HB|].
    setoid_replace (0 * B)%Q with 0%Q by ring.
    apply Qmult_le_0_compat; Lqa.lra. }
  assert (u <= N)%Q as Hu1.
  { unfold u. apply Qle_shift_div_r; [exact HB|].
    rewrite (Qmult_comm N B). rewrite Qmult_le_r by exact HN. exact H1. }
  pose proof (cells_sound _ n u Hn Hok Hu0 Hu1) as Hq.
  assert (0 <= inject_Z K)%Q as HK'
      by (change 0%Q with (inject_Z 0); rewrite <- Zle_Qle; lia).
  pose proof (zscale_le (inject_Z K) s p u HK' ltac:(rewrite Es; Lqa.lra) Hu0) as Hz.
  rewrite (peval_ext _ _ _ Eu) in Hz.
  assert (0 < inject_Z K)%Q as HK''
      by (change 0%Q with (inject_Z 0); rewrite <- Zlt_Qlt; exact HK).
  destruct (Qlt_le_dec (peval p r) 0) as [Hneg|]; [|assumption].
  exfalso.
  assert (inject_Z K * peval p r < 0)%Q as Hc.
  { setoid_replace 0%Q with (inject_Z K * 0)%Q by ring.
    rewrite Qmult_lt_l by exact HK''. exact Hneg. }
  Lqa.lra.
Qed.

(** ** The series at rational arguments *)

Local Open Scope R_scope.

Lemma Q2R_zero : Q2R 0 = 0.
Proof. unfold Q2R. cbn. lra. Qed.

Lemma Q2R_one : Q2R 1 = 1.
Proof. unfold Q2R. cbn. lra. Qed.

Lemma Q2R_inject_Z (z : Z) : Q2R (inject_Z z) = IZR z.
Proof. unfold Q2R, inject_Z. cbn. lra. Qed.

Lemma Q2R_peval_seq (f : nat -> Q) (a n : nat) (q : Q) :
  Q2R (peval (map f (seq a (S n))) q)
  = sum_f_R0 (fun j => Q2R (f (a + j)%nat) * Q2R q ^ j) n.
Proof.
  revert a. induction n as [|n IH]; intros a.
  - cbn [seq map peval sum_f_R0 pow].
    rewrite Q2R_plus, Q2R_mult, Q2R_zero, Nat.add_0_r. ring.
  - change (seq a (S (S n))) with (a :: seq (S a) (S n)). cbn [map peval].
    rewrite Q2R_plus, Q2R_mult, IH.
    rewrite (decomp_sum _ (S n)) by lia. cbn [pred].
    rewrite scal_sum, Nat.add_0_r. cbn [pow]. rewrite Rmult_1_r. f_equal.
    apply sum_eq. intros i _. cbn [pow].
    replace (a + S i)%nat with (S a + i)%nat by lia. ring.
Qed.

Lemma Q2R_exp_coeff (c : Q) (i : nat) :
  Q2R (exp_coeff c i) = / INR (fact i) * Q2R c ^ i.
Proof.
  induction i as [|i IH].
  - cbn [exp_coeff fact pow INR]. rewrite Q2R_one. field.
  - cbn [exp_coeff]. rewrite (Qeq_eqR _ _ (Qred_correct _)).
    rewrite Q2R_mult, IH. unfold Qdiv. rewrite Q2R_mult, Q2R_inv.
    + rewrite Q2R_inject_Z, <- INR_IZR_INZ, exp_term_succ. reflexivity.
    + intros E. apply Qeq_eqR in E. rewrite Q2R_inject_Z, Q2R_zero in E.
      apply eq_IZR in E. lia.
Qed.

Lemma exp_lower_R (c q : Q) (N : nat) :
  Q2R (peval (exp_lower c N) q)
  = sum_f_R0 (fun i => / INR (fact i) * (Q2R c * Q2R q) ^ i) N.
Proof.
  unfold exp_lower. rewrite Q2R_peval_seq. apply sum_eq. intros i _.
  cbn [Nat.add]. rewrite Q2R_exp_coeff, Rpow_mult_distr. ring.
Qed.

Lemma exp_upper_R (c q : Q) (N : nat) :
  Q2R (peval (exp_upper c N) q)
  = sum_f_R0 (fun i => / INR (fact i) * (Q2R c * Q2R q) ^ i) N
    + 2 * (/ INR (fact (S N)) * (Q2R c * Q2R q) ^ S N).
Proof.
  unfold exp_upper. rewrite Q2R_peval_seq. rewrite tech5. f_equal.
  - apply sum_eq. intros i Hi. cbn [Nat.add].
    replace (i <=? N)%nat with true by (symmetry; apply Nat.leb_le; exact Hi).
    rewrite Q2R_exp_coeff, Rpow_mult_distr. ring.
  - cbn [Nat.add].
    replace (S N <=? N)%nat with false by (symmetry; apply Nat.leb_gt; lia).
    rewrite Q2R_mult, Q2R_exp_coeff, Rpow_mult_distr.
    replace (Q2R 2) with 2 by (unfold Q2R; cbn; lra). ring.
Qed.

(** The two polynomials enclose the exponential. *)
Lemma exp_enclosure (c q : Q) (N : nat) :
  0 <= Q2R c * Q2R q -> 2 * (Q2R c * Q2R q) <= INR (S (S N)) ->
  Q2R (peval (exp_lower c N) q) <= exp (Q2R c * Q2R q)
  <= Q2R (peval (exp_upper c N) q).
Proof.
  intros H0 H1. rewrite exp_lower_R, exp_upper_R.
  apply exp_series_bounds; assumption.
Qed.

Lemma exp_nest_R (t b : Q) (k m : nat) :
  sum_f_R0 (fun i => / INR (fact i) * Q2R t ^ i) k
  + / INR (fact k) * Q2R t ^ k * (Q2R (exp_nest t k m b) - 1)
  = sum_f_R0 (fun i => / INR (fact i) * Q2R t ^ i) (k + m)
    + / INR (fact (k + m)) * Q2R t ^ (k + m) * (Q2R b - 1).
Proof.
  revert k. induction m as [|m IH]; intros k.
  - cbn [exp_nest]. rewrite Nat.add_0_r. reflexivity.
  - cbn [exp_nest]. rewrite Nat.add_succ_r, <- Nat.add_succ_l, <- IH.
    cbn [sum_f_R0]. rewrite Q2R_plus, Q2R_mult, Q2R_one. unfold Qdiv.
    rewrite Q2R_mult, Q2R_inv.
    + rewrite Q2R_inject_Z, <- INR_IZR_INZ, (exp_term_succ (Q2R t) k).
      unfold Rdiv. ring.
    + intros E. apply Qeq_eqR in E. rewrite Q2R_inject_Z, Q2R_zero in E.
      apply eq_IZR in E. lia.
Qed.

Lemma exp_nest_lower (t : Q) (N : nat) :
  Q2R (exp_nest t 0 N 1) = sum_f_R0 (fun i => / INR (fact i) * Q2R t ^ i) N.
Proof.
  pose proof (exp_nest_R t 1 0 N) as H. cbn [sum_f_R0 fact pow INR Nat.add] in H.
  rewrite Q2R_one in H. lra.
Qed.

Lemma exp_nest_upper (t : Q) (N : nat) :
  Q2R (exp_nest t 0 N (1 + 2 * t / inject_Z (Z.of_nat (S N))))
  = sum_f_R0 (fun i => / INR (fact i) * Q2R t ^ i) N
    + 2 * (/ INR (fact (S N)) * Q2R t ^ S N).
Proof.
  pose proof (exp_nest_R t (1 + 2 * t / inject_Z (Z.of_nat (S N))) 0 N) as H.
  cbn [sum_f_R0 fact pow INR Nat.add] in H.
  rewrite (exp_term_succ (Q2R t) N).
  set (X := Q2R (exp_nest t 0 N (1 + 2 * t / inject_Z (Z.of_nat (S N))))) in *.
  rewrite Q2R_plus, Q2R_one in H. unfold Qdiv in H.
  rewrite !Q2R_mult, Q2R_inv in H.
  - rewrite Q2R_inject_Z, <- INR_IZR_INZ in H.
    replace (Q2R 2) with 2 in H by (unfold Q2R; cbn; lra).
    unfold Rdiv. rewrite Rinv_1 in H. lra.
  - intros E. apply Qeq_eqR in E. rewrite Q2R_inject_Z, Q2R_zero in E.
    apply eq_IZR in E. lia.
Qed.

Lemma exp_below (t b : Q) (N : nat) :
  (0 <= t)%Q -> (2 * t <= inject_Z (Z.of_nat (S (S N))))%Q ->
  (exp_nest t 0 N (1 + 2 * t / inject_Z (Z.of_nat (S N))) < b)%Q ->
  exp (Q2R t) < Q2R b.
Proof.
  intros H0 H1 H2. apply Qle_Rle in H0, H1. apply Qlt_Rlt in H2.
  rewrite Q2R_zero in H0. rewrite Q2R_mult, Q2R_inject_Z, <- INR_IZR_INZ in H1.
  replace (Q2R 2) with 2 in H1 by (unfold Q2R; cbn; lra).
  rewrite exp_nest_upper in H2.
  destruct (exp_series_bounds (Q2R t) N H0 H1) as [_ H]. lra.
Qed.

Lemma exp_above (t b : Q) (N : nat) :
  (0 <= t)%Q -> (2 * t <= inject_Z (Z.of_nat (S (S N))))%Q ->
  (b < exp_nest t 0 N 1)%Q -> Q2R b < exp (Q2R t).
Proof.
  intros H0 H1 H2. apply Qle_Rle in H0, H1. apply Qlt_Rlt in H2.
  rewrite Q2R_zero in H0. rewrite Q2R_mult, Q2R_inject_Z, <- INR_IZR_INZ in H1.
  replace (Q2R 2) with 2 in H1 by (unfold Q2R; cbn; lra).
  rewrite exp_nest_lower in H2.
  destruct (exp_series_bounds (Q2R t) N H0 H1) as [H _]. lra.
Qed.

(** [ln 2] and [ln 10] to twelve decimals. *)
Lemma ln2_bounds : Q2R ln2_lo < ln 2 < Q2R ln2_hi.
Proof.
  split; apply exp_lt_inv; rewrite exp_ln by lra.
  - apply Rlt_le_trans with (r2 := Q2R 2); [|unfold Q2R; cbn; lra].
    apply (exp_below ln2_lo 2 20); vm_compute; congruence.
  - apply Rle_lt_trans with (r2 := Q2R 2); [unfold Q2R; cbn; lra|].
    apply (exp_above ln2_hi 2 20); vm_compute; congruence.
Qed.

Lemma ln10_bounds : Q2R ln10_lo < ln 10 < Q2R ln10_hi.
Proof.
  split; apply exp_lt_inv; rewrite exp_ln by lra.
  - apply Rlt_le_trans with (r2 := Q2R 10); [|unfold Q2R; cbn; lra].
    apply (exp_below ln10_lo 10 30); vm_compute; congruence.
  - apply Rle_lt_trans with (r2 := Q2R 10); [unfold Q2R; cbn; lra|].
    apply (exp_above ln10_hi 10 30); vm_compute; congruence.
Qed.

Local Close Scope R_scope.

(** ** The polynomial of the table against [10^r] *)

Lemma checks_pass :
  nonneg_on above_pos reduced_bound 512 (2 ^ 250) = true /\
  nonneg_on below_pos reduced_bound 512 (2 ^ 250) = true /\
  nonneg_on above_neg reduced_bound 512 (2 ^ 250) = true /\
  nonneg_on below_neg reduced_bound 512 (2 ^ 250) = true.
Proof. split; [|split; [|split]]; vm_compute; reflexivity. Qed.

Lemma sign_checks (s : Q) :
  (0 <= s)%Q -> (s <= reduced_bound)%Q ->
  (0 <= peval above_pos s)%Q /\ (0 <= peval below_pos s)%Q /\
  (0 <= peval above_neg s)%Q /\ (0 <= peval below_neg s)%Q.
Proof.
  intros H0 H1. destruct checks_pass as (C1 & C2 & C3 & C4).
  assert (0 < 2 ^ 250) as HK by (apply Z.pow_pos_nonneg; lia).
  assert (0 < reduced_bound)%Q as HB by reflexivity.
  split; [|split; [|split]].
  - exact (nonneg_on_sound _ _ _ _ C1 HK HB ltac:(lia) s H0 H1).
  - exact (nonneg_on_sound _ _ _ _ C2 HK HB ltac:(lia) s H0 H1).
  - exact (nonneg_on_sound _ _ _ _ C3 HK HB ltac:(lia) s H0 H1).
  - exact (nonneg_on_sound _ _ _ _ C4 HK HB ltac:(lia) s H0 H1).
Qed.

Lemma one_plus_poly_eval (q : Q) :
  (peval one_plus_poly q
   == 1 + (F32.to_Q (Lane.c 0) * q + F32.to_Q (Lane.c 1) * q ^ 2
           + F32.to_Q (Lane.c 2) * q ^ 3 + F32.to_Q (Lane.c 3) * q ^ 4
           + F32.to_Q (Lane.c 4) * q ^ 5))%Q.
Proof.
  unfold one_plus_poly. cbn [seq map peval]. rewrite !Qred_correct.
  simpl Qpower. ring.
Qed.

Local Open Scope R_scope.

Lemma exp_le_mono (x y : R) : x <= y -> exp x <= exp y.
Proof.
  intros [H|H]; [apply Rlt_le, exp_increasing, H | rewrite H; apply Rle_refl].
Qed.

Lemma exp_lower_ge_1 (c q : Q) (N : nat) :
  0 <= Q2R c * Q2R q -> 1 <= Q2R (peval (exp_lower c N) q).
Proof.
  intros H. rewrite exp_lower_R.
  pose proof (exp_sum_mono (Q2R c * Q2R q) 0 N H) as Hm.
  cbn [sum_f_R0 fact INR pow Nat.add] in Hm. lra.
Qed.

Lemma Q2R_rel_eps : Q2R rel_eps = 99 / 2 ^ 30.
Proof. unfold rel_eps, Q2R. cbn. lra. Qed.

(** On the range of the reduced argument [1 + poly (r)] is [10^r] to
    within the relative error [99 * 2^-30], that is [0x1.8cp-24]. *)
Lemma poly_vs_exp (q : Q) :
  (Qabs q <= reduced_bound)%Q ->
  (1 - 99 / 2 ^ 30) * exp (Q2R q * ln 10) <= Q2R (peval one_plus_poly q)
  <= (1 + 99 / 2 ^ 30) * exp (Q2R q * ln 10).
Proof.
  intros Hq. apply Qabs_Qle_condition in Hq. destruct Hq as [Hq1 Hq2].
  destruct ln10_bounds as [Llo Lhi].
  assert (0 < Q2R ln10_lo) as Plo by (apply Qlt_Rlt with (x := 0%Q) in Llo || (unfold ln10_lo, Q2R; cbn; lra)).
  assert (Q2R ln10_hi <= 3) as Phi by (unfold ln10_hi, Q2R; cbn; lra).
  assert (Q2R reduced_bound <= 1) as PB by (unfold reduced_bound, Q2R; cbn; lra).
  rewrite <- Q2R_rel_eps.
  set (e := Q2R rel_eps).
  assert (0 < e < 1) as He by (unfold e; rewrite Q2R_rel_eps; lra).
  set (E := exp (Q2R q * ln 10)). assert (0 < E) as PE by apply exp_pos.
  set (A := Q2R (peval one_plus_poly q)).
  destruct (Qlt_le_dec q 0) as [Hneg|Hpos].
  - (* q < 0: work with s = - q *)
    set (s := (- q)%Q).
    assert (0 <= s)%Q as Hs0 by (unfold s; Lqa.lra).
    assert (s <= reduced_bound)%Q as Hs1 by (unfold s; Lqa.lra).
    destruct (sign_checks s Hs0 Hs1) as (_ & _ & H3 & H4).
    assert (Q2R s = - Q2R q) as Es by (unfold s; apply Q2R_opp).
    assert (0 <= Q2R s <= 1) as Hs.
    { apply Qle_Rle in Hs0, Hs1. rewrite Q2R_zero in Hs0. lra. }
    assert (peval (pflip one_plus_poly) s == peval one_plus_poly q)%Q as Ef.
    { rewrite peval_pflip. apply peval_ext. unfold s. ring. }
    assert (exp (ln 10 * Q2R s) = / E) as EE.
    { unfold E. rewrite <- exp_Ropp. f_equal. rewrite Es. ring. }
    (* above *)
    unfold above_neg in H3.
    rewrite peval_padd, peval_pscale, peval_pmul, Ef in H3. cbn [peval] in H3.
    apply Qle_Rle in H3.
    rewrite Q2R_zero, !Q2R_plus, !Q2R_mult, Q2R_opp, Q2R_one, Q2R_zero in H3.
    fold A in H3. fold e in H3.
    set (U := Q2R (peval (exp_upper ln10_hi 10) s)) in *.
    destruct (exp_enclosure ln10_hi s 10) as [_ HU].
    { apply Rmult_le_pos; lra. }
    { cbn [INR]. nra. }
    fold U in HU.
    assert (/ E <= U) as HU'.
    { rewrite <- EE. eapply Rle_trans; [|exact HU].
      apply exp_le_mono. apply Rmult_le_compat_r; lra. }
    (* below *)
    unfold below_neg in H4.
    rewrite peval_padd, peval_pmul, Ef in H4. cbn [peval] in H4.
    apply Qle_Rle in H4.
    rewrite Q2R_zero, !Q2R_plus, !Q2R_mult, Q2R_opp, Q2R_minus, Q2R_one, Q2R_zero in H4.
    fold A in H4. fold e in H4.
    set (L := Q2R (peval (exp_lower ln10_lo 10) s)) in *.
    destruct (exp_enclosure ln10_lo s 10) as [HL _].
    { apply Rmult_le_pos; lra. }
    { cbn [INR]. nra. }
    fold L in HL.
    assert (1 <= L) as HL1 by (apply exp_lower_ge_1; apply Rmult_le_pos; lra).
    assert (L <= / E) as HL'.
    { rewrite <- EE. eapply Rle_trans; [exact HL|].
      apply exp_le_mono. apply Rmult_le_compat_r; lra. }
    assert (0 < / E) as PiE by (apply Rinv_0_lt_compat, PE).
    assert (E * / E = 1) as EiE by (apply Rinv_r; lra).
    assert (0 < A) as PA by nra.
    split.
    + assert ((1 - e) <= A * / E) by nra.
      assert ((1 - e) * E <= A * / E * E) by (apply Rmult_le_compat_r; lra).
      nra.
    + assert (A * / E <= 1 + e) by nra.
      assert (A * / E * E <= (1 + e) * E) by (apply Rmult_le_compat_r; lra).
      nra.
  - (* q >= 0 *)
    destruct (sign_checks q Hpos Hq2) as (H1 & H2 & _ & _).
    assert (0 <= Q2R q <= 1) as Hs.
    { apply Qle_Rle in Hpos, Hq2. rewrite Q2R_zero in Hpos. lra. }
    unfold above_pos in H1. rewrite peval_padd, !peval_pscale in H1.
    apply Qle_Rle in H1.
    rewrite Q2R_zero, !Q2R_plus, !Q2R_mult, Q2R_opp, Q2R_plus, Q2R_one in H1.
    fold A in H1. fold e in H1.
    set (L := Q2R (peval (exp_lower ln10_lo 10) q)) in *.
    destruct (exp_enclosure ln10_lo q 10) as [HL _].
    { apply Rmult_le_pos; lra. }
    { cbn [INR]. nra. }
    fold L in HL.
    assert (L <= E) as HL'.
    { eapply Rle_trans; [exact HL|]. unfold E.
      apply exp_le_mono. rewrite (Rmult_comm (Q2R q)).
      apply Rmult_le_compat_r; lra. }
    unfold below_pos in H2. rewrite peval_padd, !peval_pscale in H2.
    apply Qle_Rle in H2.
    rewrite Q2R_zero, !Q2R_plus, !Q2R_mult, Q2R_opp, Q2R_minus, Q2R_one in H2.
    fold A in H2. fold e in H2.
    set (U := Q2R (peval (exp_upper ln10_hi 10) q)) in *.
    destruct (exp_enclosure ln10_hi q 10) as [_ HU].
    { apply Rmult_le_pos; lra. }
    { cbn [INR]. nra. }
    fold U in HU.
    assert (E <= U) as HU'.
    { eapply Rle_trans; [|exact HU]. unfold E.
      apply exp_le_mono. rewrite (Rmult_comm (Q2R q)).
      apply Rmult_le_compat_r; lra. }
    split; nra.
Qed.

Local Close Scope R_scope.

(** ** The rounding error of the polynomial's evaluation *)

Lemma Qmul_abs_bound (a b x y : Q) :
  (- x <= a)%Q -> (a <= x)%Q -> (- y <= b)%Q -> (b <= y)%Q ->
  (- (x * y) <= a * b)%Q /\ (a * b <= x * y)%Q.
Proof.
  intros A1 A2 B1 B2.
  assert (Qabs (a * b) <= x * y)%Q as H
      by (apply Qabs_mul_le; apply Qabs_Qle_condition; split; assumption).
  apply Qabs_Qle_condition in H. exact H.
Qed.

(** The six roundings of the Estrin scheme leave the polynomial of the
    table at the float [r] to within [4 * 10^-8]. *)
Lemma poly_error (r : Z) :
  F32.is_finite r = true ->
  (Qabs (F32.to_Q r) <= 150517 # 1000000)%Q ->
  (Qabs (F32.to_Q (estrin F32.mul F32.fma Lane.c r)
         - (peval one_plus_poly (F32.to_Q r) - 1)) <= 4 # 100000000)%Q.
Proof.
  intros Hr HB. rewrite one_plus_poly_eval. unfold estrin. cbv zeta.
  destruct c_values as (V0 & V1 & V2 & V3 & V4).
  rewrite V0, V1, V2, V3, V4.
  destruct (Qsqr_bound _ _ HB) as [S0 S1].
  apply Qabs_Qle_condition in HB.
  set (R := F32.to_Q r) in *.
  (* r2 = r * r *)
  set (r2 := F32.mul r r).
  pose proof (mul_rounds r r Hr Hr) as H. fold r2 in H. fold R in H.
  destruct (rounds_to_finite _ _ H (-5) ltac:(lia)) as [F2 E2].
  { change (Qpower 2 (-5)) with (1 # 32)%Q. apply Qabs_Qlt_condition.
    split; Lqa.lra. }
  change (Qpower 2 (-5 - 25)) with (1 # 1073741824)%Q in E2.
  apply Qabs_Qle_condition in E2.
  assert (0 <= F32.to_Q r2)%Q as Hr2pos.
  { destruct H as (_ & _ & _ & Hge & _).
    specialize (Hge 0%Q (representable_int 0 ltac:(lia)) S0).
    rewrite SF2Qx_finite in Hge by (apply is_finite_decode, F2). exact Hge. }
  clear H. set (R2 := F32.to_Q r2) in *.
  (* p = C3 + C4 * r *)
  set (p1 := F32.fma (Lane.c 3) (Lane.c 4) r).
  pose proof (fma_rounds (Lane.c 3) (Lane.c 4) r (c_finite 3 ltac:(lia))
                (c_finite 4 ltac:(lia)) Hr) as H.
  fold p1 in H. fold R in H.
  assert (F32.to_Q (Lane.c 3) + F32.to_Q (Lane.c 4) * R
          == (9879739 # 8388608) + (9001485 # 16777216) * R)%Q as E
      by (rewrite V3, V4; reflexivity).
  apply (rounds_to_eq _ _ _ E) in H. clear E.
  destruct (rounds_to_finite _ _ H 1 ltac:(lia)) as [Fp1 Ep1].
  { change (Qpower 2 1) with (2 # 1)%Q. apply Qabs_Qlt_condition. split; Lqa.lra. }
  change (Qpower 2 (1 - 25)) with (1 # 16777216)%Q in Ep1.
  apply Qabs_Qle_condition in Ep1. clear H. set (P1 := F32.to_Q p1) in *.
  (* q = C1 + C2 * r *)
  set (q1 := F32.fma (Lane.c 1) (Lane.c 2) r).
  pose proof (fma_rounds (Lane.c 1) (Lane.c 2) r (c_finite 1 ltac:(lia))
                (c_finite 2 ltac:(lia)) Hr) as H.
  fold q1 in H. fold R in H.
  assert (F32.to_Q (Lane.c 1) + F32.to_Q (Lane.c 2) * R
          == (11118697 # 4194304) + (8534565 # 4194304) * R)%Q as E
      by (rewrite V1, V2; reflexivity).
  apply (rounds_to_eq _ _ _ E) in H. clear E.
  destruct (rounds_to_finite _ _ H 2 ltac:(lia)) as [Fq1 Eq1].
  { change (Qpower 2 2) with (4 # 1)%Q. apply Qabs_Qlt_condition. split; Lqa.lra. }
  change (Qpower 2 (2 - 25)) with (1 # 8388608)%Q in Eq1.
  apply Qabs_Qle_condition in Eq1. clear H. set (Q1 := F32.to_Q q1) in *.
  (* q = q + p * r2 *)
  set (q2 := F32.fma q1 p1 r2).
  pose proof (fma_rounds q1 p1 r2 Fq1 Fp1 F2) as H.
  fold q2 in H. fold Q1 in H. fold P1 in H. fold R2 in H.
  destruct (Qmult_bounds_nonneg P1 R2 (126 # 100) (2266 # 100000)
              ltac:(split; Lqa.lra) ltac:(split; Lqa.lra)) as [M0 M1].
  destruct (rounds_to_finite _ _ H 2 ltac:(lia)) as [Fq2 Eq2].
  { change (Qpower 2 2) with (4 # 1)%Q. apply Qabs_Qlt_condition. split; Lqa.lra. }
  change (Qpower 2 (2 - 25)) with (1 # 8388608)%Q in Eq2.
  apply Qabs_Qle_condition in Eq2. clear H. set (Q2 := F32.to_Q q2) in *.
  (* p = C0 * r *)
  set (p2 := F32.mul (Lane.c 0) r).
  pose proof (mul_rounds (Lane.c 0) r (c_finite 0 ltac:(lia)) Hr) as H.
  fold p2 in H. fold R in H.
  assert (F32.to_Q (Lane.c 0) * R == (9657739 # 4194304) * R)%Q as E
      by (rewrite V0; reflexivity).
  apply (rounds_to_eq _ _ _ E) in H. clear E.
  destruct (rounds_to_finite _ _ H (-1) ltac:(lia)) as [Fp2 Ep2].
  { change (Qpower 2 (-1)) with (1 # 2)%Q. apply Qabs_Qlt_condition. split; Lqa.lra. }
  change (Qpower 2 (-1 - 25)) with (1 # 67108864)%Q in Ep2.
  apply Qabs_Qle_condition in Ep2. clear H. set (P2 := F32.to_Q p2) in *.
  (* poly = p + q * r2 *)
  pose proof (fma_rounds p2 q2 r2 Fp2 Fq2 F2) as H.
  fold P2 in H. fold Q2 in H. fold R2 in H.
  destruct (Qmult_bounds_nonneg Q2 R2 (2987 # 1000) (2266 # 100000)
              ltac:(split; Lqa.lra) ltac:(split; Lqa.lra)) as [N0 N1].
  destruct (rounds_to_finite _ _ H (-1) ltac:(lia)) as [Fp Ep].
  { change (Qpower 2 (-1)) with (1 # 2)%Q. apply Qabs_Qlt_condition. split; Lqa.lra. }
  change (Qpower 2 (-1 - 25)) with (1 # 67108864)%Q in Ep.
  apply Qabs_Qle_condition in Ep. clear H.
  set (Y := F32.to_Q (F32.fma p2 q2 r2)) in *.
  (* the errors of the six operations *)
  set (RR := (R * R)%Q) in *.
  set (p := ((9879739 # 8388608) + (9001485 # 16777216) * R)%Q) in *.
  set (q := ((11118697 # 4194304) + (8534565 # 4194304) * R)%Q) in *.
  set (e1 := (R2 - RR)%Q). set (e2 := (P1 - p)%Q). set (e3 := (Q1 - q)%Q).
  set (e4 := (Q2 - (Q1 + P1 * R2))%Q).
  set (e5 := (P2 - (9657739 # 4194304) * R)%Q).
  set (e6 := (Y - (P2 + Q2 * R2))%Q).
  assert (Y - (1 + ((9657739 # 4194304) * R + (11118697 # 4194304) * R ^ 2
                    + (8534565 # 4194304) * R ^ 3 + (9879739 # 8388608) * R ^ 4
                    + (9001485 # 16777216) * R ^ 5) - 1)
          == e6 + e5 + (e3 + e4 + e2 * R2 + p * e1) * R2 + (q + RR * p) * e1)%Q
    as Eid by (unfold e1, e2, e3, e4, e5, e6, p, q, RR; simpl Qpower; ring).
  rewrite Eid. clear Eid.
  assert (- (1 # 1073741824) <= e1 <= 1 # 1073741824)%Q as B1 by (unfold e1; split; apply E2).
  assert (- (1 # 16777216) <= e2 <= 1 # 16777216)%Q as B2 by (unfold e2; split; apply Ep1).
  assert (- (1 # 8388608) <= e3 <= 1 # 8388608)%Q as B3 by (unfold e3; split; apply Eq1).
  assert (- (1 # 8388608) <= e4 <= 1 # 8388608)%Q as B4 by (unfold e4; split; apply Eq2).
  assert (- (1 # 67108864) <= e5 <= 1 # 67108864)%Q as B5 by (unfold e5; split; apply Ep2).
  assert (- (1 # 67108864) <= e6 <= 1 # 67108864)%Q as B6 by (unfold e6; split; apply Ep).
  assert (0 <= p <= 126 # 100)%Q as Bp by (unfold p; split; Lqa.lra).
  assert (0 <= q <= 2958 # 1000)%Q as Bq by (unfold q; split; Lqa.lra).
  assert (0 <= R2 <= 2266 # 100000)%Q as BR2 by (split; Lqa.lra).
  assert (0 <= RR <= 2266 # 100000)%Q as BRR by (split; Lqa.lra).
  destruct (Qmult_bounds_nonneg RR p _ _ BRR Bp) as [G0 G1].
  destruct (Qmul_abs_bound e2 R2 (1 # 16777216) (2266 # 100000)) as [H21 H22];
    try Lqa.lra.
  destruct (Qmul_abs_bound p e1 (126 # 100) (1 # 1073741824)) as [H11 H12];
    try Lqa.lra.
  set (T := (e3 + e4 + e2 * R2 + p * e1)%Q) in *.
  destruct (Qmul_abs_bound T R2 (25 # 100000000) (2266 # 100000)) as [HT1 HT2];
    try (unfold T; Lqa.lra).
  destruct (Qmul_abs_bound (q + RR * p) e1 (3 # 1) (1 # 1073741824)) as [HQ1 HQ2];
    try Lqa.lra.
  apply Qabs_Qle_condition. split; Lqa.lra.
Qed.

(** ** The result against [10^x] *)

Local Open Scope R_scope.

Lemma Qabs_Rabs (a c : Q) : (Qabs a <= c)%Q -> Rabs (Q2R a) <= Q2R c.
Proof.
  intros H. apply Qabs_Qle_condition in H. destruct H as [H1 H2].
  apply Qle_Rle in H1, H2. rewrite Q2R_opp in H1. apply Rabs_le. lra.
Qed.

Lemma Rabs_bounds (a b : R) : Rabs a <= b -> - b <= a <= b.
Proof. unfold Rabs. destruct (Rcase_abs a); lra. Qed.

Lemma Q2R_pow2 (k : Z) : Q2R (Qpower 2 k) = exp (IZR k * ln 2).
Proof.
  rewrite RMicromega.Q2RpowerRZ by (left; intros E; inversion E).
  replace (Q2R 2) with 2 by (unfold Q2R; cbn; lra).
  rewrite powerRZ_Rpower by lra. reflexivity.
Qed.

Lemma exp_near_1 (t th : R) :
  Rabs t <= th -> th <= / 2 -> Rabs (exp t - 1) <= th * (1 + 2 * th).
Proof.
  intros Ht Hth. apply Rabs_bounds in Ht.
  pose proof (exp_ineq1_le t) as H1. pose proof (exp_ineq1_le (- t)) as H2.
  rewrite exp_Ropp in H2. pose proof (exp_pos t) as Hp.
  assert (exp t * (1 - t) <= 1) as H3.
  { replace 1 with (exp t * / exp t) at 2 by (apply Rinv_r; lra).
    apply Rmult_le_compat_l; lra. }
  assert (0 <= th) as H0 by lra.
  apply Rabs_le. split; [nra|].
  assert ((1 + th * (1 + 2 * th)) * (1 - t) >= 1) as H4 by nra.
  assert (0 < 1 - t) as H5 by lra.
  nra.
Qed.

(** [log2_10_hi + log2_10_lo] of the table is [log10 (2)] to twelve
    decimals. *)
Lemma log10_2_close :
  Rabs (Q2R (F32.to_Q Lane.log2_10_hi + F32.to_Q Lane.log2_10_lo) - ln 2 / ln 10)
  <= / 10 ^ 12.
Proof.
  rewrite (Qeq_eqR _ _ (Qplus_comp _ _ hi_value _ _ lo_value)).
  set (H := ((10100891 # 33554432) + - (503875 # 35184372088832))%Q).
  destruct ln2_bounds as [A1 A2]. destruct ln10_bounds as [B1 B2].
  assert ((H - (1 # 1000000000000)) * ln10_hi <= ln2_lo)%Q as C1
      by (vm_compute; congruence).
  assert (ln2_hi <= (H + (1 # 1000000000000)) * ln10_lo)%Q as C2
      by (vm_compute; congruence).
  assert (0 <= H - (1 # 1000000000000))%Q as C3 by (vm_compute; congruence).
  apply Qle_Rle in C1, C2, C3.
  rewrite Q2R_mult, Q2R_minus in C1. rewrite Q2R_mult, Q2R_plus in C2.
  rewrite Q2R_zero, Q2R_minus in C3.
  replace (Q2R (1 # 1000000000000)) with (/ 10 ^ 12) in *
    by (unfold Q2R; cbn; lra).
  set (h := Q2R H) in *. set (eta := / 10 ^ 12) in *.
  assert (0 < ln 10) as P10 by (assert (0 < Q2R ln10_lo) by (unfold ln10_lo, Q2R; cbn; lra); lra).
  set (l := ln 2 / ln 10).
  assert (l * ln 10 = ln 2) as El by (unfold l; field; lra).
  assert (0 < Q2R ln10_lo) as Plo by (unfold ln10_lo, Q2R; cbn; lra).
  assert (0 < eta) as Peta by (unfold eta; lra).
  apply Rabs_le. split.
  - (* h - l >= - eta, i.e. l <= h + eta *)
    assert (l * ln 10 <= (h + eta) * ln 10) as G by nra.
    assert (l <= h + eta) by (apply Rmult_le_reg_r with (r := ln 10); assumption).
    lra.
  - assert ((h - eta) * ln 10 <= l * ln 10) as G by nra.
    assert (h - eta <= l) by (apply Rmult_le_reg_r with (r := ln 10); assumption).
    lra.
Qed.

(** The four errors put together: the last rounding [u], the
    evaluation, the polynomial and the reduced argument, for a result
    [Y] near [S * (1 + p)] and the exact [S * V]. *)
Lemma accuracy_budget (S Y p A Ef V u c : R) :
  0 < S -> 0 < V ->
  Rabs (Y - (S + p * S)) <= S * u ->
  Rabs (p - (A - 1)) <= 4 / 10 ^ 8 ->
  (1 - 99 / 2 ^ 30) * Ef <= A <= (1 + 99 / 2 ^ 30) * Ef ->
  Rabs (Ef - V) <= 351 / 10 ^ 10 * V ->
  u + 4 / 10 ^ 8 + 99 / 2 ^ 30 * Ef + 351 / 10 ^ 10 * V <= c * V ->
  Rabs (Y - S * V) <= c * (S * V).
Proof.
  intros HS HV H1 H2 H3 H4 HW.
  apply Rabs_bounds in H1, H2, H4.
  set (w := p + 1 - V).
  set (W := 4 / 10 ^ 8 + 99 / 2 ^ 30 * Ef + 351 / 10 ^ 10 * V).
  assert (- W <= w <= W) as Hw by (unfold w, W; lra).
  assert (S * - W <= S * w) as G1 by (apply Rmult_le_compat_l; lra).
  assert (S * w <= S * W) as G2 by (apply Rmult_le_compat_l; lra).
  assert (S * (u + W) <= S * (c * V)) as G3
      by (apply Rmult_le_compat_l; unfold W; lra).
  replace (Y - S * V) with ((Y - (S + p * S)) + S * w) by (unfold w; ring).
  apply Rabs_le. split; lra.
Qed.

Local Close Scope R_scope.

(** The result [r0] against [10^x], given the error [u] of the last
    rounding relative to the scale: the errors of the evaluation, of the
    polynomial and of the reduced argument are added to it. *)
Lemma accuracy_core (x k : Z) (u c pmin : R) :
  F32.is_finite x = true -> Z.abs k <= 126 ->
  (Qabs (inject_Z k - F32.to_Q x * F32.to_Q Lane.log10_2) <= 1 # 2)%Q ->
  F32.is_finite (Lane.n x) = true ->
  (F32.to_Q (Lane.n x) == inject_Z k)%Q ->
  (Rabs (to_R (Lane.r0 x)
         - (exp (IZR k * ln 2) + to_R (Lane.poly x) * exp (IZR k * ln 2)))
   <= exp (IZR k * ln 2) * u)%R ->
  (pmin <= to_R (Lane.poly x))%R ->
  (forall p A Ef V : R,
      pmin <= p -> p - (A - 1) <= 4 / 10 ^ 8 -> A <= (1 + 99 / 2 ^ 30) * Ef ->
      Ef - V <= 351 / 10 ^ 10 * V ->
      u + 4 / 10 ^ 8 + 99 / 2 ^ 30 * Ef + 351 / 10 ^ 10 * V <= c * V)%R ->
  (Rabs (to_R (Lane.r0 x) - Rpower 10 (to_R x)) <= c * Rpower 10 (to_R x))%R.
Proof.
  intros Hx Hk Hn Hnf Hnv EY Pl Hnum.
  destruct (reduced_argument_lane x k Hx Hnf Hnv ltac:(lia) Hn) as (Fr & Er & Br).
  pose proof (poly_error (Lane.r x) Fr Br) as Ep.
  pose proof (poly_vs_exp (F32.to_Q (Lane.r x)) Br) as Ha.
  fold (Lane.poly x) in Ep.
  unfold to_R, Rpower in *.
  apply Qabs_Rabs in Ep, Er.
  rewrite !Q2R_minus, Q2R_one in Ep.
  rewrite !Q2R_minus, Q2R_mult, Q2R_inject_Z in Er.
  pose proof log10_2_close as Hl.
  set (Hr := Q2R (F32.to_Q Lane.log2_10_hi + F32.to_Q Lane.log2_10_lo)) in *.
  set (Y := Q2R (F32.to_Q (Lane.r0 x))) in *.
  set (X := Q2R (F32.to_Q x)) in *.
  set (p := Q2R (F32.to_Q (Lane.poly x))) in *.
  set (rf := Q2R (F32.to_Q (Lane.r x))) in *.
  set (A := Q2R (peval one_plus_poly (F32.to_Q (Lane.r x)))) in *.
  set (S := exp (IZR k * ln 2)) in *.
  replace (Q2R (4 # 100000000)) with (4 / 10 ^ 8)%R in Ep by (unfold Q2R; cbn; lra).
  replace (Q2R (1 # 67108864)) with (/ 2 ^ 26)%R in Er by (unfold Q2R; cbn; lra).
  destruct ln10_bounds as [B1 B2].
  assert (0 < Q2R ln10_lo)%R as Plo by (unfold ln10_lo, Q2R; cbn; lra).
  assert (Q2R ln10_hi <= 23026 / 10000)%R as Phi by (unfold ln10_hi, Q2R; cbn; lra).
  set (l := (ln 2 / ln 10)%R) in *.
  set (V := exp ((X - IZR k * l) * ln 10)).
  assert (exp (X * ln 10) = S * V)%R as EV.
  { unfold S, V. rewrite <- exp_plus. f_equal. unfold l. field. lra. }
  rewrite EV.
  assert (- 126 <= IZR k <= 126)%R as Bk by (split; apply IZR_le; lia).
  apply Rabs_bounds in Er, Hl.
  set (d := (rf - (X - IZR k * l))%R).
  assert (exp (rf * ln 10) = V * exp (d * ln 10))%R as EE.
  { unfold V. rewrite <- exp_plus. f_equal. unfold d. ring. }
  assert (Rabs (d * ln 10) <= 35 / 10 ^ 9)%R as Hd.
  { assert (- (126 / 10 ^ 12) <= IZR k * (l - Hr) <= 126 / 10 ^ 12)%R as G.
    { destruct (Rle_lt_dec 0 (IZR k)); destruct (Rle_lt_dec 0 (l - Hr)); split; nra. }
    assert (- (151 / 10 ^ 10) <= d <= 151 / 10 ^ 10)%R as Bd
        by (unfold d; split; lra).
    apply Rabs_le. clearbody d.
    destruct (Rle_lt_dec 0 d); split; nra. }
  pose proof (exp_near_1 _ _ Hd ltac:(lra)) as Hg.
  pose proof (exp_pos ((X - IZR k * l) * ln 10)) as PV. fold V in PV.
  assert (Rabs (exp (rf * ln 10) - V) <= 351 / 10 ^ 10 * V)%R as H4.
  { rewrite EE. apply Rabs_bounds in Hg. apply Rabs_le. split; nra. }
  apply (accuracy_budget S Y p A (exp (rf * ln 10)) V u c).
  - apply exp_pos.
  - exact PV.
  - exact EY.
  - exact Ep.
  - exact Ha.
  - exact H4.
  - apply Rabs_bounds in Ep, H4. apply (Hnum p A); lra.
Qed.

(** On the ordinary path the result is [10^x] to within the relative
    error [2^-21], and to within [2^-22] unless the scale is [2^-126],
    where the result may be subnormal. *)
Lemma accuracy_lane (x : Z) :
  F32.is_finite x = true ->
  (Qabs (F32.to_Q x * F32.to_Q Lane.log10_2) < 253 # 2)%Q ->
  (Rabs (to_R (Lane.fast x) - Rpower 10 (to_R x))
   <= / 2 ^ 21 * Rpower 10 (to_R x))%R /\
  ((- (251 # 2) < F32.to_Q x * F32.to_Q Lane.log10_2)%Q ->
   (Rabs (to_R (Lane.fast x) - Rpower 10 (to_R x))
    <= / 2 ^ 22 * Rpower 10 (to_R x))%R).
Proof.
  intros Hx Hv.
  assert (Qabs (F32.to_Q x * F32.to_Q Lane.log10_2) <= inject_Z 4194303)%Q as Hv'.
  { apply product_below. apply Qabs_Qlt_condition in Hv.
    apply Qabs_Qlt_condition. split; Lqa.lra. }
  destruct (reduction_lane x Hx Hv') as (_ & Hn & _ & Hnf & Hnv & He & _ & _).
  set (k := Lane.z x - 0x4b400000) in *.
  assert (Z.abs k <= 126) as Hk.
  { apply (Qabs_lt_int k _ 126 Hn). change (inject_Z 126) with (126 # 1)%Q.
    apply Qabs_Qlt_condition in Hv. apply Qabs_Qlt_condition. split; Lqa.lra. }
  destruct (ordinary_lane_result x Hx Hv' Hk) as (Hfast & _).
  destruct (reduced_argument_lane x k Hx Hnf Hnv ltac:(lia) Hn) as (Fr & _ & Br).
  destruct (poly_bounds (Lane.r x) Fr Br) as (Fp & Pl & Ph).
  fold (Lane.poly x) in Fp, Pl, Ph.
  destruct (scale_value x k He ltac:(lia)) as [Fs Vs].
  pose proof (fma_rounds (Lane.scale x) (Lane.poly x) (Lane.scale x) Fs Fp Fs) as H.
  fold (Lane.r0 x) in H.
  assert (F32.to_Q (Lane.scale x) + F32.to_Q (Lane.poly x) * F32.to_Q (Lane.scale x)
          == Qpower 2 k + F32.to_Q (Lane.poly x) * Qpower 2 k)%Q as E
      by (rewrite Vs; reflexivity).
  apply (rounds_to_eq _ _ _ E) in H. clear E.
  pose proof (Qpow2_pos k) as Tpos.
  assert (- (3466 # 10000) * Qpower 2 k
          <= F32.to_Q (Lane.poly x) * Qpower 2 k)%Q as L1
      by (apply Qmult_le_compat_r; [exact Pl | apply Qlt_le_weak, Tpos]).
  assert (F32.to_Q (Lane.poly x) * Qpower 2 k
          <= (4143 # 10000) * Qpower 2 k)%Q as L2
      by (apply Qmult_le_compat_r; [exact Ph | apply Qlt_le_weak, Tpos]).
  (* the last rounding, to half a unit of the binade of [2^k] *)
  assert (Rabs (to_R (Lane.r0 x)
                - (exp (IZR k * ln 2) + to_R (Lane.poly x) * exp (IZR k * ln 2)))
          <= exp (IZR k * ln 2) * / 2 ^ 24)%R as EY1.
  { destruct (rounds_to_finite _ _ H (k + 1) ltac:(lia)) as [_ EY].
    { rewrite Qpow2_add. change (Qpower 2 1) with (2 # 1)%Q.
      set (T := Qpower 2 k) in *.
      set (PT := (F32.to_Q (Lane.poly x) * T)%Q) in *.
      apply Qabs_Qlt_condition. split; Lqa.lra. }
    replace (k + 1 - 25) with (k + -24) in EY by lia.
    rewrite Qpow2_add in EY. change (Qpower 2 (-24)) with (1 # 16777216)%Q in EY.
    apply Qabs_Rabs in EY.
    rewrite Q2R_minus, Q2R_plus, !Q2R_mult, Q2R_pow2 in EY.
    replace (Q2R (1 # 16777216)) with (/ 2 ^ 24)%R in EY by (unfold Q2R; cbn; lra).
    exact EY. }
  (* and of the binade below when the polynomial is negative *)
  assert ((F32.to_Q (Lane.poly x) < 0)%Q -> -125 <= k ->
          (Rabs (to_R (Lane.r0 x)
                 - (exp (IZR k * ln 2) + to_R (Lane.poly x) * exp (IZR k * ln 2)))
           <= exp (IZR k * ln 2) * / 2 ^ 25)%R) as EY2.
  { intros Hneg Hk'.
    assert (F32.to_Q (Lane.poly x) * Qpower 2 k < 0)%Q as L3.
    { setoid_replace 0%Q with (0 * Qpower 2 k)%Q by ring.
      rewrite Qmult_lt_r by exact Tpos. exact Hneg. }
    destruct (rounds_to_finite _ _ H k ltac:(lia)) as [_ EY].
    { set (T := Qpower 2 k) in *.
      set (PT := (F32.to_Q (Lane.poly x) * T)%Q) in *.
      apply Qabs_Qlt_condition. split; Lqa.lra. }
    replace (k - 25) with (k + -25) in EY by lia.
    rewrite Qpow2_add in EY. change (Qpower 2 (-25)) with (1 # 33554432)%Q in EY.
    apply Qabs_Rabs in EY.
    rewrite Q2R_minus, Q2R_plus, !Q2R_mult, Q2R_pow2 in EY.
    replace (Q2R (1 # 33554432)) with (/ 2 ^ 25)%R in EY by (unfold Q2R; cbn; lra).
    exact EY. }
  clear H.
  assert (- (3466 / 10000) <= to_R (Lane.poly x))%R as Pl'.
  { apply Qle_Rle in Pl. unfold to_R.
    replace (Q2R (- (3466 # 10000))) with (- (3466 / 10000))%R in Pl
      by (unfold Q2R; cbn; lra).
    exact Pl. }
  rewrite Hfast.
  assert (forall a b : R, (0 < b -> a <= / 2 ^ 22 * b -> a <= / 2 ^ 21 * b)%R) as Hweak
      by (intros a b Hb Hab; lra).
  pose proof (Rpower_pos 10 (to_R x)) as P10.
  destruct (Qlt_le_dec (F32.to_Q (Lane.poly x)) 0) as [Hneg|Hpos].
  - destruct (Z.le_gt_cases (-125) k) as [Hk'|Hk'].
    + assert (Rabs (to_R (Lane.r0 x) - Rpower 10 (to_R x))
              <= / 2 ^ 22 * Rpower 10 (to_R x))%R as G.
      { apply (accuracy_core x k (/ 2 ^ 25) (/ 2 ^ 22) (- (3466 / 10000))
                 Hx Hk Hn Hnf Hnv (EY2 Hneg Hk') Pl').
        intros p A Ef V G1 G2 G3 G4. lra. }
      split; [apply Hweak; assumption | intros _; exact G].
    + split.
      * apply (accuracy_core x k (/ 2 ^ 24) (/ 2 ^ 21) (- (3466 / 10000))
                 Hx Hk Hn Hnf Hnv EY1 Pl').
        intros p A Ef V G1 G2 G3 G4. lra.
      * intros Hlow. exfalso.
        assert (-125 <= k <= 126) as Hc.
        { apply (integer_between k _ (-125) 126 Hn).
          - change (inject_Z (-125)) with (-125 # 1)%Q. Lqa.lra.
          - change (inject_Z 126) with (126 # 1)%Q.
            apply Qabs_Qlt_condition in Hv. Lqa.lra. }
        lia.
  - assert (0 <= to_R (Lane.poly x))%R as Pp.
    { apply Qle_Rle in Hpos. rewrite Q2R_zero in Hpos. exact Hpos. }
    assert (Rabs (to_R (Lane.r0 x) - Rpower 10 (to_R x))
            <= / 2 ^ 22 * Rpower 10 (to_R x))%R as G.
    { apply (accuracy_core x k (/ 2 ^ 24) (/ 2 ^ 22) 0
               Hx Hk Hn Hnf Hnv EY1 Pp).
      intros p A Ef V G1 G2 G3 G4. lra. }
    split; [apply Hweak; assumption | intros _; exact G].
Qed.

Lemma one_plus_poly_R (q : Q) (j : lane_ix) :
  Q2R (peval one_plus_poly q)
  = (1 + direct_poly (fun n => to_R (lane (C n) j)) (Q2R q))%R.
Proof.
  assert (peval one_plus_poly q
          == 1 + (F32.to_Q (Lane.c 0) * q + F32.to_Q (Lane.c 1) * (q * q)
                  + F32.to_Q (Lane.c 2) * (q * q * q)
                  + F32.to_Q (Lane.c 3) * (q * q * q * q)
                  + F32.to_Q (Lane.c 4) * (q * q * q * q * q)))%Q as E
      by (rewrite one_plus_poly_eval; simpl Qpower; ring).
  rewrite (Qeq_eqR _ _ E). unfold direct_poly, to_R. rewrite !lane_C.
  rewrite !Q2R_plus, !Q2R_mult, Q2R_one. ring.
Qed.

(** X11.  The accuracy of the ordinary path.  On a finite lane with
    [|x * log10_2| < 126.5], which every [|x| < 38] is, the result of the
    fast build differs from the real number [10^x] by at most [2^-21] of
    it; and by at most [2^-22] of it, less than four units in the last
    place, when [x * log10_2 > -125.5], where the result cannot be
    subnormal.  The bound adds up the last rounding, the six roundings of
    the polynomial's evaluation, the error of the polynomial against
    [10^r], and the error of the reduced argument. *)
Theorem accuracy (x : vec) (i : lane_ix) :
  wf x -> F32.is_finite (lane x i) = true ->
  let v := (F32.to_Q (lane x i) * F32.to_Q (lane (log10_2 data) i))%Q in
  let y := to_R (lane (Fast.exp10 x) i) in
  let t := Rpower 10 (to_R (lane x i)) in
  (Qabs v < 253 # 2)%Q ->
  (Rabs (y - t) <= / 2 ^ 21 * t)%R /\
  ((- (251 # 2) < v)%Q -> (Rabs (y - t) <= / 2 ^ 22 * t)%R).
Proof.
  intros Hx Hf v y t Hv. unfold v, y, t in *.
  rewrite log10_2_lane in *. rewrite fast_exp10_lane by exact Hx.
  apply (accuracy_lane (lane x i) Hf Hv).
Qed.

Lemma accuracy_witness :
  let x := Vec4 0x40400000 0x42200000 0x43480000 0xc2380000 in
  wf x /\ F32.is_finite (lane x L0) = true /\
  (Rabs (to_R (lane (Fast.exp10 x) L0) - Rpower 10 (to_R (lane x L0)))
   <= / 2 ^ 22 * Rpower 10 (to_R (lane x L0)))%R.
Proof.
  intros x.
  assert (wf x) as Hx by (intros [| | |]; vm_compute; split; congruence).
  assert (F32.is_finite (lane x L0) = true) as H1 by (vm_compute; reflexivity).
  split; [exact Hx|]. split; [exact H1|].
  destruct (accuracy x L0 Hx H1) as [_ H].
  - vm_compute. reflexivity.
  - apply H. vm_compute. reflexivity.
Defined.

(** X12.  The accuracy of the strict build where it does not call the
    scalar routine.  On a lane the strict classification leaves unflagged
    ([2^-63 <= |x| < 38]) the result differs from [10^x] by at most
    [2^-21] of it, and by at most [2^-22] of it when [x >= -37.7],
    whatever the scalar routine is. *)
Theorem strict_accuracy (exp10f : Z -> Z) (x : vec) (i : lane_ix) :
  wf x -> lane (Strict.classify x) i = 0 ->
  let y := to_R (lane (Strict.exp10 exp10f x) i) in
  let t := Rpower 10 (to_R (lane x i)) in
  (Rabs (y - t) <= / 2 ^ 21 * t)%R /\
  ((- (377 # 10) <= F32.to_Q (lane x i))%Q -> (Rabs (y - t) <= / 2 ^ 22 * t)%R).
Proof.
  intros Hx Hc y t. unfold y, t. rewrite strict_classify_lane in Hc.
  assert (Lane.special (lane x i) = false) as Hs
      by (destruct (Lane.special (lane x i)); [discriminate Hc | reflexivity]).
  destruct (unflagged_lane _ (Hx i) Hs) as [Hf Hv].
  destruct (fast_regimes_lane _ Hf) as (H0 & _). specialize (H0 Hv).
  rewrite strict_exp10_lane by exact Hx. unfold Lane.strict. rewrite Hs, <- H0.
  destruct (accuracy_lane (lane x i) Hf Hv) as [A1 A2].
  split; [exact A1|]. intros Hlow. apply A2.
  rewrite log10_2_value. Lqa.lra.
Qed.

Lemma strict_accuracy_witness :
  let x := Vec4 0x40400000 0x42200000 0x43480000 0xc2380000 in
  wf x /\ lane (Strict.classify x) L0 = 0 /\
  (Rabs (to_R (lane (Strict.exp10 (fun v => v) x) L0) - Rpower 10 (to_R (lane x L0)))
   <= / 2 ^ 21 * Rpower 10 (to_R (lane x L0)))%R.
Proof.
  intros x.
  assert (wf x) as Hx by (intros [| | |]; vm_compute; split; congruence).
  assert (lane (Strict.classify x) L0 = 0) as Hc by (vm_compute; reflexivity).
  split; [exact Hx|]. split; [exact Hc|].
  apply (strict_accuracy (fun v => v) x L0 Hx Hc).
Defined.

(** X13.  The polynomial of the table.  For every rational [r] of
    magnitude at most 0.150517, a little more than [log10 (2) / 2], the
    exact value of [1 + poly (r)] with the coefficients of [data.poly]
    differs from [10^r] by at most [99 * 2^-30 = 0x1.8cp-24] of it: the
    relative error the source's comment gives, [0x1.89dafa3p-24], to
    within half a percent. *)
Theorem polynomial_error (q : Q) (j : lane_ix) :
  (Qabs q <= 150517 # 1000000)%Q ->
  (Rabs (1 + direct_poly (fun n => to_R (lane (C n) j)) (Q2R q) - Rpower 10 (Q2R q))
   <= 99 / 2 ^ 30 * Rpower 10 (Q2R q))%R.
Proof.
  intros H. destruct (poly_vs_exp q H) as [H1 H2].
  rewrite (one_plus_poly_R q j) in H1, H2. unfold Rpower.
  apply Rabs_le. split; lra.
Qed.

Lemma polynomial_error_witness :
  (Qabs (1 # 10) <= 150517 # 1000000)%Q /\
  (Rabs (1 + direct_poly (fun n => to_R (lane (C n) L0)) (Q2R (1 # 10))
         - Rpower 10 (Q2R (1 # 10)))
   <= 99 / 2 ^ 30 * Rpower 10 (Q2R (1 # 10)))%R.
Proof.
  assert (Qabs (1 # 10) <= 150517 # 1000000)%Q as H by (vm_compute; congruence).
  split; [exact H|]. apply (polynomial_error (1 # 10) L0 H).
Defined.

(** X14.  The rounding error of the polynomial's evaluation.  On a
    finite lane with [|x * log10_2| < 192.5] the six binary32 operations
    of the Estrin scheme of [exp10] leave [poly] within [4 * 10^-8], about
    a third of a unit in the last place of [1 + poly], of the exact value
    of the polynomial at the float [r]. *)
Theorem evaluation_error (x : vec) (i : lane_ix) :
  F32.is_finite (lane x i) = true ->
  (Qabs (F32.to_Q (lane x i) * F32.to_Q (lane (log10_2 data) i)) < 385 # 2)%Q ->
  let c := core x in
  (Rabs (to_R (lane (core_poly c) i)
         - direct_poly (fun n => to_R (lane (C n) i)) (to_R (lane (core_r c) i)))
   <= 4 / 10 ^ 8)%R.
Proof.
  intros Hf Hv c. unfold c. rewrite log10_2_lane in Hv.
  destruct (core_lanes x i) as (_ & _ & _ & Hp).
  destruct (core_lanes_zr x i) as (_ & Hr). rewrite Hp, Hr.
  destruct (reduction_lane (lane x i) Hf (product_below _ Hv))
    as (_ & Hn & _ & Hnf & Hnv & _).
  destruct (reduced_argument_lane _ _ Hf Hnf Hnv (integer_below _ Hf Hv) Hn)
    as (Fr & _ & Br).
  pose proof (poly_error _ Fr Br) as E. fold (Lane.poly (lane x i)) in E.
  apply Qabs_Rabs in E. rewrite !Q2R_minus, Q2R_one in E.
  rewrite (one_plus_poly_R _ i) in E.
  replace (Q2R (4 # 100000000)) with (4 / 10 ^ 8)%R in E by (unfold Q2R; cbn; lra).
  unfold to_R at 1 3.
  replace (Q2R (F32.to_Q (Lane.poly (lane x i)))
           - direct_poly (fun n => to_R (lane (C n) i)) (Q2R (F32.to_Q (Lane.r (lane x i)))))%R
    with (Q2R (F32.to_Q (Lane.poly (lane x i)))
          - (1 + direct_poly (fun n => to_R (lane (C n) i))
                   (Q2R (F32.to_Q (Lane.r (lane x i)))) - 1))%R by ring.
  exact E.
Qed.

Lemma evaluation_error_witness :
  let x := Vec4 0x40400000 0x42200000 0x43480000 0xc2380000 in
  (Qabs (F32.to_Q (lane x L1) * F32.to_Q (lane (log10_2 data) L1)) < 385 # 2)%Q /\
  (Rabs (to_R (lane (core_poly (core x)) L1)
         - direct_poly (fun n => to_R (lane (C n) L1)) (to_R (lane (core_r (core x)) L1)))
   <= 4 / 10 ^ 8)%R.
Proof.
  intros x.
  assert (F32.is_finite (lane x L1) = true) as H1 by (vm_compute; reflexivity).
  assert (Qabs (F32.to_Q (lane x L1) * F32.to_Q (lane (log10_2 data) L1)) < 385 # 2)%Q
    as H2 by (vm_compute; reflexivity).
  split; [exact H2|]. apply (evaluation_error x L1 H1 H2).
Defined.

(** X15.  The constants of the reduction.  [log2_10_hi + log2_10_lo] of
    the table, whatever the names say, is [log10 (2) = ln 2 / ln 10] to
    within [10^-12] on every lane, so that subtracting [n] times it from
    [x] costs the reduced argument at most [2 * 10^-10] over the whole
    range of [n]. *)
Theorem table_log10_2 (i : lane_ix) :
  (Rabs (to_R (lane (log2_10_hi data) i) + to_R (lane (log2_10_lo data) i)
         - log10_of_2) <= / 10 ^ 12)%R.
Proof.
  destruct (lane_data i) as (_ & _ & -> & -> & _).
  unfold to_R, log10_of_2. rewrite <- Q2R_plus. exact log10_2_close.
Qed.
